(** * Reconciliation pipeline of the item-data diff explorer

    A shallow embedding of the server-side core: the normalizer
    (server/services/normalize.ts), the matcher and diff engine
    (services/matchAndDiff), the memoizing cache (lib/cache), the pipeline
    orchestrator (services/pipeline) and the MetaForge snapshot store.

    Conventions.
    - A JavaScript number is an IEEE 754 binary64 value: Rocq's primitive
      [float].  Array lengths and indexes are [nat]; the severity score, an
      integer far below 2^53, is a [Z].
    - A string is a [string] of ASCII characters.  On ASCII text
      [String.prototype.normalize('NFKD')] is the identity and
      [toLowerCase] only touches the letters A-Z.
    - [undefined] is [None]; an object used as a dictionary is a [gmap].
    - Built-ins whose result depends on the host (locale collation, number
      printing and parsing, date parsing) are the fields of [Platform]. *)

From Stdlib Require Import ZArith Floats Uint63 List String Ascii Bool Lia.
From Stdlib Require Import DecimalString Sorting.Permutation Sorting.Sorted.
From Stdlib Require DecimalNat.
From stdpp Require Import gmap strings list.
Import ListNotations.

Set Warnings "-inexact-float,-register-all".
Local Open Scope string_scope.
Local Open Scope nat_scope.

(* ================================================================= *)
(** ** JavaScript values and built-ins *)

(** The host functions the code calls and the embedding does not fix. *)
Class Platform := {
  (** [a.localeCompare(b)] in the default locale. *)
  localeCompare : string -> string -> Z;
  (** [String(x)] and template-literal printing of a number. *)
  numberToString : float -> string;
  (** [Number(s)] for a string [s]. *)
  stringToNumber : string -> float;
  (** [new Date(s).getTime()]. *)
  dateToMs : string -> float
}.

(** ECMA-262 requires [localeCompare] to be a consistent comparator: it
    induces a total preorder on strings. *)
Class ConsistentCollation (P : Platform) : Prop := {
  localeCompare_refl : forall a, localeCompare a a = 0%Z;
  localeCompare_flip : forall a b, (0 < localeCompare a b)%Z -> (localeCompare b a < 0)%Z;
  localeCompare_trans : forall a b c,
    (localeCompare a b <= 0)%Z -> (localeCompare b c <= 0)%Z -> (localeCompare a c <= 0)%Z
}.

(** *** Numbers *)

Definition isFinite (x : float) : bool :=
  match Prim2SF x with
  | S754_zero _ | S754_finite _ _ _ => true
  | _ => false
  end.

(** The float of an integer; exact for |n| < 2^53. *)
Definition floatOfZ (n : Z) : float :=
  if (n <? 0)%Z then PrimFloat.opp (PrimFloat.of_uint63 (Uint63.of_Z (- n)))
  else PrimFloat.of_uint63 (Uint63.of_Z n).

Definition floatOfNat (n : nat) : float := floatOfZ (Z.of_nat n).

(** [Math.round]: the nearest integer, a tie going towards +infinity; the
    sign of a zero result is that of the argument.  A finite float with a
    non-negative exponent is an integer already. *)
Definition Math_round (x : float) : float :=
  match Prim2SF x with
  | S754_finite s m e =>
      if (0 <=? e)%Z then x
      else
        let twice := if s then (2 ^ (- e) - 2 * Z.pos m)%Z
                     else (2 * Z.pos m + 2 ^ (- e))%Z in
        let n := Z.shiftr twice (1 - e) in
        if (n =? 0)%Z then (if s then (-0)%float else 0%float) else floatOfZ n
  | _ => x
  end.

(** [JSON.stringify] of a number, as far as a [Set] of its results can
    tell: finite numbers print injectively except that [-0] and [0] both
    print as 0; [NaN], [Infinity] and [-Infinity] all print as null. *)
Inductive NumberText :=
| TextNull
| TextNumber (sign : bool) (mantissa : Z) (exponent : Z).

#[global] Instance NumberText_eq_dec : EqDecision NumberText.
Proof. solve_decision. Defined.

Definition JSON_stringify_number (x : float) : NumberText :=
  match Prim2SF x with
  | S754_zero _ => TextNumber false 0 0
  | S754_finite s m e => TextNumber s (Z.pos m) e
  | _ => TextNull
  end.

(** Decimal digits of an array index or length. *)
Definition natToString (n : nat) : string :=
  NilEmpty.string_of_uint (Nat.to_uint n).

(** *** Strings *)

Definition stringOfList (l : list ascii) : string := string_of_list_ascii l.
Definition listOfString (s : string) : list ascii := list_ascii_of_string s.

(** White space and line terminators of ECMA-262 that fit in a byte. *)
Definition isWhiteSpace (c : ascii) : bool :=
  let n := nat_of_ascii c in
  ((9 <=? n) && (n <=? 13)) || (n =? 32) || (n =? 160).

Definition lowerChar (c : ascii) : ascii :=
  let n := nat_of_ascii c in
  if (65 <=? n) && (n <=? 90) then ascii_of_nat (n + 32) else c.

Definition toLowerCase (s : string) : string :=
  stringOfList (map lowerChar (listOfString s)).


Fixpoint dropWhile {A} (p : A -> bool) (l : list A) : list A :=
  match l with
  | [] => []
  | x :: r => if p x then dropWhile p r else l
  end.

Definition trimList (l : list ascii) : list ascii :=
  rev (dropWhile isWhiteSpace (rev (dropWhile isWhiteSpace l))).

Definition trim (s : string) : string := stringOfList (trimList (listOfString s)).

Definition isEmptyString (s : string) : bool :=
  match s with EmptyString => true | _ => false end.

Definition startsWith (s pre : string) : bool := String.prefix pre s.

Fixpoint join (sep : string) (l : list string) : string :=
  match l with
  | [] => ""
  | [x] => x
  | x :: r => x +:+ sep +:+ join sep r
  end.

(** [s.replace(/C+/g, ' ')] for a character class C: every maximal run of
    characters of the class becomes one space. *)
Fixpoint replaceRuns (inClass : ascii -> bool) (l : list ascii) (inRun : bool) : list ascii :=
  match l with
  | [] => []
  | c :: r =>
      if inClass c
      then (if inRun then replaceRuns inClass r true
            else " "%char :: replaceRuns inClass r true)
      else c :: replaceRuns inClass r false
  end.

(** *** Sorting *)

(** [Array.prototype.sort] is stable; for a consistent comparator its
    result is the stable sorted arrangement, which insertion from the right
    computes. *)
Section Sort.
Context {A : Type} (cmp : A -> A -> Z).

Fixpoint sortInsert (x : A) (l : list A) : list A :=
  match l with
  | [] => [x]
  | y :: r => if (cmp x y <=? 0)%Z then x :: l else y :: sortInsert x r
  end.

Definition arraySort (l : list A) : list A := fold_right sortInsert [] l.
End Sort.

(* ================================================================= *)
(** ** The data model (types.ts) *)

Inductive SourceId := ardb | metaforge | raidtheory | mahcks.

#[global] Instance SourceId_eq_dec : EqDecision SourceId.
Proof. solve_decision. Defined.

Definition SourceId_code (s : SourceId) : nat :=
  match s with ardb => 0 | metaforge => 1 | raidtheory => 2 | mahcks => 3 end.

Definition SourceId_of_code (n : nat) : option SourceId :=
  match n with
  | 0 => Some ardb | 1 => Some metaforge | 2 => Some raidtheory | 3 => Some mahcks
  | _ => None
  end.

#[global] Instance SourceId_countable : Countable SourceId.
Proof.
  apply (inj_countable SourceId_code SourceId_of_code).
  intros []; reflexivity.
Defined.

Definition sourceIdText (s : SourceId) : string :=
  match s with
  | ardb => "ardb" | metaforge => "metaforge"
  | raidtheory => "raidtheory" | mahcks => "mahcks"
  end.

(** A parsed JSON payload.  The fields of an object are listed in the
    order [Object.entries] enumerates them, each key once. *)
Inductive JsonValue :=
| JNull
| JBool (b : bool)
| JNumber (x : float)
| JString (s : string)
| JArray (elements : list JsonValue)
| JObject (fields : list (string * JsonValue)).

Record RecipePart := {
  part_itemId : option string;
  part_name : option string;
  part_amount : float
}.

Record SourceItem := {
  item_sourceId : SourceId;
  item_sourceItemId : option string;
  item_name : option string;
  item_type : option string;
  item_rarity : option string;
  item_value : option float;
  item_weight : option float;
  item_inputs : option (list RecipePart);
  item_outputs : option (list RecipePart);
  item_raw : JsonValue
}.

Record FieldDiffers := {
  differs_name : bool;
  differs_type : bool;
  differs_rarity : bool;
  differs_value : bool;
  differs_weight : bool
}.

Record DiffReport := {
  missingIn : list SourceId;
  fieldDiffers : FieldDiffers;
  recipeDiffers : bool;
  severity : Z;
  explanation : list string
}.

Inductive MatchMethod := MethodExact | MethodFuzzy | MethodNone.

Record MatchDetail := {
  method : MatchMethod;
  confidence : float
}.

Record CanonicalItem := {
  canonicalId : string;
  nameKey : string;
  displayName : string;
  bySource : gmap SourceId SourceItem;
  matchDetails : gmap SourceId MatchDetail;
  diffReport : DiffReport
}.

Record SourceSummary := {
  summary_sourceId : SourceId;
  summary_fetchedAt : string;
  summary_versionOrCommit : string;
  summary_itemCount : nat;
  summary_error : option string
}.

Record DiffDataResponse := {
  generatedAt : string;
  enabledSources : list SourceId;
  sourceSummaries : list SourceSummary;
  canonicalItems : list CanonicalItem
}.

Record SourceFetchResult := {
  fetch_sourceId : SourceId;
  fetch_fetchedAt : string;
  fetch_versionOrCommit : string;
  fetch_itemsRaw : list JsonValue
}.

(* ================================================================= *)
(** ** Matching and diffing (services/matchAndDiff) *)

Definition isLowerAlnum (c : ascii) : bool :=
  let n := nat_of_ascii c in
  ((97 <=? n) && (n <=? 122)) || ((48 <=? n) && (n <=? 57)).

Definition normalizeNameForMatch (value : string) : string :=
  let lowered := listOfString (toLowerCase value) in
  let spaced := replaceRuns (fun c => negb (isLowerAlnum c)) lowered false in
  stringOfList (replaceRuns isWhiteSpace (trimList spaced) false).

(** The substrings of length two, left to right. *)
Fixpoint slices2 (l : list ascii) : list string :=
  match l with
  | a :: (b :: _) as r => String a (String b EmptyString) :: slices2 r
  | _ => []
  end.

Definition bigrams (value : string) : list string :=
  slices2 (listOfString (" " +:+ value +:+ " ")).

Definition countTokens (tokens : list string) : gmap string nat :=
  fold_left (fun counts token => <[token := default 0 (counts !! token) + 1]> counts)
            tokens ∅.

Definition overlapStep (st : gmap string nat * nat) (token : string) : gmap string nat * nat :=
  let current := default 0 (st.1 !! token) in
  if 0 <? current then (<[token := current - 1]> st.1, st.2 + 1) else st.

Definition overlapOf (leftBigrams rightBigrams : list string) : nat :=
  (fold_left overlapStep rightBigrams (countTokens leftBigrams, 0)).2.

Definition similarity (left right : string) : float :=
  if decide (left = right) then 1%float
  else if isEmptyString left || isEmptyString right then 0%float
  else
    let leftBigrams := bigrams left in
    let rightBigrams := bigrams right in
    if (length leftBigrams =? 0) || (length rightBigrams =? 0) then 0%float
    else
      let overlap := overlapOf leftBigrams rightBigrams in
      (floatOfNat (2 * overlap) / floatOfNat (length leftBigrams + length rightBigrams))%float.

Definition normalizeText (value : option string) : option string :=
  match value with
  | None => None
  | Some v =>
      if isEmptyString v then None
      else
        let trimmed := trim v in
        if 0 <? String.length trimmed then Some (toLowerCase trimmed) else None
  end.

Definition normalizeNumber (value : option float) : option float :=
  match value with
  | None => None
  | Some v =>
      if PrimFloat.is_nan v then None
      else Some (Math_round (v * 10000) / 10000)%float
  end.

Definition recipePartKey (part : RecipePart) : string :=
  toLowerCase
    (match part_itemId part with
     | Some i => i
     | None => default "" (part_name part)
     end).

(** [differsByValues]: [stringify] stands for [JSON.stringify] on the
    normalized values, of which the [Set] only sees equality. *)
Definition differsByValues {T U K : Type} `{EqDecision K}
    (values : list (option T)) (normalizer : option T -> option U)
    (stringify : U -> K) : bool :=
  let normalized := map normalizer values in
  let defined := omap id normalized in
  if length defined =? 0 then false
  else
    let unique := remove_dups (map stringify defined) in
    if 1 <? length unique then true
    else negb (length defined =? length normalized).

(** [JSON.stringify] is injective on strings: the model keeps the string. *)
Definition JSON_stringify_string (s : string) : string := s.

Definition formatSourceText (value : option string) : string :=
  match value with
  | None => "-"
  | Some v => if isEmptyString v then "-" else v
  end.

Definition lookupField {T} (item : CanonicalItem) (field : SourceItem -> option T)
    (sourceId : SourceId) : option T :=
  bySource item !! sourceId ≫= field.

Section WithPlatform.
Context {P : Platform}.

Definition compareParts (a b : RecipePart) : Z :=
  localeCompare (recipePartKey a) (recipePartKey b).

Definition renderParts (parts : list RecipePart) : string :=
  join "|" (map (fun part => recipePartKey part +:+ ":" +:+ numberToString (part_amount part))
                (arraySort compareParts parts)).

Definition recipeSignature (item : option SourceItem) : string :=
  match item with
  | None => "__missing__"
  | Some it =>
      let inputs := renderParts <$> item_inputs it in
      let outputs := renderParts <$> item_outputs it in
      if isEmptyString (default "" inputs) && isEmptyString (default "" outputs) then ""
      else "in[" +:+ default "" inputs +:+ "]out[" +:+ default "" outputs +:+ "]"
  end.

Definition formatSourceNumber (value : option float) : string :=
  match value with
  | None => "-"
  | Some v => numberToString v
  end.

Definition explainField {T} (label : string) (format : option T -> string)
    (item : CanonicalItem) (field : SourceItem -> option T)
    (sources : list SourceId) : string :=
  label +:+ " differs: " +:+
  join ", " (map (fun sourceId =>
                    sourceIdText sourceId +:+ "=" +:+ format (lookupField item field sourceId))
                 sources).

Definition buildDiffReport (item : CanonicalItem) (sources : list SourceId) : DiffReport :=
  let presentSources := filter (fun sourceId => is_Some (bySource item !! sourceId)) sources in
  let missing := filter (fun sourceId => ¬ is_Some (bySource item !! sourceId)) sources in
  let names := map (lookupField item item_name) presentSources in
  let types := map (lookupField item item_type) presentSources in
  let rarities := map (lookupField item item_rarity) presentSources in
  let values := map (lookupField item item_value) presentSources in
  let weights := map (lookupField item item_weight) presentSources in
  let recipes := map (fun sourceId => Some (recipeSignature (bySource item !! sourceId)))
                     presentSources in
  let differs :=
    {| differs_name := differsByValues names normalizeText JSON_stringify_string;
       differs_type := differsByValues types normalizeText JSON_stringify_string;
       differs_rarity := differsByValues rarities normalizeText JSON_stringify_string;
       differs_value := differsByValues values normalizeNumber JSON_stringify_number;
       differs_weight := differsByValues weights normalizeNumber JSON_stringify_number |} in
  let recipe :=
    differsByValues recipes
      (fun value => match value with
                    | Some v => if isEmptyString v then None else Some v
                    | None => None
                    end)
      JSON_stringify_string in
  let score :=
    (Z.of_nat (length missing) * 18
     + (if differs_name differs then 10 else 0)
     + (if differs_type differs then 8 else 0)
     + (if differs_rarity differs then 8 else 0)
     + (if differs_value differs then 12 else 0)
     + (if differs_weight differs then 12 else 0)
     + (if recipe then 20 else 0))%Z in
  let lines :=
    ((if 0 <? length missing
     then ["Missing in: " +:+ join ", " (map sourceIdText missing)] else [])
    ++ (if differs_name differs
        then [explainField "Name" formatSourceText item item_name sources] else [])
    ++ (if differs_type differs
        then [explainField "Type" formatSourceText item item_type sources] else [])
    ++ (if differs_rarity differs
        then [explainField "Rarity" formatSourceText item item_rarity sources] else [])
    ++ (if differs_value differs
        then [explainField "Value" formatSourceNumber item item_value sources] else [])
    ++ (if differs_weight differs
        then [explainField "Weight" formatSourceNumber item item_weight sources] else [])
    ++ (if recipe then ["Recipe differs (inputs/outputs are not equivalent)."] else []))%list in
  {| missingIn := missing;
     fieldDiffers := differs;
     recipeDiffers := recipe;
     severity := Z.min 100 score;
     explanation := lines |}.

Definition getDisplayName (item : SourceItem) (fallbackIndex : nat) : string :=
  match item_name item with
  | Some n => n
  | None =>
      match item_sourceItemId item with
      | Some i => i
      | None => sourceIdText (item_sourceId item) +:+ "-item-" +:+ natToString fallbackIndex
      end
  end.

Definition getNameKey (item : SourceItem) (fallbackIndex : nat) : string :=
  let normalized :=
    match item_name item with
    | Some n => if isEmptyString n then "" else normalizeNameForMatch n
    | None => ""
    end in
  if negb (isEmptyString normalized) then normalized
  else
    match item_sourceItemId item with
    | Some i =>
        if isEmptyString i
        then "id:" +:+ sourceIdText (item_sourceId item) +:+ ":" +:+ natToString fallbackIndex
        else "id:" +:+ sourceIdText (item_sourceId item) +:+ ":" +:+ toLowerCase i
    | None => "id:" +:+ sourceIdText (item_sourceId item) +:+ ":" +:+ natToString fallbackIndex
    end.

(** The resolver's two pieces of state: [canonicalItems] and [nameIndex]. *)
Record ResolverState := {
  rs_items : list CanonicalItem;
  rs_index : gmap string (list nat)
}.

Definition hasSource (candidate : CanonicalItem) (sourceId : SourceId) : bool :=
  bool_decide (is_Some (bySource candidate !! sourceId)).

(** The loop over [exactCandidates], leaving at the first canonical item
    without an entry for the provider.  The index only holds positions of
    [canonicalItems] (lemma [nameIndex_in_range]), so the lookup succeeds. *)
Fixpoint findExact (sourceId : SourceId) (items : list CanonicalItem)
    (exactCandidates : list nat) : option nat :=
  match exactCandidates with
  | [] => None
  | candidateIndex :: rest =>
      match items !! candidateIndex with
      | Some candidate =>
          if hasSource candidate sourceId then findExact sourceId items rest
          else Some candidateIndex
      | None => findExact sourceId items rest
      end
  end.

(** The fuzzy loop from [candidateIndex] on, [best] being
    ([bestIndex], [bestScore]). *)
Fixpoint fuzzyScan (sourceId : SourceId) (key : string) (candidates : list CanonicalItem)
    (candidateIndex : nat) (best : option nat * float) : option nat * float :=
  match candidates with
  | [] => best
  | candidate :: rest =>
      let best' :=
        if hasSource candidate sourceId then best
        else if startsWith (nameKey candidate) "id:" then best
        else
          let score := similarity key (nameKey candidate) in
          if (best.2 <? score)%float then (Some candidateIndex, score) else best in
      fuzzyScan sourceId key rest (S candidateIndex) best'
  end.

(** The assignment the exact and fuzzy steps arrive at:
    [assignedIndex] with its method and confidence, if any. *)
Definition chooseAssignment (sourceId : SourceId) (key : string) (fuzzyThreshold : float)
    (st : ResolverState) : option (nat * MatchDetail) :=
  match findExact sourceId (rs_items st) (default [] (rs_index st !! key)) with
  | Some assignedIndex =>
      Some (assignedIndex, {| method := MethodExact; confidence := 1 |})
  | None =>
      if negb (startsWith key "id:") then
        match fuzzyScan sourceId key (rs_items st) 0 (None, 0%float) with
        | (Some bestIndex, bestScore) =>
            if (fuzzyThreshold <=? bestScore)%float
            then Some (bestIndex,
                       {| method := MethodFuzzy;
                          confidence := (Math_round (bestScore * 1000) / 1000)%float |})
            else None
        | (None, _) => None
        end
      else None
  end.

Definition emptyReport : DiffReport :=
  {| missingIn := [];
     fieldDiffers := {| differs_name := false; differs_type := false;
                        differs_rarity := false; differs_value := false;
                        differs_weight := false |};
     recipeDiffers := false;
     severity := 0;
     explanation := [] |}.

Definition assignTo (sourceId : SourceId) (item : SourceItem) (detail : MatchDetail)
    (c : CanonicalItem) : CanonicalItem :=
  {| canonicalId := canonicalId c;
     nameKey := nameKey c;
     displayName := displayName c;
     bySource := <[sourceId := item]> (bySource c);
     matchDetails := <[sourceId := detail]> (matchDetails c);
     diffReport := diffReport c |}.

(** One turn of the inner loop. *)
Definition resolveItem (sourceId : SourceId) (fuzzyThreshold : float)
    (st : ResolverState) (itemIndex : nat) (item : SourceItem) : ResolverState :=
  let display := getDisplayName item itemIndex in
  let key := getNameKey item itemIndex in
  match chooseAssignment sourceId key fuzzyThreshold st with
  | None =>
      let nextItem :=
        {| canonicalId := "canonical-" +:+ natToString (length (rs_items st) + 1);
           nameKey := key;
           displayName := display;
           bySource := {[sourceId := item]};
           matchDetails := {[sourceId := {| method := MethodExact; confidence := 1 |}]};
           diffReport := emptyReport |} in
      {| rs_items := (rs_items st ++ [nextItem])%list;
         rs_index := <[key := (default [] (rs_index st !! key) ++ [length (rs_items st)])%list]>
                       (rs_index st) |}
  | Some (assignedIndex, detail) =>
      {| rs_items := alter (assignTo sourceId item detail) assignedIndex (rs_items st);
         rs_index := rs_index st |}
  end.

Fixpoint resolveItems (sourceId : SourceId) (fuzzyThreshold : float)
    (items : list SourceItem) (itemIndex : nat) (st : ResolverState) : ResolverState :=
  match items with
  | [] => st
  | item :: rest =>
      resolveItems sourceId fuzzyThreshold rest (S itemIndex)
                   (resolveItem sourceId fuzzyThreshold st itemIndex item)
  end.

Definition resolveSources (normalizedBySource : gmap SourceId (list SourceItem))
    (sources : list SourceId) (fuzzyThreshold : float) : ResolverState :=
  fold_left
    (fun st sourceId =>
       resolveItems sourceId fuzzyThreshold
                    (default [] (normalizedBySource !! sourceId)) 0 st)
    sources {| rs_items := []; rs_index := ∅ |}.

Definition isNonEmpty (value : option string) : bool :=
  match value with
  | Some v => negb (isEmptyString v)
  | None => false
  end.

(** The second loop: the preferred display name and the diff report. *)
Definition finishItem (sources : list SourceId) (item : CanonicalItem) : CanonicalItem :=
  let preferredName :=
    find isNonEmpty (map (lookupField item item_name) sources) in
  let renamed :=
    {| canonicalId := canonicalId item;
       nameKey := nameKey item;
       displayName := match preferredName with
                      | Some (Some n) => n
                      | _ => displayName item
                      end;
       bySource := bySource item;
       matchDetails := matchDetails item;
       diffReport := diffReport item |} in
  {| canonicalId := canonicalId renamed;
     nameKey := nameKey renamed;
     displayName := displayName renamed;
     bySource := bySource renamed;
     matchDetails := matchDetails renamed;
     diffReport := buildDiffReport renamed sources |}.

Definition compareCanonical (left right : CanonicalItem) : Z :=
  if negb (severity (diffReport right) =? severity (diffReport left))%Z
  then (severity (diffReport right) - severity (diffReport left))%Z
  else localeCompare (displayName left) (displayName right).

Definition mergeAndDiffItems (normalizedBySource : gmap SourceId (list SourceItem))
    (sources : list SourceId) (fuzzyThreshold : float) : list CanonicalItem :=
  let resolved := rs_items (resolveSources normalizedBySource sources fuzzyThreshold) in
  arraySort compareCanonical (map (finishItem sources) resolved).

End WithPlatform.

(* ================================================================= *)
(** ** The normalizer (server/services/normalize.ts) *)

(** [a ?? b] on possibly undefined values. *)
Definition orElse {A} (a b : option A) : option A :=
  match a with
  | Some x => Some x
  | None => b
  end.

Infix "??" := orElse (at level 59, left associativity).

(** Property access [v.key]; only a JSON object has the keys the code reads. *)
Definition getProp (v : option JsonValue) (key : string) : option JsonValue :=
  match v with
  | Some (JObject fields) => snd <$> find (fun kv => String.eqb kv.1 key) fields
  | _ => None
  end.

(** [Boolean(v)]. *)
Definition truthy (v : option JsonValue) : bool :=
  match v with
  | None | Some JNull => false
  | Some (JBool b) => b
  | Some (JNumber x) => negb (PrimFloat.is_zero x || PrimFloat.is_nan x)
  | Some (JString s) => negb (isEmptyString s)
  | Some (JArray _) | Some (JObject _) => true
  end.

(** [v && typeof v === 'object']. *)
Definition isObjectLike (v : option JsonValue) : bool :=
  match v with
  | Some (JArray _) | Some (JObject _) => true
  | _ => false
  end.

Definition objectValues (v : JsonValue) : list JsonValue :=
  match v with
  | JArray elements => elements
  | JObject fields => map snd fields
  | _ => []
  end.

Definition toStringOrUndefined (value : option JsonValue) : option string :=
  match value with
  | Some (JString s) =>
      let trimmed := trim s in
      if 0 <? String.length trimmed then Some trimmed else None
  | _ => None
  end.

Definition nameFromUnknown (value : option JsonValue) : option string :=
  match toStringOrUndefined value with
  | Some direct => Some direct
  | None =>
      match value with
      | Some v =>
          if isObjectLike value then
            match toStringOrUndefined (getProp value "en") with
            | Some english => Some english
            | None =>
                default None
                  (find (fun first => bool_decide (is_Some first))
                        (map (fun candidate => toStringOrUndefined (Some candidate))
                             (objectValues v)))
            end
          else None
      | None => None
      end
  end.

Section Normalizer.
Context {P : Platform}.

Definition toNumberOrUndefined (value : option JsonValue) : option float :=
  match value with
  | Some (JNumber x) => if isFinite x then Some x else None
  | Some (JString s) =>
      let parsed := stringToNumber s in
      if isFinite parsed then Some parsed else None
  | _ => None
  end.

(** One turn of the loop over an array-shaped recipe: the part pushed, if any. *)
Definition partOfEntry (entry : JsonValue) : option RecipePart :=
  if negb (isObjectLike (Some entry)) then None
  else
    let item := Some entry in
    let nested := if isObjectLike (getProp item "item") then getProp item "item" else None in
    let nestedComponent :=
      if isObjectLike (getProp item "component") then getProp item "component" else None in
    let amount :=
      default 1%float
        (toNumberOrUndefined (getProp item "amount")
         ?? toNumberOrUndefined (getProp item "quantity")
         ?? toNumberOrUndefined (getProp item "count")) in
    let itemId :=
      toStringOrUndefined (getProp item "itemId")
      ?? toStringOrUndefined (getProp item "id")
      ?? toStringOrUndefined (getProp nested "id")
      ?? toStringOrUndefined (getProp nestedComponent "id") in
    let name :=
      nameFromUnknown (getProp item "name")
      ?? nameFromUnknown (getProp item "itemName")
      ?? nameFromUnknown (getProp nested "name")
      ?? nameFromUnknown (getProp nestedComponent "name") in
    match itemId, name with
    | None, None => None
    | _, _ => Some {| part_itemId := itemId; part_name := name; part_amount := amount |}
    end.

(** One turn of the loop over a map-shaped recipe. *)
Definition partOfField (field : string * JsonValue) : option RecipePart :=
  match toNumberOrUndefined (Some field.2) with
  | Some numericAmount =>
      if PrimFloat.is_zero numericAmount || (numericAmount <=? 0)%float then None
      else Some {| part_itemId := Some field.1; part_name := None;
                   part_amount := numericAmount |}
  | None => None
  end.

Definition compareArrayParts (a b : RecipePart) : Z :=
  let aKey := toLowerCase (default "" (part_itemId a ?? part_name a)) in
  let bKey := toLowerCase (default "" (part_itemId b ?? part_name b)) in
  localeCompare aKey bKey.

Definition compareMapParts (a b : RecipePart) : Z :=
  localeCompare (default "" (part_itemId a)) (default "" (part_itemId b)).

Definition nonEmptyParts (parts : list RecipePart) : option (list RecipePart) :=
  if 0 <? length parts then Some parts else None.

Definition normalizeRecipeParts (value : option JsonValue) : option (list RecipePart) :=
  if negb (truthy value) then None
  else
    match value with
    | Some (JArray entries) =>
        nonEmptyParts (arraySort compareArrayParts (omap partOfEntry entries))
    | Some (JObject fields) =>
        nonEmptyParts (arraySort compareMapParts (omap partOfField fields))
    | _ => None
    end.

Definition normalizeArdbItem (raw : JsonValue) : SourceItem :=
  let sourceItemId := toStringOrUndefined (getProp (Some raw) "id") in
  let name := nameFromUnknown (getProp (Some raw) "name") in
  let crafting := getProp (Some raw) "craftingRequirement" in
  let requiredItems :=
    match getProp crafting "requiredItems" with
    | Some (JArray entries) => Some (JArray entries)
    | _ => None
    end in
  let inputs :=
    match normalizeRecipeParts requiredItems with
    | Some parts => Some parts
    | None => normalizeRecipeParts (getProp (Some raw) "recipe")
    end in
  let outputs :=
    match sourceItemId with
    | Some i =>
        if truthy crafting then
          let outputAmount :=
            default 1%float (toNumberOrUndefined (getProp crafting "outputAmount")) in
          Some [{| part_itemId := Some i; part_name := name; part_amount := outputAmount |}]
        else None
    | None => None
    end in
  {| item_sourceId := ardb;
     item_sourceItemId := sourceItemId;
     item_name := name;
     item_type := toStringOrUndefined (getProp (Some raw) "type");
     item_rarity := toStringOrUndefined (getProp (Some raw) "rarity");
     item_value := toNumberOrUndefined (getProp (Some raw) "value");
     item_weight := toNumberOrUndefined (getProp (Some raw) "weight");
     item_inputs := inputs;
     item_outputs := outputs;
     item_raw := raw |}.

Definition normalizeMetaForgeItem (raw : JsonValue) : SourceItem :=
  let sourceItemId := toStringOrUndefined (getProp (Some raw) "id") in
  let name := nameFromUnknown (getProp (Some raw) "name") in
  let statBlock := getProp (Some raw) "stat_block" in
  let inputs :=
    normalizeRecipeParts (getProp (Some raw) "components")
    ?? normalizeRecipeParts (getProp (Some raw) "recipe")
    ?? normalizeRecipeParts (getProp (Some raw) "ingredients") in
  let outputs :=
    match normalizeRecipeParts (getProp (Some raw) "outputs")
          ?? normalizeRecipeParts (getProp (Some raw) "output") with
    | Some parts => Some parts
    | None =>
        match sourceItemId, inputs with
        | Some i, Some _ =>
            Some [{| part_itemId := Some i; part_name := name; part_amount := 1 |}]
        | _, _ => None
        end
    end in
  {| item_sourceId := metaforge;
     item_sourceItemId := sourceItemId;
     item_name := name;
     item_type := toStringOrUndefined (getProp (Some raw) "item_type")
                  ?? toStringOrUndefined (getProp (Some raw) "type");
     item_rarity := toStringOrUndefined (getProp (Some raw) "rarity");
     item_value := toNumberOrUndefined (getProp (Some raw) "value");
     item_weight := toNumberOrUndefined (getProp statBlock "weight")
                    ?? toNumberOrUndefined (getProp (Some raw) "weight");
     item_inputs := inputs;
     item_outputs := outputs;
     item_raw := raw |}.

Definition normalizeRaidTheoryLikeItem (sourceId : SourceId) (raw : JsonValue) : SourceItem :=
  let sourceItemId := toStringOrUndefined (getProp (Some raw) "id") in
  let name := nameFromUnknown (getProp (Some raw) "name") in
  let inputs := normalizeRecipeParts (getProp (Some raw) "recipe") in
  let outputs :=
    match inputs, sourceItemId with
    | Some _, Some i =>
        Some [{| part_itemId := Some i; part_name := name; part_amount := 1 |}]
    | _, _ => None
    end in
  {| item_sourceId := sourceId;
     item_sourceItemId := sourceItemId;
     item_name := name;
     item_type := toStringOrUndefined (getProp (Some raw) "type");
     item_rarity := toStringOrUndefined (getProp (Some raw) "rarity");
     item_value := toNumberOrUndefined (getProp (Some raw) "value");
     item_weight := toNumberOrUndefined (getProp (Some raw) "weightKg")
                    ?? toNumberOrUndefined (getProp (Some raw) "weight");
     item_inputs := inputs;
     item_outputs := outputs;
     item_raw := raw |}.

Definition normalizeSourceFetch (result : SourceFetchResult) : list SourceItem :=
  map (fun raw =>
         match fetch_sourceId result with
         | ardb => normalizeArdbItem raw
         | metaforge => normalizeMetaForgeItem raw
         | raidtheory => normalizeRaidTheoryLikeItem raidtheory raw
         | mahcks => normalizeRaidTheoryLikeItem mahcks raw
         end)
      (filter (fun item => isObjectLike (Some item) = true) (fetch_itemsRaw result)).

End Normalizer.

(* ================================================================= *)
(** ** The memoizing cache (lib/cache) *)

(** A promise is known by a number; what it settles to is an input. *)
Definition PromiseId := nat.

(** A cached value of type [V]: [None] is JavaScript's [undefined], which a
    producer may well resolve to. *)
Record CacheEntry (V : Type) := {
  expiresAt : float;
  entry_value : option V;
  inflight : option PromiseId
}.
Arguments expiresAt {V} _.
Arguments entry_value {V} _.
Arguments inflight {V} _.

Inductive Settled (V : Type) :=
| Fulfilled (value : option V)
| Rejected (error : string).
Arguments Fulfilled {V} _.
Arguments Rejected {V} _.

(** How a call of [getOrSet] leaves its synchronous part. *)
Inductive Started (V : Type) :=
| Hit (value : V)              (* [return existing.value] *)
| Joined (p : PromiseId)       (* [return existing.inflight] *)
| Invoked (p : PromiseId).     (* [producer()] was called and is awaited *)
Arguments Hit {V} _.
Arguments Joined {V} _.
Arguments Invoked {V} _.

Section Cache.
Context {V : Type}.

(** [getOrSet] up to its [await]: [now] is what [Date.now()] returns and
    [fresh] the promise [producer()] returns if it gets called. *)
Definition getOrSet_begin (now : float) (key : string) (ttlMs : float) (fresh : PromiseId)
    (cache : gmap string (CacheEntry V)) : Started V * gmap string (CacheEntry V) :=
  let existing := cache !! key in
  let live :=
    match existing with
    | Some e =>
        match entry_value e with
        | Some v => if (now <? expiresAt e)%float then Some v else None
        | None => None
        end
    | None => None
    end in
  match live with
  | Some v => (Hit v, cache)
  | None =>
      match existing ≫= inflight with
      | Some p => (Joined p, cache)
      | None =>
          (Invoked fresh,
           <[key := {| expiresAt := (now + ttlMs)%float; entry_value := None;
                       inflight := Some fresh |}]> cache)
      end
  end.

(** [getOrSet] from its [await] on, once the producer's promise has
    settled; [now] is the second reading of [Date.now()]. *)
Definition getOrSet_resume (now : float) (key : string) (ttlMs : float)
    (outcome : Settled V) (cache : gmap string (CacheEntry V))
    : Settled V * gmap string (CacheEntry V) :=
  match outcome with
  | Fulfilled value =>
      (Fulfilled value,
       <[key := {| expiresAt := (now + ttlMs)%float; entry_value := value;
                   inflight := None |}]> cache)
  | Rejected error => (Rejected error, delete key cache)
  end.

(** A call whose producer settles before any other call comes in. *)
Definition getOrSet (now later : float) (key : string) (ttlMs : float) (fresh : PromiseId)
    (producer : Settled V) (awaited : PromiseId -> Settled V)
    (cache : gmap string (CacheEntry V)) : Settled V * gmap string (CacheEntry V) :=
  match getOrSet_begin now key ttlMs fresh cache with
  | (Hit v, cache') => (Fulfilled (Some v), cache')
  | (Joined p, cache') => (awaited p, cache')
  | (Invoked _, cache') => getOrSet_resume later key ttlMs producer cache'
  end.

(** What happens to the cache over time: calls reach their [await], and
    producers' promises settle and resume the call that started them. *)
Inductive CacheEvent :=
| CallBegins (now : float) (key : string) (ttlMs : float) (fresh : PromiseId)
| CallResumes (now : float) (key : string) (ttlMs : float) (outcome : Settled V).

Definition eventKey (event : CacheEvent) : string :=
  match event with
  | CallBegins _ key _ _ => key
  | CallResumes _ key _ _ => key
  end.

Definition applyEvent (cache : gmap string (CacheEntry V)) (event : CacheEvent)
    : gmap string (CacheEntry V) :=
  match event with
  | CallBegins now key ttlMs fresh => (getOrSet_begin now key ttlMs fresh cache).2
  | CallResumes now key ttlMs outcome => (getOrSet_resume now key ttlMs outcome cache).2
  end.

Definition runEvents (events : list CacheEvent) (cache : gmap string (CacheEntry V))
    : gmap string (CacheEntry V) :=
  fold_left applyEvent events cache.

End Cache.

(* ================================================================= *)
(** ** The pipeline orchestrator (services/pipeline) *)

(** What a rejected fetch was rejected with: an [Error] or anything else,
    of which [String(reason)] is kept. *)
Inductive RejectionReason :=
| ReasonError (message : string)
| ReasonOther (text : string).

(** One element of [Promise.allSettled]'s result. *)
Inductive FetchOutcome :=
| FetchFulfilled (value : SourceFetchResult)
| FetchRejected (reason : RejectionReason).

Definition reasonMessage (reason : RejectionReason) : string :=
  match reason with
  | ReasonError message => message
  | ReasonOther text => text
  end.

Record PipelineState := {
  ps_sourceSummaries : list SourceSummary;
  ps_normalizedBySource : gmap SourceId (list SourceItem);
  ps_activeSources : list SourceId;
  (** how often the clock has been read *)
  ps_clockReads : nat
}.

Section Pipeline.
Context {P : Platform}.

(** One turn of the loop over the connectors: [connector] is
    [connectors[index]] and [result] is [results[index]]; [clock n] is what
    the run's n-th [new Date().toISOString()] returns. *)
Definition pipelineStep (clock : nat -> string) (st : PipelineState)
    (connector : SourceId) (result : FetchOutcome) : PipelineState :=
  match result with
  | FetchFulfilled value =>
      let normalized := normalizeSourceFetch value in
      {| ps_sourceSummaries :=
           (ps_sourceSummaries st ++
            [{| summary_sourceId := connector;
                summary_fetchedAt := fetch_fetchedAt value;
                summary_versionOrCommit := fetch_versionOrCommit value;
                summary_itemCount := length normalized;
                summary_error := None |}])%list;
         ps_normalizedBySource := <[connector := normalized]> (ps_normalizedBySource st);
         ps_activeSources := (ps_activeSources st ++ [connector])%list;
         ps_clockReads := ps_clockReads st |}
  | FetchRejected reason =>
      {| ps_sourceSummaries :=
           (ps_sourceSummaries st ++
            [{| summary_sourceId := connector;
                summary_fetchedAt := clock (ps_clockReads st);
                summary_versionOrCommit := "unavailable";
                summary_itemCount := 0;
                summary_error := Some (reasonMessage reason) |}])%list;
         ps_normalizedBySource := ps_normalizedBySource st;
         ps_activeSources := ps_activeSources st;
         ps_clockReads := S (ps_clockReads st) |}
  end.

Definition pipelineLoop (clock : nat -> string) (fetches : list (SourceId * FetchOutcome))
    : PipelineState :=
  fold_left (fun st fetch => pipelineStep clock st fetch.1 fetch.2) fetches
            {| ps_sourceSummaries := []; ps_normalizedBySource := ∅;
               ps_activeSources := []; ps_clockReads := 0 |}.

(** [buildDiffData]: [fetches] pairs each requested provider, in the order
    of [enabledSources], with what its [fetchRaw()] settled to. *)
Definition buildDiffData (clock : nat -> string) (fuzzyMatchThreshold : float)
    (fetches : list (SourceId * FetchOutcome)) : DiffDataResponse :=
  let st := pipelineLoop clock fetches in
  {| generatedAt := clock (ps_clockReads st);
     enabledSources := ps_activeSources st;
     sourceSummaries := ps_sourceSummaries st;
     canonicalItems :=
       mergeAndDiffItems (ps_normalizedBySource st) (ps_activeSources st)
                         fuzzyMatchThreshold |}.

End Pipeline.

(* ================================================================= *)
(** ** The MetaForge snapshot store *)

(** A TEXT column holding JSON: the tree the text denotes, which is what
    [JSON.parse] makes of it, or text that [JSON.parse] rejects. *)
Inductive StoredJson :=
| WellFormed (v : JsonValue)
| Malformed (text : string).

(** The tree that the text [JSON.stringify(v)] denotes: a number that is
    not finite is printed as null and [-0] as 0; every other number is
    printed with the digits that read back as the same number, and
    strings, arrays and the keys of objects are kept. *)
Fixpoint JSON_stringify (v : JsonValue) : JsonValue :=
  match v with
  | JNumber x =>
      if isFinite x then (if PrimFloat.is_zero x then JNumber 0 else JNumber x)
      else JNull
  | JArray elements => JArray (map JSON_stringify elements)
  | JObject fields =>
      JObject (map (fun field => let '(key, value) := field in (key, JSON_stringify value))
                   fields)
  | _ => v
  end.

Record ItemRow := {
  row_id : string;
  row_name : option string;
  row_item_type : option string;
  row_rarity : option string;
  row_value : option float;
  row_weight : option float;
  row_icon : option string;
  row_updated_at : option string;
  row_cached_at : string;
  row_raw_json : StoredJson
}.

Record LinkRow := {
  link_item_id : string;
  link_relation : string;
  link_related_item_id : option string;
  link_related_name : option string;
  link_quantity : option float;
  link_payload_json : StoredJson
}.

Record SyncStateRow := {
  last_synced_at : string;
  version : string;
  item_count : nat
}.

Record Tables := {
  metaforge_items : list ItemRow;
  metaforge_item_links : list LinkRow;
  metaforge_sync_state : option SyncStateRow
}.

(** The database connection: the committed tables, the working copy of an
    open transaction, and a fault schedule ([Some n]: the statement after
    the next [n] fails with an I/O error).  SQLite may end the transaction
    itself when such an error hits (disk full, I/O error, out of memory);
    [faultRollsBack] says whether it does. *)
Record Db := {
  committed : Tables;
  transaction : option Tables;
  faultAfter : option nat;
  faultRollsBack : bool
}.

(** A statement returns or throws, and leaves a database either way. *)
Inductive Outcome (A : Type) :=
| Returned (a : A)
| Thrown (error : string).
Arguments Returned {A} _.
Arguments Thrown {A} _.

Definition DbM (A : Type) : Type := Db -> Outcome A * Db.

Definition ret {A} (a : A) : DbM A := fun db => (Returned a, db).

Definition bind {A B} (m : DbM A) (k : A -> DbM B) : DbM B :=
  fun db =>
    match m db with
    | (Returned a, db') => k a db'
    | (Thrown e, db') => (Thrown e, db')
    end.

Notation "x <- m ;; k" := (bind m (fun x => k))
  (at level 100, m at next level, right associativity).
Notation "m ;;; k" := (bind m (fun _ => k))
  (at level 100, right associativity).

(** [try { body } catch (error) { handler; throw error }]. *)
Definition tryCatchRethrow {A} (body : DbM A) (handler : DbM unit) : DbM A :=
  fun db =>
    match body db with
    | (Returned a, db') => (Returned a, db')
    | (Thrown e, db') =>
        match handler db' with
        | (Returned _, db'') => (Thrown e, db'')
        | (Thrown e', db'') => (Thrown e', db'')
        end
    end.

(** The tables a statement sees and changes. *)
Definition currentTables (db : Db) : Tables :=
  default (committed db) (transaction db).

Definition withTables (t : Tables) (db : Db) : Db :=
  match transaction db with
  | Some _ => {| committed := committed db; transaction := Some t;
                 faultAfter := faultAfter db; faultRollsBack := faultRollsBack db |}
  | None => {| committed := t; transaction := None;
               faultAfter := faultAfter db; faultRollsBack := faultRollsBack db |}
  end.

(** Every statement but ROLLBACK first consults the fault schedule.  A
    fault loses the working copy if the engine rolls back on it. *)
Definition statement {A} (run : Db -> Outcome A * Db) : DbM A :=
  fun db =>
    match faultAfter db with
    | Some 0 =>
        (Thrown "disk I/O error",
         {| committed := committed db;
            transaction := if faultRollsBack db then None else transaction db;
            faultAfter := None; faultRollsBack := faultRollsBack db |})
    | Some (S n) =>
        run {| committed := committed db; transaction := transaction db;
               faultAfter := Some n; faultRollsBack := faultRollsBack db |}
    | None => run db
    end.

(** [db.prepare(sql)] compiles a statement of the fixed schema: it changes
    nothing, and can fail like any call into the engine. *)
Definition prepare : DbM unit := statement (fun db => (Returned tt, db)).

Definition execBegin : DbM unit :=
  statement (fun db =>
    match transaction db with
    | Some _ => (Thrown "cannot start a transaction within a transaction", db)
    | None => (Returned tt, {| committed := committed db;
                               transaction := Some (committed db);
                               faultAfter := faultAfter db;
                               faultRollsBack := faultRollsBack db |})
    end).

Definition execCommit : DbM unit :=
  statement (fun db =>
    match transaction db with
    | Some t => (Returned tt, {| committed := t; transaction := None;
                                 faultAfter := faultAfter db;
                                 faultRollsBack := faultRollsBack db |})
    | None => (Thrown "cannot commit - no transaction is active", db)
    end).

Definition execRollback : DbM unit :=
  fun db =>
    match transaction db with
    | Some _ => (Returned tt, {| committed := committed db; transaction := None;
                                 faultAfter := faultAfter db;
                                 faultRollsBack := faultRollsBack db |})
    | None => (Thrown "cannot rollback - no transaction is active", db)
    end.

Definition deleteLinks : DbM unit :=
  statement (fun db =>
    let t := currentTables db in
    (Returned tt,
     withTables {| metaforge_items := metaforge_items t; metaforge_item_links := [];
                   metaforge_sync_state := metaforge_sync_state t |} db)).

(** [DELETE FROM metaforge_items]; the links go with their items
    (ON DELETE CASCADE). *)
Definition deleteItems : DbM unit :=
  statement (fun db =>
    let t := currentTables db in
    (Returned tt,
     withTables {| metaforge_items := []; metaforge_item_links := [];
                   metaforge_sync_state := metaforge_sync_state t |} db)).

Definition hasItemId (id : string) (rows : list ItemRow) : bool :=
  existsb (fun row => String.eqb (row_id row) id) rows.

(** [insertItem.run]: [id] is the primary key. *)
Definition insertItem (row : ItemRow) : DbM unit :=
  statement (fun db =>
    let t := currentTables db in
    if hasItemId (row_id row) (metaforge_items t)
    then (Thrown "UNIQUE constraint failed: metaforge_items.id", db)
    else (Returned tt,
          withTables {| metaforge_items := (metaforge_items t ++ [row])%list;
                        metaforge_item_links := metaforge_item_links t;
                        metaforge_sync_state := metaforge_sync_state t |} db)).

(** [insertLink.run]: [item_id] references an item. *)
Definition insertLink (row : LinkRow) : DbM unit :=
  statement (fun db =>
    let t := currentTables db in
    if hasItemId (link_item_id row) (metaforge_items t)
    then (Returned tt,
          withTables {| metaforge_items := metaforge_items t;
                        metaforge_item_links := (metaforge_item_links t ++ [row])%list;
                        metaforge_sync_state := metaforge_sync_state t |} db)
    else (Thrown "FOREIGN KEY constraint failed", db)).

(** [writeState.run]: insert the singleton row or update it. *)
Definition writeState (row : SyncStateRow) : DbM unit :=
  statement (fun db =>
    let t := currentTables db in
    (Returned tt,
     withTables {| metaforge_items := metaforge_items t;
                   metaforge_item_links := metaforge_item_links t;
                   metaforge_sync_state := Some row |} db)).

(** [db.prepare(sql).get()]: the statement is compiled, then run; either
    call can fail. *)
Definition getSyncState : DbM (option SyncStateRow) :=
  prepare ;;;
  statement (fun db => (Returned (metaforge_sync_state (currentTables db)), db)).

(** The module's [dbInstance], set or not, and the database it opens. *)
Record Store := {
  opened : bool;
  database : Db
}.

(** [fs.mkdirSync(dir, { recursive: true })], [new DatabaseSync(path)] and
    [db.exec(script)] for the scripts of [getDb], the pragmas and the
    schema: the tables of the schema are those the model always has
    (CREATE TABLE IF NOT EXISTS), so none of the calls changes a table;
    each can fail, and a connection just opened has no transaction. *)
Definition mkdirSync : DbM unit := statement (fun db => (Returned tt, db)).

Definition openDatabase : DbM unit :=
  statement (fun db =>
    (Returned tt, {| committed := committed db; transaction := None;
                     faultAfter := faultAfter db;
                     faultRollsBack := faultRollsBack db |})).

Definition execScript : DbM unit := statement (fun db => (Returned tt, db)).

(** [getDb]: the first call opens the database and sets [dbInstance] once
    every step has gone through; later calls return the connection. *)
Definition getDb (store : Store) : Outcome unit * Store :=
  if opened store then (Returned tt, store)
  else
    match (mkdirSync ;;; openDatabase ;;; execScript ;;; execScript) (database store) with
    | (Returned _, db) => (Returned tt, {| opened := true; database := db |})
    | (Thrown error, db) => (Thrown error, {| opened := false; database := db |})
    end.

Definition textOrNull (value : option JsonValue) : option string :=
  match value with
  | Some (JString s) =>
      let trimmed := trim s in
      if 0 <? String.length trimmed then Some trimmed else None
  | _ => None
  end.

(** [for (const x of xs) body(x)]. *)
Fixpoint forEach {A} (body : A -> DbM unit) (xs : list A) : DbM unit :=
  match xs with
  | [] => ret tt
  | x :: rest => body x ;;; forEach body rest
  end.

(** [toRecord]: the value itself if it is an object, else [undefined]. *)
Definition toRecord (value : option JsonValue) : option JsonValue :=
  if isObjectLike value then value else None.

(** [Array.isArray(v) ? v : []]. *)
Definition arrayOrEmpty (value : option JsonValue) : list JsonValue :=
  match value with
  | Some (JArray entries) => entries
  | _ => []
  end.

(** [ORDER BY name COLLATE NOCASE ASC]: NULL first, then the names compared
    bytewise with A-Z folded to a-z. *)
Definition compareNoCase (a b : ItemRow) : Z :=
  match row_name a, row_name b with
  | None, None => 0
  | None, Some _ => -1
  | Some _, None => 1
  | Some x, Some y =>
      match String.compare (toLowerCase x) (toLowerCase y) with
      | Lt => -1
      | Eq => 0
      | Gt => 1
      end
  end%Z.

(** [JSON.parse(row.raw_json)] in its [try]: a row whose text does not
    parse is left out. *)
Definition parsedRows (rows : list ItemRow) : list JsonValue :=
  omap (fun row => match row_raw_json row with
                   | WellFormed v => Some v
                   | Malformed _ => None
                   end)
       rows.

(** [readItemsRaw]: [db.prepare(sql).all()], two calls that can fail, and
    the loop over the rows. *)
Definition readItemsRaw : DbM (list JsonValue) :=
  prepare ;;;
  rows <- statement (fun db =>
            (Returned (arraySort compareNoCase (metaforge_items (currentTables db))), db)) ;;
  ret (parsedRows rows).

Section Store.
Context {P : Platform}.

Definition numberOrUndefined (value : option JsonValue) : option float :=
  match value with
  | Some (JNumber x) => if isFinite x then Some x else None
  | Some (JString s) =>
      let parsed := stringToNumber s in
      if isFinite parsed then Some parsed else None
  | _ => None
  end.

(** The link of one entry of [components], [recycle_components],
    [recycle_from] or [used_in]; [nestedKey] names the nested object. *)
Definition linkOfEntry (relation nestedKey : string) (itemId : string) (entry : JsonValue)
    : LinkRow :=
  let object := toRecord (Some entry) in
  let nested := toRecord (getProp object nestedKey) in
  {| link_item_id := itemId;
     link_relation := relation;
     link_related_item_id :=
       textOrNull (getProp nested "id") ?? textOrNull (getProp object "id");
     link_related_name :=
       textOrNull (getProp nested "name") ?? textOrNull (getProp object "name");
     link_quantity :=
       Some (default 1%float
               (numberOrUndefined (getProp object "quantity")
                ?? numberOrUndefined (getProp object "amount")
                ?? numberOrUndefined (getProp object "count")));
     link_payload_json := WellFormed (JSON_stringify entry) |}.

Definition linkOfSeller (itemId : string) (entry : JsonValue) : LinkRow :=
  let object := toRecord (Some entry) in
  {| link_item_id := itemId;
     link_relation := "sold_by";
     link_related_item_id := None;
     link_related_name :=
       textOrNull (getProp object "trader_name") ?? textOrNull (getProp object "vendor");
     link_quantity := numberOrUndefined (getProp object "price");
     link_payload_json := WellFormed (JSON_stringify entry) |}.

(** [extractLinks], with the item id [insertLink.run] is given. *)
Definition extractLinks (itemId : string) (item : JsonValue) : list LinkRow :=
  (map (linkOfEntry "components" "component" itemId)
       (arrayOrEmpty (getProp (Some item) "components"))
   ++ map (linkOfEntry "recycle_components" "component" itemId)
          (arrayOrEmpty (getProp (Some item) "recycle_components"))
   ++ map (linkOfEntry "recycle_from" "item" itemId)
          (arrayOrEmpty (getProp (Some item) "recycle_from"))
   ++ map (linkOfEntry "used_in" "item" itemId)
          (arrayOrEmpty (getProp (Some item) "used_in"))
   ++ map (linkOfSeller itemId) (arrayOrEmpty (getProp (Some item) "sold_by")))%list.

Definition itemRowOf (fetchedAt : string) (id : string) (item : JsonValue) : ItemRow :=
  let statBlock := toRecord (getProp (Some item) "stat_block") in
  {| row_id := id;
     row_name := textOrNull (getProp (Some item) "name");
     row_item_type := textOrNull (getProp (Some item) "item_type");
     row_rarity := textOrNull (getProp (Some item) "rarity");
     row_value := numberOrUndefined (getProp (Some item) "value");
     row_weight := numberOrUndefined (getProp statBlock "weight")
                   ?? numberOrUndefined (getProp (Some item) "weight");
     row_icon := textOrNull (getProp (Some item) "icon");
     row_updated_at := textOrNull (getProp (Some item) "updated_at");
     row_cached_at := fetchedAt;
     row_raw_json := WellFormed (JSON_stringify item) |}.

(** One turn of the loop over [rawItems]. *)
Definition persistItem (fetchedAt : string) (item : JsonValue) : DbM unit :=
  match textOrNull (getProp (Some item) "id") with
  | None => ret tt
  | Some id =>
      insertItem (itemRowOf fetchedAt id item) ;;;
      forEach insertLink (extractLinks id item)
  end.

Definition rawItemsOf (fetchResult : SourceFetchResult) : list JsonValue :=
  filter (fun item => isObjectLike (Some item) = true) (fetch_itemsRaw fetchResult).

Definition persistFetchResult (fetchResult : SourceFetchResult) : DbM unit :=
  let rawItems := rawItemsOf fetchResult in
  prepare ;;;
  prepare ;;;
  prepare ;;;
  execBegin ;;;
  tryCatchRethrow
    (deleteLinks ;;;
     deleteItems ;;;
     forEach (persistItem (fetch_fetchedAt fetchResult)) rawItems ;;;
     writeState {| last_synced_at := fetch_fetchedAt fetchResult;
                   version := fetch_versionOrCommit fetchResult;
                   item_count := length rawItems |} ;;;
     execCommit)
    execRollback.

(** [stale] in [ensureFreshMetaForgeSnapshot], for the sync state read. *)
Definition isStale (nowMs syncIntervalMs : float) (state : option SyncStateRow) : bool :=
  match state with
  | None => true
  | Some state => (syncIntervalMs <=? nowMs - dateToMs (last_synced_at state))%float
  end.

(** [ensureFreshMetaForgeSnapshot]: [nowMs] is [Date.now()] and [fetched]
    what [metaforgeConnector.fetchRaw()] settles to if it is called. *)
Definition ensureFreshMetaForgeSnapshot (nowMs syncIntervalMs : float)
    (fetched : FetchOutcome) : DbM unit :=
  state <- getSyncState ;;
  if negb (isStale nowMs syncIntervalMs state) then ret tt
  else
    match fetched with
    | FetchRejected reason => fun db => (Thrown (reasonMessage reason), db)
    | FetchFulfilled fetchResult => persistFetchResult fetchResult
    end.

(** What [buildMetaForgeDataFromStore] makes of the sync state and the
    items it has read; [clock n] is the n-th reading of
    [new Date().toISOString()]. *)
Definition responseOf (fuzzyMatchThreshold : float) (clock : nat -> string)
    (state : option SyncStateRow) (itemsRaw : list JsonValue) : DiffDataResponse :=
  let resultLike :=
    {| fetch_sourceId := metaforge;
       fetch_fetchedAt := default (clock 0) (last_synced_at <$> state);
       fetch_versionOrCommit := default "unknown" (version <$> state);
       fetch_itemsRaw := itemsRaw |} in
  let normalized := normalizeSourceFetch resultLike in
  let summary :=
    {| summary_sourceId := metaforge;
       summary_fetchedAt := fetch_fetchedAt resultLike;
       summary_versionOrCommit := fetch_versionOrCommit resultLike;
       summary_itemCount := length normalized;
       summary_error := None |} in
  {| generatedAt := clock (match state with Some _ => 0 | None => 1 end);
     enabledSources := [metaforge];
     sourceSummaries := [summary];
     canonicalItems :=
       mergeAndDiffItems {[metaforge := normalized]} [metaforge] fuzzyMatchThreshold |}.

(** [buildMetaForgeDataFromStore], from [getDb()] to the response. *)
Definition buildMetaForgeDataFromStore (nowMs syncIntervalMs fuzzyMatchThreshold : float)
    (clock : nat -> string) (fetched : FetchOutcome) (store : Store)
    : Outcome DiffDataResponse * Store :=
  match getDb store with
  | (Thrown error, store') => (Thrown error, store')
  | (Returned _, store') =>
      let run :=
        (ensureFreshMetaForgeSnapshot nowMs syncIntervalMs fetched ;;;
         state <- getSyncState ;;
         itemsRaw <- readItemsRaw ;;
         ret (responseOf fuzzyMatchThreshold clock state itemsRaw))
          (database store') in
      (run.1, {| opened := opened store'; database := run.2 |})
  end.

End Store.

(* ================================================================= *)
(** ** Configuration (server/config.ts) *)

(** [s.split(sep)] for a one-character separator: the pieces between the
    separators, one more than there are separators. *)
Fixpoint splitOn (sep : ascii) (l : list ascii) : list (list ascii) :=
  match l with
  | [] => [[]]
  | c :: r =>
      if Ascii.eqb c sep then [] :: splitOn sep r
      else
        match splitOn sep r with
        | piece :: pieces => (c :: piece) :: pieces
        | [] => [[c]]
        end
  end.

Definition split (sep : ascii) (s : string) : list string :=
  map stringOfList (splitOn sep (listOfString s)).

(** [ALL_SOURCES.includes(value)], with the provider the text names. *)
Definition sourceIdOfText (value : string) : option SourceId :=
  if String.eqb value "ardb" then Some ardb
  else if String.eqb value "metaforge" then Some metaforge
  else if String.eqb value "raidtheory" then Some raidtheory
  else if String.eqb value "mahcks" then Some mahcks
  else None.

Definition defaultSources : list SourceId := [ardb; metaforge; raidtheory].

Definition parseEnabledSources (raw : option string) : list SourceId :=
  match raw with
  | None => defaultSources
  | Some text =>
      if isEmptyString text then defaultSources
      else
        let parsed :=
          omap sourceIdOfText
               (map (fun value => toLowerCase (trim value)) (split "," text)) in
        if 0 <? length parsed then parsed else defaultSources
  end.

Definition parseHostAllowList (raw : option string) (fallback : list string) : list string :=
  match raw with
  | None => fallback
  | Some text =>
      if isEmptyString text then fallback
      else
        let parsed :=
          filter (fun value => isEmptyString value = false)
                 (map (fun value => toLowerCase (trim value)) (split "," text)) in
        if 0 <? length parsed then parsed else fallback
  end.

Definition asBoolean (value : option string) (fallback : bool) : bool :=
  match value with
  | None => fallback
  | Some text =>
      if isEmptyString text then fallback
      else
        let normalized := toLowerCase (trim text) in
        if bool_decide (normalized ∈ ["1"; "true"; "yes"; "on"]) then true
        else if bool_decide (normalized ∈ ["0"; "false"; "no"; "off"]) then false
        else fallback
  end.

Section Config.
Context {P : Platform}.

Definition asNumber (value : option string) (fallback : float) : float :=
  match value with
  | None => fallback
  | Some text =>
      if isEmptyString text then fallback
      else
        let parsed := stringToNumber text in
        if isFinite parsed then parsed else fallback
  end.

End Config.

(* ================================================================= *)
(** ** The worker pool (server/lib/concurrency.ts) *)

(** [Math.min] and [Math.max] of two numbers: NaN if either is NaN, and
    [-0] below [+0]. *)
Definition isNegativeZero (x : float) : bool :=
  match Prim2SF x with S754_zero true => true | _ => false end.

Definition Math_min (a b : float) : float :=
  if PrimFloat.is_nan a || PrimFloat.is_nan b then PrimFloat.nan
  else if PrimFloat.ltb a b then a
  else if PrimFloat.ltb b a then b
  else if isNegativeZero a then a else b.

Definition Math_max (a b : float) : float :=
  if PrimFloat.is_nan a || PrimFloat.is_nan b then PrimFloat.nan
  else if PrimFloat.ltb a b then b
  else if PrimFloat.ltb b a then a
  else if isNegativeZero a then b else a.

(** [ToLength] of the [length] property that [Array.from] reads: NaN and
    negative numbers give 0, a fraction is truncated, and the result is at
    most 2^53 - 1. *)
Definition toLength (x : float) : nat :=
  match Prim2SF x with
  | S754_finite false m e =>
      Z.to_nat (Z.min (2 ^ 53 - 1)
                      (if (0 <=? e)%Z then Z.pos m * 2 ^ e else Z.pos m / 2 ^ (- e)))
  | S754_infinity false => Z.to_nat (2 ^ 53 - 1)
  | _ => 0
  end.

(** [size], as the number of workers that [Array.from] starts.  The
    length of an array is below 2^32, and so is [size]. *)
Definition workerCount (concurrency : float) (valuesLength : nat) : nat :=
  toLength
    (Math_max 1 (Math_min concurrency
                          (floatOfNat (if valuesLength =? 0 then 1 else valuesLength)))).

Section Pool.
Context {T R : Type}.

(** What the promise the mapper returns for an index settles to. *)
Inductive MapperOutcome :=
| Resolves (result : R)
| Rejects (reason : RejectionReason).

(** A worker is suspended at its [await], has left its loop, or has
    thrown what its awaited promise was rejected with. *)
Inductive Worker :=
| Awaiting (current : nat)
| WorkerDone
| WorkerFailed (reason : RejectionReason).

(** The variables the workers share.  [results] starts as [new Array(n)],
    [None] being a slot not assigned yet; [mapperCalls] lists the
    arguments of the mapper's calls in the order made; [failure] is the
    first rejection of a worker, which is what [Promise.all] rejects with. *)
Record Pool := {
  nextIndex : nat;
  results : list (option R);
  workers : list Worker;
  mapperCalls : list (option T * nat);
  failure : option RejectionReason
}.

Variable values : list T.
Variable respond : nat -> MapperOutcome.

(** A worker at the head of its loop, run up to its next [await]. *)
Definition claim (pool : Pool) : Worker * Pool :=
  if nextIndex pool <? length values then
    let current := nextIndex pool in
    (Awaiting current,
     {| nextIndex := current + 1;
        results := results pool;
        workers := workers pool;
        mapperCalls := mapperCalls pool ++ [(values !! current, current)];
        failure := failure pool |})
  else (WorkerDone, pool).

Definition withWorkers (ws : list Worker) (pool : Pool) : Pool :=
  {| nextIndex := nextIndex pool; results := results pool; workers := ws;
     mapperCalls := mapperCalls pool; failure := failure pool |}.

(** [Array.from({ length: size }, async () => ...)]: the workers start one
    after the other, each running up to its first [await]. *)
Fixpoint startWorkers (size : nat) (pool : Pool) : Pool :=
  match size with
  | 0 => pool
  | S size' =>
      let '(worker, pool') := claim pool in
      startWorkers size' (withWorkers (workers pool' ++ [worker]) pool')
  end.

Definition mapWithConcurrency_start (concurrency : float) : Pool :=
  startWorkers (workerCount concurrency (length values))
    {| nextIndex := 0; results := replicate (length values) None;
       workers := []; mapperCalls := []; failure := None |}.

(** The promise that worker [w] awaits settles: the worker stores the
    result and goes round its loop, or throws the rejection. *)
Definition settle (w : nat) (pool : Pool) : Pool :=
  match workers pool !! w with
  | Some (Awaiting current) =>
      match respond current with
      | Resolves result =>
          let '(worker, pool') :=
            claim {| nextIndex := nextIndex pool;
                     results := <[current := Some result]> (results pool);
                     workers := workers pool;
                     mapperCalls := mapperCalls pool;
                     failure := failure pool |} in
          withWorkers (<[w := worker]> (workers pool')) pool'
      | Rejects reason =>
          {| nextIndex := nextIndex pool;
             results := results pool;
             workers := <[w := WorkerFailed reason]> (workers pool);
             mapperCalls := mapperCalls pool;
             failure := match failure pool with
                        | Some first => Some first
                        | None => Some reason
                        end |}
      end
  | _ => pool
  end.

(** The promises settle in the order of a schedule of worker numbers. *)
Definition settleAll (schedule : list nat) (pool : Pool) : Pool :=
  fold_left (fun pool w => settle w pool) schedule pool.

Definition isDone (worker : Worker) : bool :=
  match worker with WorkerDone => true | _ => false end.

(** The call's promise: [Promise.all] rejects with the first rejection of
    a worker and is fulfilled once every worker has returned. *)
Inductive PoolOutcome :=
| PoolPending
| PoolFulfilled (value : list (option R))
| PoolRejected (reason : RejectionReason).

Definition mapWithConcurrency_outcome (pool : Pool) : PoolOutcome :=
  match failure pool with
  | Some reason => PoolRejected reason
  | None => if forallb isDone (workers pool) then PoolFulfilled (results pool) else PoolPending
  end.

Definition isAwaiting (worker : Worker) : bool :=
  match worker with Awaiting _ => true | _ => false end.

(** Every entry of a schedule names a worker that is suspended when its
    turn comes. *)
Fixpoint awaitsEach (schedule : list nat) (pool : Pool) : bool :=
  match schedule with
  | [] => true
  | w :: rest =>
      match workers pool !! w with
      | Some (Awaiting _) => awaitsEach rest (settle w pool)
      | _ => false
      end
  end.

End Pool.

Arguments MapperOutcome : clear implicits.
Arguments Pool : clear implicits.
Arguments PoolOutcome : clear implicits.

(* ================================================================= *)
(** ** Dataset versions (server/connectors/ardb.ts, metaforge.ts) *)

Section Connectors.
Context {P : Platform}.

(** [String(v)] of a parsed JSON value; inside an array, [null] prints as
    the empty string. *)
Fixpoint jsString (v : JsonValue) : string :=
  match v with
  | JNull => "null"
  | JBool b => if b then "true" else "false"
  | JNumber x => numberToString x
  | JString s => s
  | JArray elements =>
      join "," (map (fun element =>
                       match element with
                       | JNull => ""
                       | _ => jsString element
                       end) elements)
  | JObject _ => "[object Object]"
  end.

(** The order of [sort()] without a comparator: by the code units of the
    elements' strings. *)
Definition defaultOrder (a b : JsonValue) : Z :=
  match String.compare (jsString a) (jsString b) with
  | Lt => -1
  | Eq => 0
  | Gt => 1
  end.

Definition isNull (v : JsonValue) : bool :=
  match v with JNull => true | _ => false end.

(** [pickVersion], for the field that holds the time of an item's last
    update: [updatedAt] for ARDB, [updated_at] for MetaForge.  Reading the
    field of [null] throws a [TypeError]. *)
Definition pickVersion (field : string) (items : list JsonValue) : Outcome JsonValue :=
  if existsb isNull items
  then Thrown ("Cannot read properties of null (reading '" +:+ field +:+ "')")
  else
    let timestamps :=
      arraySort defaultOrder
        (omap (fun value => if truthy value then value else None)
              (map (fun item => getProp (Some item) field) items)) in
    match last timestamps with
    | None => Returned (JString "unknown")
    | Some latest => Returned latest
    end.

End Connectors.

(* ================================================================= *)
(** ** A host for closed examples *)

(** The default (root) collation restricted to ASCII: strings are compared
    by the primary weights of their characters (white space, punctuation,
    symbols, digits, letters without regard to case, in this order), and
    strings equal at that level by case, lower case first.  Control
    characters carry no weight. *)
Definition collationOrder : list nat :=
  [9; 10; 11; 12; 13; 32; 95; 45; 44; 59; 58; 33; 63; 46; 39; 34; 40; 41; 91; 93;
   123; 125; 64; 42; 47; 92; 38; 35; 37; 96; 94; 43; 60; 61; 62; 124; 126; 36;
   48; 49; 50; 51; 52; 53; 54; 55; 56; 57].

Fixpoint positionIn (n : nat) (l : list nat) (from : nat) : option nat :=
  match l with
  | [] => None
  | m :: r => if n =? m then Some from else positionIn n r (S from)
  end.

Definition primaryWeight (c : ascii) : option nat :=
  let n := nat_of_ascii (lowerChar c) in
  if (97 <=? n) && (n <=? 122) then Some (100 + (n - 97))
  else if 128 <=? n then Some (200 + n)
  else positionIn n collationOrder 0.

Definition tertiaryWeight (c : ascii) : nat :=
  let n := nat_of_ascii c in
  if (65 <=? n) && (n <=? 90) then 1 else 0.

Definition isWeighted (c : ascii) : bool :=
  bool_decide (is_Some (primaryWeight c)).

Fixpoint lexCompare (a b : list nat) : comparison :=
  match a, b with
  | [], [] => Eq
  | [], _ :: _ => Lt
  | _ :: _, [] => Gt
  | x :: a', y :: b' =>
      match Nat.compare x y with
      | Eq => lexCompare a' b'
      | c => c
      end
  end.

Definition collationKey (s : string) : list nat * list nat :=
  let weighted := filter (fun c => isWeighted c = true) (listOfString s) in
  (omap primaryWeight weighted, map tertiaryWeight weighted).

Definition compareKeys (a b : list nat * list nat) : comparison :=
  match lexCompare a.1 b.1 with
  | Eq => lexCompare a.2 b.2
  | c => c
  end.

Definition signOf (c : comparison) : Z :=
  match c with Lt => -1 | Eq => 0 | Gt => 1 end.

Definition rootCollation (a b : string) : Z :=
  signOf (compareKeys (collationKey a) (collationKey b)).

(** The integer a float stands for, if it is one. *)
Definition integerValue (x : float) : option Z :=
  match Prim2SF x with
  | S754_zero _ => Some 0%Z
  | S754_finite s m e =>
      let magnitude :=
        if (0 <=? e)%Z then Some (Z.pos m * 2 ^ e)%Z
        else if (Z.pos m mod 2 ^ (- e) =? 0)%Z then Some (Z.pos m / 2 ^ (- e))%Z
        else None in
      (fun v => if s then (- v)%Z else v) <$> magnitude
  | _ => None
  end.

Definition printZ (n : Z) : string := NilZero.string_of_int (Z.to_int n).

(** Number printing, exact on integers below 10^21; a fraction is shown
    by its binary mantissa and exponent, which is not JavaScript's decimal
    print but tells numbers apart all the same. *)
Definition printNumber (x : float) : string :=
  match integerValue x with
  | Some n => printZ n
  | None =>
      match Prim2SF x with
      | S754_finite s m e => printZ (if s then Z.neg m else Z.pos m) +:+ "p" +:+ printZ e
      | S754_infinity s => if s then "-Infinity" else "Infinity"
      | _ => "NaN"
      end
  end.

Fixpoint digitsValue (l : list ascii) (acc : nat) : option nat :=
  match l with
  | [] => Some acc
  | c :: r =>
      let n := nat_of_ascii c in
      if (48 <=? n) && (n <=? 57) then digitsValue r (10 * acc + (n - 48)) else None
  end.

(** Number parsing for integer literals, with an optional minus sign; the
    empty string is 0 and everything else is taken as [NaN]. *)
Definition parseNumber (s : string) : float :=
  match listOfString (trim s) with
  | [] => 0%float
  | "-"%char :: ((_ :: _) as digits) =>
      match digitsValue digits 0 with
      | Some n => PrimFloat.opp (floatOfNat n)
      | None => nan
      end
  | digits =>
      match digitsValue digits 0 with
      | Some n => floatOfNat n
      | None => nan
      end
  end.

(** A host with the collation above, for evaluating the code on concrete
    inputs; a date is read as its epoch milliseconds written in decimal. *)
Definition asciiHost : Platform :=
  {| localeCompare := rootCollation;
     numberToString := printNumber;
     stringToNumber := parseNumber;
     dateToMs := parseNumber |}.

(* ================================================================= *)
(** ** Sample inputs *)

(** A provider record with a name and nothing else. *)
Definition namedItem (sourceId : SourceId) (name : string) : SourceItem :=
  {| item_sourceId := sourceId; item_sourceItemId := None; item_name := Some name;
     item_type := None; item_rarity := None; item_value := None; item_weight := None;
     item_inputs := None; item_outputs := None; item_raw := JNull |}.

(** A provider record with every scalar field and a one-part recipe. *)
Definition fullItem (sourceId : SourceId) (name type rarity : string)
    (value weight : float) (ingredient : string) : SourceItem :=
  {| item_sourceId := sourceId; item_sourceItemId := Some name; item_name := Some name;
     item_type := Some type; item_rarity := Some rarity;
     item_value := Some value; item_weight := Some weight;
     item_inputs := Some [{| part_itemId := Some ingredient; part_name := None;
                             part_amount := 1 |}];
     item_outputs := None; item_raw := JNull |}.

(** A canonical item holding the given records. *)
Definition canonicalOf (entries : list (SourceId * SourceItem)) : CanonicalItem :=
  {| canonicalId := "canonical-1"; nameKey := "sample"; displayName := "Sample";
     bySource := list_to_map entries; matchDetails := ∅; diffReport := emptyReport |}.

(** Two providers that price the same item at 1e308 and at -1e308. *)
Definition extremeValues : CanonicalItem :=
  canonicalOf
    [(ardb, fullItem ardb "Relic" "misc" "rare" 1e308 1 "scrap");
     (metaforge, fullItem metaforge "Relic" "misc" "rare" (-1e308) 1 "scrap")].

(** Two providers that disagree on every field. *)
Definition disagreeing : CanonicalItem :=
  canonicalOf
    [(ardb, fullItem ardb "Relic" "misc" "rare" 10 1 "scrap");
     (metaforge, fullItem metaforge "Relic Mk2" "gear" "epic" 20 2 "wire")].




Definition partWithId (id : string) (amount : float) : RecipePart :=
  {| part_itemId := Some id; part_name := None; part_amount := amount |}.

(** One provider listing two items whose names differ in case only. *)
Definition caseTwins : gmap SourceId (list SourceItem) :=
  {[ardb := [namedItem ardb "Apple"; namedItem ardb "apple"]]}.

(** Two providers with an item each, one of them priced. *)
Definition twoProviders : gmap SourceId (list SourceItem) :=
  {[ardb := [namedItem ardb "Wire"; namedItem ardb "Battery"];
    metaforge := [fullItem metaforge "Wire" "material" "common" 5 1 "copper"]]}.

(** The resolver's state after one provider has listed one item. *)
Definition afterOne (name : string) : ResolverState :=
  resolveSources {[ardb := [namedItem ardb name]]} [ardb] 0.93.

(** A fetch that returns one raw item with the given id and name. *)
Definition fetchOf (sourceId : SourceId) (id name : string) : SourceFetchResult :=
  {| fetch_sourceId := sourceId;
     fetch_fetchedAt := "2024-01-01T00:00:00.000Z";
     fetch_versionOrCommit := "v1";
     fetch_itemsRaw := [JObject [("id", JString id); ("name", JString name)]] |}.

Definition sampleClock (n : nat) : string := "2024-01-02T00:00:0" +:+ natToString n +:+ ".000Z".

(** Three providers asked, the second of which fails. *)
Definition twoOfThree : list (SourceId * FetchOutcome) :=
  [(ardb, FetchFulfilled (fetchOf ardb "wire" "Wire"));
   (metaforge, FetchRejected (ReasonError "HTTP 503"));
   (raidtheory, FetchFulfilled (fetchOf raidtheory "wire" "Wire"))].

(** One provider asked twice; its first fetch fails, its second succeeds. *)
Definition askedTwice : list (SourceId * FetchOutcome) :=
  [(ardb, FetchRejected (ReasonError "HTTP 503"));
   (ardb, FetchFulfilled (fetchOf ardb "wire" "Wire"))].

(** A fetch whose two raw items share the id "wire". *)
Definition fetchWithRepeatedId : SourceFetchResult :=
  {| fetch_sourceId := metaforge;
     fetch_fetchedAt := "2024-01-03T00:00:00.000Z";
     fetch_versionOrCommit := "v2";
     fetch_itemsRaw := [JObject [("id", JString "wire"); ("name", JString "Wire")];
                        JObject [("id", JString "wire"); ("name", JString "Copper wire")]] |}.

(** A store that holds the snapshot of an earlier sync, and no open
    transaction; [faults] is its fault schedule. *)
Definition storeWithSnapshot (faults : option nat) (rollsBack : bool) : Db :=
  {| committed :=
       {| metaforge_items :=
            [{| row_id := "scrap"; row_name := Some "Scrap"; row_item_type := None;
                row_rarity := None; row_value := None; row_weight := None;
                row_icon := None; row_updated_at := None;
                row_cached_at := "2023-12-31T00:00:00.000Z";
                row_raw_json := WellFormed (JObject [("id", JString "scrap");
                                                     ("name", JString "Scrap")]) |}];
          metaforge_item_links := [];
          metaforge_sync_state :=
            Some {| last_synced_at := "2023-12-31T00:00:00.000Z"; version := "v0";
                    item_count := 1 |} |};
     transaction := None;
     faultAfter := faults;
     faultRollsBack := rollsBack |}.

(** A module whose database is open and holds the snapshot of a sync at
    the given time, a text the sample host reads as milliseconds. *)
Definition storeSyncedAt (lastSyncedAt : string) (faults : option nat) (rollsBack : bool)
    : Store :=
  {| opened := true;
     database :=
       {| committed :=
            {| metaforge_items :=
                 metaforge_items (committed (storeWithSnapshot faults rollsBack));
               metaforge_item_links := [];
               metaforge_sync_state :=
                 Some {| last_synced_at := lastSyncedAt; version := "v0";
                         item_count := 1 |} |};
          transaction := None;
          faultAfter := faults;
          faultRollsBack := rollsBack |} |}.

(* ================================================================= *)
(** ** Vocabulary of the statements *)

(** [flag ? weight : 0]. *)
Definition flagWeight (flag : bool) (weight : Z) : Z := if flag then weight else 0%Z.

(** The weighted sum the severity is clamped from. *)
Definition severitySum (r : DiffReport) : Z :=
  (18 * Z.of_nat (length (missingIn r))
   + flagWeight (differs_name (fieldDiffers r)) 10
   + flagWeight (differs_type (fieldDiffers r)) 8
   + flagWeight (differs_rarity (fieldDiffers r)) 8
   + flagWeight (differs_value (fieldDiffers r)) 12
   + flagWeight (differs_weight (fieldDiffers r)) 12
   + flagWeight (recipeDiffers r) 20)%Z.

(** [a] may stand before [b] under the comparator [cmp]. *)
Definition mayPrecede {A} (cmp : A -> A -> Z) (a b : A) : Prop := (cmp a b <= 0)%Z.

(** The records the canonical items hold for a provider, one item after the
    other. *)
Definition entriesOf (sourceId : SourceId) (cs : list CanonicalItem) : list SourceItem :=
  omap (fun c => bySource c !! sourceId) cs.

(** What the provider list makes of provider [p]'s items: one copy for each
    time [p] is listed. *)
Definition listedItems (normalizedBySource : gmap SourceId (list SourceItem))
    (sources : list SourceId) (p : SourceId) : list SourceItem :=
  flat_map (fun s => if decide (s = p) then default [] (normalizedBySource !! s) else [])
           sources.

(** Every position the name index holds is a position of [canonicalItems]. *)
Definition indexInRange (st : ResolverState) : Prop :=
  forall key positions i,
    rs_index st !! key = Some positions -> i ∈ positions -> i < length (rs_items st).

(** The canonical items the fuzzy loop scores for a provider: those without
    an entry for it whose key is no id-key. *)
Definition fuzzyEligible (sourceId : SourceId) (c : CanonicalItem) : Prop :=
  hasSource c sourceId = false /\ startsWith (nameKey c) "id:" = false.

(** [c], at position [i], is the first of the best-scoring eligible items:
    none scores higher and every earlier one scores lower. *)
Definition firstBest (sourceId : SourceId) (key : string) (cs : list CanonicalItem)
    (i : nat) (c : CanonicalItem) : Prop :=
  cs !! i = Some c /\ fuzzyEligible sourceId c
  /\ (forall j c', cs !! j = Some c' -> fuzzyEligible sourceId c' ->
        (similarity key (nameKey c) <? similarity key (nameKey c'))%float = false)
  /\ (forall j c', j < i -> cs !! j = Some c' -> fuzzyEligible sourceId c' ->
        (similarity key (nameKey c) <=? similarity key (nameKey c'))%float = false).

(** How often [t] occurs in [l]. *)
Fixpoint countOf (t : string) (l : list string) : nat :=
  match l with
  | [] => 0
  | x :: r => (if decide (x = t) then 1 else 0) + countOf t r
  end.

(** The size of the multiset intersection of two token lists, following the
    spec's words: every distinct token counts as often as it occurs in
    both. *)
Definition multisetIntersection (l r : list string) : nat :=
  sum_list (map (fun t => Nat.min (countOf t l) (countOf t r)) (remove_dups r)).

(** [result.status === 'fulfilled']. *)
Definition isFulfilled (fetch : SourceId * FetchOutcome) : bool :=
  match fetch.2 with
  | FetchFulfilled _ => true
  | FetchRejected _ => false
  end.

(** Inside a transaction: the committed tables are [c], the working copy [t]. *)
Definition inTransaction (db : Db) (c t : Tables) : Prop :=
  committed db = c /\ transaction db = Some t.

(** What a statement does to the working copy; [None] for a statement that
    throws.  A statement that throws leaves the committed tables alone. *)
Definition effectOn {A} (m : DbM A) (effect : Tables -> option Tables) : Prop :=
  forall db c t,
    inTransaction db c t ->
    match m db with
    | (Returned _, db') => exists t', effect t = Some t' /\ inTransaction db' c t'
    | (Thrown _, db') => committed db' = c
    end.

(** The effect of a loop is the effects of its turns in sequence. *)
Fixpoint effects {A} (effect : A -> Tables -> option Tables) (xs : list A)
    (t : Tables) : option Tables :=
  match xs with
  | [] => Some t
  | x :: rest => effect x t ≫= effects effect rest
  end.

(** A computation that, started with no transaction open, ends with none
    open, having either replaced the committed tables by [final] or thrown
    and left them as they were. *)
Definition atomicWith (m : DbM unit) (final : Tables) : Prop :=
  forall db,
    transaction db = None ->
    match m db with
    | (Returned _, db') => transaction db' = None /\ committed db' = final
    | (Thrown _, db') => committed db' = committed db /\ transaction db' = None
    end.

(** A computation that ends by committing. *)
Definition commitsWith (m : DbM unit) (effect : Tables -> option Tables) : Prop :=
  forall db c t,
    inTransaction db c t ->
    match m db with
    | (Returned _, db') =>
        exists t', effect t = Some t' /\ committed db' = t' /\ transaction db' = None
    | (Thrown _, db') => committed db' = c
    end.

(** The effects of the two inserts, with their constraints. *)
Definition insertItemEffect (row : ItemRow) (t : Tables) : option Tables :=
  if hasItemId (row_id row) (metaforge_items t) then None
  else Some {| metaforge_items := (metaforge_items t ++ [row])%list;
               metaforge_item_links := metaforge_item_links t;
               metaforge_sync_state := metaforge_sync_state t |}.

Definition insertLinkEffect (row : LinkRow) (t : Tables) : option Tables :=
  if hasItemId (link_item_id row) (metaforge_items t)
  then Some {| metaforge_items := metaforge_items t;
               metaforge_item_links := (metaforge_item_links t ++ [row])%list;
               metaforge_sync_state := metaforge_sync_state t |}
  else None.

Section Vocabulary.
Context {P : Platform}.

(** The order [mergeAndDiffItems] sorts by: higher severity first, and among
    equal severities the display names in [localeCompare] order. *)
Definition outputOrder (left right : CanonicalItem) : Prop :=
  (severity (diffReport right) < severity (diffReport left))%Z
  \/ (severity (diffReport left) = severity (diffReport right)
      /\ (localeCompare (displayName left) (displayName right) <= 0)%Z).

(** The summary a fetch gets. *)
Definition summaryMatches (fetch : SourceId * FetchOutcome)
    (summary : SourceSummary) : Prop :=
  summary_sourceId summary = fetch.1
  /\ match fetch.2 with
     | FetchFulfilled value =>
         summary_fetchedAt summary = fetch_fetchedAt value
         /\ summary_versionOrCommit summary = fetch_versionOrCommit value
         /\ summary_itemCount summary = length (normalizeSourceFetch value)
         /\ summary_error summary = None
     | FetchRejected reason =>
         summary_versionOrCommit summary = "unavailable"
         /\ summary_itemCount summary = 0
         /\ summary_error summary = Some (reasonMessage reason)
     end.

(** The rows a resync writes: one per raw item with an id, in order. *)
Definition persistedRows (fetchResult : SourceFetchResult) : list ItemRow :=
  omap (fun item =>
          (fun id => itemRowOf (fetch_fetchedAt fetchResult) id item)
            <$> textOrNull (getProp (Some item) "id"))
       (rawItemsOf fetchResult).

(** The links a resync writes: those of every raw item with an id. *)
Definition persistedLinks (fetchResult : SourceFetchResult) : list LinkRow :=
  flat_map (fun item =>
              match textOrNull (getProp (Some item) "id") with
              | Some id => extractLinks id item
              | None => []
              end)
           (rawItemsOf fetchResult).

(** The sync state a resync writes. *)
Definition persistedState (fetchResult : SourceFetchResult) : SyncStateRow :=
  {| last_synced_at := fetch_fetchedAt fetchResult;
     version := fetch_versionOrCommit fetchResult;
     item_count := length (rawItemsOf fetchResult) |}.

(** The statements of [persistFetchResult] in their order, without the
    catch branch: what they throw is the error of the statement that
    fails. *)
Definition resyncStatements (fetchResult : SourceFetchResult) : DbM unit :=
  prepare ;;;
  prepare ;;;
  prepare ;;;
  execBegin ;;;
  deleteLinks ;;;
  deleteItems ;;;
  forEach (persistItem (fetch_fetchedAt fetchResult)) (rawItemsOf fetchResult) ;;;
  writeState (persistedState fetchResult) ;;;
  execCommit.

(** The effect of one turn of the loop over the raw items. *)
Definition persistItemEffect (fetchedAt : string) (item : JsonValue) (t : Tables)
    : option Tables :=
  match textOrNull (getProp (Some item) "id") with
  | None => Some t
  | Some id =>
      insertItemEffect (itemRowOf fetchedAt id item) t
        ≫= effects insertLinkEffect (extractLinks id item)
  end.

(** The writes of a resync, as one effect on the working copy. *)
Definition resyncEffect (fetchResult : SourceFetchResult) (t : Tables) : option Tables :=
  effects (persistItemEffect (fetch_fetchedAt fetchResult)) (rawItemsOf fetchResult)
          {| metaforge_items := []; metaforge_item_links := [];
             metaforge_sync_state := metaforge_sync_state t |}
  ≫= fun t' => Some {| metaforge_items := metaforge_items t';
                       metaforge_item_links := metaforge_item_links t';
                       metaforge_sync_state := Some (persistedState fetchResult) |}.

End Vocabulary.

(** Proof tools: the three cases of the fault schedule, the facts of an
    open transaction, and case analysis on the comparison of two floats. *)

Ltac statement_cases db :=
  unfold statement; destruct (faultAfter db) as [[|?]|]; cbn.

Ltac in_transaction :=
  match goal with
  | H : inTransaction ?db _ _ |- _ =>
      let Hc := fresh "Hc" in let Ht := fresh "Ht" in
      destruct H as [Hc Ht]; unfold currentTables, withTables; cbn;
      try rewrite Ht; cbn
  end.

Ltac sf_compare_cases :=
  repeat match goal with
  | |- context [Z.compare ?a ?b] => destruct (Z.compare_spec a b); subst
  | H : context [Z.compare ?a ?b] |- _ => destruct (Z.compare_spec a b); subst
  | |- context [PosDef.Pos.compare_cont Eq ?a ?b] =>
      change (PosDef.Pos.compare_cont Eq a b) with (Pos.compare a b);
      destruct (Pos.compare_spec a b); subst
  | H : context [PosDef.Pos.compare_cont Eq ?a ?b] |- _ =>
      change (PosDef.Pos.compare_cont Eq a b) with (Pos.compare a b) in H;
      destruct (Pos.compare_spec a b); subst
  end.

Ltac sf_solve :=
  cbn in *; try congruence; try lia; sf_compare_cases; cbn in *; try congruence; try lia.

Ltac sf_destruct x := destruct x as [[]|[]| |[] ? ?].

(* ================================================================= *)
(** ** Vocabulary of the further properties *)

(** [trimList]'s second half computed from the left: [l] without its
    trailing white space. *)
Fixpoint stripEnd (l : list ascii) : list ascii :=
  match l with
  | [] => []
  | c :: r =>
      match stripEnd r with
      | [] => if isWhiteSpace c then [] else [c]
      | kept => c :: kept
      end
  end.

(** Characters a-z and 0-9 and single spaces, not starting with a space if
    [afterSpace]. *)
Fixpoint spaced (l : list ascii) (afterSpace : bool) : bool :=
  match l with
  | [] => true
  | c :: r =>
      if isLowerAlnum c then spaced r false
      else Ascii.eqb c " " && negb afterSpace && spaced r true
  end.

(** Words of a-z and 0-9 with one space between two words: [spaced], and
    not ending in a space; if [afterSpace], a word has to come. *)
Fixpoint wordsFrom (l : list ascii) (afterSpace : bool) : bool :=
  match l with
  | [] => negb afterSpace
  | c :: r =>
      if isLowerAlnum c then wordsFrom r false
      else Ascii.eqb c " " && negb afterSpace && wordsFrom r true
  end.

(** The shape of a match key made from a name: empty, or words of a-z and
    0-9 separated by single spaces. *)
Definition isNormalizedName (s : string) : bool :=
  match listOfString s with
  | [] => true
  | l => wordsFrom l true
  end.

(** The states the resolver goes through: the empty state, and what one
    turn of the inner loop makes of a state, for an item at its position in
    the list of a provider. *)
Inductive reachable (normalizedBySource : gmap SourceId (list SourceItem))
    (fuzzyThreshold : float) : ResolverState -> Prop :=
| reach_start :
    reachable normalizedBySource fuzzyThreshold {| rs_items := []; rs_index := ∅ |}
| reach_step st sourceId itemIndex item :
    reachable normalizedBySource fuzzyThreshold st ->
    default [] (normalizedBySource !! sourceId) !! itemIndex = Some item ->
    reachable normalizedBySource fuzzyThreshold
              (resolveItem sourceId fuzzyThreshold st itemIndex item).

(** The id of the canonical item created at position [i]. *)
Definition canonicalIdAt (i : nat) : string := "canonical-" +:+ natToString (i + 1).

(** An item without a usable name: none, or one without a letter or digit. *)
Definition nameless (item : SourceItem) : bool :=
  isEmptyString (normalizeNameForMatch (default "" (item_name item))).

(** All the items the provider list makes the resolver go through. *)
Definition allListed (normalizedBySource : gmap SourceId (list SourceItem))
    (sources : list SourceId) : list SourceItem :=
  flat_map (fun s => default [] (normalizedBySource !! s)) sources.

(** A canonical item whose records and match details go together: a
    detail for every record and for nothing else, each one an exact match
    of confidence 1 or a fuzzy match, and at least one record. *)
Definition wellMatched (c : CanonicalItem) : Prop :=
  (forall s, is_Some (bySource c !! s) <-> is_Some (matchDetails c !! s))
  /\ (forall s d, matchDetails c !! s = Some d ->
        (method d = MethodExact /\ confidence d = 1%float) \/ method d = MethodFuzzy)
  /\ bySource c <> ∅.

(** The name index lists, for every key, the positions of the canonical
    items with that key, in ascending order. *)
Definition indexedByKey (st : ResolverState) : Prop :=
  (forall key positions i,
     rs_index st !! key = Some positions -> i ∈ positions ->
     exists c, rs_items st !! i = Some c /\ nameKey c = key)
  /\ (forall i c,
        rs_items st !! i = Some c ->
        exists positions, rs_index st !! nameKey c = Some positions /\ i ∈ positions)
  /\ (forall key positions,
        rs_index st !! key = Some positions -> StronglySorted lt positions).

(** A canonical item the exact step may give a record of [sourceId] with
    key [key]: it has that key and no record of the provider yet. *)
Definition exactCandidate (sourceId : SourceId) (key : string) (st : ResolverState)
    (i : nat) : Prop :=
  exists c, rs_items st !! i = Some c /\ nameKey c = key /\ bySource c !! sourceId = None.

(** A canonical item in which a record without a usable name is on its
    own: such a record makes the key an id-key, and an id-key means one
    record, without a usable name, of the provider the key names. *)
Definition namelessAlone (c : CanonicalItem) : Prop :=
  (forall p item, bySource c !! p = Some item -> nameless item = true ->
     startsWith (nameKey c) "id:" = true)
  /\ (startsWith (nameKey c) "id:" = true ->
      exists p item rest,
        bySource c = {[p := item]} /\ nameless item = true
        /\ nameKey c = "id:" +:+ sourceIdText p +:+ ":" +:+ rest).

(** A provider list whose only item has no name and no id. *)
Definition onlyNameless : gmap SourceId (list SourceItem) :=
  {[ardb := [{| item_sourceId := ardb; item_sourceItemId := None; item_name := Some "***";
               item_type := None; item_rarity := None; item_value := None;
               item_weight := None; item_inputs := None; item_outputs := None;
               item_raw := JNull |}];
    metaforge := [{| item_sourceId := metaforge; item_sourceItemId := None;
                     item_name := None; item_type := None; item_rarity := None;
                     item_value := None; item_weight := None; item_inputs := None;
                     item_outputs := None; item_raw := JNull |}]]}.

(** A statement that goes through when no fault is scheduled and its
    effect on the working copy is defined. *)
Definition completes {A} (m : DbM A) (effect : Tables -> option Tables) : Prop :=
  forall db c t t',
    inTransaction db c t -> faultAfter db = None -> effect t = Some t' ->
    exists a db', m db = (Returned a, db') /\ inTransaction db' c t' /\ faultAfter db' = None.

(** The id a raw item is stored under, if it has one. *)
Definition storedId (item : JsonValue) : option string :=
  textOrNull (getProp (Some item) "id").

(** The name a stored raw item is ordered by. *)
Definition storedName (item : JsonValue) : option string :=
  textOrNull (getProp (Some item) "name").

(** [ORDER BY name COLLATE NOCASE] on two names. *)
Definition compareNames (a b : option string) : Z :=
  match a, b with
  | None, None => 0
  | None, Some _ => -1
  | Some _, None => 1
  | Some x, Some y =>
      match String.compare (toLowerCase x) (toLowerCase y) with
      | Lt => -1
      | Eq => 0
      | Gt => 1
      end
  end%Z.

(** A computation that ends by committing and goes through when no fault
    is scheduled and its effect is defined. *)
Definition commitsQuietly (m : DbM unit) (effect : Tables -> option Tables) : Prop :=
  forall db c t t',
    inTransaction db c t -> faultAfter db = None -> effect t = Some t' ->
    exists db', m db = (Returned tt, db') /\ committed db' = t' /\ transaction db' = None
                /\ faultAfter db' = None.

(** A fetch whose three raw items have the names "wire", "Battery" and
    none, and the ids "w", "b" and "n". *)
Definition fetchOfThree : SourceFetchResult :=
  {| fetch_sourceId := metaforge;
     fetch_fetchedAt := "2024-01-03T00:00:00.000Z";
     fetch_versionOrCommit := "v2";
     fetch_itemsRaw := [JObject [("id", JString "w"); ("name", JString "wire")];
                        JObject [("id", JString "b"); ("name", JString "Battery")];
                        JObject [("name", JString "no id")];
                        JObject [("id", JString "n")]] |}.

(** A fetch with an item without id and an item whose weight is not
    finite, as [JSON.parse] reads 1e999. *)
Definition fetchOfWeights : SourceFetchResult :=
  {| fetch_sourceId := metaforge;
     fetch_fetchedAt := "2024-01-03T00:00:00.000Z";
     fetch_versionOrCommit := "v2";
     fetch_itemsRaw := [JObject [("id", JString "w"); ("name", JString "wire")];
                        JObject [("id", JString "b"); ("name", JString "Battery")];
                        JObject [("name", JString "no id")];
                        JObject [("id", JString "n"); ("weight", JNumber infinity)]] |}.

(** The JSON a row holds, a malformed text counting as null. *)
Definition rowJson (row : ItemRow) : JsonValue :=
  match row_raw_json row with
  | WellFormed v => v
  | Malformed _ => JNull
  end.

(** A read: on a connection with no open transaction it returns [value]
    of the committed tables, or throws, which takes a fault; either way
    the tables and the transaction are as before, and without a fault the
    connection is. *)
Definition readsFrom {A} (m : DbM A) (value : Tables -> A) : Prop :=
  forall db,
    transaction db = None ->
    match m db with
    | (Returned a, db') =>
        a = value (committed db)
        /\ committed db' = committed db /\ transaction db' = None
        /\ (faultAfter db = None -> db' = db)
    | (Thrown _, db') =>
        committed db' = committed db /\ transaction db' = None
        /\ is_Some (faultAfter db)
    end.

(** What [readItemsRaw] returns of the tables. *)
Definition itemsIn (t : Tables) : list JsonValue :=
  parsedRows (arraySort compareNoCase (metaforge_items t)).

(** The tables a sync of the fetch leaves. *)
Definition syncedTables `{Platform} (fetchResult : SourceFetchResult) : Tables :=
  {| metaforge_items := persistedRows fetchResult;
     metaforge_item_links := persistedLinks fetchResult;
     metaforge_sync_state := Some (persistedState fetchResult) |}.

(** A computation that leaves the transaction open, when the engine does
    not end it on a fault; and one that does so when it throws. *)
Definition keepsOpen {A} (m : DbM A) : Prop :=
  forall db,
    is_Some (transaction db) -> faultRollsBack db = false ->
    is_Some (transaction (m db).2) /\ faultRollsBack (m db).2 = false.

Definition throwsOpen {A} (m : DbM A) : Prop :=
  forall db,
    is_Some (transaction db) -> faultRollsBack db = false ->
    match m db with
    | (Thrown _, db') => is_Some (transaction db')
    | (Returned _, _) => True
    end.

(** What a refresh makes of the tables when it returns: a store that is
    not stale is left as it was, a stale one holds the fetch. *)
Definition refreshed `{Platform} (nowMs syncIntervalMs : float) (fetched : FetchOutcome)
    (before after : Tables) : Prop :=
  (isStale nowMs syncIntervalMs (metaforge_sync_state before) = false /\ after = before)
  \/ (isStale nowMs syncIntervalMs (metaforge_sync_state before) = true
      /\ exists fetchResult,
           fetched = FetchFulfilled fetchResult /\ after = syncedTables fetchResult).

(** Why the read path throws [error] on [db]: a fault of the engine was
    under way, or the store was stale and the fetch was rejected, [error]
    being its reason, or could not be stored for a repeated id. *)
Definition thrownBecause `{Platform} (nowMs syncIntervalMs : float) (fetched : FetchOutcome)
    (db : Db) (error : string) : Prop :=
  is_Some (faultAfter db)
  \/ (isStale nowMs syncIntervalMs (metaforge_sync_state (committed db)) = true
      /\ match fetched with
         | FetchRejected reason => error = reasonMessage reason
         | FetchFulfilled fetchResult =>
             ~ NoDup (omap (fun item => textOrNull (getProp (Some item) "id"))
                           (rawItemsOf fetchResult))
         end).

(** A value all of whose numbers are finite and none of them [-0]. *)
Fixpoint plainNumbers (v : JsonValue) : bool :=
  match v with
  | JNumber x => isFinite x && negb (isNegativeZero x)
  | JArray elements => forallb plainNumbers elements
  | JObject fields => forallb (fun field => plainNumbers field.2) fields
  | _ => true
  end.

(** A text the normalizer lets through: trimmed and not empty. *)
Definition isTrimmedText (s : string) : Prop := trim s = s /\ s <> "".

Definition trimmedIfAny (value : option string) : Prop :=
  forall s, value = Some s -> isTrimmedText s.

Definition finiteIfAny (value : option float) : Prop :=
  forall x, value = Some x -> isFinite x = true.

(** A recipe part the normalizer lets through: a finite amount and an id
    or a name. *)
Definition isRecipePart (part : RecipePart) : Prop :=
  isFinite (part_amount part) = true
  /\ (is_Some (part_itemId part) \/ is_Some (part_name part)).

(** A list of parts, if given, is not empty and holds recipe parts only. *)
Definition partsIfAny (parts : option (list RecipePart)) : Prop :=
  forall l, parts = Some l -> l <> [] /\ Forall isRecipePart l.

(** An event that does not settle the producer of [key]: a call that
    begins, for any key, or the resumption of a call for another key. *)
Definition leavesPending {V} (key : string) (event : @CacheEvent V) : Prop :=
  match event with
  | CallBegins _ _ _ _ => True
  | CallResumes _ key' _ _ => key' <> key
  end.

(** The item count a fetch contributes to its summary. *)
Definition countedItems `{Platform} (fetch : SourceId * FetchOutcome) : nat :=
  match fetch.2 with
  | FetchFulfilled value => length (normalizeSourceFetch value)
  | FetchRejected _ => 0
  end.


(** A host name as the allow list stores it: not empty, trimmed, in lower
    case and without a comma. *)
Definition isHostEntry (host : string) : Prop :=
  host <> "" /\ trim host = host /\ toLowerCase host = host
  /\ ","%char ∉ listOfString host.

(** How many elements of a list pass a test. *)
Fixpoint countIf {A} (p : A -> bool) (l : list A) : nat :=
  match l with
  | [] => 0
  | x :: r => (if p x then 1 else 0) + countIf p r
  end.

Definition isFilled {R} (slot : option R) : bool :=
  match slot with Some _ => true | None => false end.

Definition isFailed (worker : Worker) : bool :=
  match worker with WorkerFailed _ => true | _ => false end.

Definition awaited (worker : Worker) : option nat :=
  match worker with Awaiting current => Some current | _ => None end.

(** What holds of the shared variables and the workers [W] between two
    steps of the pool: the indices below [nextIndex] are those the mapper
    has been called for, in order; each of them is awaited by one worker,
    or has its result in its slot, or was rejected and has failed its
    worker; the other slots are unassigned. *)
Record poolInv {T R} (values : list T) (respond : nat -> MapperOutcome R)
    (pool : Pool T R) (W : list Worker) : Prop := {
  inv_length : length (results pool) = length values;
  inv_next : nextIndex pool <= length values;
  inv_calls :
    mapperCalls pool = map (fun i => (values !! i, i)) (seq 0 (nextIndex pool));
  inv_unclaimed :
    forall i, nextIndex pool <= i -> i < length values -> results pool !! i = Some None;
  inv_claimed :
    forall i, i < nextIndex pool ->
      Awaiting i ∈ W
      \/ (exists result, respond i = Resolves result /\ results pool !! i = Some (Some result))
      \/ (exists reason, respond i = Rejects reason /\ WorkerFailed reason ∈ W);
  inv_awaiting :
    forall i, Awaiting i ∈ W -> i < nextIndex pool /\ results pool !! i = Some None;
  inv_distinct : NoDup (omap awaited W);
  inv_done : WorkerDone ∈ W -> nextIndex pool = length values;
  inv_failure : failure pool = None -> forall reason, WorkerFailed reason ∉ W;
  inv_rejected :
    forall reason, failure pool = Some reason ->
      exists i, i < nextIndex pool /\ respond i = Rejects reason;
  inv_count :
    countIf isFilled (results pool) + countIf isAwaiting W + countIf isFailed W
    = nextIndex pool
}.

(** Three addresses fetched by two workers. *)
Definition threeUrls : list string := ["a"; "b"; "c"].
Definition fetched (i : nat) : MapperOutcome string :=
  Resolves ("item-" +:+ natToString i).

(** The names of the relations that [extractLinks] writes. *)
Definition linkRelations : list string :=
  ["components"; "recycle_components"; "recycle_from"; "used_in"; "sold_by"].

(** What holds of a link row next to the stored items: its item is
    stored, its relation is one of the five, a seller has no related id,
    and every other link has a finite quantity. *)
Definition isStoredLink (rows : list ItemRow) (link : LinkRow) : Prop :=
  (exists row, row ∈ rows /\ row_id row = link_item_id link)
  /\ link_relation link ∈ linkRelations
  /\ finiteIfAny (link_quantity link)
  /\ trimmedIfAny (link_related_item_id link)
  /\ trimmedIfAny (link_related_name link)
  /\ (if String.eqb (link_relation link) "sold_by"
      then link_related_item_id link = None
      else is_Some (link_quantity link)).

(** A fetch of an item with a component and a seller, and of an object
    without an id. *)
Definition fetchWithLinks : SourceFetchResult :=
  {| fetch_sourceId := metaforge;
     fetch_fetchedAt := "2024-01-03T00:00:00.000Z";
     fetch_versionOrCommit := "v2";
     fetch_itemsRaw :=
       [JObject [("id", JString "gun"); ("name", JString "Gun");
                 ("components",
                  JArray [JObject [("component", JObject [("id", JString "w")]);
                                   ("quantity", JNumber 2)]]);
                 ("sold_by",
                  JArray [JObject [("trader_name", JString "Ana");
                                   ("price", JNumber 10)]])];
        JObject [("name", JString "no id")]] |}.

(** Two lists of recipe parts that hold the same parts, in any order. *)
Definition sameParts (a b : option (list RecipePart)) : Prop :=
  match a, b with
  | Some l, Some l' => l ≡ₚ l'
  | None, None => True
  | _, _ => False
  end.

(** No two different parts of the list are tied in the order of the sort. *)
Definition untied `{Platform} (parts : option (list RecipePart)) : Prop :=
  forall l x y,
    parts = Some l -> x ∈ l -> y ∈ l ->
    (compareParts x y <= 0)%Z -> (compareParts y x <= 0)%Z -> x = y.

(** A record that lists the two ingredients in the given order. *)
Definition itemWithInputs (sourceId : SourceId) (first second : string) : SourceItem :=
  {| item_sourceId := sourceId; item_sourceItemId := None; item_name := Some "Lamp";
     item_type := None; item_rarity := None; item_value := None; item_weight := None;
     item_inputs := Some [partWithId first 1; partWithId second 2];
     item_outputs := None; item_raw := JNull |}.

Definition lampItem : CanonicalItem :=
  {| canonicalId := "canonical-1"; nameKey := "lamp"; displayName := "Lamp";
     bySource := {[ardb := itemWithInputs ardb "wire" "glass";
                   metaforge := {| item_sourceId := metaforge; item_sourceItemId := None;
                                   item_name := Some "Lamp"; item_type := None;
                                   item_rarity := None; item_value := None;
                                   item_weight := None;
                                   item_inputs := Some [partWithId "glass" 2;
                                                        partWithId "wire" 1];
                                   item_outputs := None; item_raw := JNull |}]};
     matchDetails := ∅;
     diffReport := emptyReport |}.
(* ================================================================= *)
(** * Theorems *)

(** [Math.round] on a few values, ties and signed zeros included. *)
Example Math_round_examples :
  map Math_round [2.5; -2.5; 0.3; 0.5; 1234.5678; infinity]%float
  = [3; -2; 0; 1; 1235; infinity]%float.
Proof. vm_compute. reflexivity. Qed.

(* ----------------------------------------------------------------- *)
(** ** The memoizing cache *)

Section CacheFacts.
Context {V : Type}.
Implicit Types cache : gmap string (CacheEntry V).

Lemma getOrSet_begin_absent cache now key ttlMs fresh :
  cache !! key = None ->
  (getOrSet_begin now key ttlMs fresh cache).1 = Invoked fresh.
Proof.
  intros Hnone. unfold getOrSet_begin. rewrite Hnone. reflexivity.
Qed.

Lemma getOrSet_begin_undefined cache now key ttlMs fresh e :
  cache !! key = Some e -> entry_value e = None -> inflight e = None ->
  (getOrSet_begin now key ttlMs fresh cache).1 = Invoked fresh.
Proof.
  intros Hsome Hval Hfly. unfold getOrSet_begin. rewrite Hsome. cbn.
  rewrite Hval, Hfly. reflexivity.
Qed.

Lemma getOrSet_begin_other cache now key key' ttlMs fresh :
  key' <> key ->
  (getOrSet_begin now key ttlMs fresh cache).2 !! key' = cache !! key'.
Proof.
  intros Hne. unfold getOrSet_begin.
  repeat case_match; cbn; try reflexivity; by rewrite lookup_insert_ne.
Qed.

Lemma getOrSet_resume_other cache now key key' ttlMs outcome :
  key' <> key ->
  (getOrSet_resume now key ttlMs outcome cache).2 !! key' = cache !! key'.
Proof.
  intros Hne. destruct outcome; cbn.
  - by rewrite lookup_insert_ne.
  - by rewrite lookup_delete_ne.
Qed.

Lemma runEvents_other (events : list CacheEvent) key : forall cache,
  Forall (fun event => eventKey event <> key) events ->
  runEvents events cache !! key = cache !! key.
Proof.
  unfold runEvents.
  induction events as [|event events IH]; intros cache Hall; cbn [fold_left]; [reflexivity|].
  apply Forall_cons in Hall as [Hne Hall]. rewrite IH by done.
  destruct event; cbn in Hne |- *.
  - by apply getOrSet_begin_other.
  - by apply getOrSet_resume_other.
Qed.

(** C3. When the producer's promise rejects, [getOrSet] deletes the key and
    rethrows: whatever the cache held when the rejection arrived, the caller
    gets the rejection, the key is absent afterwards (other keys keep their
    entries), and the next call for that key, at any time, with any ttl and
    after any calls and settlements for other keys, invokes the producer
    again.  The same holds for a whole call that started the producer. *)
Theorem getOrSet_failure_evicts_key cache now key ttlMs error :
  let r := getOrSet_resume now key ttlMs (Rejected error) cache in
  r.1 = Rejected error
  /\ r.2 !! key = None
  /\ (forall key', key' <> key -> r.2 !! key' = cache !! key')
  /\ (forall events now' ttlMs' fresh,
        Forall (fun event => eventKey event <> key) events ->
        (getOrSet_begin now' key ttlMs' fresh (runEvents events r.2)).1 = Invoked fresh)
  /\ (forall start fresh awaited,
        (getOrSet_begin start key ttlMs fresh cache).1 = Invoked fresh ->
        let whole := getOrSet start now key ttlMs fresh (Rejected error) awaited cache in
        whole.1 = Rejected error /\ whole.2 !! key = None).
Proof.
  cbn. split; [reflexivity|]. split; [apply lookup_delete_eq|].
  split; [intros key' Hne; by rewrite lookup_delete_ne|].
  split.
  - intros events now' ttlMs' fresh Hother. apply getOrSet_begin_absent.
    rewrite runEvents_other by done. apply lookup_delete_eq.
  - intros start fresh awaited Hinv. unfold getOrSet.
    destruct (getOrSet_begin start key ttlMs fresh cache) as [[v|p|p] cache'] eqn:Hb;
      cbn in Hinv; try discriminate.
    cbn. split; [reflexivity|apply lookup_delete_eq].
Qed.

(** C10. A producer that resolves to [undefined] leaves an entry whose value
    is [undefined]; the hit test wants a value other than [undefined], so the
    next call for the key, at any time (inside the ttl window too) and after
    any calls and settlements for other keys, invokes the producer again,
    and so does every call made while the entry holds [undefined] and no
    promise in flight.  A defined value, by contrast, is served inside the
    window. *)
Theorem getOrSet_undefined_is_never_a_hit cache now key ttlMs :
  let r := getOrSet_resume now key ttlMs (Fulfilled None) cache in
  r.1 = Fulfilled None
  /\ (exists e : CacheEntry V, r.2 !! key = Some e /\ entry_value e = None /\ inflight e = None
                /\ expiresAt e = (now + ttlMs)%float)
  /\ (forall events now' ttlMs' fresh,
        Forall (fun event => eventKey event <> key) events ->
        (getOrSet_begin now' key ttlMs' fresh (runEvents events r.2)).1 = Invoked fresh)
  /\ (forall (later : gmap string (CacheEntry V)) (e : CacheEntry V) now' ttlMs' fresh,
        later !! key = Some e -> entry_value e = None -> inflight e = None ->
        (getOrSet_begin now' key ttlMs' fresh later).1 = Invoked fresh)
  /\ (forall v now' ttlMs' fresh,
        (now' <? now + ttlMs)%float = true ->
        getOrSet_begin now' key ttlMs' fresh
          (getOrSet_resume now key ttlMs (Fulfilled (Some v)) cache).2
        = (Hit v, (getOrSet_resume now key ttlMs (Fulfilled (Some v)) cache).2)).
Proof.
  cbn. split; [reflexivity|]. split.
  { eexists. rewrite lookup_insert_eq. repeat split; reflexivity. }
  split.
  { intros events now' ttlMs' fresh Hother.
    eapply getOrSet_begin_undefined;
      [rewrite runEvents_other by done; apply lookup_insert_eq|reflexivity|reflexivity]. }
  split.
  { intros later e now' ttlMs' fresh H1 H2 H3.
    eapply getOrSet_begin_undefined; eassumption. }
  intros v now' ttlMs' fresh Hlive.
  unfold getOrSet_begin. rewrite lookup_insert_eq. cbn. rewrite Hlive. reflexivity.
Qed.

End CacheFacts.

(* ----------------------------------------------------------------- *)
(** ** The diff engine *)

Lemma buildDiffReport_missingIn `{Platform} item sources :
  missingIn (buildDiffReport item sources)
  = filter (fun sourceId => bySource item !! sourceId = None) sources.
Proof.
  cbn. apply list_filter_iff. intros sourceId.
  rewrite <- eq_None_not_Some. reflexivity.
Qed.

(** C6. The severity of a diff report is [min(100, 18*|missingIn| + 10[name]
    + 8[type] + 8[rarity] + 12[value] + 12[weight] + 20[recipe])], the flags
    being those of the same report and [missingIn] the active providers
    without an entry; it is an integer from 0 to 100, and it is exactly 100 as
    soon as six providers are missing, whatever the flags. *)
Theorem severity_is_clamped_weighted_sum `{Platform} (item : CanonicalItem)
    (sources : list SourceId) :
  let r := buildDiffReport item sources in
  severity r = Z.min 100 (severitySum r)
  /\ missingIn r = filter (fun sourceId => bySource item !! sourceId = None) sources
  /\ (0 <= severity r <= 100)%Z
  /\ (6 <= length (missingIn r) -> severity r = 100%Z).
Proof.
  intros r.
  assert (Hsum : severity r = Z.min 100 (severitySum r)).
  { subst r. unfold severitySum, flagWeight. cbn [buildDiffReport severity missingIn
      fieldDiffers recipeDiffers differs_name differs_type differs_rarity differs_value
      differs_weight]. f_equal. lia. }
  assert (Hnonneg : (0 <= severitySum r)%Z).
  { unfold severitySum, flagWeight. repeat case_match; lia. }
  split; [exact Hsum|]. split; [apply buildDiffReport_missingIn|].
  split; [rewrite Hsum; lia|].
  intros Hsix. rewrite Hsum.
  assert ((100 <= severitySum r)%Z); [|lia].
  unfold severitySum, flagWeight. repeat case_match; lia.
Qed.

Section DiffersByValues.
Context {T U K : Type} `{EqDecision K}.

Lemma remove_dups_has_two (l : list K) :
  1 < length (remove_dups l) <-> exists x y, x ∈ l /\ y ∈ l /\ x <> y.
Proof.
  split.
  - intros Hlen.
    pose proof (NoDup_remove_dups l) as Hnd.
    destruct (remove_dups l) as [|x [|y r]] eqn:Hr; cbn in Hlen; try lia.
    exists x, y. repeat split.
    + apply elem_of_remove_dups. rewrite Hr. set_solver.
    + apply elem_of_remove_dups. rewrite Hr. set_solver.
    + intros ->. apply NoDup_cons in Hnd as [Hnotin _]. set_solver.
  - intros (x & y & Hx & Hy & Hne).
    apply elem_of_remove_dups in Hx, Hy.
    destruct (remove_dups l) as [|a [|b r]]; cbn; try lia.
    + set_solver.
    + apply list_elem_of_singleton in Hx, Hy. congruence.
Qed.

Lemma omap_id_length_le (l : list (option U)) : length (omap id l) <= length l.
Proof. induction l as [|o l IHl]; [|destruct o]; cbn; lia. Qed.

Lemma omap_id_shorter (l : list (option U)) :
  length (omap id l) <> length l <-> None ∈ l.
Proof.
  induction l as [|o l IHl]; [|destruct o as [u|]]; cbn.
  - split; [done|set_solver].
  - rewrite elem_of_cons, <- IHl. split; [intros Hne; right; lia|].
    intros [Heq|Hne]; [discriminate|lia].
  - pose proof (omap_id_length_le l). split; [intros _; apply list_elem_of_here|lia].
Qed.

Lemma omap_id_elem (l : list (option U)) (u : U) : u ∈ omap id l <-> Some u ∈ l.
Proof.
  rewrite list_elem_of_omap. split.
  - intros (o & Ho & Hid). cbn in Hid. by subst.
  - intros Hin. by exists (Some u).
Qed.

(** What [differsByValues] computes: two normalized values that print
    differently, or a normalized value next to an undefined one. *)
Lemma differsByValues_spec (values : list (option T))
    (normalizer : option T -> option U) (stringify : U -> K) :
  differsByValues values normalizer stringify = true
  <-> (exists a b, Some a ∈ map normalizer values /\ Some b ∈ map normalizer values
                   /\ stringify a <> stringify b)
      \/ ((exists a, Some a ∈ map normalizer values) /\ None ∈ map normalizer values).
Proof.
  unfold differsByValues.
  set (normalized := map normalizer values).
  set (defined := omap id normalized).
  destruct (length defined =? 0) eqn:Hzero.
  - apply Nat.eqb_eq in Hzero. apply nil_length_inv in Hzero.
    split; [discriminate|].
    intros [(a & _ & Ha & _)|[(a & Ha) _]];
      apply omap_id_elem in Ha; fold defined in Ha; rewrite Hzero in Ha; set_solver.
  - apply Nat.eqb_neq in Hzero.
    destruct (1 <? length (remove_dups (map stringify defined))) eqn:Hmany.
    + apply Nat.ltb_lt, remove_dups_has_two in Hmany as (x & y & Hx & Hy & Hne).
      apply list_elem_of_fmap in Hx as (a & -> & Ha), Hy as (b & -> & Hb).
      split; [intros _|reflexivity]. left. exists a, b.
      repeat split; try (by apply omap_id_elem); exact Hne.
    + apply Nat.ltb_ge in Hmany.
      rewrite negb_true_iff, Nat.eqb_neq. split.
      * intros Hlen. right. split.
        -- destruct defined as [|a r] eqn:Hd; [done|]. exists a.
           apply omap_id_elem. fold defined. rewrite Hd. set_solver.
        -- by apply omap_id_shorter.
      * intros [(a & b & Ha & Hb & Hne)|[_ Hnone]].
        -- exfalso. apply omap_id_elem in Ha, Hb.
           assert (1 < length (remove_dups (map stringify defined))); [|lia].
           apply remove_dups_has_two. exists (stringify a), (stringify b).
           repeat split; try (apply list_elem_of_fmap; eauto); exact Hne.
        -- by apply omap_id_shorter.
Qed.

End DiffersByValues.

(** The clamp at work: two providers missing and every field differing sum
    to 106, reported as 100. *)
Example severity_clamp_example :
  let r := buildDiffReport (P := asciiHost) disagreeing [ardb; metaforge; raidtheory; mahcks] in
  severitySum r = 106%Z /\ severity r = 100%Z.
Proof. vm_compute. split; reflexivity. Qed.

(** On text fields [JSON.stringify] tells any two values apart, so the rule
    is: two distinct normalized values, or a value next to a missing one. *)
Lemma differsByValues_text (values : list (option string)) :
  differsByValues values normalizeText JSON_stringify_string = true
  <-> (exists a b, Some a ∈ map normalizeText values /\ Some b ∈ map normalizeText values
                   /\ a <> b)
      \/ ((exists a, Some a ∈ map normalizeText values) /\ None ∈ map normalizeText values).
Proof. apply differsByValues_spec. Qed.

(** On number fields two normalized values count as different when
    [JSON.stringify] prints them differently. *)
Lemma differsByValues_number (values : list (option float)) :
  differsByValues values normalizeNumber JSON_stringify_number = true
  <-> (exists a b, Some a ∈ map normalizeNumber values /\ Some b ∈ map normalizeNumber values
                   /\ JSON_stringify_number a <> JSON_stringify_number b)
      \/ ((exists a, Some a ∈ map normalizeNumber values)
          /\ None ∈ map normalizeNumber values).
Proof. apply differsByValues_spec. Qed.

(** C5 at its failing input.  The values 1e308 and -1e308 normalize to
    [Infinity] and [-Infinity] (the product with 10000 overflows): two
    distinct normalized values, one per provider, which [JSON.stringify]
    prints alike, so that the value field is reported as not differing. *)
Example value_overflow_is_not_reported :
  map normalizeNumber [Some 1e308; Some (-1e308)]%float = [Some infinity; Some neg_infinity]
  /\ (infinity =? neg_infinity)%float = false
  /\ JSON_stringify_number infinity = JSON_stringify_number neg_infinity
  /\ differsByValues [Some 1e308; Some (-1e308)]%float normalizeNumber JSON_stringify_number
     = false
  /\ differs_value (fieldDiffers (buildDiffReport (P := asciiHost) extremeValues
                                                  [ardb; metaforge])) = false.
Proof. vm_compute. repeat split; reflexivity. Qed.

(* ----------------------------------------------------------------- *)
(** ** The snapshot store *)

Lemma deleteLinks_effect :
  effectOn deleteLinks
    (fun t => Some {| metaforge_items := metaforge_items t; metaforge_item_links := [];
                      metaforge_sync_state := metaforge_sync_state t |}).
Proof.
  intros db c t Hin. unfold deleteLinks. statement_cases db; in_transaction;
    try done; eexists; repeat split; eauto.
Qed.

Lemma deleteItems_effect :
  effectOn deleteItems
    (fun t => Some {| metaforge_items := []; metaforge_item_links := [];
                      metaforge_sync_state := metaforge_sync_state t |}).
Proof.
  intros db c t Hin. unfold deleteItems. statement_cases db; in_transaction;
    try done; eexists; repeat split; eauto.
Qed.

Lemma insertItem_effect row :
  effectOn (insertItem row)
    (fun t => if hasItemId (row_id row) (metaforge_items t) then None
              else Some {| metaforge_items := (metaforge_items t ++ [row])%list;
                           metaforge_item_links := metaforge_item_links t;
                           metaforge_sync_state := metaforge_sync_state t |}).
Proof.
  intros db c t Hin. unfold insertItem. statement_cases db; in_transaction;
    try destruct (hasItemId _ _); cbn; try rewrite Ht; try done;
    eexists; repeat split; eauto.
Qed.

Lemma insertLink_effect row :
  effectOn (insertLink row)
    (fun t => if hasItemId (link_item_id row) (metaforge_items t)
              then Some {| metaforge_items := metaforge_items t;
                           metaforge_item_links := (metaforge_item_links t ++ [row])%list;
                           metaforge_sync_state := metaforge_sync_state t |}
              else None).
Proof.
  intros db c t Hin. unfold insertLink. statement_cases db; in_transaction;
    try destruct (hasItemId _ _); cbn; try rewrite Ht; try done;
    eexists; repeat split; eauto.
Qed.

Lemma writeState_effect row :
  effectOn (writeState row)
    (fun t => Some {| metaforge_items := metaforge_items t;
                      metaforge_item_links := metaforge_item_links t;
                      metaforge_sync_state := Some row |}).
Proof.
  intros db c t Hin. unfold writeState. statement_cases db; in_transaction;
    try done; eexists; repeat split; eauto.
Qed.

Lemma ret_effect {A} (a : A) : effectOn (ret a) Some.
Proof. intros db c t Hin. cbn. eauto. Qed.

Lemma bind_effect {A B} (m : DbM A) (k : A -> DbM B) f g :
  effectOn m f -> (forall a, effectOn (k a) g) ->
  effectOn (bind m k) (fun t => f t ≫= g).
Proof.
  intros Hm Hk db c t Hin. unfold bind.
  specialize (Hm db c t Hin). destruct (m db) as [[a|e] db1].
  - destruct Hm as (t1 & Hf & Hin1). specialize (Hk a db1 c t1 Hin1).
    destruct (k a db1) as [[b|e] db2]; [|exact Hk].
    destruct Hk as (t2 & Hg & Hin2). exists t2. split; [|exact Hin2].
    rewrite Hf. exact Hg.
  - exact Hm.
Qed.

Lemma effectOn_ext {A} (m : DbM A) f g :
  (forall t, f t = g t) -> effectOn m f -> effectOn m g.
Proof.
  intros Hfg Hm db c t Hin. specialize (Hm db c t Hin).
  destruct (m db) as [[a|e] db1]; [|exact Hm].
  destruct Hm as (t1 & Hf & Hin1). exists t1. by rewrite <- Hfg.
Qed.

Lemma forEach_effect {A} (body : A -> DbM unit) effect (xs : list A) :
  (forall x, effectOn (body x) (effect x)) ->
  effectOn (forEach body xs) (effects effect xs).
Proof.
  intros Hbody. induction xs as [|x rest IH]; cbn.
  - apply ret_effect.
  - apply bind_effect; [apply Hbody|intros _; exact IH].
Qed.

Section StoreFacts.
Context {P : Platform}.

Lemma persistItem_effect fetchedAt item :
  effectOn (persistItem fetchedAt item) (persistItemEffect fetchedAt item).
Proof.
  unfold persistItem, persistItemEffect.
  destruct (textOrNull _) as [id|]; [|apply ret_effect].
  apply bind_effect; [apply insertItem_effect|intros _].
  apply forEach_effect. intros row. apply insertLink_effect.
Qed.

Lemma insertLinks_result rows : forall t t',
  effects insertLinkEffect rows t = Some t' ->
  metaforge_items t' = metaforge_items t
  /\ metaforge_item_links t' = (metaforge_item_links t ++ rows)%list
  /\ metaforge_sync_state t' = metaforge_sync_state t.
Proof.
  induction rows as [|row rows IH]; intros t t' Heff; cbn [effects] in Heff.
  - inversion Heff; subst. by rewrite app_nil_r.
  - destruct (insertLinkEffect row t) as [t1|] eqn:Hrow; [|discriminate].
    cbn in Heff. apply IH in Heff as (Hi & Hl & Hs).
    unfold insertLinkEffect in Hrow. destruct (hasItemId _ _); [|discriminate].
    inversion Hrow; subst t1. cbn in *.
    rewrite Hi, Hl, Hs, <- app_assoc. done.
Qed.

Lemma persistItems_result fetchedAt items : forall t t',
  effects (persistItemEffect fetchedAt) items t = Some t' ->
  metaforge_items t'
  = (metaforge_items t ++
     omap (fun item => (fun id => itemRowOf fetchedAt id item)
                         <$> textOrNull (getProp (Some item) "id")) items)%list
  /\ metaforge_item_links t'
     = (metaforge_item_links t ++
        flat_map (fun item => match textOrNull (getProp (Some item) "id") with
                              | Some id => extractLinks id item
                              | None => []
                              end) items)%list
  /\ metaforge_sync_state t' = metaforge_sync_state t.
Proof.
  induction items as [|item items IH]; intros t t' Heff; cbn [effects] in Heff.
  - inversion Heff; subst. cbn. by rewrite !app_nil_r.
  - destruct (persistItemEffect fetchedAt item t) as [t1|] eqn:Hitem; [|discriminate].
    cbn in Heff. apply IH in Heff as (Hi' & Hl' & Hs').
    unfold persistItemEffect in Hitem. cbn [omap list_omap flat_map].
    destruct (textOrNull (getProp (Some item) "id")) as [id|]; cbn [fmap option_fmap option_map].
    + destruct (insertItemEffect _ t) as [t0|] eqn:Hrow; [|discriminate].
      cbn in Hitem. apply insertLinks_result in Hitem as (Hi & Hl & Hs).
      unfold insertItemEffect in Hrow. destruct (hasItemId _ _); [discriminate|].
      inversion Hrow; subst t0. cbn in *.
      rewrite Hi', Hl', Hs', Hi, Hl, Hs. rewrite <- !app_assoc. done.
    + inversion Hitem; subst t1. cbn. done.
Qed.

Lemma execCommit_commits : commitsWith execCommit Some.
Proof.
  intros db c t [Hc Ht]. unfold execCommit. statement_cases db; rewrite ?Ht; cbn;
    try done; eexists; repeat split; eauto.
Qed.

Lemma bind_commits {A} (m : DbM A) (k : A -> DbM unit) f g :
  effectOn m f -> (forall a, commitsWith (k a) g) ->
  commitsWith (bind m k) (fun t => f t ≫= g).
Proof.
  intros Hm Hk db c t Hin. unfold bind.
  specialize (Hm db c t Hin). destruct (m db) as [[a|e] db1]; [|exact Hm].
  destruct Hm as (t1 & Hf & Hin1). specialize (Hk a db1 c t1 Hin1).
  destruct (k a db1) as [[b|e] db2]; [|exact Hk].
  destruct Hk as (t2 & Hg & Hrest). exists t2. split; [|exact Hrest].
  rewrite Hf. exact Hg.
Qed.

Lemma resyncEffect_result fetchResult t t' :
  resyncEffect fetchResult t = Some t' ->
  t' = {| metaforge_items := persistedRows fetchResult;
          metaforge_item_links := persistedLinks fetchResult;
          metaforge_sync_state := Some (persistedState fetchResult) |}.
Proof.
  unfold resyncEffect. intros Heff.
  destruct (effects _ _ _) as [t1|] eqn:Hitems; [|discriminate].
  apply persistItems_result in Hitems as (Hi & Hl & _). cbn in Heff, Hi, Hl.
  inversion Heff. rewrite Hi, Hl. reflexivity.
Qed.

Lemma commitsWith_ext (m : DbM unit) f g :
  (forall t, f t = g t) -> commitsWith m f -> commitsWith m g.
Proof.
  intros Hfg Hm db c t Hin. specialize (Hm db c t Hin).
  destruct (m db) as [[a|e] db1]; [|exact Hm].
  destruct Hm as (t1 & Hf & Hrest). exists t1. by rewrite <- Hfg.
Qed.

Lemma resync_body_commits fetchResult :
  commitsWith
    (deleteLinks ;;;
     deleteItems ;;;
     forEach (persistItem (fetch_fetchedAt fetchResult)) (rawItemsOf fetchResult) ;;;
     writeState (persistedState fetchResult) ;;;
     execCommit)
    (resyncEffect fetchResult).
Proof.
  eapply commitsWith_ext;
    [|apply bind_commits; [apply deleteLinks_effect|intros _];
      apply bind_commits; [apply deleteItems_effect|intros _];
      apply bind_commits;
        [apply forEach_effect, persistItem_effect|intros _];
      apply bind_commits; [apply writeState_effect|intros _];
      apply execCommit_commits].
  intros t. unfold resyncEffect. cbn.
  destruct (effects _ _ _); reflexivity.
Qed.

Lemma execBegin_cases db :
  transaction db = None ->
  match execBegin db with
  | (Returned _, db1) =>
      transaction db = None /\ inTransaction db1 (committed db) (committed db)
  | (Thrown _, db1) => committed db1 = committed db /\ transaction db1 = None
  end.
Proof.
  intros Hnone. unfold execBegin.
  statement_cases db; rewrite ?Hnone; cbn; rewrite ?Hnone; by destruct (faultRollsBack db).
Qed.

Lemma prepare_cases db :
  match prepare db with
  | (Returned _, db1) => committed db1 = committed db /\ transaction db1 = transaction db
  | (Thrown _, db1) =>
      committed db1 = committed db
      /\ (transaction db1 = transaction db \/ transaction db1 = None)
  end.
Proof.
  unfold prepare. statement_cases db; try done.
  destruct (faultRollsBack db); auto.
Qed.

Lemma tryCatchRethrow_rollback (body : DbM unit) effect db c t :
  commitsWith body effect -> inTransaction db c t ->
  match tryCatchRethrow body execRollback db with
  | (Returned _, db') =>
      exists t', effect t = Some t' /\ committed db' = t' /\ transaction db' = None
  | (Thrown _, db') => committed db' = c /\ transaction db' = None
  end.
Proof.
  intros Hbody Hin. unfold tryCatchRethrow. specialize (Hbody db c t Hin).
  destruct (body db) as [[[]|e] db1]; [exact Hbody|].
  unfold execRollback. destruct (transaction db1) eqn:Ht; cbn; done.
Qed.

Lemma prepare_atomic (m : DbM unit) (final : Tables) :
  atomicWith m final -> atomicWith (prepare ;;; m) final.
Proof.
  intros Hm db Hnone. unfold bind.
  pose proof (prepare_cases db) as Hprep.
  destruct (prepare db) as [[[]|e] db1].
  - destruct Hprep as [Hc Ht]. rewrite Hnone in Ht.
    specialize (Hm db1 Ht). destruct (m db1) as [[[]|e] db2]; [exact Hm|].
    by rewrite <- Hc.
  - destruct Hprep as [Hc [Ht|Ht]]; [rewrite Hnone in Ht|]; done.
Qed.

Lemma resync_atomic fetchResult :
  atomicWith
    (execBegin ;;;
     tryCatchRethrow
       (deleteLinks ;;;
        deleteItems ;;;
        forEach (persistItem (fetch_fetchedAt fetchResult)) (rawItemsOf fetchResult) ;;;
        writeState (persistedState fetchResult) ;;;
        execCommit)
       execRollback)
    {| metaforge_items := persistedRows fetchResult;
       metaforge_item_links := persistedLinks fetchResult;
       metaforge_sync_state := Some (persistedState fetchResult) |}.
Proof.
  intros db Hnone. unfold bind at 1.
  pose proof (execBegin_cases db Hnone) as Hbegin.
  destruct (execBegin db) as [[[]|e] db1]; [|exact Hbegin].
  destruct Hbegin as [_ Hin].
  pose proof (tryCatchRethrow_rollback _ _ _ _ _
                (resync_body_commits fetchResult) Hin) as Htry.
  destruct (tryCatchRethrow _ _ db1) as [[[]|e] db2]; [|exact Htry].
  destruct Htry as (t' & Heff & Hc & Ht).
  apply resyncEffect_result in Heff. subst t'. done.
Qed.

Lemma persistFetchResult_atomicWith fetchResult :
  atomicWith (persistFetchResult fetchResult)
    {| metaforge_items := persistedRows fetchResult;
       metaforge_item_links := persistedLinks fetchResult;
       metaforge_sync_state := Some (persistedState fetchResult) |}.
Proof.
  unfold persistFetchResult.
  do 3 apply prepare_atomic. apply resync_atomic.
Qed.

End StoreFacts.

(** C7.  The error of a failed write does not always reach the caller.
    On a store that holds an earlier snapshot, the disk fails at the
    seventh call into the engine, the insert of the item, and the engine
    ends the transaction on that error.  The statements of
    [persistFetchResult] fail with the disk error; its catch branch then
    runs ROLLBACK, which finds no transaction and throws, so the error
    [persistFetchResult] throws is ROLLBACK's and [throw error] is never
    reached.  The read path that asked for the sync fails with ROLLBACK's
    error too.  The earlier snapshot is still what the store holds.  When
    the engine leaves the transaction open on the same fault, the disk
    error is the one thrown. *)
Theorem rollback_error_replaces_cause :
  let fetchResult := fetchOf metaforge "wire" "Wire" in
  let db := storeWithSnapshot (Some 6) true in
  let run := persistFetchResult (P := asciiHost) fetchResult db in
  let asked :=
    buildMetaForgeDataFromStore (P := asciiHost) 5000 1000 0.93 sampleClock
      (FetchFulfilled fetchResult) (storeSyncedAt "1000" (Some 8) true) in
  (resyncStatements (P := asciiHost) fetchResult db).1 = Thrown "disk I/O error"
  /\ run.1 = Thrown "cannot rollback - no transaction is active"
  /\ committed run.2 = committed db /\ transaction run.2 = None
  /\ asked.1 = Thrown "cannot rollback - no transaction is active"
  /\ committed (database asked.2) = committed (database (storeSyncedAt "1000" None true))
  /\ (persistFetchResult (P := asciiHost) fetchResult (storeWithSnapshot (Some 6) false)).1
     = Thrown "disk I/O error".
Proof.
  intros fetchResult db run asked.
  split; [vm_compute; reflexivity|].
  split; [vm_compute; reflexivity|].
  split; [vm_compute; reflexivity|].
  split; [vm_compute; reflexivity|].
  split; [vm_compute; reflexivity|].
  split; vm_compute; reflexivity.
Qed.

(** The ways a resync can go, on a store that holds an earlier snapshot: it
    succeeds and the old row is gone; a repeated id trips the primary key;
    the disk fails at the seventh call into the engine and the transaction
    stays open until ROLLBACK; the disk fails while a statement is being
    prepared.  Every failure leaves the committed tables as they were. *)
Example persistFetchResult_examples :
  let ok := persistFetchResult (P := asciiHost) (fetchOf metaforge "wire" "Wire")
                               (storeWithSnapshot None false) in
  let repeated := persistFetchResult (P := asciiHost) fetchWithRepeatedId
                                     (storeWithSnapshot None false) in
  let faulty := persistFetchResult (P := asciiHost) (fetchOf metaforge "wire" "Wire")
                                   (storeWithSnapshot (Some 6) false) in
  let early := persistFetchResult (P := asciiHost) (fetchOf metaforge "wire" "Wire")
                                  (storeWithSnapshot (Some 1) true) in
  (ok.1 = Returned tt
   /\ map row_id (metaforge_items (committed ok.2)) = ["wire"]
   /\ (version <$> metaforge_sync_state (committed ok.2)) = Some "v1")
  /\ (repeated.1 = Thrown "UNIQUE constraint failed: metaforge_items.id"
      /\ committed repeated.2 = committed (storeWithSnapshot None false)
      /\ transaction repeated.2 = None)
  /\ (faulty.1 = Thrown "disk I/O error"
      /\ committed faulty.2 = committed (storeWithSnapshot None false)
      /\ transaction faulty.2 = None)
  /\ (early.1 = Thrown "disk I/O error"
      /\ committed early.2 = committed (storeWithSnapshot None false)
      /\ transaction early.2 = None).
Proof. vm_compute. repeat split; reflexivity. Qed.

(* ----------------------------------------------------------------- *)
(** ** Sorting with a comparator *)

Section SortFacts.
Context {A : Type} (cmp : A -> A -> Z).

Lemma sortInsert_perm (x : A) (l : list A) : sortInsert cmp x l ≡ₚ x :: l.
Proof.
  induction l as [|y l IH]; cbn; [reflexivity|].
  destruct (cmp x y <=? 0)%Z; [reflexivity|].
  rewrite IH. apply perm_swap.
Qed.

Lemma arraySort_perm (l : list A) : arraySort cmp l ≡ₚ l.
Proof.
  induction l as [|x l IH]; cbn; [reflexivity|].
  rewrite sortInsert_perm. by rewrite IH.
Qed.

Lemma arraySort_length (l : list A) : length (arraySort cmp l) = length l.
Proof. apply Permutation_length, arraySort_perm. Qed.

Hypothesis cmp_flip : forall a b, (0 < cmp a b)%Z -> (cmp b a < 0)%Z.

Lemma sortInsert_sorted (x : A) (l : list A) :
  Sorted (mayPrecede cmp) l -> Sorted (mayPrecede cmp) (sortInsert cmp x l).
Proof.
  induction 1 as [|y l Hsorted IH Hhd]; cbn.
  - repeat constructor.
  - destruct (cmp x y <=? 0)%Z eqn:Hxy.
    + constructor; [by constructor|]. constructor. unfold mayPrecede. lia.
    + constructor; [exact IH|].
      assert (mayPrecede cmp y x).
      { unfold mayPrecede. specialize (cmp_flip x y). lia. }
      destruct l as [|z l]; cbn; [by constructor|].
      destruct (cmp x z <=? 0)%Z; constructor; [done|].
      by inversion Hhd.
Qed.

Lemma arraySort_sorted (l : list A) : Sorted (mayPrecede cmp) (arraySort cmp l).
Proof.
  induction l as [|x l IH]; cbn; [constructor|]. by apply sortInsert_sorted.
Qed.

Hypothesis cmp_trans : forall a b c,
  (cmp a b <= 0)%Z -> (cmp b c <= 0)%Z -> (cmp a c <= 0)%Z.

Lemma arraySort_strongly_sorted (l : list A) :
  StronglySorted (mayPrecede cmp) (arraySort cmp l).
Proof.
  apply Sorted_StronglySorted; [|apply arraySort_sorted].
  intros a b c. apply cmp_trans.
Qed.

End SortFacts.

Lemma StronglySorted_weaken {A} (R R' : A -> A -> Prop) (l : list A) :
  (forall a b, R a b -> R' a b) -> StronglySorted R l -> StronglySorted R' l.
Proof.
  intros Himpl. induction 1 as [|x l Hsorted IH Hall]; constructor; [exact IH|].
  eapply List.Forall_impl; [|exact Hall]. intros b. apply Himpl.
Qed.


(* ----------------------------------------------------------------- *)
(** ** The sample host's collation is a consistent comparator *)

Lemma lexCompare_refl (a : list nat) : lexCompare a a = Eq.
Proof. induction a as [|x a IH]; cbn; [reflexivity|]. by rewrite Nat.compare_refl. Qed.

Lemma lexCompare_eq (a b : list nat) : lexCompare a b = Eq -> a = b.
Proof.
  revert b. induction a as [|x a IH]; intros [|y b]; cbn; try done.
  destruct (Nat.compare_spec x y); try done.
  intros Heq. subst. f_equal. by apply IH.
Qed.

Lemma lexCompare_flip (a b : list nat) : lexCompare b a = CompOpp (lexCompare a b).
Proof.
  revert b. induction a as [|x a IH]; intros [|y b]; cbn; try done.
  rewrite (Nat.compare_antisym x y).
  destruct (x ?= y); cbn; [apply IH|done|done].
Qed.

Lemma lexCompare_trans (a b c : list nat) :
  lexCompare a b = Lt -> lexCompare b c = Lt -> lexCompare a c = Lt.
Proof.
  revert b c. induction a as [|x a IH]; intros [|y b] [|z c]; cbn; try done.
  destruct (Nat.compare_spec x y), (Nat.compare_spec y z); try done; subst.
  - rewrite Nat.compare_refl. apply IH.
  - intros _ _. by apply Nat.compare_lt_iff in H0 as ->.
  - intros _ _. by apply Nat.compare_lt_iff in H as ->.
  - intros _ _. assert (x < z) as Hlt by lia. by apply Nat.compare_lt_iff in Hlt as ->.
Qed.

Lemma compareKeys_refl k : compareKeys k k = Eq.
Proof. unfold compareKeys. by rewrite !lexCompare_refl. Qed.

Lemma compareKeys_eq k1 k2 : compareKeys k1 k2 = Eq -> k1 = k2.
Proof.
  unfold compareKeys. destruct k1 as [p1 t1], k2 as [p2 t2]; cbn.
  destruct (lexCompare p1 p2) eqn:Hp; try done.
  intros Ht. apply lexCompare_eq in Hp, Ht. by subst.
Qed.

Lemma compareKeys_flip k1 k2 : compareKeys k2 k1 = CompOpp (compareKeys k1 k2).
Proof.
  unfold compareKeys. rewrite (lexCompare_flip k1.1 k2.1).
  destruct (lexCompare k1.1 k2.1); cbn; try done. apply lexCompare_flip.
Qed.

Lemma compareKeys_trans k1 k2 k3 :
  compareKeys k1 k2 = Lt -> compareKeys k2 k3 = Lt -> compareKeys k1 k3 = Lt.
Proof.
  unfold compareKeys. destruct k1 as [p1 t1], k2 as [p2 t2], k3 as [p3 t3]; cbn.
  destruct (lexCompare p1 p2) eqn:H12, (lexCompare p2 p3) eqn:H23; try done.
  - apply lexCompare_eq in H12, H23. subst. rewrite lexCompare_refl.
    apply lexCompare_trans.
  - apply lexCompare_eq in H12. subst. by rewrite H23.
  - apply lexCompare_eq in H23. subst. by rewrite H12.
  - by rewrite (lexCompare_trans _ _ _ H12 H23).
Qed.

Lemma asciiHost_consistent : ConsistentCollation asciiHost.
Proof.
  split; cbn; unfold rootCollation.
  - intros a. by rewrite compareKeys_refl.
  - intros a b. rewrite (compareKeys_flip (collationKey a) (collationKey b)).
    destruct (compareKeys _ _); cbn; lia.
  - intros a b c.
    destruct (compareKeys (collationKey a) (collationKey b)) eqn:Hab;
      destruct (compareKeys (collationKey b) (collationKey c)) eqn:Hbc; cbn; try lia.
    + apply compareKeys_eq in Hab. rewrite Hab, Hbc. cbn. lia.
    + apply compareKeys_eq in Hab. rewrite Hab, Hbc. cbn. lia.
    + apply compareKeys_eq in Hbc. rewrite <- Hbc, Hab. cbn. lia.
    + rewrite (compareKeys_trans _ _ _ Hab Hbc). cbn. lia.
Qed.

(* ----------------------------------------------------------------- *)
(** ** In the sample host's collation case only breaks ties *)











(* ----------------------------------------------------------------- *)
(** ** The normalizer's recipe parts *)







(* ----------------------------------------------------------------- *)
(** ** The order of the resolver's output *)

Lemma compareCanonical_order `{Platform} (left right : CanonicalItem) :
  (compareCanonical left right <= 0)%Z <-> outputOrder left right.
Proof.
  unfold compareCanonical, outputOrder.
  destruct (severity (diffReport right) =? severity (diffReport left))%Z eqn:Hsev; cbn.
  - apply Z.eqb_eq in Hsev. split; [intros Hle; right; split; [lia|exact Hle]|].
    intros [Hlt|[_ Hle]]; [lia|exact Hle].
  - apply Z.eqb_neq in Hsev. split; [intros Hle; left; lia|].
    intros [Hlt|[Heq _]]; lia.
Qed.

Lemma compareCanonical_flip `{ConsistentCollation} (a b : CanonicalItem) :
  (0 < compareCanonical a b)%Z -> (compareCanonical b a < 0)%Z.
Proof.
  unfold compareCanonical.
  destruct (severity (diffReport b) =? severity (diffReport a))%Z eqn:Hab;
    destruct (severity (diffReport a) =? severity (diffReport b))%Z eqn:Hba; cbn; try lia.
  apply localeCompare_flip.
Qed.

Lemma compareCanonical_trans `{ConsistentCollation} (a b c : CanonicalItem) :
  (compareCanonical a b <= 0)%Z -> (compareCanonical b c <= 0)%Z ->
  (compareCanonical a c <= 0)%Z.
Proof.
  rewrite !compareCanonical_order. unfold outputOrder.
  intros [Hab|[Hab Hnab]] [Hbc|[Hbc Hnbc]]; try (left; lia).
  right. split; [lia|]. eapply localeCompare_trans; eassumption.
Qed.

(** C9, as the code has it.  The output is the finished canonical items
    rearranged so that every item stands before every later one in
    [outputOrder]: severities descend, and equal severities are in
    ascending [localeCompare] order of the display names as they are
    written (the names are not lowercased for the comparison). *)
Theorem mergeAndDiffItems_output_order `{ConsistentCollation}
    (normalizedBySource : gmap SourceId (list SourceItem)) (sources : list SourceId)
    (fuzzyThreshold : float) :
  StronglySorted outputOrder (mergeAndDiffItems normalizedBySource sources fuzzyThreshold)
  /\ mergeAndDiffItems normalizedBySource sources fuzzyThreshold
     ≡ₚ map (finishItem sources)
            (rs_items (resolveSources normalizedBySource sources fuzzyThreshold)).
Proof.
  unfold mergeAndDiffItems. split; [|apply arraySort_perm].
  eapply StronglySorted_weaken;
    [|apply (arraySort_strongly_sorted compareCanonical)].
  - intros a b. apply compareCanonical_order.
  - apply compareCanonical_flip.
  - apply compareCanonical_trans.
Qed.

(** The theorem on two providers: the item one of them says more about
    comes first, ahead of the item the other provider lacks. *)
Lemma mergeAndDiffItems_output_order_witness :
  StronglySorted (outputOrder (P := asciiHost))
    (mergeAndDiffItems (P := asciiHost) twoProviders [ardb; metaforge] 0.93)
  /\ map (fun c => (displayName c, severity (diffReport c)))
         (mergeAndDiffItems (P := asciiHost) twoProviders [ardb; metaforge] 0.93)
     = [("Wire", 60%Z); ("Battery", 18%Z)].
Proof.
  split; [|vm_compute; reflexivity].
  apply (@mergeAndDiffItems_output_order asciiHost asciiHost_consistent).
Defined.

(** C9 as stated fails on names that differ in case only: "Apple" and
    "apple", of equal severity, do not compare as equal; the sort moves
    "apple" ahead of "Apple", which a comparison that ignored case would
    have left in the order of creation. *)
Lemma mergeAndDiffItems_tie_break_sees_case :
  let out := mergeAndDiffItems (P := asciiHost) caseTwins [ardb] 0.93 in
  let unsorted := map (finishItem (P := asciiHost) [ardb])
                      (rs_items (resolveSources caseTwins [ardb] 0.93)) in
  map displayName unsorted = ["Apple"; "apple"]
  /\ map (fun c => severity (diffReport c)) unsorted = [0%Z; 0%Z]
  /\ map (fun c => toLowerCase (displayName c)) unsorted = ["apple"; "apple"]
  /\ map displayName out = ["apple"; "Apple"]
  /\ match unsorted with
     | [a; b] => compareCanonical (P := asciiHost) a b
     | _ => 0%Z
     end = 1%Z.
Proof. repeat split; vm_compute; reflexivity. Qed.

(* ----------------------------------------------------------------- *)
(** ** Comparing floats *)

Lemma SFltb_trans x y z : SFltb x y = true -> SFltb y z = true -> SFltb x z = true.
Proof. unfold SFltb. sf_destruct x; sf_destruct y; sf_destruct z; sf_solve. Qed.

Lemma SFltb_SFleb_trans x y z : SFltb x y = true -> SFleb y z = true -> SFltb x z = true.
Proof. unfold SFltb, SFleb. sf_destruct x; sf_destruct y; sf_destruct z; sf_solve. Qed.

Lemma SFltb_not_SFleb x y : SFltb x y = true -> SFleb y x = false.
Proof. unfold SFltb, SFleb. sf_destruct x; sf_destruct y; sf_solve. Qed.

Lemma SFltb_irrefl x : SFltb x x = false.
Proof. unfold SFltb. sf_destruct x; sf_solve. Qed.

Lemma SFltb_SFleb x y : SFltb x y = true -> SFleb x y = true.
Proof. unfold SFltb, SFleb. destruct (SFcompare x y) as [[]|]; congruence. Qed.

Lemma float_ltb_trans (x y z : float) :
  (x <? y)%float = true -> (y <? z)%float = true -> (x <? z)%float = true.
Proof. rewrite !FloatAxioms.ltb_spec. apply SFltb_trans. Qed.

Lemma float_ltb_leb_trans (x y z : float) :
  (x <? y)%float = true -> (y <=? z)%float = true -> (x <? z)%float = true.
Proof. rewrite !FloatAxioms.ltb_spec, FloatAxioms.leb_spec. apply SFltb_SFleb_trans. Qed.

Lemma float_ltb_not_leb (x y : float) :
  (x <? y)%float = true -> (y <=? x)%float = false.
Proof. rewrite FloatAxioms.ltb_spec, FloatAxioms.leb_spec. apply SFltb_not_SFleb. Qed.

Lemma float_ltb_irrefl (x : float) : (x <? x)%float = false.
Proof. rewrite FloatAxioms.ltb_spec. apply SFltb_irrefl. Qed.

Lemma float_ltb_leb (x y : float) :
  (x <? y)%float = true -> (x <=? y)%float = true.
Proof. rewrite FloatAxioms.ltb_spec, FloatAxioms.leb_spec. apply SFltb_SFleb. Qed.

Lemma float_ltb_asym (x y : float) :
  (x <? y)%float = true -> (y <? x)%float = false.
Proof.
  intros Hlt. destruct (y <? x)%float eqn:Hrev; [|reflexivity].
  apply float_ltb_leb in Hrev. apply float_ltb_not_leb in Hlt. congruence.
Qed.

(* ----------------------------------------------------------------- *)
(** ** The fuzzy fallback *)

Lemma fuzzyScan_spec sourceId key cs : forall k b0 s0 b s,
  fuzzyScan sourceId key cs k (b0, s0) = (b, s) ->
  ((b = b0 /\ s = s0)
   \/ exists i c, b = Some (k + i) /\ cs !! i = Some c /\ fuzzyEligible sourceId c
                  /\ s = similarity key (nameKey c) /\ (s0 <? s)%float = true
                  /\ (forall j c', j < i -> cs !! j = Some c' ->
                        fuzzyEligible sourceId c' ->
                        (s <=? similarity key (nameKey c'))%float = false))
  /\ (forall j c', cs !! j = Some c' -> fuzzyEligible sourceId c' ->
        (s <? similarity key (nameKey c'))%float = false).
Proof.
  induction cs as [|c rest IH]; intros k b0 s0 b s Hscan; cbn [fuzzyScan] in Hscan.
  { inversion Hscan; subst. split; [by left|]. intros j c' Hlook. by destruct j. }
  cbn [snd] in Hscan.
  assert (Hskip : forall b1 s1,
    fuzzyScan sourceId key rest (S k) (b0, s0) = (b1, s1) ->
    (fuzzyEligible sourceId c -> (s0 <? similarity key (nameKey c))%float = false) ->
    ((b1 = b0 /\ s1 = s0)
     \/ exists i c1, b1 = Some (k + i) /\ (c :: rest) !! i = Some c1
                     /\ fuzzyEligible sourceId c1
                     /\ s1 = similarity key (nameKey c1) /\ (s0 <? s1)%float = true
                     /\ (forall j c', j < i -> (c :: rest) !! j = Some c' ->
                           fuzzyEligible sourceId c' ->
                           (s1 <=? similarity key (nameKey c'))%float = false))
    /\ (forall j c', (c :: rest) !! j = Some c' -> fuzzyEligible sourceId c' ->
          (s1 <? similarity key (nameKey c'))%float = false)).
  { intros b1 s1 Hrest Hhead. apply IH in Hrest as [Hsel Hmax].
    destruct Hsel as [[-> ->]|(i & c1 & -> & Hl & He & Hs & Hlt & Hearlier)].
    - split; [by left|]. intros [|j] c' Hlook Hel; cbn in Hlook.
      + assert (c' = c) as -> by congruence. by apply Hhead.
      + by eapply Hmax.
    - assert (Hc : fuzzyEligible sourceId c ->
                   (s1 <=? similarity key (nameKey c))%float = false).
      { intros Hel. destruct (s1 <=? _)%float eqn:Hle; [|reflexivity].
        rewrite (float_ltb_leb_trans _ _ _ Hlt Hle) in Hhead. by apply Hhead. }
      split.
      + right. exists (S i), c1. split; [f_equal; lia|].
        split; [done|]. split; [done|]. split; [done|]. split; [done|].
        intros [|j] c' Hj Hlook Hel; cbn in Hlook.
        * assert (c' = c) as -> by congruence. by apply Hc.
        * eapply Hearlier; [|done|done]. lia.
      + intros [|j] c' Hlook Hel; cbn in Hlook.
        * assert (c' = c) as -> by congruence.
          destruct (s1 <? similarity key (nameKey c))%float eqn:Hlt'; [|reflexivity].
          apply float_ltb_leb in Hlt'. rewrite Hc in Hlt'; done.
        * by eapply Hmax. }
  destruct (hasSource c sourceId) eqn:Hhas.
  { apply Hskip; [done|]. intros [Hel _]. congruence. }
  destruct (startsWith (nameKey c) "id:") eqn:Hid.
  { apply Hskip; [done|]. intros [_ Hel]. congruence. }
  destruct (s0 <? similarity key (nameKey c))%float eqn:Hbeat.
  2: { apply Hskip; done. }
  apply IH in Hscan as [Hsel Hmax].
  assert (Hc : fuzzyEligible sourceId c) by done.
  destruct Hsel as [[-> ->]|(i & c1 & -> & Hl & He & Hs & Hlt & Hearlier)].
  - split.
    + right. exists 0, c. split; [f_equal; lia|].
      split; [done|]. split; [done|]. split; [done|]. split; [done|].
      intros j c' Hj. lia.
    + intros [|j] c' Hlook Hel; cbn in Hlook.
      * assert (c' = c) as -> by congruence. apply float_ltb_irrefl.
      * by eapply Hmax.
  - split.
    + right. exists (S i), c1. split; [f_equal; lia|].
      split; [done|]. split; [done|]. split; [done|].
      split; [eapply float_ltb_trans; eassumption|].
      intros [|j] c' Hj Hlook Hel; cbn in Hlook.
      * assert (c' = c) as -> by congruence. by apply float_ltb_not_leb.
      * eapply Hearlier; [|done|done]. lia.
    + intros [|j] c' Hlook Hel; cbn in Hlook.
      * assert (c' = c) as -> by congruence. by apply float_ltb_asym.
      * by eapply Hmax.
Qed.

(* ----------------------------------------------------------------- *)
(** ** Bigram Dice similarity *)

Lemma countTokens_fold (l : list string) : forall (m : gmap string nat) t,
  default 0 (fold_left (fun counts token => <[token := default 0 (counts !! token) + 1]> counts)
                       l m !! t)
  = default 0 (m !! t) + countOf t l.
Proof.
  induction l as [|x l IH]; intros m t; cbn [fold_left countOf]; [lia|].
  rewrite IH. destruct (decide (x = t)) as [->|Hne].
  - rewrite lookup_insert_eq. cbn. lia.
  - rewrite lookup_insert_ne by done. lia.
Qed.

Lemma countTokens_lookup (l : list string) (t : string) :
  default 0 (countTokens l !! t) = countOf t l.
Proof. unfold countTokens. rewrite countTokens_fold. by rewrite lookup_empty. Qed.

Lemma sum_list_ext {A} (f g : A -> nat) (U : list A) :
  (forall t, t ∈ U -> f t = g t) -> sum_list (map f U) = sum_list (map g U).
Proof.
  induction U as [|u U IH]; intros Hfg; cbn; [reflexivity|].
  rewrite Hfg by set_solver. rewrite IH; [reflexivity|].
  intros t Ht. apply Hfg. set_solver.
Qed.

Lemma sum_list_bump {A} (f g : A -> nat) (U : list A) (x : A) :
  NoDup U -> x ∈ U -> f x = S (g x) -> (forall t, t <> x -> f t = g t) ->
  sum_list (map f U) = S (sum_list (map g U)).
Proof.
  induction 1 as [|u U Hnotin Hnd IH]; intros Hx Hfx Hrest; [set_solver|].
  cbn. apply elem_of_cons in Hx as [<-|Hx].
  - rewrite Hfx. rewrite (sum_list_ext f g U); [lia|].
    intros t Ht. apply Hrest. intros ->. done.
  - rewrite IH by done. rewrite (Hrest u); [lia|]. intros ->. done.
Qed.

Lemma overlap_fold (U : list string) (r : list string) :
  NoDup U -> (forall x, x ∈ r -> x ∈ U) ->
  forall (m : gmap string nat) (n : nat),
    (fold_left overlapStep r (m, n)).2
    = n + sum_list (map (fun t => Nat.min (default 0 (m !! t)) (countOf t r)) U).
Proof.
  intros Hnd. induction r as [|x r IH]; intros Hsub m n; cbn [fold_left].
  - cbn [countOf snd]. rewrite (sum_list_ext _ (fun _ => 0)) by (intros t _; lia).
    assert (Hzero : sum_list (map (fun _ : string => 0) U) = 0)
      by (clear; induction U as [|u U IHU]; cbn; lia).
    lia.
  - assert (Hsub' : forall y, y ∈ r -> y ∈ U) by (intros y Hy; apply Hsub; set_solver).
    unfold overlapStep at 2. cbn [fst snd].
    destruct (0 <? default 0 (m !! x)) eqn:Hpos.
    + apply Nat.ltb_lt in Hpos. rewrite IH by done.
      rewrite (sum_list_bump
                 (fun t => Nat.min (default 0 (m !! t)) (countOf t (x :: r)))
                 (fun t => Nat.min (default 0 (<[x := default 0 (m !! x) - 1]> m !! t))
                                   (countOf t r)) U x Hnd); [lia| | |].
      * apply Hsub. set_solver.
      * cbn beta. rewrite lookup_insert_eq. cbn. rewrite decide_True by done. lia.
      * intros t Hne. cbn beta. rewrite lookup_insert_ne by done. cbn.
        rewrite decide_False by done. reflexivity.
    + apply Nat.ltb_ge in Hpos. rewrite IH by done. f_equal.
      apply sum_list_ext. intros t _. cbn [countOf].
      destruct (decide (x = t)) as [->|Hne]; lia.
Qed.

(** The counting loop of [similarity] computes the multiset intersection. *)
Lemma overlapOf_multisetIntersection (l r : list string) :
  overlapOf l r = multisetIntersection l r.
Proof.
  unfold overlapOf, multisetIntersection.
  rewrite (overlap_fold (remove_dups r)).
  - cbn. apply sum_list_ext. intros t _. by rewrite countTokens_lookup.
  - apply NoDup_remove_dups.
  - intros x. by rewrite elem_of_remove_dups.
Qed.

Lemma listOfString_app (a b : string) :
  listOfString (a +:+ b) = (listOfString a ++ listOfString b)%list.
Proof.
  unfold listOfString. induction a as [|c a IH]; [reflexivity|].
  change (String c a +:+ b) with (String c (a +:+ b)).
  cbn [list_ascii_of_string app]. by rewrite IH.
Qed.

Lemma bigrams_nonempty (value : string) : length (bigrams value) <> 0.
Proof.
  unfold bigrams. rewrite !listOfString_app. cbn.
  destruct (listOfString value ++ _)%list as [|c r] eqn:Hl; cbn; [|lia].
  by destruct (listOfString value).
Qed.

(** Away from its shortcuts, [similarity] is the Dice score of the padded
    bigrams: twice the multiset intersection over the two sizes. *)
Lemma similarity_dice (left right : string) :
  left <> right -> left <> "" -> right <> "" ->
  similarity left right
  = (floatOfNat (2 * multisetIntersection (bigrams left) (bigrams right))
     / floatOfNat (length (bigrams left) + length (bigrams right)))%float.
Proof.
  intros Hne Hl Hr. unfold similarity. rewrite decide_False by done.
  destruct left; [done|]. destruct right; [done|]. cbn [isEmptyString orb].
  pose proof (bigrams_nonempty (String a left)) as H1.
  pose proof (bigrams_nonempty (String a0 right)) as H2.
  apply Nat.eqb_neq in H1, H2. rewrite H1, H2. cbn [orb].
  by rewrite overlapOf_multisetIntersection.
Qed.

(** Repeated tokens count as often as both sides have them, and the score
    of "quik battery" against "quick battery" is 24/27. *)
Example similarity_examples :
  multisetIntersection ["ab"; "ab"; "cd"] ["ab"; "cd"; "cd"; "ab"; "ab"] = 3
  /\ overlapOf ["ab"; "ab"; "cd"] ["ab"; "cd"; "cd"; "ab"; "ab"] = 3
  /\ length (bigrams "quik battery") = 13 /\ length (bigrams "quick battery") = 14
  /\ multisetIntersection (bigrams "quik battery") (bigrams "quick battery") = 12
  /\ similarity "quik battery" "quick battery" = (24 / 27)%float.
Proof. vm_compute. repeat split; reflexivity. Qed.

(** C2, as the code has it.  When the exact lookup finds nothing for a key
    that is no id-key, the item goes to the first of the best-scoring
    eligible canonical items (none scores higher, every earlier one scores
    strictly lower) exactly when that best score is above 0 and at least
    [fuzzyThreshold]; the confidence recorded is the score times 1000,
    rounded, over 1000.  Otherwise no canonical item is assigned: either no
    eligible item scores above 0, or the best score is below the threshold.
    An id-key never reaches the fuzzy loop, an exact candidate pre-empts it,
    and the score is the Dice score of the padded bigrams. *)
Theorem fuzzy_fallback_picks_first_best (sourceId : SourceId) (key : string)
    (fuzzyThreshold : float) (st : ResolverState) :
  findExact sourceId (rs_items st) (default [] (rs_index st !! key)) = None ->
  startsWith key "id:" = false ->
  match chooseAssignment sourceId key fuzzyThreshold st with
  | Some (i, detail) =>
      exists c, firstBest sourceId key (rs_items st) i c
        /\ (0 <? similarity key (nameKey c))%float = true
        /\ (fuzzyThreshold <=? similarity key (nameKey c))%float = true
        /\ method detail = MethodFuzzy
        /\ confidence detail
           = (Math_round (similarity key (nameKey c) * 1000) / 1000)%float
  | None =>
      (forall j c', rs_items st !! j = Some c' -> fuzzyEligible sourceId c' ->
         (0 <? similarity key (nameKey c'))%float = false)
      \/ (exists i c, firstBest sourceId key (rs_items st) i c
            /\ (fuzzyThreshold <=? similarity key (nameKey c))%float = false)
  end
  /\ (forall idKey, startsWith idKey "id:" = true ->
        findExact sourceId (rs_items st) (default [] (rs_index st !! idKey)) = None ->
        chooseAssignment sourceId idKey fuzzyThreshold st = None)
  /\ (forall anyKey i,
        findExact sourceId (rs_items st) (default [] (rs_index st !! anyKey)) = Some i ->
        chooseAssignment sourceId anyKey fuzzyThreshold st
        = Some (i, {| method := MethodExact; confidence := 1 |}))
  /\ (forall c, key <> nameKey c -> key <> "" -> nameKey c <> "" ->
        similarity key (nameKey c)
        = (floatOfNat (2 * multisetIntersection (bigrams key) (bigrams (nameKey c)))
           / floatOfNat (length (bigrams key) + length (bigrams (nameKey c))))%float).
Proof.
  intros Hexact Hkey. repeat split.
  - unfold chooseAssignment. rewrite Hexact, Hkey. cbn [negb].
    destruct (fuzzyScan sourceId key (rs_items st) 0 (None, 0%float)) as [b s] eqn:Hscan.
    apply fuzzyScan_spec in Hscan as [Hsel Hmax].
    destruct Hsel as [[-> ->]|(i & c & -> & Hl & He & -> & Hpos & Hearlier)].
    + left. exact Hmax.
    + cbn [Nat.add].
      assert (firstBest sourceId key (rs_items st) i c) by done.
      destruct (fuzzyThreshold <=? similarity key (nameKey c))%float eqn:Hthr.
      * exists c. done.
      * right. exists i, c. done.
  - intros idKey Hid Hnone. unfold chooseAssignment. by rewrite Hnone, Hid.
  - intros anyKey i Hsome. unfold chooseAssignment. by rewrite Hsome.
  - intros c. apply similarity_dice.
Qed.

(** The theorem at the fuzzy boundary: with the threshold set to the very
    score of "quik battery" against "quick battery" (24/27), the item is
    assigned to that canonical item, with confidence 0.889. *)
Lemma fuzzy_fallback_witness :
  let threshold := similarity "quik battery" "quick battery" in
  chooseAssignment metaforge "quik battery" threshold (afterOne "Quick Battery")
  = Some (0, {| method := MethodFuzzy; confidence := 0.889 |})
  /\ exists c, firstBest metaforge "quik battery" (rs_items (afterOne "Quick Battery")) 0 c
       /\ (0 <? similarity "quik battery" (nameKey c))%float = true
       /\ (threshold <=? similarity "quik battery" (nameKey c))%float = true
       /\ method {| method := MethodFuzzy; confidence := 0.889 |} = MethodFuzzy
       /\ confidence {| method := MethodFuzzy; confidence := 0.889 |}
          = (Math_round (similarity "quik battery" (nameKey c) * 1000) / 1000)%float.
Proof.
  intros threshold.
  assert (Hrun : chooseAssignment metaforge "quik battery" threshold
                   (afterOne "Quick Battery")
                 = Some (0, {| method := MethodFuzzy; confidence := 0.889 |})).
  { vm_compute. reflexivity. }
  split; [exact Hrun|].
  pose proof (fuzzy_fallback_picks_first_best metaforge "quik battery" threshold
                (afterOne "Quick Battery")
                ltac:(vm_compute; reflexivity) ltac:(vm_compute; reflexivity)) as [Hsel _].
  rewrite Hrun in Hsel. exact Hsel.
Defined.

(** C2 as stated fails at a threshold of 0: "xyz" shares no bigram with
    "abc", so the one eligible canonical item scores 0, which is at least
    the threshold, and yet the item is not assigned to it but starts a
    canonical item of its own. *)
Lemma fuzzy_zero_score_never_merges :
  (exists c, rs_items (afterOne "abc") !! 0 = Some c
             /\ fuzzyEligible metaforge c
             /\ similarity "xyz" (nameKey c) = 0%float
             /\ (0 <=? similarity "xyz" (nameKey c))%float = true)
  /\ findExact metaforge (rs_items (afterOne "abc"))
               (default [] (rs_index (afterOne "abc") !! "xyz")) = None
  /\ chooseAssignment metaforge "xyz" 0 (afterOne "abc") = None
  /\ map (fun c => fst <$> map_to_list (bySource c))
         (mergeAndDiffItems (P := asciiHost)
            {[ardb := [namedItem ardb "abc"]; metaforge := [namedItem metaforge "xyz"]]}
            [ardb; metaforge] 0)
     = [[ardb]; [metaforge]].
Proof.
  split; [eexists; split; [vm_compute; reflexivity|]; repeat split; vm_compute; reflexivity|].
  repeat split; vm_compute; reflexivity.
Qed.

(* ----------------------------------------------------------------- *)
(** ** One canonical item per provider record *)

Lemma findExact_spec sourceId items candidates i :
  findExact sourceId items candidates = Some i ->
  exists c, items !! i = Some c /\ bySource c !! sourceId = None.
Proof.
  induction candidates as [|k rest IH]; cbn; [done|].
  destruct (items !! k) as [c|] eqn:Hk; [|exact IH].
  unfold hasSource. case_bool_decide as Hhas; [exact IH|].
  intros [= <-]. exists c. split; [done|]. by apply eq_None_not_Some.
Qed.

Lemma chooseAssignment_spec sourceId key fuzzyThreshold st i detail :
  chooseAssignment sourceId key fuzzyThreshold st = Some (i, detail) ->
  exists c, rs_items st !! i = Some c /\ bySource c !! sourceId = None.
Proof.
  unfold chooseAssignment.
  destruct (findExact _ _ _) as [k|] eqn:Hexact.
  { intros [= <- _]. by eapply findExact_spec. }
  destruct (negb _); [|done].
  destruct (fuzzyScan _ _ _ _ _) as [[b|] s] eqn:Hscan; [|done].
  destruct (_ <=? _)%float; [|done]. intros [= <- _].
  apply fuzzyScan_spec in Hscan as [[[? _]|(k & c & Hb & Hl & [He _] & _)] _]; [done|].
  inversion Hb; subst. exists c. split; [done|].
  unfold hasSource in He. apply bool_decide_eq_false in He. by apply eq_None_not_Some.
Qed.

Lemma omap_alter_fills {A B} (f : A -> option B) (g : A -> A) (l : list A) :
  forall i a b, l !! i = Some a -> f a = None -> f (g a) = Some b ->
  omap f (alter g i l) ≡ₚ b :: omap f l.
Proof.
  induction l as [|x l IH]; intros [|i] a b Hl Hf Hg; cbn in Hl |- *; try done.
  - inversion Hl; subst. by rewrite Hf, Hg.
  - destruct (f x) as [y|]; cbn.
    + rewrite (IH i a b) by done. apply perm_swap.
    + by apply (IH i a b).
Qed.

Lemma omap_alter_same {A B} (f : A -> option B) (g : A -> A) (l : list A) (i : nat) :
  (forall a, f (g a) = f a) -> omap f (alter g i l) = omap f l.
Proof.
  intros Hfg. revert i. induction l as [|x l IH]; intros [|i]; cbn; try done.
  - by rewrite Hfg.
  - by rewrite IH.
Qed.

Section ResolverFacts.
Context {P : Platform}.

Lemma resolveItem_entries sourceId fuzzyThreshold st itemIndex item :
  entriesOf sourceId (rs_items (resolveItem sourceId fuzzyThreshold st itemIndex item))
  ≡ₚ item :: entriesOf sourceId (rs_items st).
Proof.
  unfold resolveItem, entriesOf.
  destruct (chooseAssignment _ _ _ _) as [[i detail]|] eqn:Hchoice; cbn [rs_items].
  - apply chooseAssignment_spec in Hchoice as (c & Hl & Hnone).
    eapply omap_alter_fills; [done|done|]. cbn. apply lookup_insert_eq.
  - rewrite omap_app. cbn. rewrite lookup_singleton_eq. cbn.
    by rewrite <- Permutation_cons_append.
Qed.

Lemma resolveItem_others sourceId other fuzzyThreshold st itemIndex item :
  other <> sourceId ->
  entriesOf other (rs_items (resolveItem sourceId fuzzyThreshold st itemIndex item))
  = entriesOf other (rs_items st).
Proof.
  intros Hne. unfold resolveItem, entriesOf.
  destruct (chooseAssignment _ _ _ _) as [[i detail]|]; cbn [rs_items].
  - apply omap_alter_same. intros c. cbn. by rewrite lookup_insert_ne.
  - rewrite omap_app. cbn. rewrite lookup_singleton_ne by done. cbn.
    by rewrite app_nil_r.
Qed.

Lemma resolveItem_index_in_range sourceId fuzzyThreshold st itemIndex item :
  indexInRange st -> indexInRange (resolveItem sourceId fuzzyThreshold st itemIndex item).
Proof.
  intros Hst key positions i. unfold resolveItem.
  destruct (chooseAssignment _ _ _ _) as [[k detail]|]; cbn [rs_items rs_index].
  - rewrite length_alter. apply Hst.
  - rewrite length_app. cbn [length].
    destruct (decide (getNameKey item itemIndex = key)) as [<-|Hne].
    + rewrite lookup_insert_eq. intros [= <-] Hi.
      apply elem_of_app in Hi as [Hi|Hi].
      * destruct (rs_index st !! getNameKey item itemIndex) as [old|] eqn:Hold;
          cbn in Hi; [|by apply elem_of_nil in Hi].
        specialize (Hst _ _ _ Hold Hi). lia.
      * apply list_elem_of_singleton in Hi. lia.
    + rewrite lookup_insert_ne by done. intros Hkey Hi.
      specialize (Hst _ _ _ Hkey Hi). lia.
Qed.

Lemma resolveItems_index_in_range sourceId fuzzyThreshold items : forall itemIndex st,
  indexInRange st ->
  indexInRange (resolveItems sourceId fuzzyThreshold items itemIndex st).
Proof.
  induction items as [|item items IH]; intros itemIndex st Hst; cbn; [exact Hst|].
  by apply IH, resolveItem_index_in_range.
Qed.

(** The lookup in [findExact] never misses: the name index of every state
    the resolver reaches holds positions of [canonicalItems] only. *)
Lemma nameIndex_in_range normalizedBySource sources fuzzyThreshold :
  indexInRange (resolveSources normalizedBySource sources fuzzyThreshold).
Proof.
  unfold resolveSources.
  assert (Hfold : forall st, indexInRange st ->
            indexInRange
              (fold_left
                 (fun st sourceId =>
                    resolveItems sourceId fuzzyThreshold
                                 (default [] (normalizedBySource !! sourceId)) 0 st)
                 sources st)).
  { induction sources as [|s sources IH]; intros st Hst; cbn [fold_left]; [exact Hst|].
    by apply IH, resolveItems_index_in_range. }
  apply Hfold. intros key positions i Hkey. cbn [rs_index] in Hkey.
  by rewrite lookup_empty in Hkey.
Qed.

Lemma resolveItems_entries sourceId fuzzyThreshold items : forall itemIndex st,
  entriesOf sourceId (rs_items (resolveItems sourceId fuzzyThreshold items itemIndex st))
  ≡ₚ (items ++ entriesOf sourceId (rs_items st))%list.
Proof.
  induction items as [|item items IH]; intros itemIndex st; cbn; [reflexivity|].
  rewrite IH, resolveItem_entries. by rewrite Permutation_middle.
Qed.

Lemma resolveItems_others sourceId other fuzzyThreshold items : forall itemIndex st,
  other <> sourceId ->
  entriesOf other (rs_items (resolveItems sourceId fuzzyThreshold items itemIndex st))
  = entriesOf other (rs_items st).
Proof.
  induction items as [|item items IH]; intros itemIndex st Hne; cbn; [reflexivity|].
  rewrite IH by done. by apply resolveItem_others.
Qed.

Lemma resolveSources_entries normalizedBySource fuzzyThreshold p sources : forall st,
  entriesOf p
    (rs_items
       (fold_left
          (fun st sourceId =>
             resolveItems sourceId fuzzyThreshold
                          (default [] (normalizedBySource !! sourceId)) 0 st)
          sources st))
  ≡ₚ (listedItems normalizedBySource sources p ++ entriesOf p (rs_items st))%list.
Proof.
  induction sources as [|s sources IH]; intros st; cbn [fold_left]; [reflexivity|].
  rewrite IH. unfold listedItems. cbn [flat_map].
  destruct (decide (s = p)) as [->|Hne].
  - rewrite resolveItems_entries.
    rewrite !app_assoc. apply Permutation_app_tail, Permutation_app_comm.
  - rewrite resolveItems_others by done. reflexivity.
Qed.

Lemma finishItem_bySource sources c : bySource (finishItem sources c) = bySource c.
Proof. reflexivity. Qed.

Lemma finishItem_entries sources p cs :
  entriesOf p (map (finishItem sources) cs) = entriesOf p cs.
Proof.
  unfold entriesOf. induction cs as [|c cs IH]; cbn [map omap list_omap]; [reflexivity|].
  rewrite finishItem_bySource, IH. reflexivity.
Qed.

Lemma mergeAndDiffItems_entries normalizedBySource sources fuzzyThreshold p :
  entriesOf p (mergeAndDiffItems normalizedBySource sources fuzzyThreshold)
  ≡ₚ listedItems normalizedBySource sources p.
Proof.
  unfold mergeAndDiffItems, entriesOf.
  rewrite (arraySort_perm compareCanonical).
  fold (entriesOf p (map (finishItem sources)
                         (rs_items (resolveSources normalizedBySource sources
                                                   fuzzyThreshold)))).
  rewrite finishItem_entries.
  pose proof (resolveSources_entries normalizedBySource fuzzyThreshold p sources
                {| rs_items := []; rs_index := ∅ |}) as Hres.
  cbn in Hres. rewrite app_nil_r in Hres. exact Hres.
Qed.

Lemma listedItems_absent normalizedBySource sources p :
  p ∉ sources -> listedItems normalizedBySource sources p = [].
Proof.
  unfold listedItems. induction sources as [|s sources IH]; intros Hnotin; [reflexivity|].
  cbn [flat_map]. apply not_elem_of_cons in Hnotin as [Hne Hnotin].
  rewrite decide_False by done. cbn. by apply IH.
Qed.

Lemma listedItems_once normalizedBySource sources p :
  NoDup sources -> p ∈ sources ->
  listedItems normalizedBySource sources p = default [] (normalizedBySource !! p).
Proof.
  induction 1 as [|s sources Hnotin Hnd IH]; [set_solver|].
  intros Hin. unfold listedItems. cbn [flat_map].
  fold (listedItems normalizedBySource sources p).
  destruct (decide (s = p)) as [->|Hne].
  - rewrite listedItems_absent by done. by rewrite app_nil_r.
  - cbn. apply IH. apply elem_of_cons in Hin as [->|Hin]; done.
Qed.

End ResolverFacts.

Lemma resolver_entries_from_listed `{Platform}
    (normalizedBySource : gmap SourceId (list SourceItem)) (sources : list SourceId)
    (fuzzyThreshold : float) c p item :
  c ∈ mergeAndDiffItems normalizedBySource sources fuzzyThreshold ->
  bySource c !! p = Some item ->
  p ∈ sources /\ item ∈ default [] (normalizedBySource !! p).
Proof.
  intros Hc Hitem.
  assert (Hin : item ∈ entriesOf p
                         (mergeAndDiffItems normalizedBySource sources fuzzyThreshold)).
  { unfold entriesOf. apply list_elem_of_omap. by exists c. }
  rewrite mergeAndDiffItems_entries in Hin. unfold listedItems in Hin.
  apply list_elem_of_In, in_flat_map in Hin as (s & Hs & Hin).
  destruct (decide (s = p)) as [->|]; [|done].
  split; by apply list_elem_of_In.
Qed.

(** C1, as the code has it.  Whatever the items, the provider list and the
    threshold: a canonical item of the output holds at most one record per
    provider; the records held for a provider [p] are, as a multiset,
    [p]'s items once for each time the list names [p] - so each item goes to
    exactly one canonical item when the list names [p] once, and to none
    when it does not name [p]; and every record held under [p] is one of
    [p]'s items.  No record is overwritten or merged with another of the
    same provider, identical names or not. *)
Theorem resolver_assigns_each_listed_item_once `{Platform}
    (normalizedBySource : gmap SourceId (list SourceItem)) (sources : list SourceId)
    (fuzzyThreshold : float) :
  let out := mergeAndDiffItems normalizedBySource sources fuzzyThreshold in
  (forall c, c ∈ out -> NoDup (map_to_list (bySource c)).*1)
  /\ (forall p, entriesOf p out ≡ₚ listedItems normalizedBySource sources p)
  /\ (forall p, NoDup sources -> p ∈ sources ->
        entriesOf p out ≡ₚ default [] (normalizedBySource !! p))
  /\ (forall p, p ∉ sources -> entriesOf p out = [])
  /\ (forall c p item, c ∈ out -> bySource c !! p = Some item ->
        p ∈ sources /\ item ∈ default [] (normalizedBySource !! p)).
Proof.
  intros out. split; [intros c _; apply NoDup_fst_map_to_list|].
  assert (Hall : forall p, entriesOf p out ≡ₚ listedItems normalizedBySource sources p)
    by (intros p; apply mergeAndDiffItems_entries).
  split; [exact Hall|]. split.
  { intros p Hnd Hin. rewrite Hall. by rewrite listedItems_once. }
  split.
  { intros p Hnotin. pose proof (Hall p) as Hp.
    rewrite listedItems_absent in Hp by done. by apply Permutation_nil_r in Hp. }
  intros c p item. apply resolver_entries_from_listed.
Qed.

(** Two items of one provider with the same name stay apart. *)
Example resolver_keeps_namesakes_apart :
  map (fun c => (canonicalId c, entriesOf ardb [c]))
      (mergeAndDiffItems (P := asciiHost)
         {[ardb := [namedItem ardb "Apple"; namedItem ardb "Apple"]]} [ardb] 0.93)
  = [("canonical-1", [namedItem ardb "Apple"]); ("canonical-2", [namedItem ardb "Apple"])].
Proof. vm_compute. reflexivity. Qed.

(** C1 as stated fails for a provider list that names a provider twice:
    the provider's one item is resolved twice and ends up in two canonical
    items. *)
Lemma resolver_repeated_provider_assigns_twice :
  let out := mergeAndDiffItems (P := asciiHost)
               {[ardb := [namedItem ardb "Apple"]]} [ardb; ardb] 0.93 in
  map canonicalId out = ["canonical-1"; "canonical-2"]
  /\ entriesOf ardb out = [namedItem ardb "Apple"; namedItem ardb "Apple"]
  /\ ~ (entriesOf ardb out ≡ₚ [namedItem ardb "Apple"]).
Proof.
  split; [vm_compute; reflexivity|]. split; [vm_compute; reflexivity|].
  intros Hperm. apply Permutation_length in Hperm. vm_compute in Hperm. discriminate.
Qed.

(* ----------------------------------------------------------------- *)
(** ** The pipeline orchestrator *)

Section PipelineFacts.
Context {P : Platform}.

Lemma pipeline_fold clock fetches : forall st,
  (exists news,
      ps_sourceSummaries
        (fold_left (fun st fetch => pipelineStep clock st fetch.1 fetch.2) fetches st)
      = (ps_sourceSummaries st ++ news)%list
      /\ Forall2 summaryMatches fetches news)
  /\ ps_activeSources
       (fold_left (fun st fetch => pipelineStep clock st fetch.1 fetch.2) fetches st)
     = (ps_activeSources st ++ map fst (filter (fun f => isFulfilled f = true) fetches))%list.
Proof.
  induction fetches as [|[connector result] fetches IH]; intros st; cbn [fold_left fst snd].
  - split; [exists []; split; [by rewrite app_nil_r|constructor]|].
    cbn. by rewrite app_nil_r.
  - destruct (IH (pipelineStep clock st connector result)) as [(news & Hnews & Hall) Hact].
    rewrite Hnews, Hact. clear IH Hnews Hact.
    destruct result as [value|reason]; cbn [pipelineStep ps_sourceSummaries ps_activeSources].
    + rewrite filter_cons_True by done. split; [|by rewrite <- app_assoc].
      eexists. rewrite <- app_assoc. split; [reflexivity|].
      constructor; [|exact Hall]. by repeat split.
    + rewrite filter_cons_False by done. split; [|reflexivity].
      eexists. rewrite <- app_assoc. split; [reflexivity|].
      constructor; [|exact Hall]. by repeat split.
Qed.

Lemma buildDiffData_summaries clock fuzzyMatchThreshold fetches :
  Forall2 summaryMatches fetches
          (sourceSummaries (buildDiffData clock fuzzyMatchThreshold fetches)).
Proof.
  unfold buildDiffData, pipelineLoop. cbn [sourceSummaries].
  destruct (pipeline_fold clock fetches
              {| ps_sourceSummaries := []; ps_normalizedBySource := ∅;
                 ps_activeSources := []; ps_clockReads := 0 |}) as [(news & -> & Hall) _].
  exact Hall.
Qed.

Lemma buildDiffData_enabledSources clock fuzzyMatchThreshold fetches :
  enabledSources (buildDiffData clock fuzzyMatchThreshold fetches)
  = map fst (filter (fun f => isFulfilled f = true) fetches).
Proof.
  unfold buildDiffData, pipelineLoop. cbn [enabledSources].
  destruct (pipeline_fold clock fetches
              {| ps_sourceSummaries := []; ps_normalizedBySource := ∅;
                 ps_activeSources := []; ps_clockReads := 0 |}) as [_ ->].
  reflexivity.
Qed.

(** The canonical items only hold records of providers whose fetch
    succeeded. *)
Lemma buildDiffData_entries clock fuzzyMatchThreshold fetches c p :
  c ∈ canonicalItems (buildDiffData clock fuzzyMatchThreshold fetches) ->
  is_Some (bySource c !! p) ->
  p ∈ enabledSources (buildDiffData clock fuzzyMatchThreshold fetches).
Proof.
  intros Hc [item Hitem]. cbn in Hc |- *.
  by eapply (resolver_entries_from_listed _ _ _ c p item).
Qed.

End PipelineFacts.

Lemma rejected_not_fulfilled (fetches : list (SourceId * FetchOutcome)) p reason :
  NoDup fetches.*1 -> (p, FetchRejected reason) ∈ fetches ->
  p ∉ map fst (filter (fun f => isFulfilled f = true) fetches).
Proof.
  intros Hnd Hrej Hin.
  apply list_elem_of_fmap in Hin as ([q outcome] & Hp & Hf). cbn in Hp. subst q.
  apply list_elem_of_filter in Hf as [Hok Hf].
  assert (outcome = FetchRejected reason) as ->; [|done].
  apply list_elem_of_lookup in Hrej as [i Hi], Hf as [j Hj].
  assert (i = j) as ->; [|congruence].
  eapply NoDup_lookup; [exact Hnd| |]; rewrite list_lookup_fmap.
  - by rewrite Hi.
  - by rewrite Hj.
Qed.

(** C4, as the code has it.  When the requested providers are pairwise
    distinct: the summaries answer the requests one for one and in order; the
    summary of a failed fetch has version "unavailable", item count 0 and the
    error's message, that of a fetch that succeeded has its version, the
    number of its normalized items and no error; [enabledSources] lists the
    providers whose fetch succeeded, in the order asked; and no canonical
    item holds a record of a provider whose fetch failed. *)
Theorem buildDiffData_partial_failure `{Platform} (clock : nat -> string)
    (fuzzyMatchThreshold : float) (fetches : list (SourceId * FetchOutcome)) :
  NoDup fetches.*1 ->
  let r := buildDiffData clock fuzzyMatchThreshold fetches in
  Forall2 summaryMatches fetches (sourceSummaries r)
  /\ length (sourceSummaries r) = length fetches
  /\ enabledSources r = map fst (filter (fun f => isFulfilled f = true) fetches)
  /\ (forall p reason, (p, FetchRejected reason) ∈ fetches ->
        (p ∉ enabledSources r)
        /\ (forall c, c ∈ canonicalItems r -> bySource c !! p = None)).
Proof.
  intros Hnd r.
  pose proof (buildDiffData_summaries clock fuzzyMatchThreshold fetches) as Hsum.
  split; [exact Hsum|]. split; [symmetry; by eapply Forall2_length|].
  split; [apply buildDiffData_enabledSources|].
  intros p reason Hrej.
  assert (Hnot : p ∉ enabledSources r).
  { subst r. rewrite buildDiffData_enabledSources. by eapply rejected_not_fulfilled. }
  split; [exact Hnot|]. intros c Hc.
  destruct (bySource c !! p) as [item|] eqn:Hitem; [|reflexivity].
  exfalso. apply Hnot. eapply buildDiffData_entries; [exact Hc|]. by rewrite Hitem.
Qed.

(** The theorem on three providers of which the second fails: three
    summaries, two enabled sources, no record of the failed provider. *)
Lemma buildDiffData_partial_failure_witness :
  let r := buildDiffData (P := asciiHost) sampleClock 0.93 twoOfThree in
  (length (sourceSummaries r) = 3 /\ enabledSources r = [ardb; raidtheory]
   /\ map summary_error (sourceSummaries r) = [None; Some "HTTP 503"; None])
  /\ Forall2 (summaryMatches (P := asciiHost)) twoOfThree (sourceSummaries r)
  /\ length (sourceSummaries r) = length twoOfThree
  /\ enabledSources r = map fst (filter (fun f => isFulfilled f = true) twoOfThree)
  /\ (forall p reason, (p, FetchRejected reason) ∈ twoOfThree ->
        (p ∉ enabledSources r)
        /\ (forall c, c ∈ canonicalItems r -> bySource c !! p = None)).
Proof.
  intros r. split; [vm_compute; repeat split; reflexivity|].
  apply (@buildDiffData_partial_failure asciiHost sampleClock 0.93 twoOfThree).
  apply (bool_decide_unpack _). vm_compute. exact I.
Defined.

(** C4 as stated fails when a provider is asked twice and only one of its
    fetches fails: the provider gets two summaries, one of them with the
    error, and is enabled all the same, with a record in the canonical
    items. *)
Lemma buildDiffData_provider_asked_twice :
  let r := buildDiffData (P := asciiHost) sampleClock 0.93 askedTwice in
  map (fun s => (summary_sourceId s, summary_versionOrCommit s, summary_error s))
      (sourceSummaries r)
  = [(ardb, "unavailable", Some "HTTP 503"); (ardb, "v1", None)]
  /\ enabledSources r = [ardb]
  /\ map (fun c => fst <$> map_to_list (bySource c)) (canonicalItems r) = [[ardb]].
Proof. vm_compute. repeat split; reflexivity. Qed.

(* ================================================================= *)
(** * Further properties of the code *)

(* ----------------------------------------------------------------- *)
(** ** Strings *)

Lemma stringOfList_listOfString (s : string) : stringOfList (listOfString s) = s.
Proof. apply string_of_list_ascii_of_string. Qed.

Lemma listOfString_stringOfList (l : list ascii) : listOfString (stringOfList l) = l.
Proof. apply list_ascii_of_string_of_list_ascii. Qed.

Lemma isLowerAlnum_not_white (c : ascii) : isLowerAlnum c = true -> isWhiteSpace c = false.
Proof. destruct c as [[] [] [] [] [] [] [] []]; vm_compute; congruence. Qed.

Lemma isLowerAlnum_lowerChar (c : ascii) : isLowerAlnum c = true -> lowerChar c = c.
Proof. destruct c as [[] [] [] [] [] [] [] []]; vm_compute; congruence. Qed.

Lemma dropWhile_snoc {A} (p : A -> bool) (l : list A) (x : A) :
  dropWhile p (l ++ [x])
  = match dropWhile p l with
    | [] => if p x then [] else [x]
    | kept => (kept ++ [x])%list
    end.
Proof.
  induction l as [|y l IH]; cbn; [reflexivity|].
  destruct (p y); [exact IH|reflexivity].
Qed.

Lemma stripEnd_rev (l : list ascii) : rev (dropWhile isWhiteSpace (rev l)) = stripEnd l.
Proof.
  induction l as [|c r IH]; [reflexivity|].
  cbn [rev stripEnd]. rewrite dropWhile_snoc.
  rewrite <- IH. destruct (dropWhile isWhiteSpace (rev r)) as [|x kept]; cbn [rev].
  - by destruct (isWhiteSpace c).
  - rewrite rev_app_distr. cbn [rev app].
    destruct (rev kept ++ [x])%list eqn:Hk; [by destruct (rev kept)|reflexivity].
Qed.

Lemma trimList_stripEnd (l : list ascii) :
  trimList l = stripEnd (dropWhile isWhiteSpace l).
Proof. apply stripEnd_rev. Qed.

Lemma stripEnd_head (c : ascii) (r : list ascii) :
  isWhiteSpace c = false -> exists kept, stripEnd (c :: r) = c :: kept.
Proof.
  intros Hc. cbn [stripEnd]. destruct (stripEnd r); rewrite ?Hc; eauto.
Qed.

Lemma dropWhile_head {A} (p : A -> bool) (l : list A) :
  match dropWhile p l with
  | [] => True
  | x :: _ => p x = false
  end.
Proof.
  induction l as [|y l IH]; cbn; [done|].
  destruct (p y) eqn:Hy; [exact IH|exact Hy].
Qed.

Lemma stripEnd_idem (l : list ascii) : stripEnd (stripEnd l) = stripEnd l.
Proof.
  induction l as [|c r IH]; [reflexivity|]. cbn [stripEnd].
  destruct (stripEnd r) as [|x kept] eqn:Hr.
  - destruct (isWhiteSpace c) eqn:Hc; cbn [stripEnd]; by rewrite ?Hc.
  - cbn [stripEnd] in IH |- *. by rewrite IH.
Qed.

(** Trimming twice is trimming once. *)
Lemma trimList_idem (l : list ascii) : trimList (trimList l) = trimList l.
Proof.
  rewrite !trimList_stripEnd.
  pose proof (dropWhile_head isWhiteSpace l) as Hhead.
  destruct (dropWhile isWhiteSpace l) as [|c r]; [reflexivity|].
  destruct (stripEnd_head c r Hhead) as [kept Hkept].
  rewrite Hkept. cbn [dropWhile]. rewrite Hhead. rewrite <- Hkept.
  apply stripEnd_idem.
Qed.

Lemma trim_idem (s : string) : trim (trim s) = trim s.
Proof. unfold trim. by rewrite listOfString_stringOfList, trimList_idem. Qed.

(* ----------------------------------------------------------------- *)
(** ** Match keys *)

Lemma spaced_weaken (l : list ascii) : spaced l true = true -> spaced l false = true.
Proof.
  destruct l as [|c r]; cbn; [done|].
  destruct (isLowerAlnum c); [done|]. by rewrite andb_false_r.
Qed.

Lemma replaceRuns_spaced (l : list ascii) : forall inRun,
  spaced (replaceRuns (fun c => negb (isLowerAlnum c)) l inRun) inRun = true.
Proof.
  induction l as [|c r IH]; intros inRun; cbn; [reflexivity|].
  destruct (isLowerAlnum c) eqn:Hc; cbn.
  - rewrite Hc. apply IH.
  - destruct inRun; cbn.
    + apply IH.
    + apply IH.
Qed.

Lemma spaced_dropWhile (l : list ascii) : forall b,
  spaced l b = true -> spaced (dropWhile isWhiteSpace l) true = true.
Proof.
  induction l as [|c r IH]; intros b; cbn; [done|].
  destruct (isLowerAlnum c) eqn:Hc.
  - intros Hr. rewrite (isLowerAlnum_not_white c Hc). cbn. by rewrite Hc.
  - intros Hr. apply andb_prop in Hr as [Hsp Hr]. apply andb_prop in Hsp as [Hsp _].
    apply Ascii.eqb_eq in Hsp. subst c. cbn. by eapply IH.
Qed.

Lemma spaced_stripEnd (l : list ascii) : forall b,
  spaced l b = true ->
  match stripEnd l with
  | [] => True
  | kept => wordsFrom kept b = true
  end.
Proof.
  induction l as [|c r IH]; intros b; cbn [spaced stripEnd]; [done|].
  destruct (isLowerAlnum c) eqn:Hc.
  - intros Hr. specialize (IH false Hr).
    destruct (stripEnd r) as [|x kept].
    + rewrite (isLowerAlnum_not_white c Hc). cbn. by rewrite Hc.
    + cbn [wordsFrom]. by rewrite Hc.
  - intros Hr. apply andb_prop in Hr as [Hsp Hr]. apply andb_prop in Hsp as [Hsp Hb].
    apply Ascii.eqb_eq in Hsp. subst c. specialize (IH true Hr).
    destruct (stripEnd r) as [|x kept]; [done|].
    cbn [wordsFrom]. rewrite Hc, Hb. cbn. exact IH.
Qed.

Lemma wordsFrom_lower (l : list ascii) : forall b,
  wordsFrom l b = true -> map lowerChar l = l.
Proof.
  induction l as [|c r IH]; intros b; cbn; [done|].
  destruct (isLowerAlnum c) eqn:Hc.
  - intros Hr. by rewrite (isLowerAlnum_lowerChar c Hc), (IH false).
  - intros Hr. apply andb_prop in Hr as [Hsp Hr]. apply andb_prop in Hsp as [Hsp _].
    apply Ascii.eqb_eq in Hsp. subst c. by rewrite (IH true).
Qed.

Lemma wordsFrom_replaceRuns (inClass : ascii -> bool) (l : list ascii) :
  (forall c, isLowerAlnum c = true -> inClass c = false) -> inClass " "%char = true ->
  forall b inRun, wordsFrom l b = true -> (inRun = true -> b = true) ->
    replaceRuns inClass l inRun = l.
Proof.
  intros Hword Hspace. induction l as [|c r IH]; intros b inRun; cbn; [done|].
  destruct (isLowerAlnum c) eqn:Hc.
  - intros Hr _. rewrite (Hword c Hc). by rewrite (IH false false).
  - intros Hr Hrun. apply andb_prop in Hr as [Hsp Hr]. apply andb_prop in Hsp as [Hsp Hb].
    apply Ascii.eqb_eq in Hsp. subst c. rewrite Hspace.
    destruct inRun; [by rewrite Hrun in Hb|]. by rewrite (IH true true).
Qed.

Lemma wordsFrom_stripEnd (l : list ascii) : forall b,
  wordsFrom l b = true -> stripEnd l = l.
Proof.
  induction l as [|c r IH]; intros b; [done|]. cbn [wordsFrom stripEnd].
  destruct (isLowerAlnum c) eqn:Hc.
  - intros Hr. rewrite (IH false Hr). destruct r; [|reflexivity].
    by rewrite (isLowerAlnum_not_white c Hc).
  - intros Hr. apply andb_prop in Hr as [Hsp Hr]. rewrite (IH true Hr).
    destruct r; [discriminate|reflexivity].
Qed.

Lemma wordsFrom_trimList (l : list ascii) :
  wordsFrom l true = true -> trimList l = l.
Proof.
  intros Hl. rewrite trimList_stripEnd.
  destruct l as [|c r]; [reflexivity|]. cbn in Hl |- *.
  destruct (isLowerAlnum c) eqn:Hc; [|by rewrite andb_false_r in Hl].
  rewrite (isLowerAlnum_not_white c Hc).
  apply (wordsFrom_stripEnd (c :: r) true). cbn. by rewrite Hc.
Qed.

Lemma normalizeNameForMatch_shape (value : string) :
  isNormalizedName (normalizeNameForMatch value) = true.
Proof.
  unfold isNormalizedName, normalizeNameForMatch.
  rewrite listOfString_stringOfList, trimList_stripEnd.
  set (spacedOut := replaceRuns _ (listOfString (toLowerCase value)) false).
  pose proof (replaceRuns_spaced (listOfString (toLowerCase value)) false) as Hsp.
  fold spacedOut in Hsp. apply spaced_dropWhile in Hsp.
  apply spaced_stripEnd in Hsp.
  destruct (stripEnd (dropWhile isWhiteSpace spacedOut)) as [|c kept] eqn:Hkept;
    [reflexivity|].
  rewrite (wordsFrom_replaceRuns isWhiteSpace (c :: kept)
             isLowerAlnum_not_white eq_refl true false Hsp) by done.
  exact Hsp.
Qed.

Lemma normalizeNameForMatch_fixed (name : string) :
  isNormalizedName name = true -> normalizeNameForMatch name = name.
Proof.
  intros Hname. unfold isNormalizedName in Hname.
  unfold normalizeNameForMatch, toLowerCase.
  rewrite listOfString_stringOfList.
  destruct (listOfString name) as [|c r] eqn:Hl.
  - cbn. rewrite <- (stringOfList_listOfString name), Hl. reflexivity.
  - rewrite (wordsFrom_lower _ _ Hname).
    rewrite (wordsFrom_replaceRuns (fun c => negb (isLowerAlnum c)) (c :: r)) with (b := true);
      [|by intros c' ->|reflexivity|exact Hname|done].
    rewrite (wordsFrom_trimList _ Hname).
    rewrite (wordsFrom_replaceRuns isWhiteSpace (c :: r)
               isLowerAlnum_not_white eq_refl true false Hname) by done.
    rewrite <- Hl. apply stringOfList_listOfString.
Qed.

(** X1. [normalizeNameForMatch] computes a normal form: its result is
    empty or words of a-z and 0-9 with single spaces between them, every
    string of that shape is mapped to itself, and so normalizing twice
    changes nothing. *)
Theorem normalizeNameForMatch_normal_form (value : string) :
  isNormalizedName (normalizeNameForMatch value) = true
  /\ (forall name, isNormalizedName name = true -> normalizeNameForMatch name = name)
  /\ normalizeNameForMatch (normalizeNameForMatch value) = normalizeNameForMatch value.
Proof.
  split; [apply normalizeNameForMatch_shape|].
  split; [apply normalizeNameForMatch_fixed|].
  apply normalizeNameForMatch_fixed, normalizeNameForMatch_shape.
Qed.

Lemma wordsFrom_no_id_prefix (l : list ascii) (b : bool) :
  wordsFrom l b = true -> String.prefix "id:" (stringOfList l) = false.
Proof.
  destruct l as [|c1 [|c2 [|c3 r]]]; cbn [stringOfList string_of_list_ascii String.prefix];
    try (intros _; repeat case_match; reflexivity).
  intros Hl. destruct (ascii_dec c1 "i") as [->|]; [|by repeat case_match].
  destruct (ascii_dec c2 "d") as [->|]; [|by repeat case_match].
  destruct (ascii_dec c3 ":") as [->|]; [|by repeat case_match].
  exfalso. cbn in Hl. discriminate.
Qed.

Lemma isNormalizedName_no_id_prefix (s : string) :
  isNormalizedName s = true -> startsWith s "id:" = false.
Proof.
  unfold isNormalizedName, startsWith. intros Hs.
  rewrite <- (stringOfList_listOfString s).
  destruct (listOfString s) as [|c r] eqn:Hl; [reflexivity|].
  by eapply wordsFrom_no_id_prefix.
Qed.

(** X2. The key of an item starts with "id:" exactly when the item has no
    usable name (no name, or a name without a letter or digit); otherwise
    the key is the normalized name.  So the test [nameKey.startsWith('id:')]
    of the resolver tells the keys made from an id or a position from the
    keys made from a name, whatever the name is. *)
Theorem getNameKey_id_prefix (item : SourceItem) (fallbackIndex : nat) :
  let normalized := normalizeNameForMatch (default "" (item_name item)) in
  startsWith (getNameKey item fallbackIndex) "id:" = isEmptyString normalized
  /\ (isEmptyString normalized = false -> getNameKey item fallbackIndex = normalized).
Proof.
  intros normalized. unfold getNameKey.
  assert (Hsame : match item_name item with
                  | Some n => if isEmptyString n then "" else normalizeNameForMatch n
                  | None => ""
                  end = normalized).
  { subst normalized. destruct (item_name item) as [[|c n]|]; reflexivity. }
  rewrite Hsame.
  destruct (isEmptyString normalized) eqn:Hempty; cbn [negb].
  - split; [|done].
    destruct (item_sourceItemId item) as [i|]; [destruct (isEmptyString i)|];
      unfold startsWith; destruct (item_sourceId item); reflexivity.
  - split; [|done]. apply isNormalizedName_no_id_prefix.
    apply normalizeNameForMatch_shape.
Qed.

(* ----------------------------------------------------------------- *)
(** ** The similarity score *)

Lemma overlapOf_over (U l r : list string) :
  NoDup U -> (forall x, x ∈ r -> x ∈ U) ->
  overlapOf l r = sum_list (map (fun t => Nat.min (countOf t l) (countOf t r)) U).
Proof.
  intros Hnd Hsub. unfold overlapOf. rewrite (overlap_fold U r Hnd Hsub). cbn.
  apply sum_list_ext. intros t _. by rewrite countTokens_lookup.
Qed.

Lemma overlapOf_comm (l r : list string) : overlapOf l r = overlapOf r l.
Proof.
  rewrite (overlapOf_over (remove_dups (l ++ r)) l r),
          (overlapOf_over (remove_dups (l ++ r)) r l).
  - apply sum_list_ext. intros t _. apply Nat.min_comm.
  - apply NoDup_remove_dups.
  - intros x Hx. rewrite elem_of_remove_dups. set_solver.
  - apply NoDup_remove_dups.
  - intros x Hx. rewrite elem_of_remove_dups. set_solver.
Qed.

Lemma countOf_length (t : string) (l : list string) : countOf t l <= length l.
Proof. induction l as [|x l IH]; cbn; [lia|]. destruct (decide (x = t)); lia. Qed.

Lemma sum_list_min_countOf (U l : list string) :
  NoDup U ->
  sum_list (map (fun t => countOf t l) U) <= length l.
Proof.
  intros Hnd. revert U Hnd. induction l as [|x l IH]; intros U Hnd; cbn [countOf length].
  - clear. induction U; cbn; lia.
  - destruct (decide (x ∈ U)) as [Hin|Hnotin].
    + rewrite (sum_list_bump (fun t => (if decide (x = t) then 1 else 0) + countOf t l)
                 (fun t => countOf t l) U x Hnd Hin).
      * specialize (IH U Hnd). lia.
      * rewrite decide_True by done. lia.
      * intros t Hne. rewrite decide_False by done. lia.
    + rewrite (sum_list_ext _ (fun t => countOf t l)).
      * specialize (IH U Hnd). lia.
      * intros t Ht. rewrite decide_False; [lia|]. by intros ->.
Qed.

Lemma overlapOf_le_right (l r : list string) : overlapOf l r <= length r.
Proof.
  rewrite overlapOf_multisetIntersection. unfold multisetIntersection.
  etransitivity; [|apply (sum_list_min_countOf (remove_dups r) r), NoDup_remove_dups].
  generalize (remove_dups r). intros U. induction U as [|u U IH]; cbn; lia.
Qed.

(** X3. The similarity score does not depend on which of the two keys
    comes first, and the count it is made of never exceeds the number of
    bigrams of either key, so that twice the count is at most the
    denominator. *)
Theorem similarity_symmetric (left right : string) :
  similarity left right = similarity right left
  /\ overlapOf (bigrams left) (bigrams right) <= length (bigrams left)
  /\ overlapOf (bigrams left) (bigrams right) <= length (bigrams right)
  /\ 2 * overlapOf (bigrams left) (bigrams right)
     <= length (bigrams left) + length (bigrams right).
Proof.
  assert (Hl : overlapOf (bigrams left) (bigrams right) <= length (bigrams left))
    by (rewrite overlapOf_comm; apply overlapOf_le_right).
  pose proof (overlapOf_le_right (bigrams left) (bigrams right)) as Hr.
  split; [|lia].
  unfold similarity. destruct (decide (left = right)) as [->|Hne].
  - by rewrite decide_True.
  - rewrite decide_False by done.
    rewrite (orb_comm (isEmptyString left)), (orb_comm (length (bigrams left) =? 0)).
    rewrite (overlapOf_comm (bigrams left)), (Nat.add_comm (length (bigrams left))).
    reflexivity.
Qed.

(* ----------------------------------------------------------------- *)
(** ** States of the resolver *)

Section ReachableStates.
Context {P : Platform}.
Implicit Types (normalizedBySource : gmap SourceId (list SourceItem)) (st : ResolverState).

Lemma resolveItems_reachable normalizedBySource fuzzyThreshold sourceId items :
  forall itemIndex st,
    (forall j item, items !! j = Some item ->
       default [] (normalizedBySource !! sourceId) !! (itemIndex + j) = Some item) ->
    reachable normalizedBySource fuzzyThreshold st ->
    reachable normalizedBySource fuzzyThreshold
              (resolveItems sourceId fuzzyThreshold items itemIndex st).
Proof.
  induction items as [|item items IH]; intros itemIndex st Hat Hst; cbn; [exact Hst|].
  apply IH.
  - intros j item' Hj. replace (S itemIndex + j) with (itemIndex + S j) by lia.
    by apply Hat.
  - apply reach_step; [exact Hst|]. specialize (Hat 0 item eq_refl).
    by rewrite Nat.add_0_r in Hat.
Qed.

(** The two loops of [mergeAndDiffItems] only go through reachable states. *)
Lemma resolveSources_reachable normalizedBySource sources fuzzyThreshold :
  reachable normalizedBySource fuzzyThreshold
            (resolveSources normalizedBySource sources fuzzyThreshold).
Proof.
  unfold resolveSources.
  assert (Hfold : forall st, reachable normalizedBySource fuzzyThreshold st ->
            reachable normalizedBySource fuzzyThreshold
              (fold_left
                 (fun st sourceId =>
                    resolveItems sourceId fuzzyThreshold
                                 (default [] (normalizedBySource !! sourceId)) 0 st)
                 sources st)).
  { induction sources as [|s sources IH]; intros st Hst; cbn [fold_left]; [exact Hst|].
    apply IH, resolveItems_reachable; [|exact Hst]. intros j item Hj. exact Hj. }
  apply Hfold, reach_start.
Qed.

Lemma mergeAndDiffItems_elem normalizedBySource sources fuzzyThreshold c :
  c ∈ mergeAndDiffItems normalizedBySource sources fuzzyThreshold
  <-> exists c0, c0 ∈ rs_items (resolveSources normalizedBySource sources fuzzyThreshold)
                 /\ c = finishItem sources c0.
Proof.
  unfold mergeAndDiffItems. rewrite (arraySort_perm compareCanonical).
  rewrite list_elem_of_fmap. split; intros (c0 & H1 & H2); exists c0; done.
Qed.

End ReachableStates.

(* ----------------------------------------------------------------- *)
(** ** Ids, match details and sizes of the canonical items *)

Lemma natToString_inj (n m : nat) : natToString n = natToString m -> n = m.
Proof.
  unfold natToString. intros Heq.
  apply DecimalNat.Unsigned.to_uint_inj.
  assert (Hsome : Some (Nat.to_uint n) = Some (Nat.to_uint m))
    by (rewrite <- !NilEmpty.usu; by rewrite Heq).
  by inversion Hsome.
Qed.

Lemma canonicalIdAt_inj : Inj (=) (=) canonicalIdAt.
Proof.
  intros i j Heq. unfold canonicalIdAt in Heq. cbn in Heq.
  inversion Heq as [Hdigits]. apply natToString_inj in Hdigits. lia.
Qed.

Lemma map_alter_same {A B} (f : A -> B) (g : A -> A) (l : list A) (i : nat) :
  (forall a, f (g a) = f a) -> map f (alter g i l) = map f l.
Proof.
  intros Hfg. revert i. induction l as [|x l IH]; intros [|i]; cbn; try done.
  - by rewrite Hfg.
  - by rewrite IH.
Qed.

Lemma omap_length_le {A B} (f : A -> option B) (l : list A) :
  length (omap f l) <= length l.
Proof. induction l as [|x l IH]; cbn; [lia|]. destruct (f x); cbn; lia. Qed.

Section CanonicalItemFacts.
Context {P : Platform}.
Implicit Types (normalizedBySource : gmap SourceId (list SourceItem)) (st : ResolverState).

Lemma reachable_ids normalizedBySource fuzzyThreshold st :
  reachable normalizedBySource fuzzyThreshold st ->
  map canonicalId (rs_items st) = map canonicalIdAt (seq 0 (length (rs_items st))).
Proof.
  induction 1 as [|st sourceId itemIndex item _ IH _]; [reflexivity|].
  unfold resolveItem. destruct (chooseAssignment _ _ _ _) as [[i detail]|]; cbn [rs_items].
  - rewrite length_alter. by rewrite map_alter_same.
  - rewrite length_app, map_app, IH. cbn [length map].
    rewrite Nat.add_1_r, seq_S, map_app. cbn [map canonicalId]. unfold canonicalIdAt.
    by rewrite Nat.add_0_l, Nat.add_1_r.
Qed.

Lemma reachable_wellMatched normalizedBySource fuzzyThreshold st :
  reachable normalizedBySource fuzzyThreshold st ->
  Forall wellMatched (rs_items st).
Proof.
  induction 1 as [|st sourceId itemIndex item _ IH _]; [constructor|].
  unfold resolveItem.
  destruct (chooseAssignment _ _ _ _) as [[i detail]|] eqn:Hchoice; cbn [rs_items].
  - assert (Hdetail : (method detail = MethodExact /\ confidence detail = 1%float)
                      \/ method detail = MethodFuzzy).
    { unfold chooseAssignment in Hchoice.
      destruct (findExact _ _ _); [inversion Hchoice; subst; by left|].
      destruct (negb _); [|done].
      destruct (fuzzyScan _ _ _ _ _) as [[b|] s]; [|done].
      destruct (_ <=? _)%float; [|done]. inversion Hchoice; subst. by right. }
    apply Forall_alter; [exact IH|].
    intros c _ (Hdom & Hmethods & Hne). unfold assignTo.
    repeat split; cbn [bySource matchDetails].
    + intros [x Hx]. destruct (decide (sourceId = s)) as [<-|Hs].
      * rewrite lookup_insert_eq. eauto.
      * rewrite lookup_insert_ne in Hx by done. rewrite lookup_insert_ne by done.
        apply Hdom. eauto.
    + intros [x Hx]. destruct (decide (sourceId = s)) as [<-|Hs].
      * rewrite lookup_insert_eq. eauto.
      * rewrite lookup_insert_ne in Hx by done. rewrite lookup_insert_ne by done.
        apply Hdom. eauto.
    + intros s d. destruct (decide (sourceId = s)) as [<-|Hs].
      * rewrite lookup_insert_eq. intros [= <-]. exact Hdetail.
      * rewrite lookup_insert_ne by done. apply Hmethods.
    + apply insert_non_empty.
  - apply Forall_app. split; [exact IH|]. constructor; [|constructor].
    repeat split; cbn [bySource matchDetails].
    + intros [x Hx]. apply lookup_singleton_Some in Hx as [<- _].
      rewrite lookup_singleton_eq. eauto.
    + intros [x Hx]. apply lookup_singleton_Some in Hx as [<- _].
      rewrite lookup_singleton_eq. eauto.
    + intros s d Hd. apply lookup_singleton_Some in Hd as [_ <-]. by left.
    + apply insert_non_empty.
Qed.

Lemma finishItem_fields sources c :
  canonicalId (finishItem sources c) = canonicalId c
  /\ nameKey (finishItem sources c) = nameKey c
  /\ bySource (finishItem sources c) = bySource c
  /\ matchDetails (finishItem sources c) = matchDetails c.
Proof. done. Qed.

Lemma resolveItem_length sourceId fuzzyThreshold st itemIndex item :
  length (rs_items (resolveItem sourceId fuzzyThreshold st itemIndex item))
  <= S (length (rs_items st)).
Proof.
  unfold resolveItem. destruct (chooseAssignment _ _ _ _) as [[i detail]|]; cbn [rs_items].
  - rewrite length_alter. lia.
  - rewrite length_app. cbn. lia.
Qed.

Lemma resolveItems_length sourceId fuzzyThreshold items : forall itemIndex st,
  length (rs_items (resolveItems sourceId fuzzyThreshold items itemIndex st))
  <= length items + length (rs_items st).
Proof.
  induction items as [|item items IH]; intros itemIndex st; cbn; [lia|].
  etransitivity; [apply IH|].
  pose proof (resolveItem_length sourceId fuzzyThreshold st itemIndex item). lia.
Qed.

Lemma resolveSources_length normalizedBySource sources fuzzyThreshold :
  length (rs_items (resolveSources normalizedBySource sources fuzzyThreshold))
  <= length (allListed normalizedBySource sources).
Proof.
  unfold resolveSources.
  assert (Hfold : forall st,
            length (rs_items
                      (fold_left
                         (fun st sourceId =>
                            resolveItems sourceId fuzzyThreshold
                                         (default [] (normalizedBySource !! sourceId)) 0 st)
                         sources st))
            <= length (allListed normalizedBySource sources) + length (rs_items st)).
  { unfold allListed.
    induction sources as [|s sources IH]; intros st; cbn [fold_left flat_map]; [cbn; lia|].
    etransitivity; [apply IH|]. rewrite length_app.
    pose proof (resolveItems_length s fuzzyThreshold
                  (default [] (normalizedBySource !! s)) 0 st). lia. }
  etransitivity; [apply Hfold|]. cbn. lia.
Qed.

Lemma listedItems_length normalizedBySource sources p :
  p ∈ sources ->
  length (default [] (normalizedBySource !! p))
  <= length (listedItems normalizedBySource sources p).
Proof.
  unfold listedItems. induction sources as [|s sources IH]; intros Hin; [set_solver|].
  cbn [flat_map]. rewrite length_app.
  destruct (decide (s = p)) as [->|Hne]; [lia|].
  apply elem_of_cons in Hin as [->|Hin]; [done|]. specialize (IH Hin). cbn. lia.
Qed.

Lemma mergeAndDiffItems_has_record normalizedBySource sources fuzzyThreshold c :
  c ∈ mergeAndDiffItems normalizedBySource sources fuzzyThreshold ->
  exists p, p ∈ sources /\ is_Some (bySource c !! p).
Proof.
  intros Hc. assert (Hc' := Hc). apply mergeAndDiffItems_elem in Hc' as (c0 & Hc0 & ->).
  pose proof (reachable_wellMatched normalizedBySource fuzzyThreshold _
                (resolveSources_reachable normalizedBySource sources fuzzyThreshold))
    as Hall.
  rewrite Forall_forall in Hall. destruct (Hall c0 Hc0) as (_ & _ & Hne).
  apply map_choose in Hne as (p & item & Hp). exists p. split; [|by eauto].
  by apply (resolver_entries_from_listed normalizedBySource sources fuzzyThreshold
              (finishItem sources c0) p item).
Qed.

(** X4. The ids of the canonical items are "canonical-1" to "canonical-n",
    n being the number of items, each used once: the id of an item tells
    it from every other item of the response, whatever order the final
    sort puts them in. *)
Theorem mergeAndDiffItems_ids_distinct normalizedBySource sources fuzzyThreshold :
  let out := mergeAndDiffItems normalizedBySource sources fuzzyThreshold in
  NoDup (map canonicalId out)
  /\ map canonicalId out ≡ₚ map canonicalIdAt (seq 0 (length out)).
Proof.
  intros out.
  assert (Hperm : map canonicalId out ≡ₚ map canonicalIdAt (seq 0 (length out))).
  { subst out. unfold mergeAndDiffItems.
    rewrite (arraySort_length compareCanonical), length_map.
    rewrite (arraySort_perm compareCanonical), map_map.
    erewrite map_ext; [|intros c; apply (finishItem_fields sources c)].
    by rewrite (reachable_ids normalizedBySource fuzzyThreshold _
                  (resolveSources_reachable normalizedBySource sources fuzzyThreshold)). }
  split; [|exact Hperm].
  rewrite Hperm. apply (@NoDup_fmap_2 _ _ canonicalIdAt canonicalIdAt_inj), NoDup_seq.
Qed.

(** X5. Every canonical item of the output holds a match detail for each
    record it holds and for no other provider; a detail says exact with
    confidence 1 or fuzzy, never none; the item holds at least one record,
    of a provider of the list, so it is never reported missing from every
    provider; and its report lists as missing the providers of the list it
    holds no record of. *)
Theorem mergeAndDiffItems_details_and_records normalizedBySource sources fuzzyThreshold :
  Forall
    (fun c =>
       (forall s, is_Some (bySource c !! s) <-> is_Some (matchDetails c !! s))
       /\ (forall s d, matchDetails c !! s = Some d ->
             (method d = MethodExact /\ confidence d = 1%float) \/ method d = MethodFuzzy)
       /\ (exists p, p ∈ sources /\ is_Some (bySource c !! p))
       /\ missingIn (diffReport c)
          = filter (fun s => bySource c !! s = None) sources
       /\ length (missingIn (diffReport c)) < length sources)
    (mergeAndDiffItems normalizedBySource sources fuzzyThreshold).
Proof.
  apply Forall_forall. intros c Hc.
  assert (Hc' := Hc). apply mergeAndDiffItems_elem in Hc' as (c0 & Hc0 & ->).
  pose proof (reachable_wellMatched normalizedBySource fuzzyThreshold _
                (resolveSources_reachable normalizedBySource sources fuzzyThreshold))
    as Hall.
  rewrite Forall_forall in Hall. destruct (Hall c0 Hc0) as (Hdom & Hmethods & Hne).
  split; [exact Hdom|]. split; [exact Hmethods|].
  assert (Hsome : exists p, p ∈ sources /\ is_Some (bySource c0 !! p))
    by apply (mergeAndDiffItems_has_record _ _ _ _ Hc).
  split; [exact Hsome|].
  assert (Hmissing : missingIn (diffReport (finishItem sources c0))
                     = filter (fun s => bySource c0 !! s = None) sources)
    by (unfold finishItem; cbn [diffReport]; rewrite buildDiffReport_missingIn;
        reflexivity).
  split; [exact Hmissing|]. rewrite Hmissing.
  destruct Hsome as (p & Hp & Hhas).
  clear -Hp Hhas. induction sources as [|s sources IH]; [set_solver|].
  apply elem_of_cons in Hp as [<-|Hp].
  - rewrite filter_cons_False by (intros Hnone; rewrite Hnone in Hhas; by destruct Hhas).
    cbn. pose proof (length_filter (fun s => bySource c0 !! s = None) sources). lia.
  - specialize (IH Hp). destruct (decide (bySource c0 !! s = None)).
    + rewrite filter_cons_True by done. cbn. lia.
    + rewrite filter_cons_False by done. cbn. lia.
Qed.

(** X6. The resolver makes at most one canonical item per item it is given
    and at least as many as any one listed provider has items: no provider
    list or empty item lists give no canonical item, and the records of one
    provider are never folded together. *)
Theorem mergeAndDiffItems_size_bounds normalizedBySource sources fuzzyThreshold :
  let out := mergeAndDiffItems normalizedBySource sources fuzzyThreshold in
  length out <= length (allListed normalizedBySource sources)
  /\ Forall (fun p => length (default [] (normalizedBySource !! p)) <= length out) sources
  /\ (allListed normalizedBySource sources = [] -> out = []).
Proof.
  intros out.
  assert (Hupper : length out <= length (allListed normalizedBySource sources)).
  { subst out. unfold mergeAndDiffItems.
    rewrite (arraySort_length compareCanonical), length_map.
    apply resolveSources_length. }
  split; [exact Hupper|]. split.
  - apply Forall_forall. intros p Hp.
    etransitivity; [by apply listedItems_length|].
    rewrite <- (mergeAndDiffItems_entries normalizedBySource sources fuzzyThreshold p).
    apply omap_length_le.
  - intros Hnone. rewrite Hnone in Hupper. destruct out; [done|cbn in Hupper; lia].
Qed.

End CanonicalItemFacts.

(* ----------------------------------------------------------------- *)
(** ** Clean reports *)

Section ReportFacts.
Context {P : Platform}.

(** X7. A diff report has severity 0 exactly when its explanation is
    empty, and that is exactly when no provider is missing and no flag is
    set; the explanation has one line for the missing providers, if any,
    and one line for each flag that is set. *)
Theorem buildDiffReport_clean_iff (item : CanonicalItem) (sources : list SourceId) :
  let r := buildDiffReport item sources in
  (severity r = 0%Z <-> explanation r = [])
  /\ (explanation r = []
      <-> missingIn r = [] /\ recipeDiffers r = false
          /\ fieldDiffers r = {| differs_name := false; differs_type := false;
                                 differs_rarity := false; differs_value := false;
                                 differs_weight := false |})
  /\ length (explanation r)
     = (if missingIn r is [] then 0 else 1)
       + length (filter (fun flag => flag = true)
                        [differs_name (fieldDiffers r); differs_type (fieldDiffers r);
                         differs_rarity (fieldDiffers r); differs_value (fieldDiffers r);
                         differs_weight (fieldDiffers r); recipeDiffers r]).
Proof.
  unfold buildDiffReport.
  set (missing := filter _ sources).
  set (names := differsByValues _ normalizeText _).
  set (types := differsByValues _ normalizeText _).
  set (rarities := differsByValues _ normalizeText _).
  set (values := differsByValues _ normalizeNumber _).
  set (weights := differsByValues _ normalizeNumber _).
  set (recipe := differsByValues _ _ _).
  cbn [severity explanation missingIn recipeDiffers fieldDiffers
       differs_name differs_type differs_rarity differs_value differs_weight].
  clearbody missing names types rarities values weights recipe.
  destruct missing as [|m missing]; cbn [length Nat.ltb Nat.leb];
    destruct names, types, rarities, values, weights, recipe;
    cbn -[Z.min Z.of_nat Z.mul Z.add];
    (split; [|split]);
    try reflexivity; try (split; intros; try discriminate; try done; try lia);
    try (destruct H as (? & ? & ?); discriminate).
Qed.

Lemma differsByValues_single {T U K : Type} `{EqDecision K}
    (v : option T) (normalizer : option T -> option U) (stringify : U -> K) :
  differsByValues [v] normalizer stringify = false.
Proof.
  unfold differsByValues. cbn [map]. destruct (normalizer v) as [u|]; [|reflexivity].
  reflexivity.
Qed.

Lemma buildDiffReport_single (item : CanonicalItem) (p : SourceId) :
  is_Some (bySource item !! p) -> buildDiffReport item [p] = emptyReport.
Proof.
  intros Hhas. unfold buildDiffReport.
  rewrite (filter_cons_True (fun s => is_Some (bySource item !! s)) p []) by exact Hhas.
  rewrite (filter_cons_False (fun s => ¬ is_Some (bySource item !! s)) p [])
    by (intros Hnot; by apply Hnot).
  rewrite !filter_nil. cbn [map].
  rewrite !differsByValues_single. reflexivity.
Qed.

Lemma omap_length_total {A B} (f : A -> option B) (l : list A) :
  Forall (fun a => is_Some (f a)) l -> length (omap f l) = length l.
Proof.
  induction 1 as [|a l [b Hb] _ IH]; [reflexivity|]. cbn. rewrite Hb. cbn. by rewrite IH.
Qed.

Lemma single_provider_records normalizedBySource p fuzzyThreshold c :
  c ∈ mergeAndDiffItems normalizedBySource [p] fuzzyThreshold ->
  exists item, bySource c = {[p := item]} /\ item ∈ default [] (normalizedBySource !! p).
Proof.
  intros Hc.
  pose proof (mergeAndDiffItems_has_record normalizedBySource [p]
                fuzzyThreshold c Hc) as (q & Hq & [item Hitem]).
  apply list_elem_of_singleton in Hq as ->.
  exists item. split.
  - apply map_eq. intros s. destruct (decide (s = p)) as [->|Hne].
    + by rewrite lookup_singleton_eq.
    + rewrite lookup_singleton_ne by done.
      destruct (bySource c !! s) as [other|] eqn:Hs; [|reflexivity].
      apply (resolver_entries_from_listed normalizedBySource [p] fuzzyThreshold c s other Hc)
        in Hs as [Hin _].
      by apply list_elem_of_singleton in Hin.
  - by apply (resolver_entries_from_listed normalizedBySource [p] fuzzyThreshold c p item Hc).
Qed.

Lemma single_provider_entries normalizedBySource p fuzzyThreshold :
  entriesOf p (mergeAndDiffItems normalizedBySource [p] fuzzyThreshold)
  ≡ₚ default [] (normalizedBySource !! p).
Proof.
  pose proof (mergeAndDiffItems_entries normalizedBySource [p] fuzzyThreshold p) as Hperm.
  unfold listedItems in Hperm. cbn [flat_map] in Hperm.
  by rewrite decide_True, app_nil_r in Hperm.
Qed.

Lemma single_provider_length normalizedBySource p fuzzyThreshold :
  length (mergeAndDiffItems normalizedBySource [p] fuzzyThreshold)
  = length (default [] (normalizedBySource !! p)).
Proof.
  rewrite <- (Permutation_length (single_provider_entries normalizedBySource p fuzzyThreshold)).
  symmetry. apply omap_length_total, Forall_forall. intros c Hc.
  apply single_provider_records in Hc as (item & -> & _).
  rewrite lookup_singleton_eq. eauto.
Qed.

Lemma single_provider_clean normalizedBySource p fuzzyThreshold :
  Forall (fun c => (exists item, bySource c = {[p := item]})
                   /\ diffReport c = emptyReport)
         (mergeAndDiffItems normalizedBySource [p] fuzzyThreshold).
Proof.
  apply Forall_forall. intros c Hc.
  destruct (single_provider_records _ _ _ _ Hc) as (item & Hitem & _).
  split; [eauto|].
  apply mergeAndDiffItems_elem in Hc as (c0 & _ & ->).
  unfold finishItem. cbn [diffReport]. apply buildDiffReport_single.
  change (bySource (finishItem [p] c0)) with (bySource c0) in Hitem.
  cbn [bySource]. rewrite Hitem, lookup_singleton_eq. eauto.
Qed.

(** X8. With one provider in the list the resolver makes one canonical
    item per item of that provider, each holding that one record, and
    every report is clean: nothing missing, no flag, severity 0, no
    explanation, whatever the threshold and whatever the names. *)
Theorem mergeAndDiffItems_single_provider normalizedBySource (p : SourceId)
    (fuzzyThreshold : float) :
  let out := mergeAndDiffItems normalizedBySource [p] fuzzyThreshold in
  length out = length (default [] (normalizedBySource !! p))
  /\ omap (fun c => bySource c !! p) out ≡ₚ default [] (normalizedBySource !! p)
  /\ Forall (fun c => (exists item, bySource c = {[p := item]})
                      /\ diffReport c = emptyReport) out.
Proof.
  intros out. split; [apply single_provider_length|].
  split; [apply single_provider_entries|apply single_provider_clean].
Qed.

End ReportFacts.

(* ----------------------------------------------------------------- *)
(** ** The exact match *)

Lemma StronglySorted_snoc (l : list nat) (n : nat) :
  StronglySorted lt l -> Forall (fun i => i < n) l -> StronglySorted lt (l ++ [n]).
Proof.
  induction 1 as [|x l Hsorted IH Hall]; intros Hbelow; cbn.
  - repeat constructor.
  - apply Forall_cons in Hbelow as [Hx Hbelow]. constructor; [by apply IH|].
    apply Forall_app. split; [exact Hall|]. by repeat constructor.
Qed.

Lemma StronglySorted_middle {A} (R : A -> A -> Prop) (before after : list A) (x : A) :
  StronglySorted R (before ++ x :: after) -> Forall (R x) after.
Proof.
  induction before as [|y before IH]; cbn; intros Hsorted.
  - by apply StronglySorted_inv in Hsorted as [_ Hall].
  - apply StronglySorted_inv in Hsorted as [Hsorted _]. by apply IH.
Qed.

Lemma findExact_first sourceId items : forall candidates i,
  findExact sourceId items candidates = Some i ->
  exists before after c,
    candidates = (before ++ i :: after)%list
    /\ items !! i = Some c /\ bySource c !! sourceId = None
    /\ Forall (fun j => forall c', items !! j = Some c' -> bySource c' !! sourceId <> None)
              before.
Proof.
  induction candidates as [|k rest IH]; intros i; cbn; [done|].
  destruct (items !! k) as [c|] eqn:Hk.
  - unfold hasSource. case_bool_decide as Hhas.
    + intros Hrest. destruct (IH i Hrest) as (before & after & c' & -> & Hi & Hnone & Hall).
      exists (k :: before), after, c'. repeat split; try done.
      constructor; [|exact Hall]. intros c'' Hc''. rewrite Hk in Hc''.
      inversion Hc''; subst. destruct Hhas as [x Hx]. by rewrite Hx.
    + intros [= <-]. exists [], rest, c. repeat split; try done.
      by apply eq_None_not_Some.
  - intros Hrest. destruct (IH i Hrest) as (before & after & c' & -> & Hi & Hnone & Hall).
    exists (k :: before), after, c'. repeat split; try done.
    constructor; [|exact Hall]. intros c'' Hc''. by rewrite Hk in Hc''.
Qed.

Lemma findExact_none sourceId items : forall candidates,
  findExact sourceId items candidates = None ->
  Forall (fun j => forall c', items !! j = Some c' -> bySource c' !! sourceId <> None)
         candidates.
Proof.
  induction candidates as [|k rest IH]; cbn; [constructor|].
  destruct (items !! k) as [c|] eqn:Hk.
  - unfold hasSource. case_bool_decide as Hhas; [|done].
    intros Hrest. constructor; [|by apply IH].
    intros c' Hc'. rewrite Hk in Hc'. inversion Hc'; subst.
    destruct Hhas as [x Hx]. by rewrite Hx.
  - intros Hrest. constructor; [|by apply IH]. intros c' Hc'. by rewrite Hk in Hc'.
Qed.

Section ExactMatch.
Context {P : Platform}.
Implicit Types (normalizedBySource : gmap SourceId (list SourceItem)) (st : ResolverState).

Lemma reachable_in_range normalizedBySource fuzzyThreshold st :
  reachable normalizedBySource fuzzyThreshold st -> indexInRange st.
Proof.
  induction 1 as [|st sourceId itemIndex item _ IH _].
  - intros key positions i Hkey. cbn in Hkey. by rewrite lookup_empty in Hkey.
  - by apply resolveItem_index_in_range.
Qed.

Lemma reachable_indexed normalizedBySource fuzzyThreshold st :
  reachable normalizedBySource fuzzyThreshold st -> indexedByKey st.
Proof.
  induction 1 as [|st sourceId itemIndex item Hreach (Hsound & Hcomplete & Hsorted) _].
  { repeat split.
    - intros key positions i Hkey. cbn in Hkey. by rewrite lookup_empty in Hkey.
    - intros i c Hi. cbn in Hi. by rewrite lookup_nil in Hi.
    - intros key positions Hkey. cbn in Hkey. by rewrite lookup_empty in Hkey. }
  pose proof (reachable_in_range _ _ _ Hreach) as Hrange.
  unfold resolveItem.
  destruct (chooseAssignment _ _ _ _) as [[k detail]|]; cbn [rs_items rs_index].
  - repeat split; cbn [rs_items rs_index].
    + intros key positions i Hkey Hi.
      destruct (Hsound key positions i Hkey Hi) as (c & Hc & Hname).
      destruct (decide (k = i)) as [->|Hne].
      * exists (assignTo sourceId item detail c).
        split; [by rewrite list_lookup_alter_eq, Hc|done].
      * exists c. split; [by rewrite list_lookup_alter_ne|done].
    + intros i c Hi. destruct (decide (k = i)) as [->|Hne].
      * rewrite list_lookup_alter_eq in Hi.
        destruct (rs_items st !! i) as [c0|] eqn:Hc0; [|done].
        cbn in Hi. inversion Hi; subst. cbn [nameKey assignTo]. by apply Hcomplete.
      * rewrite list_lookup_alter_ne in Hi by done. by apply Hcomplete.
    + exact Hsorted.
  - set (key := getNameKey item itemIndex).
    repeat split; cbn [rs_items rs_index].
    + intros key' positions i Hkey Hi.
      destruct (decide (key = key')) as [<-|Hne].
      * rewrite lookup_insert_eq in Hkey. inversion Hkey; subst positions.
        apply elem_of_app in Hi as [Hi|Hi].
        -- destruct (rs_index st !! key) as [old|] eqn:Hold;
             cbn in Hi; [|by apply elem_of_nil in Hi].
           destruct (Hsound key old i Hold Hi) as (c & Hc & Hname).
           exists c. split; [|done]. by apply lookup_app_l_Some.
        -- apply list_elem_of_singleton in Hi as ->.
           eexists. split; [apply list_lookup_middle; reflexivity|reflexivity].
      * rewrite lookup_insert_ne in Hkey by done.
        destruct (Hsound key' positions i Hkey Hi) as (c & Hc & Hname).
        exists c. split; [|done]. by apply lookup_app_l_Some.
    + intros i c Hi. apply lookup_app_Some in Hi as [Hi|[Hlen Hi]].
      * destruct (Hcomplete i c Hi) as (positions & Hkey & Hin).
        destruct (decide (key = nameKey c)) as [Heq|Hne].
        -- rewrite <- Heq. rewrite lookup_insert_eq. eexists. split; [reflexivity|].
           rewrite <- Heq in Hkey. rewrite Hkey. cbn. apply elem_of_app. by left.
        -- rewrite lookup_insert_ne by done. eauto.
      * destruct (i - length (rs_items st)) as [|d] eqn:Hd; [|by destruct d].
        cbn in Hi. inversion Hi; subst c. cbn [nameKey].
        rewrite lookup_insert_eq. eexists. split; [reflexivity|].
        apply elem_of_app. right. apply list_elem_of_singleton. lia.
    + intros key' positions Hkey.
      destruct (decide (key = key')) as [<-|Hne].
      * rewrite lookup_insert_eq in Hkey. inversion Hkey; subst positions.
        destruct (rs_index st !! key) as [old|] eqn:Hold; cbn.
        -- apply StronglySorted_snoc; [by eapply Hsorted|].
           apply Forall_forall. intros i Hi. by eapply Hrange.
        -- repeat constructor.
      * rewrite lookup_insert_ne in Hkey by done. by eapply Hsorted.
Qed.

Lemma findExact_candidate normalizedBySource fuzzyThreshold st sourceId key i :
  reachable normalizedBySource fuzzyThreshold st ->
  findExact sourceId (rs_items st) (default [] (rs_index st !! key)) = Some i ->
  exactCandidate sourceId key st i.
Proof.
  intros Hreach Hfound. destruct (reachable_indexed _ _ _ Hreach) as (Hsound & _ & _).
  apply findExact_first in Hfound as (before & after & c & Hpos & Hc & Hnone & _).
  destruct (rs_index st !! key) as [positions|] eqn:Hkey; cbn in Hpos;
    [|by destruct before].
  destruct (Hsound key positions i Hkey) as (c' & Hc' & Hname);
    [rewrite Hpos; set_solver|].
  rewrite Hc in Hc'. inversion Hc'; subst c'. by exists c.
Qed.

Lemma findExact_least normalizedBySource fuzzyThreshold st sourceId key i :
  reachable normalizedBySource fuzzyThreshold st ->
  exactCandidate sourceId key st i ->
  (forall j, j < i -> ~ exactCandidate sourceId key st j) ->
  findExact sourceId (rs_items st) (default [] (rs_index st !! key)) = Some i.
Proof.
  intros Hreach (c & Hc & Hname & Hnone) Hleast.
  destruct (reachable_indexed _ _ _ Hreach) as (Hsound & Hcomplete & Hsorted).
  destruct (Hcomplete i c Hc) as (positions & Hkey & Hin). rewrite Hname in Hkey.
  destruct (findExact sourceId (rs_items st) (default [] (rs_index st !! key)))
    as [k|] eqn:Hfound.
  - pose proof (findExact_candidate _ _ _ _ _ _ Hreach Hfound) as Hcandidate.
    apply findExact_first in Hfound as (before & after & c' & Hpos & Hc' & Hnone' & Hall).
    rewrite Hkey in Hpos. cbn in Hpos.
    destruct (Nat.lt_trichotomy k i) as [Hlt|[->|Hgt]]; [|reflexivity|].
    + by destruct (Hleast k Hlt).
    + exfalso. specialize (Hsorted key positions Hkey). rewrite Hpos in Hsorted, Hin.
      apply elem_of_app in Hin as [Hin|Hin].
      * rewrite Forall_forall in Hall. by apply (Hall i Hin c).
      * apply elem_of_cons in Hin as [->|Hin]; [lia|].
        apply StronglySorted_middle in Hsorted.
        rewrite Forall_forall in Hsorted. specialize (Hsorted i Hin). lia.
  - exfalso. apply findExact_none in Hfound. rewrite Hkey in Hfound. cbn in Hfound.
    rewrite Forall_forall in Hfound. by apply (Hfound i Hin c).
Qed.

(** X9. The exact match goes first, and the threshold has no say in it.
    In every state the resolver reaches: if canonical items have the key of
    the item at hand and no record of its provider yet, the item joins the
    first of them, as an exact match of confidence 1, and no canonical item
    is made; if there is none, the item is not matched exactly: it is
    matched fuzzily or starts a canonical item of its own. *)
Theorem exact_match_joins_first normalizedBySource (fuzzyThreshold : float)
    (st : ResolverState) (sourceId : SourceId) (itemIndex : nat) (item : SourceItem) :
  reachable normalizedBySource fuzzyThreshold st ->
  let key := getNameKey item itemIndex in
  (forall i,
     exactCandidate sourceId key st i ->
     (forall j, j < i -> ~ exactCandidate sourceId key st j) ->
     resolveItem sourceId fuzzyThreshold st itemIndex item
     = {| rs_items :=
            alter (assignTo sourceId item {| method := MethodExact; confidence := 1 |})
                  i (rs_items st);
          rs_index := rs_index st |})
  /\ ((forall i, ~ exactCandidate sourceId key st i) ->
      forall i detail,
        chooseAssignment sourceId key fuzzyThreshold st = Some (i, detail) ->
        method detail = MethodFuzzy).
Proof.
  intros Hreach key. split.
  - intros i Hcandidate Hleast. unfold resolveItem, chooseAssignment. fold key.
    by rewrite (findExact_least _ _ _ _ _ _ Hreach Hcandidate Hleast).
  - intros Hnone i detail. unfold chooseAssignment.
    destruct (findExact _ _ _) as [k|] eqn:Hfound.
    { by destruct (Hnone k (findExact_candidate _ _ _ _ _ _ Hreach Hfound)). }
    destruct (negb _); [|done].
    destruct (fuzzyScan _ _ _ _ _) as [[b|] s]; [|done].
    destruct (_ <=? _)%float; [|done]. by intros [= _ <-].
Qed.

End ExactMatch.

(** The theorem on the state after ARDB has listed "Wire": MetaForge's
    "wire!" has the same key and joins that canonical item, at a threshold
    no score can reach. *)
Lemma exact_match_joins_first_witness :
  let st := afterOne "Wire" in
  let item := namedItem metaforge "wire!" in
  reachable {[ardb := [namedItem ardb "Wire"]]} 0.93 st
  /\ map (fun c => (bySource c !! ardb, bySource c !! metaforge, matchDetails c !! metaforge))
         (rs_items (resolveItem metaforge 2 st 0 item))
     = [(Some (namedItem ardb "Wire"), Some item,
         Some {| method := MethodExact; confidence := 1 |})].
Proof.
  intros st item.
  assert (Hreach : reachable {[ardb := [namedItem ardb "Wire"]]} 0.93 st)
    by apply resolveSources_reachable.
  split; [exact Hreach|].
  assert (Hreach2 : reachable {[ardb := [namedItem ardb "Wire"]]} 2 st).
  { change st with (resolveItem ardb 2 {| rs_items := []; rs_index := ∅ |} 0
                      (namedItem ardb "Wire")).
    apply reach_step; [apply reach_start|reflexivity]. }
  destruct (exact_match_joins_first _ 2 st metaforge 0 item Hreach2)
    as [Hjoin _].
  rewrite (Hjoin 0).
  - vm_compute. reflexivity.
  - eexists. split; [reflexivity|]. split; vm_compute; reflexivity.
  - intros j Hj. lia.
Defined.

(* ----------------------------------------------------------------- *)
(** ** Records without a usable name *)

Lemma getNameKey_nameless (item : SourceItem) (fallbackIndex : nat) :
  nameless item = true ->
  exists rest,
    getNameKey item fallbackIndex
    = "id:" +:+ sourceIdText (item_sourceId item) +:+ ":" +:+ rest.
Proof.
  unfold nameless, getNameKey. intros Hnameless.
  assert (Hsame : match item_name item with
                  | Some n => if isEmptyString n then "" else normalizeNameForMatch n
                  | None => ""
                  end = normalizeNameForMatch (default "" (item_name item)))
    by (destruct (item_name item) as [[|c n]|]; reflexivity).
  rewrite Hsame, Hnameless. cbn [negb].
  destruct (item_sourceItemId item) as [i|]; [destruct (isEmptyString i)|]; eauto.
Qed.

Lemma getNameKey_named (item : SourceItem) (fallbackIndex : nat) :
  nameless item = false ->
  startsWith (getNameKey item fallbackIndex) "id:" = false.
Proof.
  unfold nameless, getNameKey. intros Hnamed.
  assert (Hsame : match item_name item with
                  | Some n => if isEmptyString n then "" else normalizeNameForMatch n
                  | None => ""
                  end = normalizeNameForMatch (default "" (item_name item)))
    by (destruct (item_name item) as [[|c n]|]; reflexivity).
  rewrite Hsame, Hnamed. cbn [negb].
  apply isNormalizedName_no_id_prefix, normalizeNameForMatch_shape.
Qed.

Lemma idKey_provider (p q : SourceId) (r r' : string) :
  "id:" +:+ sourceIdText p +:+ ":" +:+ r = "id:" +:+ sourceIdText q +:+ ":" +:+ r' -> p = q.
Proof. destruct p, q; cbn; intros Heq; try reflexivity; discriminate. Qed.

Lemma idKey_prefix (p : SourceId) (r : string) :
  startsWith ("id:" +:+ sourceIdText p +:+ ":" +:+ r) "id:" = true.
Proof. by destruct p. Qed.

Section NamelessRecords.
Context {P : Platform}.
Implicit Types (normalizedBySource : gmap SourceId (list SourceItem)) (st : ResolverState).

Lemma chooseAssignment_key normalizedBySource fuzzyThreshold st sourceId key i detail :
  reachable normalizedBySource fuzzyThreshold st ->
  startsWith key "id:" = false ->
  chooseAssignment sourceId key fuzzyThreshold st = Some (i, detail) ->
  exists c, rs_items st !! i = Some c /\ startsWith (nameKey c) "id:" = false.
Proof.
  intros Hreach Hkey. unfold chooseAssignment.
  destruct (findExact _ _ _) as [k|] eqn:Hexact.
  { intros [= <- _].
    destruct (findExact_candidate _ _ _ _ _ _ Hreach Hexact) as (c & Hc & Hname & _).
    exists c. by rewrite Hname. }
  destruct (negb _); [|done].
  destruct (fuzzyScan _ _ _ _ _) as [[b|] s] eqn:Hscan; [|done].
  destruct (_ <=? _)%float; [|done]. intros [= <- _].
  apply fuzzyScan_spec in Hscan as [[[? _]|(k & c & Hb & Hl & [_ He] & _)] _]; [done|].
  inversion Hb; subst. by exists c.
Qed.

Lemma reachable_namelessAlone normalizedBySource fuzzyThreshold st :
  (forall p item, item ∈ default [] (normalizedBySource !! p) -> item_sourceId item = p) ->
  reachable normalizedBySource fuzzyThreshold st ->
  Forall namelessAlone (rs_items st).
Proof.
  intros Htag. induction 1 as [|st sourceId itemIndex item Hreach IH Hitem]; [constructor|].
  assert (Hprovider : item_sourceId item = sourceId)
    by (apply Htag; by eapply list_elem_of_lookup_2).
  unfold resolveItem. destruct (nameless item) eqn:Hnameless.
  - destruct (getNameKey_nameless item itemIndex Hnameless) as [rest Hkey].
    rewrite Hprovider in Hkey.
    assert (Hnone : chooseAssignment sourceId (getNameKey item itemIndex) fuzzyThreshold st
                    = None).
    { unfold chooseAssignment.
      destruct (findExact _ _ _) as [k|] eqn:Hexact.
      - exfalso.
        destruct (findExact_candidate _ _ _ _ _ _ Hreach Hexact) as (c & Hc & Hname & Hlacks).
        rewrite Forall_forall in IH.
        destruct (IH c (list_elem_of_lookup_2 _ _ _ Hc)) as [_ Hid].
        destruct Hid as (p & other & rest' & Hrecords & _ & Hname').
        { rewrite Hname, Hkey. apply idKey_prefix. }
        rewrite Hname, Hkey in Hname'. apply idKey_provider in Hname'. subst p.
        rewrite Hrecords, lookup_singleton_eq in Hlacks. discriminate.
      - rewrite Hkey at 1. by rewrite idKey_prefix. }
    rewrite Hnone. cbn [rs_items]. apply Forall_app. split; [exact IH|].
    constructor; [|constructor]. split; cbn [bySource nameKey].
    + intros _ _ _ _. rewrite Hkey. apply idKey_prefix.
    + intros _. exists sourceId, item, rest. done.
  - pose proof (getNameKey_named item itemIndex Hnameless) as Hkey.
    destruct (chooseAssignment _ _ _ _) as [[i detail]|] eqn:Hchoice; cbn [rs_items].
    + destruct (chooseAssignment_key _ _ _ _ _ _ _ Hreach Hkey Hchoice) as (c & Hc & Hname).
      apply Forall_alter; [exact IH|].
      intros c' Hc' [Hrecords Hid]. rewrite Hc in Hc'. inversion Hc'; subst c'.
      split; cbn [bySource nameKey assignTo].
      * intros p other Hp Hother. destruct (decide (sourceId = p)) as [<-|Hne].
        -- rewrite lookup_insert_eq in Hp. inversion Hp; subst other. congruence.
        -- rewrite lookup_insert_ne in Hp by done. by eapply Hrecords.
      * intros Hprefix. congruence.
    + apply Forall_app. split; [exact IH|]. constructor; [|constructor].
      split; cbn [bySource nameKey].
      * intros p other Hp Hother. apply lookup_singleton_Some in Hp as [_ <-]. congruence.
      * intros Hprefix. congruence.
Qed.

(** X10. A record without a usable name is never merged.  When every item
    listed under a provider carries that provider's id, each canonical item
    of the output whose key is an id-key, and each one that holds a record
    without a usable name, holds that one record and nothing else. *)
Theorem nameless_records_stay_alone normalizedBySource (sources : list SourceId)
    (fuzzyThreshold : float) :
  (forall p item, item ∈ default [] (normalizedBySource !! p) -> item_sourceId item = p) ->
  Forall
    (fun c =>
       startsWith (nameKey c) "id:" = true
       \/ (exists p item, bySource c !! p = Some item /\ nameless item = true) ->
       exists p item,
         bySource c = {[p := item]} /\ nameless item = true
         /\ startsWith (nameKey c) "id:" = true)
    (mergeAndDiffItems normalizedBySource sources fuzzyThreshold).
Proof.
  intros Htag. apply Forall_forall. intros c Hc.
  apply mergeAndDiffItems_elem in Hc as (c0 & Hc0 & ->).
  pose proof (reachable_namelessAlone normalizedBySource fuzzyThreshold _ Htag
                (resolveSources_reachable normalizedBySource sources fuzzyThreshold))
    as Hall.
  rewrite Forall_forall in Hall. destruct (Hall c0 Hc0) as [Hrecords Hid].
  change (nameKey (finishItem sources c0)) with (nameKey c0).
  change (bySource (finishItem sources c0)) with (bySource c0).
  intros Hcase.
  assert (Hprefix : startsWith (nameKey c0) "id:" = true).
  { destruct Hcase as [Hprefix|(p & item & Hp & Hnameless)]; [exact Hprefix|].
    by eapply Hrecords. }
  destruct (Hid Hprefix) as (p & item & rest & Hsingle & Hnameless & _).
  by exists p, item.
Qed.

End NamelessRecords.

(** The theorem on two providers that each list one item without a usable
    name: two canonical items, one record each. *)
Lemma nameless_records_stay_alone_witness :
  (forall p item, item ∈ default [] (onlyNameless !! p) -> item_sourceId item = p)
  /\ map (fun c => (nameKey c, size (bySource c)))
         (mergeAndDiffItems (P := asciiHost) onlyNameless [ardb; metaforge] 0)
     = [("id:ardb:0", 1); ("id:metaforge:0", 1)]
  /\ Forall
       (fun c =>
          startsWith (nameKey c) "id:" = true
          \/ (exists p item, bySource c !! p = Some item /\ nameless item = true) ->
          exists p item,
            bySource c = {[p := item]} /\ nameless item = true
            /\ startsWith (nameKey c) "id:" = true)
       (mergeAndDiffItems (P := asciiHost) onlyNameless [ardb; metaforge] 0).
Proof.
  assert (Htag : forall p item,
            item ∈ default [] (onlyNameless !! p) -> item_sourceId item = p).
  { intros [] item Hin; vm_compute in Hin.
    - apply list_elem_of_singleton in Hin. by subst.
    - apply list_elem_of_singleton in Hin. by subst.
    - by apply elem_of_nil in Hin.
    - by apply elem_of_nil in Hin. }
  split; [exact Htag|]. split; [vm_compute; reflexivity|].
  exact (nameless_records_stay_alone (P := asciiHost) onlyNameless [ardb; metaforge] 0 Htag).
Defined.

(* ----------------------------------------------------------------- *)
(** ** A sync that goes through, and what is read after it *)

Lemma statement_quiet {A} (run : Db -> Outcome A * Db) (db : Db) :
  faultAfter db = None -> statement run db = run db.
Proof. unfold statement. by intros ->. Qed.

Ltac quiet_statement :=
  match goal with
  | Hin : inTransaction ?db _ _, Hquiet : faultAfter ?db = None |- _ =>
      rewrite (statement_quiet _ db Hquiet);
      destruct Hin as [Hc Ht]; unfold currentTables, withTables; rewrite ?Ht; cbn
  end.

Lemma deleteLinks_completes :
  completes deleteLinks
    (fun t => Some {| metaforge_items := metaforge_items t; metaforge_item_links := [];
                      metaforge_sync_state := metaforge_sync_state t |}).
Proof.
  intros db c t t' Hin Hquiet [= <-]. unfold deleteLinks. quiet_statement.
  eexists _, _. by repeat split.
Qed.

Lemma deleteItems_completes :
  completes deleteItems
    (fun t => Some {| metaforge_items := []; metaforge_item_links := [];
                      metaforge_sync_state := metaforge_sync_state t |}).
Proof.
  intros db c t t' Hin Hquiet [= <-]. unfold deleteItems. quiet_statement.
  eexists _, _. by repeat split.
Qed.

Lemma insertItem_completes row : completes (insertItem row) (insertItemEffect row).
Proof.
  intros db c t t' Hin Hquiet Heff. unfold insertItem, insertItemEffect in *.
  quiet_statement. destruct (hasItemId _ _); [done|]. inversion Heff; subst t'.
  rewrite ?Ht. eexists _, _. by repeat split.
Qed.

Lemma insertLink_completes row : completes (insertLink row) (insertLinkEffect row).
Proof.
  intros db c t t' Hin Hquiet Heff. unfold insertLink, insertLinkEffect in *.
  quiet_statement. destruct (hasItemId _ _); [|done]. inversion Heff; subst t'.
  rewrite ?Ht. eexists _, _. by repeat split.
Qed.

Lemma writeState_completes row :
  completes (writeState row)
    (fun t => Some {| metaforge_items := metaforge_items t;
                      metaforge_item_links := metaforge_item_links t;
                      metaforge_sync_state := Some row |}).
Proof.
  intros db c t t' Hin Hquiet [= <-]. unfold writeState. quiet_statement.
  eexists _, _. by repeat split.
Qed.

Lemma ret_completes {A} (a : A) : completes (ret a) Some.
Proof. intros db c t t' Hin Hquiet [= <-]. by exists a, db. Qed.

Lemma bind_completes {A B} (m : DbM A) (k : A -> DbM B) f g :
  completes m f -> (forall a, completes (k a) g) ->
  completes (bind m k) (fun t => f t ≫= g).
Proof.
  intros Hm Hk db c t t' Hin Hquiet Heff. unfold bind.
  destruct (f t) as [t1|] eqn:Hf; [|done]. cbn in Heff.
  destruct (Hm db c t t1 Hin Hquiet Hf) as (a & db1 & -> & Hin1 & Hquiet1).
  exact (Hk a db1 c t1 t' Hin1 Hquiet1 Heff).
Qed.

Lemma forEach_completes {A} (body : A -> DbM unit) effect (xs : list A) :
  (forall x, completes (body x) (effect x)) ->
  completes (forEach body xs) (effects effect xs).
Proof.
  intros Hbody. induction xs as [|x rest IH]; cbn.
  - apply ret_completes.
  - apply bind_completes; [apply Hbody|intros _; exact IH].
Qed.

Lemma completes_ext {A} (m : DbM A) f g :
  (forall t, f t = g t) -> completes m f -> completes m g.
Proof.
  intros Hfg Hm db c t t' Hin Hquiet Heff. rewrite <- Hfg in Heff. by eapply Hm.
Qed.

Lemma String_compare_refl (a : string) : String.compare a a = Eq.
Proof.
  induction a as [|x a IH]; cbn; [reflexivity|].
  unfold Ascii.compare. by rewrite N.compare_refl.
Qed.

Lemma String_compare_trans (a : string) : forall b c,
  String.compare a b <> Gt -> String.compare b c <> Gt -> String.compare a c <> Gt.
Proof.
  induction a as [|x a IH]; intros [|y b] [|z c]; cbn; try done.
  unfold Ascii.compare.
  destruct (N.compare_spec (N_of_ascii x) (N_of_ascii y)) as [Hxy|Hxy|Hxy];
    destruct (N.compare_spec (N_of_ascii y) (N_of_ascii z)) as [Hyz|Hyz|Hyz];
    try done;
    destruct (N.compare_spec (N_of_ascii x) (N_of_ascii z)) as [Hxz|Hxz|Hxz];
    try done; try lia.
  apply IH.
Qed.

Lemma compareNames_flip (a b : option string) :
  (0 < compareNames a b)%Z -> (compareNames b a < 0)%Z.
Proof.
  destruct a as [x|], b as [y|]; cbn; try lia.
  rewrite (String.compare_antisym (toLowerCase y)).
  destruct (String.compare (toLowerCase x) (toLowerCase y)); cbn; lia.
Qed.

Lemma compareNames_trans (a b c : option string) :
  (compareNames a b <= 0)%Z -> (compareNames b c <= 0)%Z -> (compareNames a c <= 0)%Z.
Proof.
  destruct a as [x|], b as [y|], c as [z|]; cbn; try lia.
  pose proof (String_compare_trans (toLowerCase x) (toLowerCase y) (toLowerCase z)) as Htrans.
  destruct (String.compare (toLowerCase x) (toLowerCase y));
    destruct (String.compare (toLowerCase y) (toLowerCase z));
    destruct (String.compare (toLowerCase x) (toLowerCase z));
    try lia; intros _ _; exfalso; by apply Htrans.
Qed.

Lemma compareNoCase_names (a b : ItemRow) :
  compareNoCase a b = compareNames (row_name a) (row_name b).
Proof. reflexivity. Qed.

Lemma StronglySorted_map {A B} (R : A -> A -> Prop) (R' : B -> B -> Prop) (f : A -> B)
    (l : list A) :
  (forall a b, a ∈ l -> b ∈ l -> R a b -> R' (f a) (f b)) ->
  StronglySorted R l -> StronglySorted R' (map f l).
Proof.
  intros Hf. induction 1 as [|x l Hsorted IH Hall]; cbn; constructor.
  - apply IH. intros a b Ha Hb. apply Hf; set_solver.
  - apply Forall_fmap. rewrite Forall_forall in Hall |- *. intros y Hy.
    apply Hf; [set_solver|set_solver|by apply Hall].
Qed.

Section SyncFacts.
Context {P : Platform}.

Lemma extractLinks_item_id (id : string) (item : JsonValue) :
  Forall (fun link => link_item_id link = id) (extractLinks id item).
Proof.
  unfold extractLinks. rewrite !Forall_app. repeat split; by apply Forall_fmap, Forall_true.
Qed.

Lemma hasItemId_snoc (id : string) (rows : list ItemRow) (row : ItemRow) :
  hasItemId id (rows ++ [row]) = hasItemId id rows || String.eqb (row_id row) id.
Proof. unfold hasItemId. rewrite existsb_app. cbn. by rewrite orb_false_r. Qed.

Lemma insertLinks_always (links : list LinkRow) : forall t,
  Forall (fun link => hasItemId (link_item_id link) (metaforge_items t) = true) links ->
  exists t', effects insertLinkEffect links t = Some t'
             /\ metaforge_items t' = metaforge_items t.
Proof.
  induction links as [|link links IH]; intros t Hall; cbn [effects]; [eauto|].
  apply Forall_cons in Hall as [Hlink Hall]. cbn beta in Hlink.
  assert (Hstep : insertLinkEffect link t
                  = Some {| metaforge_items := metaforge_items t;
                            metaforge_item_links := (metaforge_item_links t ++ [link])%list;
                            metaforge_sync_state := metaforge_sync_state t |})
    by (unfold insertLinkEffect; by rewrite Hlink).
  rewrite Hstep. cbn [mbind option_bind].
  destruct (IH {| metaforge_items := metaforge_items t;
                  metaforge_item_links := (metaforge_item_links t ++ [link])%list;
                  metaforge_sync_state := metaforge_sync_state t |} Hall)
    as (t' & Ht' & Hitems).
  exists t'. split; [exact Ht'|exact Hitems].
Qed.

Lemma persistItemEffect_cases (fetchedAt : string) (item : JsonValue) (t : Tables) :
  match storedId item with
  | None => persistItemEffect fetchedAt item t = Some t
  | Some id =>
      if hasItemId id (metaforge_items t)
      then persistItemEffect fetchedAt item t = None
      else exists t', persistItemEffect fetchedAt item t = Some t'
                      /\ metaforge_items t'
                         = (metaforge_items t ++ [itemRowOf fetchedAt id item])%list
  end.
Proof.
  unfold persistItemEffect, storedId.
  destruct (textOrNull (getProp (Some item) "id")) as [id|]; [|reflexivity].
  unfold insertItemEffect. cbn [row_id itemRowOf].
  destruct (hasItemId id (metaforge_items t)); [reflexivity|]. cbn.
  edestruct (insertLinks_always (extractLinks id item)) as (t' & Ht' & Hitems);
    [|exists t'; split; [exact Ht'|exact Hitems]].
  eapply Forall_impl; [apply extractLinks_item_id|].
  intros link ->. cbn [metaforge_items]. rewrite hasItemId_snoc. cbn [row_id itemRowOf].
  by rewrite String.eqb_refl, orb_true_r.
Qed.

Lemma persistItems_distinct (fetchedAt : string) (items : list JsonValue) : forall t,
  is_Some (effects (persistItemEffect fetchedAt) items t)
  <-> NoDup (omap storedId items)
      /\ Forall (fun id => hasItemId id (metaforge_items t) = false) (omap storedId items).
Proof.
  induction items as [|item items IH]; intros t; cbn [effects omap list_omap].
  { split; [intros _; split; constructor|eauto]. }
  pose proof (persistItemEffect_cases fetchedAt item t) as Hcase.
  destruct (storedId item) as [id|] eqn:Hid.
  - destruct (hasItemId id (metaforge_items t)) eqn:Hhas.
    + rewrite Hcase. cbn. split; [by intros [? ?]|].
      intros [_ Hall]. apply Forall_cons in Hall as [Hfalse _]. congruence.
    + destruct Hcase as (t' & -> & Hitems). cbn. rewrite IH, Hitems.
      rewrite NoDup_cons, Forall_cons. split.
      * intros [Hnd Hall]. repeat split; try done.
        -- intros Hin. rewrite Forall_forall in Hall. specialize (Hall id Hin).
           rewrite hasItemId_snoc in Hall. cbn in Hall.
           by rewrite String.eqb_refl, orb_true_r in Hall.
        -- eapply Forall_impl; [exact Hall|]. intros other Hother. cbn beta in *.
           rewrite hasItemId_snoc in Hother. by apply orb_false_elim in Hother as [? _].
      * intros [[Hnotin Hnd] [_ Hall]]. split; [exact Hnd|].
        rewrite Forall_forall in Hall |- *. intros other Hin.
        rewrite hasItemId_snoc, (Hall other Hin). cbn.
        apply String.eqb_neq. by intros ->.
  - rewrite Hcase. cbn. apply IH.
Qed.

Lemma resyncEffect_distinct (fetchResult : SourceFetchResult) (t : Tables) :
  is_Some (resyncEffect fetchResult t) <-> NoDup (omap storedId (rawItemsOf fetchResult)).
Proof.
  unfold resyncEffect.
  pose proof (persistItems_distinct (fetch_fetchedAt fetchResult) (rawItemsOf fetchResult)
                {| metaforge_items := []; metaforge_item_links := [];
                   metaforge_sync_state := metaforge_sync_state t |}) as Hitems.
  destruct (effects _ _ _) as [t'|]; cbn.
  - split; [intros _; apply Hitems; eauto|eauto].
  - split; [by intros [? ?]|]. intros Hnd. apply Hitems. split; [exact Hnd|].
    by apply Forall_true.
Qed.

Lemma persistItem_completes fetchedAt item :
  completes (persistItem fetchedAt item) (persistItemEffect fetchedAt item).
Proof.
  unfold persistItem, persistItemEffect.
  destruct (textOrNull _) as [id|]; [|apply ret_completes].
  apply bind_completes; [apply insertItem_completes|intros _].
  apply forEach_completes. intros row. apply insertLink_completes.
Qed.

Lemma execCommit_quietly : commitsQuietly execCommit Some.
Proof.
  intros db c t t' [Hc Ht] Hquiet [= <-]. unfold execCommit.
  rewrite (statement_quiet _ db Hquiet), Ht. eexists. by repeat split.
Qed.

Lemma bind_commitsQuietly {A} (m : DbM A) (k : A -> DbM unit) f g :
  completes m f -> (forall a, commitsQuietly (k a) g) ->
  commitsQuietly (bind m k) (fun t => f t ≫= g).
Proof.
  intros Hm Hk db c t t' Hin Hquiet Heff. unfold bind.
  destruct (f t) as [t1|] eqn:Hf; [|done]. cbn in Heff.
  destruct (Hm db c t t1 Hin Hquiet Hf) as (a & db1 & -> & Hin1 & Hquiet1).
  exact (Hk a db1 c t1 t' Hin1 Hquiet1 Heff).
Qed.

Lemma commitsQuietly_ext (m : DbM unit) f g :
  (forall t, f t = g t) -> commitsQuietly m f -> commitsQuietly m g.
Proof.
  intros Hfg Hm db c t t' Hin Hquiet Heff. rewrite <- Hfg in Heff. by eapply Hm.
Qed.

Lemma resync_body_quietly fetchResult :
  commitsQuietly
    (deleteLinks ;;;
     deleteItems ;;;
     forEach (persistItem (fetch_fetchedAt fetchResult)) (rawItemsOf fetchResult) ;;;
     writeState (persistedState fetchResult) ;;;
     execCommit)
    (resyncEffect fetchResult).
Proof.
  eapply commitsQuietly_ext;
    [|apply bind_commitsQuietly; [apply deleteLinks_completes|intros _];
      apply bind_commitsQuietly; [apply deleteItems_completes|intros _];
      apply bind_commitsQuietly;
        [apply forEach_completes, persistItem_completes|intros _];
      apply bind_commitsQuietly; [apply writeState_completes|intros _];
      apply execCommit_quietly].
  intros t. unfold resyncEffect. cbn.
  destruct (effects _ _ _); reflexivity.
Qed.

Lemma persistFetchResult_returned_effect fetchResult db :
  transaction db = None ->
  (persistFetchResult fetchResult db).1 = Returned tt ->
  is_Some (resyncEffect fetchResult (committed db)).
Proof.
  intros Hnone. unfold persistFetchResult, bind at 1.
  pose proof (prepare_cases db) as H1. destruct (prepare db) as [[[]|e] db1]; [|done].
  destruct H1 as [Hc1 Ht1]. rewrite Hnone in Ht1. unfold bind at 1.
  pose proof (prepare_cases db1) as H2. destruct (prepare db1) as [[[]|e] db2]; [|done].
  destruct H2 as [Hc2 Ht2]. rewrite Ht1 in Ht2. unfold bind at 1.
  pose proof (prepare_cases db2) as H3. destruct (prepare db2) as [[[]|e] db3]; [|done].
  destruct H3 as [Hc3 Ht3]. rewrite Ht2 in Ht3. unfold bind at 1.
  pose proof (execBegin_cases db3 Ht3) as Hbegin.
  destruct (execBegin db3) as [[[]|e] db4]; [|done].
  destruct Hbegin as [_ Hin].
  pose proof (tryCatchRethrow_rollback _ _ _ _ _ (resync_body_commits fetchResult) Hin)
    as Htry.
  intros Hreturned.
  destruct (tryCatchRethrow _ _ db4) as [[[]|e] db5]; [|done].
  destruct Htry as (t' & Heff & _). rewrite Hc3, Hc2, Hc1 in Heff. eauto.
Qed.

Lemma persistFetchResult_quiet_run fetchResult db :
  transaction db = None -> faultAfter db = None ->
  is_Some (resyncEffect fetchResult (committed db)) ->
  exists db', persistFetchResult fetchResult db = (Returned tt, db')
              /\ faultAfter db' = None.
Proof.
  intros Hnone Hquiet [t' Heff].
  set (db1 := {| committed := committed db; transaction := Some (committed db);
                 faultAfter := faultAfter db; faultRollsBack := faultRollsBack db |}).
  assert (Hprepare : prepare db = (Returned tt, db))
    by (unfold prepare; by rewrite (statement_quiet _ db Hquiet)).
  assert (Hbegin : execBegin db = (Returned tt, db1))
    by (unfold execBegin; by rewrite (statement_quiet _ db Hquiet), Hnone).
  destruct (resync_body_quietly fetchResult db1 (committed db) (committed db) t')
    as (db2 & Hrun & _ & _ & Hquiet2); [done|exact Hquiet|exact Heff|].
  unfold persistedState in Hrun.
  exists db2. split; [|exact Hquiet2].
  unfold persistFetchResult. cbv zeta.
  unfold bind at 1. rewrite Hprepare. unfold bind at 1. rewrite Hprepare.
  unfold bind at 1. rewrite Hprepare. unfold bind at 1. rewrite Hbegin.
  unfold tryCatchRethrow. by rewrite Hrun.
Qed.

Lemma persistFetchResult_quietly fetchResult db :
  transaction db = None -> faultAfter db = None ->
  is_Some (resyncEffect fetchResult (committed db)) ->
  (persistFetchResult fetchResult db).1 = Returned tt.
Proof.
  intros Hnone Hquiet Heff.
  destruct (persistFetchResult_quiet_run fetchResult db Hnone Hquiet Heff) as (db' & -> & _).
  reflexivity.
Qed.

(** X11. On a connection with no transaction open and no fault under way,
    a sync goes through exactly when the ids of the fetched items (trimmed,
    items without an id left out) are pairwise different: a repeated id
    makes the insert fail and the whole sync with it, and nothing else
    does - the links of an item always find their item. *)
Theorem persistFetchResult_needs_distinct_ids (fetchResult : SourceFetchResult) (db : Db) :
  transaction db = None -> faultAfter db = None ->
  (persistFetchResult fetchResult db).1 = Returned tt
  <-> NoDup (omap storedId (rawItemsOf fetchResult)).
Proof.
  intros Hnone Hquiet. rewrite <- (resyncEffect_distinct fetchResult (committed db)).
  split.
  - by apply persistFetchResult_returned_effect.
  - by apply persistFetchResult_quietly.
Qed.

End SyncFacts.

(** The theorem on a store with an earlier snapshot: a fetch whose items
    have the ids w, b and n goes through, one with the id wire twice does
    not. *)
Lemma persistFetchResult_needs_distinct_ids_witness :
  let db := storeWithSnapshot None false in
  (transaction db = None /\ faultAfter db = None)
  /\ ((persistFetchResult (P := asciiHost) fetchOfThree db).1 = Returned tt
      <-> NoDup (omap storedId (rawItemsOf fetchOfThree)))
  /\ (persistFetchResult (P := asciiHost) fetchOfThree db).1 = Returned tt
  /\ (persistFetchResult (P := asciiHost) fetchWithRepeatedId db).1
     = Thrown "UNIQUE constraint failed: metaforge_items.id".
Proof.
  intros db. split; [split; reflexivity|].
  split; [apply (persistFetchResult_needs_distinct_ids (P := asciiHost) fetchOfThree db);
          reflexivity|].
  split; vm_compute; reflexivity.
Defined.

(* ----------------------------------------------------------------- *)
(** ** A sync is all or nothing *)

Lemma withTables_open (t : Tables) (db : Db) :
  is_Some (transaction db) ->
  is_Some (transaction (withTables t db))
  /\ faultRollsBack (withTables t db) = faultRollsBack db.
Proof. unfold withTables. intros [t0 ->]. cbn. eauto. Qed.

Lemma statement_keepsOpen {A} (run : Db -> Outcome A * Db) :
  (forall db, is_Some (transaction db) ->
              is_Some (transaction (run db).2)
              /\ faultRollsBack (run db).2 = faultRollsBack db) ->
  keepsOpen (statement run).
Proof.
  intros Hrun [c t f r] Hopen Hr. cbn in Hopen, Hr. subst r.
  unfold statement. cbn. destruct f as [[|n]|]; cbn.
  - by split.
  - exact (Hrun {| committed := c; transaction := t; faultAfter := Some n;
                   faultRollsBack := false |} Hopen).
  - exact (Hrun {| committed := c; transaction := t; faultAfter := None;
                   faultRollsBack := false |} Hopen).
Qed.

Lemma keepsOpen_ret {A} (a : A) : keepsOpen (ret a).
Proof. by intros db Hopen Hr. Qed.

Lemma keepsOpen_bind {A B} (m : DbM A) (k : A -> DbM B) :
  keepsOpen m -> (forall a, keepsOpen (k a)) -> keepsOpen (bind m k).
Proof.
  intros Hm Hk db Hopen Hr. unfold bind. specialize (Hm db Hopen Hr).
  destruct (m db) as [[a|e] db']; cbn in Hm |- *; [|exact Hm].
  destruct Hm as [Hopen' Hr']. exact (Hk a db' Hopen' Hr').
Qed.

Lemma keepsOpen_forEach {A} (body : A -> DbM unit) (xs : list A) :
  (forall x, keepsOpen (body x)) -> keepsOpen (forEach body xs).
Proof.
  intros Hbody. induction xs as [|x xs IH]; cbn [forEach]; [apply keepsOpen_ret|].
  apply keepsOpen_bind; [apply Hbody|intros _; exact IH].
Qed.

Lemma deleteLinks_keepsOpen : keepsOpen deleteLinks.
Proof. apply statement_keepsOpen. intros db Hopen. cbn. by apply withTables_open. Qed.

Lemma deleteItems_keepsOpen : keepsOpen deleteItems.
Proof. apply statement_keepsOpen. intros db Hopen. cbn. by apply withTables_open. Qed.

Lemma writeState_keepsOpen (row : SyncStateRow) : keepsOpen (writeState row).
Proof. apply statement_keepsOpen. intros db Hopen. cbn. by apply withTables_open. Qed.

Lemma insertItem_keepsOpen (row : ItemRow) : keepsOpen (insertItem row).
Proof.
  apply statement_keepsOpen. intros db Hopen. cbn.
  destruct (hasItemId _ _); cbn; [by split|by apply withTables_open].
Qed.

Lemma insertLink_keepsOpen (row : LinkRow) : keepsOpen (insertLink row).
Proof.
  apply statement_keepsOpen. intros db Hopen. cbn.
  destruct (hasItemId _ _); cbn; [by apply withTables_open|by split].
Qed.

Section Atomicity.
Context {P : Platform}.

Lemma persistItem_keepsOpen (fetchedAt : string) (item : JsonValue) :
  keepsOpen (persistItem fetchedAt item).
Proof.
  unfold persistItem. destruct (textOrNull _) as [id|]; [|apply keepsOpen_ret].
  apply keepsOpen_bind; [apply insertItem_keepsOpen|intros _].
  apply keepsOpen_forEach, insertLink_keepsOpen.
Qed.

Lemma throwsOpen_bind {A B} (m : DbM A) (k : A -> DbM B) :
  keepsOpen m -> (forall a, throwsOpen (k a)) -> throwsOpen (bind m k).
Proof.
  intros Hm Hk db Hopen Hr. unfold bind. specialize (Hm db Hopen Hr).
  destruct (m db) as [[a|e] db']; cbn in Hm |- *; [|by destruct Hm].
  destruct Hm as [Hopen' Hr']. exact (Hk a db' Hopen' Hr').
Qed.

Lemma execCommit_throwsOpen : throwsOpen execCommit.
Proof.
  intros [c t f r] [t0 Hopen] Hr. cbn in Hopen, Hr. subst t r.
  unfold execCommit, statement. cbn. destruct f as [[|n]|]; cbn; eauto.
Qed.

(** With the transaction open at a throw, ROLLBACK goes through and the
    error thrown on is the one caught. *)
Lemma tryCatchRethrow_open {A} (body : DbM A) (db : Db) :
  throwsOpen body -> is_Some (transaction db) -> faultRollsBack db = false ->
  (tryCatchRethrow body execRollback db).1 = (body db).1.
Proof.
  intros Hbody Hopen Hr. unfold tryCatchRethrow. specialize (Hbody db Hopen Hr).
  destruct (body db) as [[a|e] db']; [reflexivity|].
  unfold execRollback. destruct Hbody as [t ->]. reflexivity.
Qed.

Lemma bind_outcome {A B} (m : DbM A) (k k' : A -> DbM B) (db : Db) :
  (forall a db', m db = (Returned a, db') -> (k a db').1 = (k' a db').1) ->
  (bind m k db).1 = (bind m k' db).1.
Proof.
  intros Hk. unfold bind. destruct (m db) as [[a|e] db']; [by apply Hk|reflexivity].
Qed.

Lemma prepare_rollsBack (db db' : Db) (a : unit) :
  prepare db = (Returned a, db') -> faultRollsBack db' = faultRollsBack db.
Proof.
  destruct db as [c t [[|n]|] r]; unfold prepare, statement; cbn;
    intros Hrun; inversion Hrun; reflexivity.
Qed.

Lemma execBegin_opens (db db' : Db) (a : unit) :
  execBegin db = (Returned a, db') ->
  is_Some (transaction db') /\ faultRollsBack db' = faultRollsBack db.
Proof.
  destruct db as [c [t|] [[|n]|] r]; unfold execBegin, statement; cbn;
    intros Hrun; inversion Hrun; cbn; eauto.
Qed.

(** When the engine leaves the transaction open on a fault, the outcome of
    [persistFetchResult] is that of its statements. *)
Lemma persistFetchResult_outcome (fetchResult : SourceFetchResult) (db : Db) :
  faultRollsBack db = false ->
  (persistFetchResult fetchResult db).1 = (resyncStatements fetchResult db).1.
Proof.
  intros Hr. unfold persistFetchResult, resyncStatements.
  apply bind_outcome. intros a1 db1 H1%prepare_rollsBack.
  apply bind_outcome. intros a2 db2 H2%prepare_rollsBack.
  apply bind_outcome. intros a3 db3 H3%prepare_rollsBack.
  apply bind_outcome. intros a4 db4 [Hopen H4]%execBegin_opens.
  apply tryCatchRethrow_open; [|exact Hopen|congruence].
  apply throwsOpen_bind; [apply deleteLinks_keepsOpen|intros _].
  apply throwsOpen_bind; [apply deleteItems_keepsOpen|intros _].
  apply throwsOpen_bind; [apply keepsOpen_forEach, persistItem_keepsOpen|intros _].
  apply throwsOpen_bind; [apply writeState_keepsOpen|intros _].
  apply execCommit_throwsOpen.
Qed.

(** X28. A sync is all or nothing, on a connection that has no transaction
    open.  When [persistFetchResult] returns, the committed tables are
    exactly the rows, links and sync state of the fetch (nothing of the
    previous snapshot is left) and no transaction is open.  When it
    throws, the committed tables are what they were and no transaction is
    open; a fault of the engine was under way or an id of the fetch is
    repeated; and if the engine leaves the transaction open on a fault,
    the error thrown is the error of the statement that failed.  With no
    fault under way and no repeated id it returns, and leaves no fault
    behind. *)
Theorem persistFetchResult_is_atomic (fetchResult : SourceFetchResult) (db : Db) :
  transaction db = None ->
  match persistFetchResult fetchResult db with
  | (Returned _, db') =>
      transaction db' = None /\ committed db' = syncedTables fetchResult
  | (Thrown error, db') =>
      committed db' = committed db /\ transaction db' = None
      /\ (is_Some (faultAfter db) \/ ~ NoDup (omap storedId (rawItemsOf fetchResult)))
      /\ (faultRollsBack db = false ->
          (resyncStatements fetchResult db).1 = Thrown error)
  end
  /\ (faultAfter db = None ->
      NoDup (omap storedId (rawItemsOf fetchResult)) ->
      exists db', persistFetchResult fetchResult db = (Returned tt, db')
                  /\ faultAfter db' = None).
Proof.
  intros Hnone.
  assert (Hreturns : faultAfter db = None ->
                     NoDup (omap storedId (rawItemsOf fetchResult)) ->
                     exists db', persistFetchResult fetchResult db = (Returned tt, db')
                                 /\ faultAfter db' = None).
  { intros Hquiet Hdistinct. apply (persistFetchResult_quiet_run fetchResult db Hnone Hquiet).
    by apply resyncEffect_distinct. }
  split; [|exact Hreturns].
  pose proof (persistFetchResult_atomicWith fetchResult db Hnone) as Hdone.
  pose proof (persistFetchResult_outcome fetchResult db) as Hsame.
  destruct (persistFetchResult fetchResult db) as [[[]|error] db'] eqn:Hrun;
    [exact Hdone|].
  destruct Hdone as [Hc Ht]. split; [exact Hc|]. split; [exact Ht|]. split.
  - destruct (decide (faultAfter db = None)) as [Hquiet|Hfault];
      [|left; by apply not_eq_None_Some].
    right. intros Hdistinct.
    destruct (Hreturns Hquiet Hdistinct) as (db'' & Hrun' & _). discriminate.
  - intros Hr. by rewrite <- (Hsame Hr).
Qed.

End Atomicity.

(** The theorem on a store that holds an earlier snapshot: with no fault
    the sync returns and the tables are those of the fetch; with the disk
    failing at the seventh call into the engine, the insert of the item,
    and the transaction left open, the disk error is thrown and the
    earlier snapshot is still what the store holds. *)
Lemma persistFetchResult_is_atomic_witness :
  let fetchResult := fetchOf metaforge "wire" "Wire" in
  let quiet := storeWithSnapshot None false in
  let faulty := storeWithSnapshot (Some 6) false in
  (transaction quiet = None /\ transaction faulty = None)
  /\ (exists db', persistFetchResult (P := asciiHost) fetchResult quiet = (Returned tt, db')
                  /\ committed db' = syncedTables (H := asciiHost) fetchResult
                  /\ map row_id (metaforge_items (committed db')) = ["wire"])
  /\ (persistFetchResult (P := asciiHost) fetchResult faulty).1 = Thrown "disk I/O error"
  /\ committed (persistFetchResult (P := asciiHost) fetchResult faulty).2 = committed faulty.
Proof.
  intros fetchResult quiet faulty. split; [split; reflexivity|]. split.
  - destruct (persistFetchResult_is_atomic (P := asciiHost) fetchResult quiet eq_refl)
      as [Hcases Hreturns].
    assert (Hdistinct : NoDup (omap storedId (rawItemsOf fetchResult)))
      by (apply (bool_decide_unpack _); vm_compute; exact I).
    destruct (Hreturns eq_refl Hdistinct) as (db' & Hrun & _).
    rewrite Hrun in Hcases. destruct Hcases as [_ Hc].
    exists db'. split; [exact Hrun|]. split; [exact Hc|].
    rewrite Hc. vm_compute. reflexivity.
  - assert (Hthrown : (persistFetchResult (P := asciiHost) fetchResult faulty).1
                      = Thrown "disk I/O error") by (vm_compute; reflexivity).
    split; [exact Hthrown|].
    destruct (persistFetchResult_is_atomic (P := asciiHost) fetchResult faulty eq_refl)
      as [Hcases _].
    destruct (persistFetchResult (P := asciiHost) fetchResult faulty) as [[[]|error] db'];
      [discriminate Hthrown|].
    by destruct Hcases as [Hc _].
Defined.

(** *** Reading the store *)

Lemma getSyncState_reads : readsFrom getSyncState metaforge_sync_state.
Proof.
  intros [c t [[|[|n]]|] r] Hnone; cbn in Hnone; subst t;
    unfold getSyncState, bind, prepare, statement, currentTables; cbn;
    destruct r; cbn; repeat split; eauto; discriminate.
Qed.

Lemma readItemsRaw_reads : readsFrom readItemsRaw itemsIn.
Proof.
  intros [c t [[|[|n]]|] r] Hnone; cbn in Hnone; subst t;
    unfold readItemsRaw, itemsIn, bind, ret, prepare, statement, currentTables; cbn;
    destruct r; cbn; repeat split; eauto; discriminate.
Qed.

(** [getDb] changes no table; it throws on a fault only, and without a
    fault it leaves the connection as it was. *)
Lemma getDb_cases (store : Store) :
  transaction (database store) = None ->
  match getDb store with
  | (Returned _, store') =>
      opened store' = true
      /\ committed (database store') = committed (database store)
      /\ transaction (database store') = None
      /\ (faultAfter (database store) = None -> database store' = database store)
  | (Thrown _, store') =>
      committed (database store') = committed (database store)
      /\ transaction (database store') = None
      /\ is_Some (faultAfter (database store))
  end.
Proof.
  destruct store as [[] [c t f r]]; cbn; intros ->; [by repeat split|].
  unfold getDb, bind, mkdirSync, openDatabase, execScript, statement; cbn.
  destruct f as [[|[|[|[|n]]]]|]; cbn; destruct r; cbn; repeat split; eauto; discriminate.
Qed.

(** *** What the stored text denotes *)

Lemma find_stringify (key : string) (fields : list (string * JsonValue)) :
  find (fun kv => String.eqb kv.1 key)
       (map (fun field => let '(k, value) := field in (k, JSON_stringify value)) fields)
  = (fun kv => (kv.1, JSON_stringify kv.2)) <$> find (fun kv => String.eqb kv.1 key) fields.
Proof.
  induction fields as [|[k value] fields IH]; [reflexivity|].
  cbn [map find fst]. destruct (String.eqb k key); [reflexivity|exact IH].
Qed.

Lemma getProp_stringify (v : JsonValue) (key : string) :
  getProp (Some (JSON_stringify v)) key = JSON_stringify <$> getProp (Some v) key.
Proof.
  destruct v as [| | x | | |fields]; try reflexivity.
  - cbn [JSON_stringify].
    destruct (isFinite x); [destruct (PrimFloat.is_zero x)|]; reflexivity.
  - cbn [JSON_stringify getProp]. rewrite find_stringify.
    by destruct (find _ fields) as [[k value]|].
Qed.

Lemma textOrNull_stringify (value : option JsonValue) :
  textOrNull (JSON_stringify <$> value) = textOrNull value.
Proof.
  destruct value as [[| | x | | |]|]; try reflexivity.
  cbn [fmap option_fmap option_map JSON_stringify].
  destruct (isFinite x); [destruct (PrimFloat.is_zero x)|]; reflexivity.
Qed.

Lemma storedName_stringify (item : JsonValue) :
  storedName (JSON_stringify item) = storedName item.
Proof. unfold storedName. by rewrite getProp_stringify, textOrNull_stringify. Qed.

Lemma storedId_stringify (item : JsonValue) :
  storedId (JSON_stringify item) = storedId item.
Proof. unfold storedId. by rewrite getProp_stringify, textOrNull_stringify. Qed.

Lemma plain_zero (x : float) :
  PrimFloat.is_zero x = true -> isNegativeZero x = false -> x = 0%float.
Proof.
  unfold PrimFloat.is_zero, isNegativeZero. rewrite FloatAxioms.eqb_spec.
  intros Hzero Hplus. rewrite <- (FloatAxioms.SF2Prim_Prim2SF x).
  change (Prim2SF 0) with (S754_zero false) in Hzero.
  destruct (Prim2SF x) as [[]|[]| |[] ? ?]; cbn in Hzero, Hplus; try discriminate.
  reflexivity.
Qed.

(** A value with plain numbers is printed and parsed to itself. *)
Lemma JSON_stringify_plain : forall v, plainNumbers v = true -> JSON_stringify v = v.
Proof.
  fix IH 1. intros [| b | x | text |elements|fields]; cbn [plainNumbers JSON_stringify];
    try reflexivity.
  - intros [Hfinite Hzero]%andb_true_iff. rewrite Hfinite.
    destruct (PrimFloat.is_zero x) eqn:Hx; [|reflexivity].
    f_equal. symmetry. apply plain_zero; [exact Hx|]. by destruct (isNegativeZero x).
  - intros Hall. f_equal. induction elements as [|element elements IHelements];
      [reflexivity|].
    cbn [forallb map] in Hall |- *. apply andb_true_iff in Hall as [Helement Hall].
    by rewrite (IH element Helement), (IHelements Hall).
  - intros Hall. f_equal. induction fields as [|[key value] fields IHfields];
      [reflexivity|].
    cbn [forallb map snd] in Hall |- *. apply andb_true_iff in Hall as [Hvalue Hall].
    by rewrite (IH value Hvalue), (IHfields Hall).
Qed.

Section ReadAfterSync.
Context {P : Platform}.

Lemma persistedRows_json (fetchResult : SourceFetchResult) :
  map rowJson (persistedRows fetchResult)
  = map JSON_stringify
        (filter (fun item => is_Some (storedId item)) (rawItemsOf fetchResult)).
Proof.
  unfold persistedRows. induction (rawItemsOf fetchResult) as [|item items IH];
    [reflexivity|].
  cbn [omap list_omap].
  destruct (decide (is_Some (storedId item))) as [[id Hid]|Hno].
  - rewrite filter_cons_True by eauto. unfold storedId in Hid. rewrite Hid.
    cbn [fmap option_fmap option_map map]. by rewrite IH.
  - rewrite filter_cons_False by done. unfold storedId in Hno.
    destruct (textOrNull (getProp (Some item) "id")) as [id|]; [by destruct Hno; eauto|].
    exact IH.
Qed.

Lemma persistedRows_wellformed (fetchResult : SourceFetchResult) :
  Forall (fun row => row_raw_json row = WellFormed (rowJson row)
                     /\ row_name row = storedName (rowJson row))
         (persistedRows fetchResult).
Proof.
  unfold persistedRows. induction (rawItemsOf fetchResult) as [|item items IH];
    [constructor|].
  cbn [omap list_omap].
  destruct (textOrNull (getProp (Some item) "id")) as [id|];
    cbn [fmap option_fmap option_map]; [|exact IH].
  constructor; [|exact IH]. split; [reflexivity|].
  unfold rowJson. cbn [itemRowOf row_raw_json row_name].
  by rewrite storedName_stringify.
Qed.

Lemma parsedRows_rowJson (rows : list ItemRow) :
  Forall (fun row => row_raw_json row = WellFormed (rowJson row)) rows ->
  parsedRows rows = map rowJson rows.
Proof.
  unfold parsedRows. induction 1 as [|row rows Hrow _ IH]; [reflexivity|].
  cbn. rewrite Hrow. cbn. by rewrite IH.
Qed.

(** The items read from the tables of a sync. *)
Lemma itemsIn_synced (fetchResult : SourceFetchResult) :
  itemsIn (syncedTables fetchResult)
  ≡ₚ map JSON_stringify
         (filter (fun item => is_Some (storedId item)) (rawItemsOf fetchResult))
  /\ StronglySorted
       (fun a b => (compareNames (storedName a) (storedName b) <= 0)%Z)
       (itemsIn (syncedTables fetchResult)).
Proof.
  unfold itemsIn, syncedTables. cbn [metaforge_items].
  pose proof (persistedRows_wellformed fetchResult) as Hrows.
  assert (Hsortedrows : Forall (fun row => row_raw_json row = WellFormed (rowJson row)
                                           /\ row_name row = storedName (rowJson row))
                               (arraySort compareNoCase (persistedRows fetchResult)))
    by (by rewrite (arraySort_perm compareNoCase)).
  rewrite parsedRows_rowJson
    by (eapply Forall_impl; [exact Hsortedrows|by intros row [? _]]).
  split.
  - rewrite (arraySort_perm compareNoCase). by rewrite persistedRows_json.
  - eapply StronglySorted_map;
      [|apply (arraySort_strongly_sorted compareNoCase)].
    + intros a b Ha Hb Hab. rewrite Forall_forall in Hsortedrows.
      destruct (Hsortedrows a Ha) as [_ <-]. destruct (Hsortedrows b Hb) as [_ <-].
      exact Hab.
    + intros a b. rewrite !compareNoCase_names. apply compareNames_flip.
    + intros a b c. unfold mayPrecede. rewrite !compareNoCase_names.
      apply compareNames_trans.
Qed.

(** X12. What a sync stores is what is read back.  After a sync that
    returned, reading the sync state gives the one of the fetch, and
    reading the items gives the fetched objects that have an id, each
    once, as [JSON.stringify] printed them: with the same ids and names,
    a number that is not finite read as null and [-0] as 0, and an object
    whose numbers are plain read as it was fetched (an object without an
    id is not stored, no stored text fails to parse); they come in the
    order of their names without regard to case, nameless ones first.
    Either read throws on a fault only. *)
Theorem readItemsRaw_after_sync (fetchResult : SourceFetchResult) (db db' : Db) :
  transaction db = None ->
  persistFetchResult fetchResult db = (Returned tt, db') ->
  let kept := filter (fun item => is_Some (storedId item)) (rawItemsOf fetchResult) in
  match getSyncState db' with
  | (Returned state, _) => state = Some (persistedState fetchResult)
  | (Thrown _, _) => is_Some (faultAfter db')
  end
  /\ match readItemsRaw db' with
     | (Returned items, _) =>
         items ≡ₚ map JSON_stringify kept
         /\ StronglySorted
              (fun a b => (compareNames (storedName a) (storedName b) <= 0)%Z) items
     | (Thrown _, _) => is_Some (faultAfter db')
     end
  /\ Forall (fun item =>
               storedId (JSON_stringify item) = storedId item
               /\ storedName (JSON_stringify item) = storedName item
               /\ (plainNumbers item = true -> JSON_stringify item = item))
            kept.
Proof.
  intros Hnone Hrun kept.
  pose proof (persistFetchResult_atomicWith fetchResult db Hnone) as Hdone.
  rewrite Hrun in Hdone. destruct Hdone as [Hclosed Hcommitted].
  split; [|split].
  - pose proof (getSyncState_reads db' Hclosed) as Hread.
    destruct (getSyncState db') as [[state|error] db''];
      [|by destruct Hread as (_ & _ & ?)].
    destruct Hread as (-> & _). by rewrite Hcommitted.
  - pose proof (readItemsRaw_reads db' Hclosed) as Hread.
    destruct (readItemsRaw db') as [[items|error] db''];
      [|by destruct Hread as (_ & _ & ?)].
    destruct Hread as (-> & _). rewrite Hcommitted.
    exact (itemsIn_synced fetchResult).
  - apply Forall_forall. intros item _.
    split; [apply storedId_stringify|]. split; [apply storedName_stringify|].
    apply JSON_stringify_plain.
Qed.

End ReadAfterSync.

(** The theorem on a store with an earlier snapshot and no fault: the
    sync returns and the items are read back in the order of their names,
    the weight that is not finite read as null. *)
Lemma readItemsRaw_after_sync_witness :
  let db := storeWithSnapshot None false in
  let run := persistFetchResult (P := asciiHost) fetchOfWeights db in
  transaction db = None
  /\ run.1 = Returned tt
  /\ (getSyncState run.2).1 = Returned (Some (persistedState fetchOfWeights))
  /\ (readItemsRaw run.2).1
     = Returned [JObject [("id", JString "n"); ("weight", JNull)];
                 JObject [("id", JString "b"); ("name", JString "Battery")];
                 JObject [("id", JString "w"); ("name", JString "wire")]]
  /\ match readItemsRaw run.2 with
     | (Returned items, _) =>
         items ≡ₚ map JSON_stringify
                      (filter (fun item => is_Some (storedId item))
                              (rawItemsOf fetchOfWeights))
     | (Thrown _, _) => False
     end.
Proof.
  intros db run. split; [reflexivity|]. split; [vm_compute; reflexivity|].
  split; [vm_compute; reflexivity|]. split; [vm_compute; reflexivity|].
  assert (Hrun : persistFetchResult (P := asciiHost) fetchOfWeights db = (Returned tt, run.2))
    by (vm_compute; reflexivity).
  destruct (readItemsRaw_after_sync (P := asciiHost) fetchOfWeights db run.2 eq_refl Hrun)
    as (_ & Hitems & _).
  assert (Hquiet : faultAfter run.2 = None) by (vm_compute; reflexivity).
  destruct (readItemsRaw run.2) as [[items|error] db''].
  - by destruct Hitems as [Hperm _].
  - rewrite Hquiet in Hitems. by destruct Hitems.
Defined.

(* ----------------------------------------------------------------- *)
(** ** The MetaForge read path *)

Section ReadPath.
Context {P : Platform}.

Lemma normalizeSourceFetch_raw (result : SourceFetchResult) :
  map item_raw (normalizeSourceFetch result)
  = filter (fun item => isObjectLike (Some item) = true) (fetch_itemsRaw result).
Proof.
  unfold normalizeSourceFetch. rewrite map_map.
  induction (filter _ (fetch_itemsRaw result)) as [|raw items IH]; [reflexivity|].
  cbn [map]. rewrite IH. by destruct (fetch_sourceId result).
Qed.

Lemma persistFetchResult_stays_quiet (fetchResult : SourceFetchResult) (db db' : Db) :
  transaction db = None ->
  persistFetchResult fetchResult db = (Returned tt, db') ->
  faultAfter db = None -> faultAfter db' = None.
Proof.
  intros Hnone Hrun Hquiet.
  assert (Heff : is_Some (resyncEffect fetchResult (committed db))).
  { apply persistFetchResult_returned_effect; [exact Hnone|by rewrite Hrun]. }
  destruct (persistFetchResult_quiet_run fetchResult db Hnone Hquiet Heff)
    as (db'' & Hrun' & Hq).
  rewrite Hrun in Hrun'. by inversion Hrun'; subst.
Qed.

Lemma ensureFresh_cases (nowMs syncIntervalMs : float) (fetched : FetchOutcome) (db : Db) :
  transaction db = None ->
  match ensureFreshMetaForgeSnapshot nowMs syncIntervalMs fetched db with
  | (Returned _, db') =>
      transaction db' = None
      /\ (faultAfter db = None -> faultAfter db' = None)
      /\ (faultAfter db = None ->
          isStale nowMs syncIntervalMs (metaforge_sync_state (committed db)) = false ->
          db' = db)
      /\ refreshed nowMs syncIntervalMs fetched (committed db) (committed db')
  | (Thrown error, db') =>
      committed db' = committed db /\ transaction db' = None
      /\ thrownBecause nowMs syncIntervalMs fetched db error
  end.
Proof.
  intros Hnone. unfold ensureFreshMetaForgeSnapshot, bind.
  pose proof (getSyncState_reads db Hnone) as Hread.
  destruct (getSyncState db) as [[state|error] db1].
  2: { destruct Hread as (Hc & Ht & Hf). split; [exact Hc|]. split; [exact Ht|]. by left. }
  destruct Hread as (-> & Hc & Ht & Hsame).
  destruct (isStale nowMs syncIntervalMs (metaforge_sync_state (committed db))) eqn:Hstale;
    cbn [negb].
  - destruct fetched as [fetchResult|reason].
    + pose proof (persistFetchResult_atomicWith fetchResult db1 Ht) as Hdone.
      destruct (persistFetchResult fetchResult db1) as [[[]|error] db2] eqn:Hrun.
      * destruct Hdone as [Ht2 Hc2]. split; [exact Ht2|]. split.
        { intros Hq. apply (persistFetchResult_stays_quiet fetchResult db1 db2 Ht Hrun).
          by rewrite (Hsame Hq). }
        split; [intros _ Hno; discriminate|].
        right. split; [exact Hstale|]. exists fetchResult. by split.
      * destruct Hdone as [Hc2 Ht2]. split; [congruence|]. split; [exact Ht2|].
        destruct (decide (faultAfter db = None)) as [Hq|Hq];
          [|left; by apply not_eq_None_Some].
        right. split; [exact Hstale|]. intros Hdistinct.
        specialize (Hsame Hq). subst db1.
        apply (resyncEffect_distinct fetchResult (committed db)) in Hdistinct.
        destruct (persistFetchResult_quiet_run fetchResult db Hnone Hq Hdistinct)
          as (db'' & Hrun' & _).
        rewrite Hrun in Hrun'. discriminate.
    + split; [exact Hc|]. split; [exact Ht|]. right. by split.
  - unfold ret. split; [exact Ht|]. split; [intros Hq; by rewrite (Hsame Hq)|].
    split; [intros Hq _; exact (Hsame Hq)|]. left. by split.
Qed.

Lemma responseOf_shape (fuzzyMatchThreshold : float) (clock : nat -> string)
    (state : option SyncStateRow) (itemsRaw : list JsonValue) :
  let r := responseOf fuzzyMatchThreshold clock state itemsRaw in
  enabledSources r = [metaforge]
  /\ (exists s, sourceSummaries r = [s]
                /\ summary_sourceId s = metaforge /\ summary_error s = None
                /\ summary_itemCount s = length (canonicalItems r)
                /\ summary_versionOrCommit s = default "unknown" (version <$> state))
  /\ Forall (fun c => (exists item, bySource c = {[metaforge := item]})
                      /\ diffReport c = emptyReport)
            (canonicalItems r)
  /\ map item_raw (entriesOf metaforge (canonicalItems r))
     ≡ₚ filter (fun item => isObjectLike (Some item) = true) itemsRaw.
Proof.
  unfold responseOf. cbn [enabledSources sourceSummaries canonicalItems].
  set (resultLike := {| fetch_sourceId := metaforge;
                        fetch_fetchedAt := _; fetch_versionOrCommit := _;
                        fetch_itemsRaw := itemsRaw |}).
  split; [reflexivity|]. split.
  { eexists. split; [reflexivity|]. cbn. repeat split.
    rewrite single_provider_length. by rewrite lookup_singleton_eq. }
  split; [apply single_provider_clean|].
  rewrite single_provider_entries, lookup_singleton_eq. cbn [default from_option id].
  by rewrite normalizeSourceFetch_raw.
Qed.

(** The part of [buildMetaForgeDataFromStore] after [getDb()]. *)
Lemma readPath_cases (nowMs syncIntervalMs fuzzyMatchThreshold : float)
    (clock : nat -> string) (fetched : FetchOutcome) (db : Db) :
  transaction db = None ->
  match (ensureFreshMetaForgeSnapshot nowMs syncIntervalMs fetched ;;;
         state <- getSyncState ;;
         itemsRaw <- readItemsRaw ;;
         ret (responseOf fuzzyMatchThreshold clock state itemsRaw)) db with
  | (Returned r, db') =>
      transaction db' = None
      /\ r = responseOf fuzzyMatchThreshold clock (metaforge_sync_state (committed db'))
                        (itemsIn (committed db'))
      /\ (faultAfter db = None ->
          isStale nowMs syncIntervalMs (metaforge_sync_state (committed db)) = false ->
          db' = db)
      /\ refreshed nowMs syncIntervalMs fetched (committed db) (committed db')
  | (Thrown error, db') =>
      transaction db' = None
      /\ (committed db' = committed db
          \/ refreshed nowMs syncIntervalMs fetched (committed db) (committed db'))
      /\ thrownBecause nowMs syncIntervalMs fetched db error
  end.
Proof.
  intros Hnone. unfold bind, ret.
  pose proof (ensureFresh_cases nowMs syncIntervalMs fetched db Hnone) as Hfresh.
  destruct (ensureFreshMetaForgeSnapshot nowMs syncIntervalMs fetched db)
    as [[[]|error] db1].
  2: { destruct Hfresh as (Hc & Ht & Hwhy). split; [exact Ht|]. split; [by left|exact Hwhy]. }
  destruct Hfresh as (Ht1 & Hq1 & Hsame1 & Hdone).
  pose proof (getSyncState_reads db1 Ht1) as Hstate.
  destruct (getSyncState db1) as [[state|error] db2].
  2: { destruct Hstate as (Hc2 & Ht2 & Hf2).
       split; [exact Ht2|]. split; [right; by rewrite Hc2|]. left.
       apply not_eq_None_Some. intros Hq.
       rewrite (Hq1 Hq) in Hf2. by apply is_Some_None in Hf2. }
  destruct Hstate as (-> & Hc2 & Ht2 & Hsame2).
  pose proof (readItemsRaw_reads db2 Ht2) as Hitems.
  destruct (readItemsRaw db2) as [[items|error] db3].
  2: { destruct Hitems as (Hc3 & Ht3 & Hf3).
       split; [exact Ht3|]. split; [right; by rewrite Hc3, Hc2|]. left.
       apply not_eq_None_Some. intros Hq.
       rewrite (Hsame2 (Hq1 Hq)), (Hq1 Hq) in Hf3.
       by apply is_Some_None in Hf3. }
  destruct Hitems as (-> & Hc3 & Ht3 & Hsame3).
  split; [exact Ht3|]. split; [by rewrite Hc3, Hc2|]. split; [|by rewrite Hc3, Hc2].
  intros Hq Hfresh.
  assert (Hdb1 : db1 = db) by exact (Hsame1 Hq Hfresh). subst db1.
  assert (Hdb2 : db2 = db) by exact (Hsame2 Hq). subst db2.
  exact (Hsame3 Hq).
Qed.

(** [buildMetaForgeDataFromStore] by cases. *)
Lemma buildMetaForgeDataFromStore_cases (nowMs syncIntervalMs fuzzyMatchThreshold : float)
    (clock : nat -> string) (fetched : FetchOutcome) (store : Store) :
  transaction (database store) = None ->
  let before := committed (database store) in
  match buildMetaForgeDataFromStore nowMs syncIntervalMs fuzzyMatchThreshold clock fetched
          store
  with
  | (Returned r, store') =>
      opened store' = true
      /\ r = responseOf fuzzyMatchThreshold clock
               (metaforge_sync_state (committed (database store')))
               (itemsIn (committed (database store')))
      /\ (faultAfter (database store) = None ->
          isStale nowMs syncIntervalMs (metaforge_sync_state before) = false ->
          database store' = database store)
      /\ refreshed nowMs syncIntervalMs fetched before (committed (database store'))
  | (Thrown error, store') =>
      (committed (database store') = before
       \/ refreshed nowMs syncIntervalMs fetched before (committed (database store')))
      /\ thrownBecause nowMs syncIntervalMs fetched (database store) error
  end.
Proof.
  intros Hnone before. unfold buildMetaForgeDataFromStore.
  pose proof (getDb_cases store Hnone) as Hdb.
  destruct (getDb store) as [[[]|error] store1].
  2: { destruct Hdb as (Hc & _ & Hfault). split; [by left|by left]. }
  destruct Hdb as (Hopen & Hc & Ht & Hsame).
  pose proof (readPath_cases nowMs syncIntervalMs fuzzyMatchThreshold clock fetched
                (database store1) Ht) as Hpath.
  destruct ((ensureFreshMetaForgeSnapshot nowMs syncIntervalMs fetched ;;;
             state <- getSyncState ;;
             itemsRaw <- readItemsRaw ;;
             ret (responseOf fuzzyMatchThreshold clock state itemsRaw))
              (database store1)) as [[r|error] db'].
  - cbn [fst snd opened database]. rewrite Hc in Hpath.
    destruct Hpath as (_ & -> & Hsame' & Hdone).
    split; [exact Hopen|]. split; [reflexivity|]. split; [|exact Hdone].
    intros Hq Hfresh. rewrite (Hsame Hq) in Hsame'. exact (Hsame' Hq Hfresh).
  - cbn [fst snd opened database]. rewrite Hc in Hpath.
    destruct Hpath as (_ & Hdone & Hwhy). split; [exact Hdone|].
    unfold thrownBecause in Hwhy |- *. rewrite Hc in Hwhy.
    destruct Hwhy as [Hfault|Hwhy]; [|by right].
    left. apply not_eq_None_Some. intros Hq.
    rewrite (Hsame Hq), Hq in Hfault. by apply is_Some_None in Hfault.
Qed.

(** X13. The MetaForge read path, with no transaction open.  When
    [buildMetaForgeDataFromStore] returns, the connection is open and the
    response names MetaForge as the one provider, has one summary, without
    an error, whose count is the number of canonical items and whose
    version is the stored one; every canonical item holds one record and a
    clean report; the records are the objects among the stored items as
    [readItemsRaw] parses them, each once; and a store that is not stale
    has its tables left as they were.  It throws only on a fault of the
    engine, or when the store was stale and the fetch was rejected or had
    a repeated id.  With no fault and a store that is not stale it
    returns, and leaves the connection as it was. *)
Theorem buildMetaForgeDataFromStore_response (nowMs syncIntervalMs fuzzyMatchThreshold : float)
    (clock : nat -> string) (fetched : FetchOutcome) (store : Store) :
  transaction (database store) = None ->
  let before := committed (database store) in
  match buildMetaForgeDataFromStore nowMs syncIntervalMs fuzzyMatchThreshold clock fetched
          store
  with
  | (Returned r, store') =>
      let stored := committed (database store') in
      opened store' = true
      /\ enabledSources r = [metaforge]
      /\ (exists s, sourceSummaries r = [s]
                    /\ summary_sourceId s = metaforge /\ summary_error s = None
                    /\ summary_itemCount s = length (canonicalItems r)
                    /\ summary_versionOrCommit s
                       = default "unknown" (version <$> metaforge_sync_state stored))
      /\ Forall (fun c => (exists item, bySource c = {[metaforge := item]})
                          /\ diffReport c = emptyReport)
                (canonicalItems r)
      /\ map item_raw (entriesOf metaforge (canonicalItems r))
         ≡ₚ filter (fun item => isObjectLike (Some item) = true) (itemsIn stored)
      /\ (isStale nowMs syncIntervalMs (metaforge_sync_state before) = false ->
          stored = before)
  | (Thrown error, _) => thrownBecause nowMs syncIntervalMs fetched (database store) error
  end
  /\ (faultAfter (database store) = None ->
      isStale nowMs syncIntervalMs (metaforge_sync_state before) = false ->
      exists r store',
        buildMetaForgeDataFromStore nowMs syncIntervalMs fuzzyMatchThreshold clock fetched
          store = (Returned r, store')
        /\ opened store' = true /\ database store' = database store).
Proof.
  intros Hnone before.
  pose proof (buildMetaForgeDataFromStore_cases nowMs syncIntervalMs fuzzyMatchThreshold
                clock fetched store Hnone) as Hcases.
  cbv zeta in Hcases.
  subst before. split.
  - destruct (buildMetaForgeDataFromStore _ _ _ _ _ _) as [[r|error] store'];
      [|exact (proj2 Hcases)].
    destruct Hcases as (Hopen & -> & _ & Hdone). cbv zeta.
    pose proof (responseOf_shape fuzzyMatchThreshold clock
                  (metaforge_sync_state (committed (database store')))
                  (itemsIn (committed (database store')))) as (H1 & H2 & H3 & H4).
    split; [exact Hopen|]. split; [exact H1|]. split; [exact H2|]. split; [exact H3|].
    split; [exact H4|].
    intros Hfresh. destruct Hdone as [[_ Hsame]|[Hstale _]]; [exact Hsame|congruence].
  - intros Hq Hfresh.
    destruct (buildMetaForgeDataFromStore _ _ _ _ _ _) as [[r|error] store'].
    + destruct Hcases as (Hopen & _ & Hsame & _). exists r, store'.
      split; [reflexivity|]. split; [exact Hopen|exact (Hsame Hq Hfresh)].
    + destruct Hcases as [_ [Hfault|[Hstale _]]]; [|congruence].
      rewrite Hq in Hfault. by apply is_Some_None in Hfault.
Qed.

End ReadPath.

(** The theorem on an open store synced half a second ago, with an
    interval of a second and no fault: the stored item is served and the
    store left as it was, whatever the connector would answer. *)
Lemma buildMetaForgeDataFromStore_response_witness :
  let store := storeSyncedAt "1000" None false in
  let asked := buildMetaForgeDataFromStore (P := asciiHost) 1500 1000 0.93 sampleClock
                 (FetchRejected (ReasonError "HTTP 503")) store in
  transaction (database store) = None
  /\ asked.2 = store
  /\ match asked.1 with
     | Returned r =>
         enabledSources r = [metaforge]
         /\ map item_raw (entriesOf metaforge (canonicalItems r))
            ≡ₚ [JObject [("id", JString "scrap"); ("name", JString "Scrap")]]
     | Thrown _ => False
     end.
Proof.
  intros store asked. split; [reflexivity|].
  destruct (buildMetaForgeDataFromStore_response (P := asciiHost) 1500 1000 0.93 sampleClock
              (FetchRejected (ReasonError "HTTP 503")) store eq_refl)
    as [Hcases Hreturns].
  assert (Hquiet : faultAfter (database store) = None) by reflexivity.
  assert (Hfresh : isStale (P := asciiHost) 1500 1000
                     (metaforge_sync_state (committed (database store))) = false)
    by (vm_compute; reflexivity).
  destruct (Hreturns Hquiet Hfresh) as (r & store' & Hrun & Hopen & Hsame).
  fold asked in Hrun, Hcases. rewrite Hrun in Hcases |- *. cbn [fst snd].
  destruct Hcases as (_ & Hsources & _ & _ & Hraw & Hstored).
  split; [by destruct store' as [o d]; cbn in Hopen, Hsame; subst|].
  split; [exact Hsources|].
  rewrite Hraw, Hsame. vm_compute. reflexivity.
Defined.

(* ----------------------------------------------------------------- *)
(** ** What the normalizer lets through *)

Lemma float_positive (x : float) :
  isFinite x = true -> (x <=? 0)%float = false -> (0 <? x)%float = true.
Proof.
  unfold isFinite. rewrite FloatAxioms.leb_spec, FloatAxioms.ltb_spec.
  change (Prim2SF 0) with (S754_zero false).
  unfold SFleb, SFltb. sf_destruct (Prim2SF x); sf_solve.
Qed.

Lemma trimmed_text (s : string) : (0 <? String.length (trim s)) = true -> isTrimmedText (trim s).
Proof.
  intros Hlen. split; [apply trim_idem|]. intros Hempty. by rewrite Hempty in Hlen.
Qed.

Lemma toStringOrUndefined_trimmed (value : option JsonValue) :
  trimmedIfAny (toStringOrUndefined value).
Proof.
  intros s. unfold toStringOrUndefined. destruct value as [[| | |text| |]|]; try done.
  destruct (0 <? String.length (trim text)) eqn:Hlen; [|done].
  intros [= <-]. by apply trimmed_text.
Qed.

Lemma textOrNull_trimmed (value : option JsonValue) : trimmedIfAny (textOrNull value).
Proof. exact (toStringOrUndefined_trimmed value). Qed.

Lemma nameFromUnknown_trimmed (value : option JsonValue) :
  trimmedIfAny (nameFromUnknown value).
Proof.
  intros s. unfold nameFromUnknown.
  destruct (toStringOrUndefined value) as [direct|] eqn:Hdirect.
  { intros [= <-]. by eapply toStringOrUndefined_trimmed. }
  destruct value as [v|]; [|done]. destruct (isObjectLike (Some v)); [|done].
  destruct (toStringOrUndefined (getProp (Some v) "en")) as [english|] eqn:Henglish.
  { intros [= <-]. by eapply toStringOrUndefined_trimmed. }
  destruct (find _ _) as [first|] eqn:Hfind; [|done]. cbn [default].
  apply find_some in Hfind as [Hin _]. apply in_map_iff in Hin as (candidate & <- & _).
  apply toStringOrUndefined_trimmed.
Qed.

Lemma orElse_trimmed (a b : option string) :
  trimmedIfAny a -> trimmedIfAny b -> trimmedIfAny (a ?? b).
Proof. intros Ha Hb s. destruct a; cbn; [apply Ha|apply Hb]. Qed.

Section NormalizerFacts.
Context {P : Platform}.

Lemma toNumberOrUndefined_finite (value : option JsonValue) :
  finiteIfAny (toNumberOrUndefined value).
Proof.
  intros x. unfold toNumberOrUndefined. destruct value as [[| |y|text| |]|]; try done.
  - destruct (isFinite y) eqn:Hy; [|done]. by intros [= <-].
  - destruct (isFinite (stringToNumber text)) eqn:Hy; [|done]. by intros [= <-].
Qed.

Lemma orElse_finite (a b : option float) :
  finiteIfAny a -> finiteIfAny b -> finiteIfAny (a ?? b).
Proof. intros Ha Hb x. destruct a; cbn; [apply Ha|apply Hb]. Qed.

Lemma default_finite (a : option float) :
  finiteIfAny a -> isFinite (default 1%float a) = true.
Proof. intros Ha. destruct a as [x|]; cbn; [by apply Ha|reflexivity]. Qed.

Lemma partOfEntry_part (entry : JsonValue) (part : RecipePart) :
  partOfEntry entry = Some part ->
  isRecipePart part
  /\ trimmedIfAny (part_itemId part) /\ trimmedIfAny (part_name part).
Proof.
  unfold partOfEntry. destruct (negb _); [done|].
  set (amount := default 1%float _).
  set (itemId := _ ?? _ ?? _ ?? _). set (name := _ ?? _ ?? _ ?? _).
  assert (Hamount : isFinite amount = true).
  { apply default_finite. apply orElse_finite; [apply orElse_finite|];
      apply toNumberOrUndefined_finite. }
  assert (HitemId : trimmedIfAny itemId)
    by (apply orElse_trimmed; [apply orElse_trimmed; [apply orElse_trimmed|]|];
        apply toStringOrUndefined_trimmed).
  assert (Hname : trimmedIfAny name)
    by (apply orElse_trimmed; [apply orElse_trimmed; [apply orElse_trimmed|]|];
        apply nameFromUnknown_trimmed).
  clearbody amount itemId name.
  destruct itemId as [i|], name as [n|]; intros [= <-]; cbn;
    (split; [split; [exact Hamount|cbn; eauto]|split; assumption]).
Qed.

Lemma partOfField_part (field : string * JsonValue) (part : RecipePart) :
  partOfField field = Some part ->
  isRecipePart part
  /\ part_itemId part = Some field.1 /\ part_name part = None
  /\ (0 <? part_amount part)%float = true.
Proof.
  unfold partOfField.
  destruct (toNumberOrUndefined (Some field.2)) as [amount|] eqn:Hamount; [|done].
  apply toNumberOrUndefined_finite in Hamount.
  destruct (PrimFloat.is_zero amount || (amount <=? 0)%float) eqn:Hskip; [done|].
  apply orb_false_elim in Hskip as [_ Hpositive].
  intros [= <-]. cbn. repeat split; try done; [eauto|by apply float_positive].
Qed.

Lemma nonEmptyParts_cases (parts : list RecipePart) :
  nonEmptyParts parts = match parts with [] => None | _ => Some parts end.
Proof. by destruct parts. Qed.

(** X14. The recipe parts the normalizer makes.  The result is never an
    empty list (it is undefined instead), and only an array or an object
    gives parts at all.  Every part has a finite amount and an id or a
    name.  From an array, ids and names come trimmed and not empty, at
    most one part per entry; from an object, every part is one of its keys
    with an amount above 0 and no name, at most one part per key. *)
Theorem normalizeRecipeParts_parts (value : option JsonValue) :
  partsIfAny (normalizeRecipeParts value)
  /\ (forall parts, normalizeRecipeParts value = Some parts ->
        match value with
        | Some (JArray entries) =>
            Forall (fun part => trimmedIfAny (part_itemId part)
                                /\ trimmedIfAny (part_name part)) parts
            /\ length parts <= length entries
        | Some (JObject fields) =>
            Forall (fun part => (exists field, field ∈ fields
                                               /\ part_itemId part = Some field.1)
                                /\ part_name part = None
                                /\ (0 <? part_amount part)%float = true) parts
            /\ length parts <= length fields
        | _ => False
        end).
Proof.
  unfold normalizeRecipeParts.
  destruct value as [[|b|x|text|entries|fields]|]; cbn [truthy negb];
    try (split; [by intros ? ?|by intros ? ?]);
    try (destruct (negb _); split; by intros ? ?).
  - rewrite nonEmptyParts_cases.
    assert (Hall : Forall (fun part => isRecipePart part
                                       /\ trimmedIfAny (part_itemId part)
                                       /\ trimmedIfAny (part_name part))
                          (arraySort compareArrayParts (omap partOfEntry entries))).
    { rewrite (arraySort_perm compareArrayParts). apply Forall_forall. intros part Hin.
      apply list_elem_of_omap in Hin as (entry & _ & Hpart).
      by apply (partOfEntry_part entry). }
    assert (Hlen : length (arraySort compareArrayParts (omap partOfEntry entries))
                   <= length entries)
      by (rewrite (arraySort_length compareArrayParts); apply omap_length_le).
    destruct (arraySort compareArrayParts (omap partOfEntry entries)) as [|part parts];
      [split; by intros ? ?|].
    split.
    + intros l [= <-]. split; [done|].
      eapply Forall_impl; [exact Hall|]. by intros ? [? _].
    + intros l [= <-]. split; [|exact Hlen].
      eapply Forall_impl; [exact Hall|]. by intros ? [_ ?].
  - rewrite nonEmptyParts_cases.
    assert (Hall : Forall (fun part => isRecipePart part
                                       /\ (exists field, field ∈ fields
                                                         /\ part_itemId part = Some field.1)
                                       /\ part_name part = None
                                       /\ (0 <? part_amount part)%float = true)
                          (arraySort compareMapParts (omap partOfField fields))).
    { rewrite (arraySort_perm compareMapParts). apply Forall_forall. intros part Hin.
      apply list_elem_of_omap in Hin as (field & Hfield & Hpart).
      destruct (partOfField_part field part Hpart) as (Hrecipe & Hid & Hname & Hpositive).
      split; [exact Hrecipe|]. split; [by exists field|]. by split. }
    assert (Hlen : length (arraySort compareMapParts (omap partOfField fields))
                   <= length fields)
      by (rewrite (arraySort_length compareMapParts); apply omap_length_le).
    destruct (arraySort compareMapParts (omap partOfField fields)) as [|part parts];
      [split; by intros ? ?|].
    split.
    + intros l [= <-]. split; [done|].
      eapply Forall_impl; [exact Hall|]. by intros ? [? _].
    + intros l [= <-]. split; [|exact Hlen].
      eapply Forall_impl; [exact Hall|]. by intros ? [_ ?].
Qed.

Lemma normalizeRecipeParts_partsIfAny (value : option JsonValue) :
  partsIfAny (normalizeRecipeParts value).
Proof.
  unfold normalizeRecipeParts.
  destruct value as [[|b|x|text|entries|fields]|]; cbn [truthy negb];
    try (by intros ? ?); try (destruct (negb _); by intros ? ?).
  - rewrite nonEmptyParts_cases.
    assert (Hall : Forall isRecipePart
                          (arraySort compareArrayParts (omap partOfEntry entries))).
    { rewrite (arraySort_perm compareArrayParts). apply Forall_forall. intros part Hin.
      apply list_elem_of_omap in Hin as (entry & _ & Hpart).
      by apply (partOfEntry_part entry). }
    destruct (arraySort compareArrayParts (omap partOfEntry entries)) as [|part parts];
      [by intros ? ?|].
    by intros l [= <-].
  - rewrite nonEmptyParts_cases.
    assert (Hall : Forall isRecipePart
                          (arraySort compareMapParts (omap partOfField fields))).
    { rewrite (arraySort_perm compareMapParts). apply Forall_forall. intros part Hin.
      apply list_elem_of_omap in Hin as (field & _ & Hpart).
      by apply (partOfField_part field). }
    destruct (arraySort compareMapParts (omap partOfField fields)) as [|part parts];
      [by intros ? ?|].
    by intros l [= <-].
Qed.

Lemma orElse_parts (a b : option (list RecipePart)) :
  partsIfAny a -> partsIfAny b -> partsIfAny (a ?? b).
Proof. intros Ha Hb l. destruct a; cbn; [apply Ha|apply Hb]. Qed.

Lemma single_part (id : string) (name : option string) (amount : float) :
  isFinite amount = true ->
  partsIfAny (Some [{| part_itemId := Some id; part_name := name; part_amount := amount |}]).
Proof.
  intros Hamount l [= <-]. split; [done|]. constructor; [|constructor].
  split; [exact Hamount|]. left. cbn. eauto.
Qed.

Lemma no_parts : partsIfAny None.
Proof. by intros l. Qed.

(** What [normalizeSourceFetch] promises of a record. *)
Lemma normalizeArdbItem_fields (raw : JsonValue) :
  let item := normalizeArdbItem raw in
  item_sourceId item = ardb /\ item_raw item = raw
  /\ trimmedIfAny (item_sourceItemId item) /\ trimmedIfAny (item_name item)
  /\ trimmedIfAny (item_type item) /\ trimmedIfAny (item_rarity item)
  /\ finiteIfAny (item_value item) /\ finiteIfAny (item_weight item)
  /\ partsIfAny (item_inputs item) /\ partsIfAny (item_outputs item).
Proof.
  unfold normalizeArdbItem.
  cbn [item_sourceId item_raw item_sourceItemId item_name item_type item_rarity
       item_value item_weight item_inputs item_outputs].
  split; [reflexivity|]. split; [reflexivity|].
  split; [apply toStringOrUndefined_trimmed|]. split; [apply nameFromUnknown_trimmed|].
  split; [apply toStringOrUndefined_trimmed|].
  split; [apply toStringOrUndefined_trimmed|].
  split; [apply toNumberOrUndefined_finite|].
  split; [apply toNumberOrUndefined_finite|].
  split.
  - destruct (normalizeRecipeParts _) as [parts|] eqn:Hparts.
    + rewrite <- Hparts. apply normalizeRecipeParts_partsIfAny.
    + apply normalizeRecipeParts_partsIfAny.
  - destruct (toStringOrUndefined _) as [id|]; [|apply no_parts].
    destruct (truthy _); [|apply no_parts].
    apply single_part, default_finite, toNumberOrUndefined_finite.
Qed.

Lemma normalizeMetaForgeItem_fields (raw : JsonValue) :
  let item := normalizeMetaForgeItem raw in
  item_sourceId item = metaforge /\ item_raw item = raw
  /\ trimmedIfAny (item_sourceItemId item) /\ trimmedIfAny (item_name item)
  /\ trimmedIfAny (item_type item) /\ trimmedIfAny (item_rarity item)
  /\ finiteIfAny (item_value item) /\ finiteIfAny (item_weight item)
  /\ partsIfAny (item_inputs item) /\ partsIfAny (item_outputs item).
Proof.
  unfold normalizeMetaForgeItem.
  cbn [item_sourceId item_raw item_sourceItemId item_name item_type item_rarity
       item_value item_weight item_inputs item_outputs].
  split; [reflexivity|]. split; [reflexivity|].
  split; [apply toStringOrUndefined_trimmed|]. split; [apply nameFromUnknown_trimmed|].
  split; [apply orElse_trimmed; apply toStringOrUndefined_trimmed|].
  split; [apply toStringOrUndefined_trimmed|].
  split; [apply toNumberOrUndefined_finite|].
  split; [apply orElse_finite; apply toNumberOrUndefined_finite|].
  split.
  - apply orElse_parts; [apply orElse_parts|]; apply normalizeRecipeParts_partsIfAny.
  - destruct (_ ?? _) as [parts|] eqn:Hparts.
    + rewrite <- Hparts. apply orElse_parts; apply normalizeRecipeParts_partsIfAny.
    + destruct (toStringOrUndefined _) as [id|]; [|apply no_parts].
      destruct (_ ?? _ ?? _); [|apply no_parts]. by apply single_part.
Qed.

Lemma normalizeRaidTheoryLikeItem_fields (sourceId : SourceId) (raw : JsonValue) :
  let item := normalizeRaidTheoryLikeItem sourceId raw in
  item_sourceId item = sourceId /\ item_raw item = raw
  /\ trimmedIfAny (item_sourceItemId item) /\ trimmedIfAny (item_name item)
  /\ trimmedIfAny (item_type item) /\ trimmedIfAny (item_rarity item)
  /\ finiteIfAny (item_value item) /\ finiteIfAny (item_weight item)
  /\ partsIfAny (item_inputs item) /\ partsIfAny (item_outputs item).
Proof.
  unfold normalizeRaidTheoryLikeItem.
  cbn [item_sourceId item_raw item_sourceItemId item_name item_type item_rarity
       item_value item_weight item_inputs item_outputs].
  split; [reflexivity|]. split; [reflexivity|].
  split; [apply toStringOrUndefined_trimmed|]. split; [apply nameFromUnknown_trimmed|].
  split; [apply toStringOrUndefined_trimmed|].
  split; [apply toStringOrUndefined_trimmed|].
  split; [apply toNumberOrUndefined_finite|].
  split; [apply orElse_finite; apply toNumberOrUndefined_finite|].
  split; [apply normalizeRecipeParts_partsIfAny|].
  destruct (normalizeRecipeParts _); [|apply no_parts].
  destruct (toStringOrUndefined _) as [id|]; [|apply no_parts]. by apply single_part.
Qed.

(** X15. What [normalizeSourceFetch] makes of a payload: one record for
    each raw entry that is an object or an array, in the order of the
    payload, with the raw entry kept as it is; every record carries the
    provider id of the fetch; its id, name, type and rarity, where given,
    are trimmed and not empty; its value and weight, where given, are
    finite numbers; and its inputs and outputs, where given, are lists,
    never empty, of parts with a finite amount and an id or a name. *)
Theorem normalizeSourceFetch_records (result : SourceFetchResult) :
  map item_raw (normalizeSourceFetch result)
  = filter (fun raw => isObjectLike (Some raw) = true) (fetch_itemsRaw result)
  /\ Forall
       (fun item =>
          item_sourceId item = fetch_sourceId result
          /\ trimmedIfAny (item_sourceItemId item) /\ trimmedIfAny (item_name item)
          /\ trimmedIfAny (item_type item) /\ trimmedIfAny (item_rarity item)
          /\ finiteIfAny (item_value item) /\ finiteIfAny (item_weight item)
          /\ partsIfAny (item_inputs item) /\ partsIfAny (item_outputs item))
       (normalizeSourceFetch result).
Proof.
  split; [apply normalizeSourceFetch_raw|].
  unfold normalizeSourceFetch. apply Forall_fmap, Forall_forall. intros raw _.
  destruct (fetch_sourceId result); cbn beta iota.
  - destruct (normalizeArdbItem_fields raw) as (? & _ & ?). by split.
  - destruct (normalizeMetaForgeItem_fields raw) as (? & _ & ?). by split.
  - destruct (normalizeRaidTheoryLikeItem_fields raidtheory raw) as (? & _ & ?). by split.
  - destruct (normalizeRaidTheoryLikeItem_fields mahcks raw) as (? & _ & ?). by split.
Qed.

End NormalizerFacts.

(* ----------------------------------------------------------------- *)
(** ** One producer at a time, and the window of a value *)

Section CacheLifeCycle.
Context {V : Type}.
Implicit Types cache : gmap string (CacheEntry V).

Lemma getOrSet_begin_pending cache now key ttlMs fresh e p :
  cache !! key = Some e -> entry_value e = None -> inflight e = Some p ->
  getOrSet_begin now key ttlMs fresh cache = (Joined p, cache).
Proof.
  intros He Hvalue Hflight. unfold getOrSet_begin. rewrite He. cbn.
  by rewrite Hvalue, Hflight.
Qed.

Lemma runEvents_pending (events : list CacheEvent) key e p : forall cache,
  cache !! key = Some e -> entry_value e = None -> inflight e = Some p ->
  Forall (leavesPending key) events ->
  runEvents events cache !! key = Some e.
Proof.
  unfold runEvents.
  induction events as [|event events IH]; intros cache He Hvalue Hflight Hall;
    cbn [fold_left]; [exact He|].
  apply Forall_cons in Hall as [Hevent Hall]. apply IH; try done.
  destruct event as [now' key' ttl' fresh'|now' key' ttl' outcome]; cbn in Hevent |- *.
  - destruct (decide (key' = key)) as [->|Hne].
    + by rewrite (getOrSet_begin_pending cache now' key ttl' fresh' e p).
    + by rewrite getOrSet_begin_other.
  - by rewrite getOrSet_resume_other.
Qed.

(** X16. One producer at a time for a key.  Once a call has invoked the
    producer, and until the producer's promise settles, every call for the
    key is handed that same promise and invokes nothing, at any time (past
    the expiry too) and with any ttl, and leaves the cache as it is;
    calls for the key and calls and settlements for other keys may come in
    between. *)
Theorem getOrSet_single_flight cache (now : float) (key : string) (ttlMs : float)
    (fresh : PromiseId) (events : list CacheEvent) :
  (getOrSet_begin now key ttlMs fresh cache).1 = Invoked fresh ->
  Forall (leavesPending key) events ->
  forall now' ttlMs' fresh',
    let later := runEvents events (getOrSet_begin now key ttlMs fresh cache).2 in
    getOrSet_begin now' key ttlMs' fresh' later = (Joined fresh, later).
Proof.
  intros Hinvoked Hevents now' ttlMs' fresh' later.
  set (entry := {| expiresAt := (now + ttlMs)%float; entry_value := None;
                   inflight := Some fresh |} : CacheEntry V).
  assert (Hentry : (getOrSet_begin now key ttlMs fresh cache).2 !! key = Some entry).
  { unfold getOrSet_begin in Hinvoked |- *.
    repeat case_match; cbn in Hinvoked |- *; try discriminate;
      apply lookup_insert_eq. }
  apply (getOrSet_begin_pending later now' key ttlMs' fresh' entry fresh); try done.
  by apply (runEvents_pending events key entry fresh).
Qed.

(** X17. The window of a cached value.  A value stored when its producer
    resolved at time [stored] under a ttl is served to a later call, after
    any calls and settlements for other keys, exactly when the call's clock
    reads less than [stored + ttl]: the window counts from the moment the
    producer resolved, the ttl of the asking call plays no part, and at the
    expiry time itself the value is no longer served.  A hit leaves the
    cache as it is; a call outside the window invokes the producer and puts
    an entry without a value in place of the expired one. *)
Theorem getOrSet_value_window cache (stored : float) (key : string) (ttlMs : float) (v : V)
    (events : list CacheEvent) (now' ttlMs' : float) (fresh : PromiseId) :
  Forall (fun event => eventKey event <> key) events ->
  let kept := runEvents events
                (getOrSet_resume stored key ttlMs (Fulfilled (Some v)) cache).2 in
  ((getOrSet_begin now' key ttlMs' fresh kept).1 = Hit v
   <-> (now' <? stored + ttlMs)%float = true)
  /\ ((now' <? stored + ttlMs)%float = true ->
      getOrSet_begin now' key ttlMs' fresh kept = (Hit v, kept))
  /\ ((now' <? stored + ttlMs)%float = false ->
      getOrSet_begin now' key ttlMs' fresh kept
      = (Invoked fresh,
         <[key := {| expiresAt := (now' + ttlMs')%float; entry_value := None;
                     inflight := Some fresh |}]> kept)).
Proof.
  intros Hother kept.
  assert (Hentry : kept !! key
                   = Some {| expiresAt := (stored + ttlMs)%float; entry_value := Some v;
                             inflight := None |}).
  { subst kept. rewrite runEvents_other by done. cbn. apply lookup_insert_eq. }
  unfold getOrSet_begin. rewrite Hentry. cbn.
  destruct (now' <? stored + ttlMs)%float; cbn.
  - by repeat split.
  - by repeat split.
Qed.

End CacheLifeCycle.

(** The theorem on an empty cache: the call at time 0 invokes promise 7;
    a call for another key and a second call for the key come in; the call
    at time 1e9, long past the expiry, is handed promise 7. *)
Lemma getOrSet_single_flight_witness :
  let events := [CallBegins 5 "icon" 1000 8; CallBegins 6 "diff-data" 1000 9] in
  let later := runEvents events
                 (getOrSet_begin (V := nat) 0 "diff-data" 1000 7 ∅).2 in
  (getOrSet_begin (V := nat) 0 "diff-data" 1000 7 ∅).1 = Invoked 7
  /\ Forall (leavesPending "diff-data") events
  /\ getOrSet_begin 1e9 "diff-data" 1000 10 later = (Joined 7, later).
Proof.
  intros events later.
  assert (Hinvoked : (getOrSet_begin (V := nat) 0 "diff-data" 1000 7 ∅).1 = Invoked 7)
    by reflexivity.
  assert (Hevents : Forall (leavesPending (V := nat) "diff-data") events)
    by (repeat constructor).
  split; [exact Hinvoked|]. split; [exact Hevents|].
  exact (getOrSet_single_flight ∅ 0 "diff-data" 1000 7 events Hinvoked Hevents 1e9 1000 10).
Defined.

(** The theorem on a value stored at time 100 under a ttl of 50: served at
    149.5, after a call for another key, and no longer at 150. *)
Lemma getOrSet_value_window_witness :
  let events := [CallBegins (V := nat) 120 "icon" 1000 8] in
  let kept := runEvents events
                (getOrSet_resume 100 "diff-data" 50 (Fulfilled (Some 42)) ∅).2 in
  Forall (fun event => eventKey event <> "diff-data") events
  /\ (getOrSet_begin 149.5 "diff-data" 1000 9 kept).1 = Hit 42
  /\ (getOrSet_begin 150 "diff-data" 1000 9 kept).1 = Invoked 9.
Proof.
  intros events kept.
  assert (Hevents : Forall (fun event => eventKey event <> "diff-data") events)
    by (repeat constructor; done).
  split; [exact Hevents|].
  destruct (getOrSet_value_window ∅ 100 "diff-data" 50 42 events 149.5 1000 9 Hevents)
    as (_ & Hhit & _).
  destruct (getOrSet_value_window ∅ 100 "diff-data" 50 42 events 150 1000 9 Hevents)
    as (_ & _ & Hmiss).
  unfold kept. split; [by rewrite Hhit|by rewrite Hmiss].
Defined.

(* ----------------------------------------------------------------- *)
(** ** Summaries and rows of a pipeline run *)

Lemma sum_list_append (a b : list nat) : sum_list (a ++ b) = sum_list a + sum_list b.
Proof. induction a as [|x a IH]; cbn; [reflexivity|]. rewrite IH. lia. Qed.

Section PipelineCounts.
Context {P : Platform}.

Lemma pipeline_normalized_other clock fetches p : forall st,
  p ∉ fetches.*1 ->
  ps_normalizedBySource
    (fold_left (fun st fetch => pipelineStep clock st fetch.1 fetch.2) fetches st) !! p
  = ps_normalizedBySource st !! p.
Proof.
  induction fetches as [|[q result] fetches IH]; intros st Hnotin; cbn [fold_left fst snd];
    [reflexivity|].
  cbn in Hnotin. apply not_elem_of_cons in Hnotin as [Hne Hnotin].
  rewrite IH by done. destruct result; cbn; [by rewrite lookup_insert_ne|reflexivity].
Qed.

Lemma pipeline_normalized clock fetches p value :
  NoDup fetches.*1 -> (p, FetchFulfilled value) ∈ fetches ->
  forall st,
    ps_normalizedBySource
      (fold_left (fun st fetch => pipelineStep clock st fetch.1 fetch.2) fetches st) !! p
    = Some (normalizeSourceFetch value).
Proof.
  induction fetches as [|[q result] fetches IH]; intros Hnd Hin st; [by apply elem_of_nil in Hin|].
  cbn in Hnd. apply NoDup_cons in Hnd as [Hnotin Hnd]. cbn [fold_left fst snd].
  apply elem_of_cons in Hin as [[= <- <-]|Hin].
  - rewrite pipeline_normalized_other by done. cbn. apply lookup_insert_eq.
  - by apply IH.
Qed.

Lemma fulfilled_providers_NoDup (fetches : list (SourceId * FetchOutcome)) :
  NoDup fetches.*1 -> NoDup (map fst (filter (fun f => isFulfilled f = true) fetches)).
Proof.
  induction fetches as [|f fetches IH]; intros Hnd; [constructor|].
  cbn in Hnd. apply NoDup_cons in Hnd as [Hnotin Hnd].
  destruct (decide (isFulfilled f = true)).
  - rewrite filter_cons_True by done. cbn. apply NoDup_cons. split; [|by apply IH].
    intros Hin. apply Hnotin. apply list_elem_of_fmap in Hin as (g & -> & Hg).
    apply list_elem_of_fmap. exists g. split; [done|].
    by apply list_elem_of_filter in Hg as [_ Hg].
  - rewrite filter_cons_False by done. by apply IH.
Qed.

Lemma summaries_total clock fetches : forall st,
  sum_list (map summary_itemCount
              (ps_sourceSummaries
                 (fold_left (fun st fetch => pipelineStep clock st fetch.1 fetch.2)
                            fetches st)))
  = sum_list (map summary_itemCount (ps_sourceSummaries st))
    + sum_list (map countedItems fetches).
Proof.
  induction fetches as [|[q result] fetches IH]; intros st; cbn [fold_left fst snd];
    [cbn; lia|].
  rewrite IH. destruct result as [value|reason]; cbn [pipelineStep ps_sourceSummaries];
    rewrite map_app, sum_list_append; cbn [map].
  - change (countedItems (q, FetchFulfilled value))
      with (length (normalizeSourceFetch value)).
    cbn -[normalizeSourceFetch countedItems]. lia.
  - change (countedItems (q, FetchRejected reason)) with 0.
    cbn -[countedItems]. lia.
Qed.

Lemma listed_total (normalizedBySource : gmap SourceId (list SourceItem))
    (fetches some : list (SourceId * FetchOutcome)) :
  (forall p value, (p, FetchFulfilled value) ∈ some ->
     normalizedBySource !! p = Some (normalizeSourceFetch value)) ->
  length (allListed normalizedBySource
            (map fst (filter (fun f => isFulfilled f = true) some)))
  = sum_list (map countedItems some).
Proof.
  intros Hknown. unfold allListed.
  induction some as [|[q result] some IH]; [reflexivity|].
  assert (Hrest : forall p value, (p, FetchFulfilled value) ∈ some ->
                    normalizedBySource !! p = Some (normalizeSourceFetch value))
    by (intros p value Hin; apply Hknown; by right).
  destruct result as [value|reason].
  - rewrite filter_cons_True by done. cbn [map flat_map fst]. rewrite length_app.
    rewrite (Hknown q value) by (by left). rewrite IH by done.
    cbn [map]. change (countedItems (q, FetchFulfilled value))
      with (length (normalizeSourceFetch value)).
    cbn -[normalizeSourceFetch countedItems]. lia.
  - rewrite filter_cons_False by done. rewrite IH by done.
    cbn [map]. change (countedItems (q, FetchRejected reason)) with 0.
    cbn -[countedItems]. lia.
Qed.

(** X18. Summaries and rows agree.  When the requested providers are
    pairwise different, the canonical items hold, for each provider whose
    fetch succeeded, exactly the records normalized from its payload - each
    raw object of the payload in one canonical item - and the item count of
    its summary is the number of canonical items that hold a record of it;
    there are at most as many canonical items as the item counts add up to;
    and when no fetch succeeded there is no canonical item and no enabled
    provider. *)
Theorem buildDiffData_counts_match_rows (clock : nat -> string)
    (fuzzyMatchThreshold : float) (fetches : list (SourceId * FetchOutcome)) :
  NoDup fetches.*1 ->
  let r := buildDiffData clock fuzzyMatchThreshold fetches in
  (forall p value,
     (p, FetchFulfilled value) ∈ fetches ->
     entriesOf p (canonicalItems r) ≡ₚ normalizeSourceFetch value
     /\ map item_raw (entriesOf p (canonicalItems r))
        ≡ₚ filter (fun raw => isObjectLike (Some raw) = true) (fetch_itemsRaw value)
     /\ exists s, s ∈ sourceSummaries r /\ summary_sourceId s = p
                  /\ summary_error s = None
                  /\ summary_itemCount s = length (entriesOf p (canonicalItems r)))
  /\ length (canonicalItems r) <= sum_list (map summary_itemCount (sourceSummaries r))
  /\ (Forall (fun f => isFulfilled f = false) fetches ->
      canonicalItems r = [] /\ enabledSources r = []).
Proof.
  intros Hnd r.
  assert (Hactive : enabledSources r
                    = map fst (filter (fun f => isFulfilled f = true) fetches))
    by apply buildDiffData_enabledSources.
  assert (Hknown : forall p value, (p, FetchFulfilled value) ∈ fetches ->
            ps_normalizedBySource (pipelineLoop clock fetches) !! p
            = Some (normalizeSourceFetch value))
    by (intros p value Hin; by apply pipeline_normalized).
  assert (Hentries : forall p value, (p, FetchFulfilled value) ∈ fetches ->
            entriesOf p (canonicalItems r) ≡ₚ normalizeSourceFetch value).
  { intros p value Hin. subst r. unfold buildDiffData. cbn [canonicalItems].
    rewrite mergeAndDiffItems_entries.
    change (ps_activeSources (pipelineLoop clock fetches))
      with (enabledSources (buildDiffData clock fuzzyMatchThreshold fetches)).
    rewrite Hactive, listedItems_once.
    - by rewrite (Hknown p value Hin).
    - by apply fulfilled_providers_NoDup.
    - apply list_elem_of_fmap. exists (p, FetchFulfilled value). split; [done|].
      by apply list_elem_of_filter. }
  split; [|split].
  - intros p value Hin. split; [by apply Hentries|]. split.
    + rewrite (Hentries p value Hin). by rewrite normalizeSourceFetch_raw.
    + pose proof (buildDiffData_summaries clock fuzzyMatchThreshold fetches) as Hsum.
      apply list_elem_of_lookup_1 in Hin as [i Hi].
      destruct (Forall2_lookup_l _ _ _ _ _ Hsum Hi) as (s & Hs & Hid & Hmatch).
      cbn in Hid, Hmatch. destruct Hmatch as (_ & _ & Hcount & Herror).
      exists s. split; [by eapply list_elem_of_lookup_2|]. split; [exact Hid|].
      split; [exact Herror|]. rewrite Hcount.
      apply Permutation_length. symmetry. apply Hentries.
      by eapply list_elem_of_lookup_2.
  - subst r. unfold buildDiffData. cbn [canonicalItems sourceSummaries].
    unfold mergeAndDiffItems.
    rewrite (arraySort_length compareCanonical), length_map.
    etransitivity; [apply resolveSources_length|].
    change (ps_activeSources (pipelineLoop clock fetches))
      with (enabledSources (buildDiffData clock fuzzyMatchThreshold fetches)).
    rewrite Hactive, (listed_total _ fetches fetches Hknown).
    unfold pipelineLoop. rewrite summaries_total. cbn. lia.
  - intros Hnone.
    assert (Hempty : enabledSources r = []).
    { rewrite Hactive. clear -Hnone. induction Hnone as [|f fetches Hf _ IH]; [reflexivity|].
      rewrite filter_cons_False by congruence. exact IH. }
    split; [|exact Hempty].
    subst r. unfold buildDiffData in Hempty |- *. cbn [canonicalItems enabledSources] in *.
    rewrite Hempty. reflexivity.
Qed.

End PipelineCounts.

(** The theorem on three providers of which the second fails: the two
    others have one raw object each, and one canonical item holds both. *)
Lemma buildDiffData_counts_match_rows_witness :
  let r := buildDiffData (P := asciiHost) sampleClock 0.93 twoOfThree in
  NoDup twoOfThree.*1
  /\ map summary_itemCount (sourceSummaries r) = [1; 0; 1]
  /\ length (canonicalItems r) = 1
  /\ entriesOf raidtheory (canonicalItems r)
     ≡ₚ normalizeSourceFetch (P := asciiHost) (fetchOf raidtheory "wire" "Wire").
Proof.
  intros r.
  assert (Hnd : NoDup twoOfThree.*1) by (apply (bool_decide_unpack _); vm_compute; exact I).
  split; [exact Hnd|]. split; [vm_compute; reflexivity|]. split; [vm_compute; reflexivity|].
  destruct (buildDiffData_counts_match_rows (P := asciiHost) sampleClock 0.93 twoOfThree Hnd)
    as [Hrows _].
  apply (Hrows raidtheory (fetchOf raidtheory "wire" "Wire")).
  apply list_elem_of_In. cbn. auto.
Defined.

(* ----------------------------------------------------------------- *)
(** ** Configuration lists *)

Lemma splitOn_whole (sep : ascii) (w : list ascii) :
  sep ∉ w -> splitOn sep w = [w].
Proof.
  induction w as [|c w IH]; intros Hsep; [reflexivity|].
  cbn [splitOn]. destruct (Ascii.eqb_spec c sep) as [->|_].
  - exfalso. apply Hsep. left.
  - rewrite IH; [reflexivity|]. intros Hin. apply Hsep. by right.
Qed.

Lemma splitOn_first (sep : ascii) (w rest : list ascii) :
  sep ∉ w -> splitOn sep (w ++ sep :: rest) = w :: splitOn sep rest.
Proof.
  induction w as [|c w IH]; intros Hsep.
  - cbn [app splitOn]. by rewrite Ascii.eqb_refl.
  - cbn [app splitOn]. destruct (Ascii.eqb_spec c sep) as [->|_].
    + exfalso. apply Hsep. left.
    + rewrite IH; [reflexivity|]. intros Hin. apply Hsep. by right.
Qed.

Lemma splitOn_pieces (sep : ascii) (l : list ascii) :
  splitOn sep l <> [] /\ Forall (fun piece => sep ∉ piece) (splitOn sep l).
Proof.
  induction l as [|c l [Hne IH]]; cbn [splitOn].
  - split; [done|]. constructor; [|constructor]. by intros Hin%elem_of_nil.
  - destruct (Ascii.eqb_spec c sep) as [->|Hc].
    + split; [done|]. constructor; [|exact IH]. by intros Hin%elem_of_nil.
    + destruct (splitOn sep l) as [|piece pieces]; [done|].
      split; [done|]. inversion IH as [|? ? Hpiece Hpieces]; subst.
      constructor; [|exact Hpieces].
      intros [Heq|Hin]%elem_of_cons; [by apply Hc|by apply Hpiece].
Qed.

(** Splitting a joined list gives the list back, when no piece holds the
    separator. *)
Lemma split_join (pieces : list string) :
  pieces <> [] ->
  Forall (fun piece => ","%char ∉ listOfString piece) pieces ->
  split "," (join "," pieces) = pieces.
Proof.
  unfold split. induction pieces as [|x r IH]; intros Hne Hclean; [done|].
  inversion Hclean as [|? ? Hx Hr]; subst.
  destruct r as [|y r].
  - cbn [join]. rewrite splitOn_whole by exact Hx. cbn [map].
    by rewrite stringOfList_listOfString.
  - change (join "," (x :: y :: r)) with (x +:+ "," +:+ join "," (y :: r)).
    rewrite listOfString_app.
    change (listOfString ("," +:+ join "," (y :: r)))
      with (","%char :: listOfString (join "," (y :: r))).
    rewrite splitOn_first by exact Hx.
    cbn [map]. rewrite stringOfList_listOfString.
    f_equal. apply IH; [done|exact Hr].
Qed.

Lemma sourceIdOfText_sourceIdText (p : SourceId) :
  sourceIdOfText (sourceIdText p) = Some p.
Proof. by destruct p. Qed.

Lemma sourceIdOfText_Some (value : string) (p : SourceId) :
  sourceIdOfText value = Some p -> value = sourceIdText p.
Proof.
  unfold sourceIdOfText.
  destruct (String.eqb_spec value "ardb") as [->|_]; [by intros [= <-]|].
  destruct (String.eqb_spec value "metaforge") as [->|_]; [by intros [= <-]|].
  destruct (String.eqb_spec value "raidtheory") as [->|_]; [by intros [= <-]|].
  destruct (String.eqb_spec value "mahcks") as [->|_]; [by intros [= <-]|done].
Qed.

(** X19 (server/config.ts, parseEnabledSources): the parsed list of
    providers is never empty. A comma-separated text whose pieces name
    providers, padded with white space and in any letter case, parses to
    those providers in the order written, repeats included; so the text
    joined from a list of provider names reads back as that list. A text
    none of whose pieces names a provider, like a missing or empty one,
    gives the three default providers. *)
Theorem parseEnabledSources_reads_names :
  (forall raw, parseEnabledSources raw <> [])
  /\ (forall pieces names,
        names <> [] ->
        Forall2 (fun piece p =>
                   toLowerCase (trim piece) = sourceIdText p
                   /\ ","%char ∉ listOfString piece) pieces names ->
        parseEnabledSources (Some (join "," pieces)) = names)
  /\ (forall names,
        names <> [] ->
        parseEnabledSources (Some (join "," (map sourceIdText names))) = names)
  /\ (forall raw,
        Forall (fun piece => sourceIdOfText (toLowerCase (trim piece)) = None)
               (split "," raw) ->
        parseEnabledSources (Some raw) = defaultSources)
  /\ parseEnabledSources None = defaultSources
  /\ parseEnabledSources (Some "") = defaultSources.
Proof.
  assert (Hpadded : forall pieces names,
            names <> [] ->
            Forall2 (fun piece p =>
                       toLowerCase (trim piece) = sourceIdText p
                       /\ ","%char ∉ listOfString piece) pieces names ->
            parseEnabledSources (Some (join "," pieces)) = names).
  { intros pieces names Hne Hnamed.
    assert (Hsplit : split "," (join "," pieces) = pieces).
    { apply split_join.
      - intros ->. by inversion Hnamed; subst.
      - clear Hne. induction Hnamed as [|? ? ? ? [_ Hclean] _ IH]; by constructor. }
    assert (Hparsed : omap sourceIdOfText
                        (map (fun value => toLowerCase (trim value)) pieces) = names).
    { clear Hne Hsplit. induction Hnamed as [|piece p pieces names [Hname _] _ IH];
        [reflexivity|].
      cbn [map omap list_omap]. rewrite Hname, sourceIdOfText_sourceIdText.
      f_equal. exact IH. }
    unfold parseEnabledSources.
    destruct (isEmptyString (join "," pieces)) eqn:Hempty.
    - exfalso. destruct (join "," pieces) eqn:Hjoined; [|done].
      rewrite <- Hsplit in Hnamed. cbn in Hnamed.
      inversion Hnamed as [|? p ? ? [Hname _] Hrest]; subst.
      by destruct p.
    - rewrite Hsplit, Hparsed.
      destruct names; [done|reflexivity]. }
  split; [|split; [exact Hpadded|split; [|split; [|split; reflexivity]]]].
  - intros [raw|]; [|done]. unfold parseEnabledSources.
    destruct (isEmptyString raw); [done|].
    destruct (omap _ _) as [|p parsed]; done.
  - intros names Hne. apply Hpadded; [exact Hne|].
    clear Hne. induction names as [|p names IH]; constructor; [|exact IH].
    split; [by destruct p|].
    destruct p; apply (bool_decide_unpack _); vm_compute; exact I.
  - intros raw Hnone. unfold parseEnabledSources.
    destruct (isEmptyString raw); [reflexivity|].
    assert (Hparsed : omap sourceIdOfText
                        (map (fun value => toLowerCase (trim value)) (split "," raw)) = []).
    { induction Hnone as [|piece pieces Hpiece _ IH]; [reflexivity|].
      cbn [map omap list_omap]. by rewrite Hpiece. }
    by rewrite Hparsed.
Qed.

Lemma lowerChar_idem (c : ascii) : lowerChar (lowerChar c) = lowerChar c.
Proof. destruct c as [[] [] [] [] [] [] [] []]; vm_compute; reflexivity. Qed.

Lemma isWhiteSpace_lowerChar (c : ascii) : isWhiteSpace (lowerChar c) = isWhiteSpace c.
Proof. destruct c as [[] [] [] [] [] [] [] []]; vm_compute; reflexivity. Qed.

Lemma lowerChar_comma (c : ascii) : lowerChar c = ","%char -> c = ","%char.
Proof. destruct c as [[] [] [] [] [] [] [] []]; vm_compute; congruence. Qed.

Lemma toLowerCase_idem (s : string) : toLowerCase (toLowerCase s) = toLowerCase s.
Proof.
  unfold toLowerCase. rewrite listOfString_stringOfList, map_map.
  f_equal. apply map_ext. intros c. apply lowerChar_idem.
Qed.

Lemma dropWhile_lower (l : list ascii) :
  dropWhile isWhiteSpace (map lowerChar l) = map lowerChar (dropWhile isWhiteSpace l).
Proof.
  induction l as [|c l IH]; [reflexivity|].
  cbn [map dropWhile]. rewrite isWhiteSpace_lowerChar.
  destruct (isWhiteSpace c); [exact IH|reflexivity].
Qed.

(** Trimming and lower-casing commute. *)
Lemma trim_toLowerCase (s : string) : trim (toLowerCase s) = toLowerCase (trim s).
Proof.
  unfold trim, toLowerCase, trimList. rewrite !listOfString_stringOfList.
  f_equal. by rewrite dropWhile_lower, <- map_rev, dropWhile_lower, <- map_rev.
Qed.

Lemma dropWhile_elem {A} (p : A -> bool) (l : list A) (x : A) :
  x ∈ dropWhile p l -> x ∈ l.
Proof.
  induction l as [|y l IH]; [done|]. cbn [dropWhile].
  destruct (p y); [|done]. intros Hin. right. by apply IH.
Qed.

Lemma trimList_elem (l : list ascii) (c : ascii) : c ∈ trimList l -> c ∈ l.
Proof.
  unfold trimList. intros Hin.
  apply list_elem_of_In, in_rev, list_elem_of_In, dropWhile_elem in Hin.
  apply list_elem_of_In, in_rev, list_elem_of_In, dropWhile_elem in Hin.
  exact Hin.
Qed.

Lemma hostEntry_of_piece (piece : string) :
  ","%char ∉ listOfString piece ->
  isEmptyString (toLowerCase (trim piece)) = false ->
  isHostEntry (toLowerCase (trim piece)).
Proof.
  intros Hclean Hfull. split; [|split; [|split]].
  - intros Heq. by rewrite Heq in Hfull.
  - by rewrite trim_toLowerCase, trim_idem.
  - apply toLowerCase_idem.
  - intros Hin. apply Hclean. unfold toLowerCase, trim in Hin.
    rewrite !listOfString_stringOfList in Hin.
    apply list_elem_of_fmap in Hin as (c & Hc & Hin).
    symmetry in Hc. apply lowerChar_comma in Hc as ->.
    by apply trimList_elem.
Qed.

(** X20 (server/config.ts, parseHostAllowList): the allow list is the
    fallback, or a list of host entries: texts that are not empty, trimmed,
    in lower case and without a comma. It is empty only when the fallback
    is. A list of such entries, joined by commas, reads back unchanged. *)
Theorem parseHostAllowList_entries (fallback : list string) :
  (forall raw,
     parseHostAllowList raw fallback = fallback
     \/ (parseHostAllowList raw fallback <> []
         /\ Forall isHostEntry (parseHostAllowList raw fallback)))
  /\ (forall raw, fallback <> [] -> parseHostAllowList raw fallback <> [])
  /\ (forall hosts,
        hosts <> [] -> Forall isHostEntry hosts ->
        parseHostAllowList (Some (join "," hosts)) fallback = hosts).
Proof.
  assert (Hshape : forall raw,
            parseHostAllowList raw fallback = fallback
            \/ (parseHostAllowList raw fallback <> []
                /\ Forall isHostEntry (parseHostAllowList raw fallback))).
  { intros [text|]; [|by left]. unfold parseHostAllowList.
    destruct (isEmptyString text); [by left|].
    destruct (splitOn_pieces "," (listOfString text)) as [_ Hclean].
    assert (Hpieces : Forall (fun piece => ","%char ∉ listOfString piece) (split "," text)).
    { unfold split. apply Forall_fmap. eapply Forall_impl; [exact Hclean|].
      intros piece Hpiece. cbn. by rewrite listOfString_stringOfList. }
    set (parsed := filter _ _).
    assert (Hentries : Forall isHostEntry parsed).
    { subst parsed. apply Forall_forall. intros host Hhost.
      apply list_elem_of_filter in Hhost as [Hfull Hhost].
      apply list_elem_of_fmap in Hhost as (piece & -> & Hpiece).
      apply hostEntry_of_piece; [|exact Hfull].
      by apply (proj1 (Forall_forall _ _) Hpieces). }
    destruct parsed as [|host parsed']; [by left|]. right. by split. }
  split; [exact Hshape|]. split.
  - intros raw Hfallback. destruct (Hshape raw) as [->|[Hne _]]; done.
  - intros hosts Hne Hentries. unfold parseHostAllowList.
    assert (Hsplit : split "," (join "," hosts) = hosts).
    { apply split_join; [exact Hne|].
      eapply Forall_impl; [exact Hentries|]. by intros host (_ & _ & _ & Hclean). }
    assert (Hkept : filter (fun value => isEmptyString value = false)
                           (map (fun value => toLowerCase (trim value)) hosts) = hosts).
    { clear Hne Hsplit. induction Hentries as [|host hosts (Hfull & Htrim & Hlower & _) _ IH];
        [reflexivity|].
      cbn [map]. rewrite Htrim, Hlower.
      rewrite filter_cons_True by (by destruct host).
      f_equal. exact IH. }
    destruct (isEmptyString (join "," hosts)) eqn:Hempty.
    + exfalso. destruct (join "," hosts) eqn:Hjoined; [|done].
      assert (Hhosts : hosts = [""]) by (by rewrite <- Hsplit).
      rewrite Hhosts in Hentries.
      inversion Hentries as [|? ? (Hfull & _) _]. by apply Hfull.
    + rewrite Hsplit, Hkept. destruct hosts; [done|reflexivity].
Qed.

(* ----------------------------------------------------------------- *)
(** ** The worker pool *)

Lemma countIf_perm {A} (p : A -> bool) (l l' : list A) :
  l ≡ₚ l' -> countIf p l = countIf p l'.
Proof.
  induction 1 as [|x l l' _ IH|x y l|l l' l'' _ IH1 _ IH2]; cbn [countIf]; lia.
Qed.

Lemma countIf_le {A} (p : A -> bool) (l : list A) : countIf p l <= length l.
Proof. induction l as [|x l IH]; cbn [countIf length]; [lia|]. destruct (p x); lia. Qed.

Lemma countIf_none {A} (p : A -> bool) (l : list A) (x : A) :
  countIf p l = 0 -> x ∈ l -> p x = false.
Proof.
  induction l as [|y l IH]; [by intros _ Hin%elem_of_nil|].
  cbn [countIf]. intros Hcount [->|Hin]%elem_of_cons.
  - destruct (p y); [lia|reflexivity].
  - apply IH; [lia|exact Hin].
Qed.

Lemma countIf_replicate {R} (n : nat) : countIf (@isFilled R) (replicate n None) = 0.
Proof. induction n as [|n IH]; [reflexivity|]. cbn [replicate countIf isFilled]. lia. Qed.

Lemma countIf_fill {R} (slots : list (option R)) (i : nat) (result : R) :
  slots !! i = Some None ->
  countIf isFilled (<[i := Some result]> slots) = S (countIf isFilled slots).
Proof.
  revert i. induction slots as [|slot slots IH]; intros [|i] Hslot; try done.
  - cbn in Hslot. injection Hslot as ->. reflexivity.
  - change (<[S i := Some result]> (slot :: slots))
      with (slot :: <[i := Some result]> slots).
    cbn [countIf]. rewrite (IH i Hslot). lia.
Qed.

Lemma insert_others {A} (l : list A) (w : nat) (old new : A) :
  l !! w = Some old ->
  l ≡ₚ old :: delete w l /\ <[w := new]> l ≡ₚ new :: delete w l.
Proof.
  intros Hw. split; [by apply delete_Permutation|].
  rewrite insert_take_drop by (by eapply lookup_lt_Some).
  rewrite delete_take_drop. by rewrite Permutation_middle.
Qed.

Section PoolProperties.
Context {T R : Type}.
Variable values : list T.
Variable respond : nat -> MapperOutcome R.

Lemma poolInv_perm (pool : Pool T R) (W W' : list Worker) :
  W ≡ₚ W' -> poolInv values respond pool W -> poolInv values respond pool W'.
Proof.
  intros Hperm [H1 H2 H3 H4 H5 H6 H7 H8 H9 H10 H11]. constructor; try assumption.
  - intros i Hi. destruct (H5 i Hi) as [Ha|[Hr|(reason & Hq & Hf)]].
    + left. by rewrite <- Hperm.
    + right. by left.
    + right. right. exists reason. split; [done|]. by rewrite <- Hperm.
  - intros i Hi. apply H6. by rewrite Hperm.
  - by rewrite <- Hperm.
  - intros Hd. apply H8. by rewrite Hperm.
  - intros Hf reason Hin. apply (H9 Hf reason). by rewrite Hperm.
  - by rewrite <- (countIf_perm isAwaiting _ _ Hperm), <- (countIf_perm isFailed _ _ Hperm).
Qed.

Lemma poolInv_withWorkers (pool : Pool T R) (ws W : list Worker) :
  poolInv values respond pool W -> poolInv values respond (withWorkers ws pool) W.
Proof. intros [H1 H2 H3 H4 H5 H6 H7 H8 H9 H10 H11]. by constructor. Qed.

(** A worker going round its loop keeps the invariant. *)
Lemma claim_inv (pool : Pool T R) (W : list Worker) :
  poolInv values respond pool W ->
  poolInv values respond (claim values pool).2 ((claim values pool).1 :: W).
Proof.
  intros [H1 H2 H3 H4 H5 H6 H7 H8 H9 H10 H11]. unfold claim.
  destruct (Nat.ltb_spec (nextIndex pool) (length values)) as [Hlt|Hge]; cbn [fst snd].
  - constructor; cbn [nextIndex results mapperCalls failure].
    + exact H1.
    + lia.
    + by rewrite Nat.add_1_r, seq_S, map_app, <- H3.
    + intros i Hi Hn. apply H4; lia.
    + intros i Hi. destruct (decide (i = nextIndex pool)) as [->|Hne].
      * left. left.
      * destruct (H5 i ltac:(lia)) as [Ha|[Hr|(reason & Hq & Hf)]].
        -- left. by right.
        -- right. by left.
        -- right. right. exists reason. split; [done|]. by right.
    + intros i [Heq|Hin]%elem_of_cons.
      * injection Heq as ->. split; [lia|]. apply H4; lia.
      * destruct (H6 i Hin) as [Hi Hslot]. split; [lia|done].
    + cbn [omap list_omap awaited]. apply NoDup_cons. split; [|exact H7].
      intros Hin. apply list_elem_of_omap in Hin as (worker & Hw & Ha).
      destruct worker; try discriminate. injection Ha as ->.
      destruct (H6 _ Hw) as [Hi _]. lia.
    + intros [Heq|Hin]%elem_of_cons; [discriminate|]. specialize (H8 Hin). lia.
    + intros Hf reason [Heq|Hin]%elem_of_cons; [discriminate|]. by apply (H9 Hf reason).
    + intros reason Hf. destruct (H10 reason Hf) as (i & Hi & Hr).
      exists i. split; [lia|done].
    + cbn [countIf isAwaiting isFailed]. lia.
  - constructor; try assumption.
    + intros i Hi. destruct (H5 i Hi) as [Ha|[Hr|(reason & Hq & Hf)]].
      * left. by right.
      * right. by left.
      * right. right. exists reason. split; [done|]. by right.
    + intros i [Heq|Hin]%elem_of_cons; [discriminate|]. by apply H6.
    + intros _. lia.
    + intros Hf reason [Heq|Hin]%elem_of_cons; [discriminate|]. by apply (H9 Hf reason).
Qed.

(** Storing the result that a worker awaited keeps the invariant for the
    other workers. *)
Lemma fill_inv (pool : Pool T R) (W : list Worker) (i : nat) (result : R) :
  poolInv values respond pool (Awaiting i :: W) ->
  respond i = Resolves result ->
  poolInv values respond
    {| nextIndex := nextIndex pool;
       results := <[i := Some result]> (results pool);
       workers := workers pool;
       mapperCalls := mapperCalls pool;
       failure := failure pool |} W.
Proof.
  intros [H1 H2 H3 H4 H5 H6 H7 H8 H9 H10 H11] Hresolves.
  destruct (H6 i ltac:(left)) as [Hi Hslot].
  cbn [omap list_omap awaited] in H7. apply NoDup_cons in H7 as [Hfresh H7].
  assert (Hother : forall j, Awaiting j ∈ W -> j <> i).
  { intros j Hj ->. apply Hfresh. apply list_elem_of_omap. by exists (Awaiting i). }
  constructor; cbn [nextIndex results mapperCalls failure]; try assumption.
  - by rewrite length_insert.
  - intros j Hj Hn. rewrite list_lookup_insert_ne by lia. by apply H4.
  - intros j Hj. destruct (decide (j = i)) as [->|Hne].
    + right. left. exists result. split; [done|].
      apply list_lookup_insert_eq. by eapply lookup_lt_Some.
    + destruct (H5 j Hj) as [Ha|[(r & Hr & Hs)|(reason & Hq & Hf)]].
      * left. apply elem_of_cons in Ha as [Heq|Ha]; [congruence|done].
      * right. left. exists r. split; [done|]. by rewrite list_lookup_insert_ne.
      * right. right. exists reason. split; [done|].
        apply elem_of_cons in Hf as [Heq|Hf]; [discriminate|done].
  - intros j Hj. destruct (H6 j ltac:(by right)) as [Hlt Hs]. split; [done|].
    rewrite list_lookup_insert_ne; [done|]. intros Heq. by apply (Hother j Hj).
  - intros Hd. apply H8. by right.
  - intros Hf reason Hin. apply (H9 Hf reason). by right.
  - rewrite (countIf_fill _ _ _ Hslot). cbn [countIf isAwaiting isFailed] in H11. lia.
Qed.

(** A rejected promise fails its worker and keeps the invariant. *)
Lemma reject_inv (pool : Pool T R) (W : list Worker) (i : nat) (reason : RejectionReason) :
  poolInv values respond pool (Awaiting i :: W) ->
  respond i = Rejects reason ->
  poolInv values respond
    {| nextIndex := nextIndex pool;
       results := results pool;
       workers := workers pool;
       mapperCalls := mapperCalls pool;
       failure := match failure pool with
                  | Some first => Some first
                  | None => Some reason
                  end |} (WorkerFailed reason :: W).
Proof.
  intros [H1 H2 H3 H4 H5 H6 H7 H8 H9 H10 H11] Hrejects.
  destruct (H6 i ltac:(left)) as [Hi Hslot].
  cbn [omap list_omap awaited] in H7. apply NoDup_cons in H7 as [Hfresh H7].
  constructor; cbn [nextIndex results mapperCalls failure]; try assumption.
  - intros j Hj. destruct (decide (j = i)) as [->|Hne].
    + right. right. exists reason. split; [done|]. left.
    + destruct (H5 j Hj) as [Ha|[Hr|(reason' & Hq & Hf)]].
      * left. right. apply elem_of_cons in Ha as [Heq|Ha]; [congruence|done].
      * right. by left.
      * right. right. exists reason'. split; [done|]. right.
        apply elem_of_cons in Hf as [Heq|Hf]; [discriminate|done].
  - intros j [Heq|Hj]%elem_of_cons; [discriminate|]. apply H6. by right.
  - intros [Heq|Hd]%elem_of_cons; [discriminate|]. apply H8. by right.
  - by destruct (failure pool).
  - intros first Hfirst. destruct (failure pool) as [first'|] eqn:Hf.
    + injection Hfirst as ->. by apply H10.
    + injection Hfirst as <-. by exists i.
  - cbn [countIf isAwaiting isFailed] in H11 |- *. lia.
Qed.

Lemma claim_workers (pool : Pool T R) : workers (claim values pool).2 = workers pool.
Proof. unfold claim. by destruct (nextIndex pool <? length values). Qed.

(** The invariant of a pool with its own workers is kept by a settling
    promise. *)
Lemma settle_inv (w : nat) (pool : Pool T R) :
  poolInv values respond pool (workers pool) ->
  poolInv values respond (settle values respond w pool) (workers (settle values respond w pool)).
Proof.
  intros Hinv. unfold settle.
  destruct (workers pool !! w) as [[i| |reason]|] eqn:Hw; try exact Hinv.
  destruct (insert_others (workers pool) w (Awaiting i) WorkerDone Hw) as [Hold _].
  apply (poolInv_perm _ _ _ Hold) in Hinv.
  destruct (respond i) as [result|reason] eqn:Hrespond.
  - pose proof (claim_inv _ _ (fill_inv _ _ _ _ Hinv Hrespond)) as Hnext.
    set (filled := {| nextIndex := nextIndex pool |}) in *.
    pose proof (claim_workers filled) as Hworkers.
    destruct (claim values filled) as [worker pool'] eqn:Hclaim.
    cbn [fst snd] in Hnext, Hworkers.
    cbn [withWorkers workers]. apply poolInv_withWorkers.
    eapply poolInv_perm; [|exact Hnext].
    rewrite Hworkers. subst filled. cbn [workers].
    symmetry. by apply (insert_others (workers pool) w (Awaiting i) worker Hw).
  - pose proof (reject_inv _ _ _ _ Hinv Hrespond) as Hnext.
    cbn [workers].
    destruct Hnext as [H1 H2 H3 H4 H5 H6 H7 H8 H9 H10 H11].
    assert (Hperm : WorkerFailed reason :: delete w (workers pool)
                    ≡ₚ <[w := WorkerFailed reason]> (workers pool))
      by (symmetry; by apply (insert_others (workers pool) w (Awaiting i) _ Hw)).
    apply (poolInv_perm _ _ _ Hperm). by constructor.
Qed.

Lemma settleAll_inv (schedule : list nat) (pool : Pool T R) :
  poolInv values respond pool (workers pool) ->
  poolInv values respond (settleAll values respond schedule pool)
          (workers (settleAll values respond schedule pool)).
Proof.
  revert pool. induction schedule as [|w schedule IH]; intros pool Hinv; [exact Hinv|].
  apply IH. by apply settle_inv.
Qed.

Lemma startWorkers_inv (size : nat) (pool : Pool T R) :
  poolInv values respond pool (workers pool) ->
  poolInv values respond (startWorkers values size pool)
          (workers (startWorkers values size pool)).
Proof.
  revert pool. induction size as [|size IH]; intros pool Hinv; [exact Hinv|].
  cbn [startWorkers].
  pose proof (claim_inv _ _ Hinv) as Hnext.
  pose proof (claim_workers pool) as Hworkers.
  destruct (claim values pool) as [worker pool'] eqn:Hclaim.
  cbn [fst snd] in Hnext, Hworkers.
  apply IH. cbn [withWorkers workers]. apply poolInv_withWorkers.
  eapply poolInv_perm; [|exact Hnext].
  rewrite Hworkers. by rewrite Permutation_cons_append.
Qed.

Lemma start_inv (concurrency : float) :
  poolInv values respond (mapWithConcurrency_start values concurrency)
          (workers (mapWithConcurrency_start (R := R) values concurrency)).
Proof.
  apply startWorkers_inv. constructor; cbn.
  - apply length_replicate.
  - lia.
  - reflexivity.
  - intros i _ Hi. by apply lookup_replicate_2.
  - intros i Hi. lia.
  - by intros i Hin%elem_of_nil.
  - constructor.
  - by intros Hin%elem_of_nil.
  - by intros _ reason Hin%elem_of_nil.
  - done.
  - by rewrite countIf_replicate.
Qed.

Lemma startWorkers_length (size : nat) (pool : Pool T R) :
  length (workers (startWorkers values size pool)) = length (workers pool) + size.
Proof.
  revert pool. induction size as [|size IH]; intros pool; [cbn; lia|].
  cbn [startWorkers]. pose proof (claim_workers pool) as Hworkers.
  destruct (claim values pool) as [worker pool'].
  rewrite IH. cbn [withWorkers workers fst snd] in *.
  rewrite length_app, Hworkers. cbn. lia.
Qed.

Lemma settle_length (w : nat) (pool : Pool T R) :
  length (workers (settle values respond w pool)) = length (workers pool).
Proof.
  unfold settle. destruct (workers pool !! w) as [[i| |reason]|]; try reflexivity.
  destruct (respond i) as [result|reason].
  - set (filled := {| nextIndex := nextIndex pool |}).
    pose proof (claim_workers filled) as Hworkers.
    destruct (claim values filled) as [worker pool'].
    cbn [withWorkers workers fst snd] in *.
    by rewrite length_insert, Hworkers.
  - cbn [workers]. by rewrite length_insert.
Qed.

Lemma settleAll_length (schedule : list nat) (pool : Pool T R) :
  length (workers (settleAll values respond schedule pool)) = length (workers pool).
Proof.
  revert pool. induction schedule as [|w schedule IH]; intros pool; [reflexivity|].
  cbn [settleAll fold_left]. change (fold_left _ schedule ?p) with (settleAll values respond schedule p).
  by rewrite IH, settle_length.
Qed.

Lemma settleAll_idle (schedule : list nat) (pool : Pool T R) :
  workers pool = [] -> settleAll values respond schedule pool = pool.
Proof.
  intros Hidle. induction schedule as [|w schedule IH]; [reflexivity|].
  cbn [settleAll fold_left]. unfold settle at 2. rewrite Hidle. exact IH.
Qed.

Lemma settle_resolved (w i : nat) (result : R) (pool : Pool T R) :
  workers pool !! w = Some (Awaiting i) ->
  respond i = Resolves result ->
  failure (settle values respond w pool) = failure pool
  /\ results (settle values respond w pool) = <[i := Some result]> (results pool).
Proof.
  intros Hw Hrespond. unfold settle. rewrite Hw, Hrespond.
  unfold claim. cbn [nextIndex].
  by destruct (nextIndex pool <? length values).
Qed.

(** While every promise is fulfilled, each settling promise fills one
    more slot. *)
Lemma settleAll_filled (schedule : list nat) (pool : Pool T R) :
  poolInv values respond pool (workers pool) ->
  failure pool = None ->
  (forall i, i < length values -> exists result, respond i = Resolves result) ->
  awaitsEach values respond schedule pool = true ->
  failure (settleAll values respond schedule pool) = None
  /\ countIf isFilled (results (settleAll values respond schedule pool))
     = countIf isFilled (results pool) + length schedule.
Proof.
  intros Hinv Hfailure Hresolve. revert pool Hinv Hfailure.
  induction schedule as [|w schedule IH]; intros pool Hinv Hfailure Hvalid.
  - cbn. split; [exact Hfailure|lia].
  - cbn [awaitsEach] in Hvalid.
    destruct (workers pool !! w) as [[i| |reason]|] eqn:Hw; try discriminate.
    destruct (inv_awaiting _ _ _ _ Hinv i) as [Hi Hslot];
      [by eapply list_elem_of_lookup_2|].
    destruct (Hresolve i) as [result Hrespond];
      [pose proof (inv_next _ _ _ _ Hinv); lia|].
    destruct (settle_resolved w i result pool Hw Hrespond) as [Hf Hr].
    destruct (IH (settle values respond w pool)) as [Hnone Hcount].
    + by apply settle_inv.
    + by rewrite Hf.
    + exact Hvalid.
    + split; [exact Hnone|].
      cbn [settleAll fold_left length].
      change (fold_left _ schedule ?p) with (settleAll values respond schedule p).
      rewrite Hcount, Hr, (countIf_fill _ _ _ Hslot). lia.
Qed.

(** Once every worker has returned, each slot holds what the promise for
    its index was fulfilled with. *)
Lemma fulfilled_slots (pool : Pool T R) :
  poolInv values respond pool (workers pool) ->
  1 <= length (workers pool) ->
  forallb isDone (workers pool) = true ->
  nextIndex pool = length values
  /\ Forall2 (fun i slot => exists result, respond i = Resolves result /\ slot = Some result)
             (seq 0 (length values)) (results pool).
Proof.
  intros Hinv Hsize Hdone.
  assert (Hall : forall worker, worker ∈ workers pool -> worker = WorkerDone).
  { intros worker Hin. apply list_elem_of_In in Hin.
    pose proof (proj1 (forallb_forall _ _) Hdone worker Hin) as Hworker.
    by destruct worker. }
  assert (Hnext : nextIndex pool = length values).
  { apply (inv_done _ _ _ _ Hinv).
    destruct (workers pool) as [|worker others] eqn:Hworkers; [cbn in Hsize; lia|].
    rewrite <- (Hall worker); left. }
  split; [exact Hnext|].
  apply Forall2_same_length_lookup_2.
  - by rewrite length_seq, (inv_length _ _ _ _ Hinv).
  - intros k i slot Hi Hslot. apply lookup_seq in Hi as [-> Hk]. cbn.
    destruct (inv_claimed _ _ _ _ Hinv k) as [Ha|[(result & Hr & Hs)|(reason & _ & Hf)]];
      [lia| | |].
    + by apply Hall in Ha.
    + exists result. split; [exact Hr|]. congruence.
    + by apply Hall in Hf.
Qed.

Lemma none_failed (W : list Worker) :
  (forall reason, WorkerFailed reason ∉ W) -> countIf isFailed W = 0.
Proof.
  induction W as [|worker W IH]; intros Hnone; [reflexivity|].
  cbn [countIf]. rewrite IH by (intros reason Hin; apply (Hnone reason); by right).
  destruct worker as [i| |reason]; try reflexivity.
  exfalso. apply (Hnone reason). left.
Qed.

Lemma all_done (W : list Worker) :
  countIf isAwaiting W = 0 -> countIf isFailed W = 0 -> forallb isDone W = true.
Proof.
  induction W as [|worker W IH]; [reflexivity|].
  cbn [countIf forallb]. destruct worker as [i| |reason]; cbn; try lia.
  intros Ha Hf. by apply IH.
Qed.

Lemma done_counts (W : list Worker) :
  forallb isDone W = true -> countIf isAwaiting W = 0 /\ countIf isFailed W = 0.
Proof.
  induction W as [|worker W IH]; [done|].
  cbn [countIf forallb]. destruct worker as [i| |reason]; cbn; try discriminate.
  exact IH.
Qed.

Lemma some_awaiting (W : list Worker) :
  forallb isDone W = false -> countIf isFailed W = 0 ->
  exists w i, W !! w = Some (Awaiting i).
Proof.
  induction W as [|worker W IH]; [discriminate|].
  cbn [countIf forallb]. destruct worker as [i| |reason]; cbn; try lia.
  - intros _ _. by exists 0, i.
  - intros Hd Hf. destruct (IH Hd Hf) as (w & i & Hw). by exists (S w), i.
Qed.

End PoolProperties.

Section PoolTheorems.
Context {T R : Type}.
Variable values : list T.
Variable respond : nat -> MapperOutcome R.

(** X21 (server/lib/concurrency.ts, mapWithConcurrency): in whatever
    order the mapper's promises settle, the pool has as many workers as
    the size computed from the concurrency, so no more promises than that
    are awaited at a time; the mapper is called once for each index
    below [nextIndex], in increasing order, with the value at that index.
    When the call is fulfilled by at least one worker, the mapper has
    been called for every value and the result holds, at each index, what
    the promise for that index was fulfilled with. When the call is
    rejected, it is with the rejection of a promise the mapper returned.
    With no worker at all, as for a concurrency that is not a number, the
    call is fulfilled at once with an array of unassigned slots and the
    mapper is never called. *)
Theorem mapWithConcurrency_results_in_order (concurrency : float) (schedule : list nat) :
  let size := workerCount concurrency (length values) in
  let pool := settleAll values respond schedule
                (mapWithConcurrency_start values concurrency) in
  length (workers pool) = size
  /\ countIf isAwaiting (workers pool) <= size
  /\ nextIndex pool <= length values
  /\ mapperCalls pool = map (fun i => (values !! i, i)) (seq 0 (nextIndex pool))
  /\ (forall value,
        mapWithConcurrency_outcome pool = PoolFulfilled value ->
        1 <= size ->
        nextIndex pool = length values
        /\ Forall2 (fun i slot =>
                      exists result, respond i = Resolves result /\ slot = Some result)
                   (seq 0 (length values)) value)
  /\ (forall reason,
        mapWithConcurrency_outcome pool = PoolRejected reason ->
        exists i, i < nextIndex pool /\ respond i = Rejects reason)
  /\ (size = 0 ->
        mapWithConcurrency_outcome pool = PoolFulfilled (replicate (length values) None)
        /\ mapperCalls pool = [])
  /\ (PrimFloat.is_nan concurrency = true -> size = 0).
Proof.
  intros size pool.
  assert (Hinv : poolInv values respond pool (workers pool))
    by (apply settleAll_inv, start_inv).
  assert (Hlength : length (workers pool) = size).
  { subst pool. rewrite settleAll_length. unfold mapWithConcurrency_start.
    by rewrite startWorkers_length. }
  split; [exact Hlength|]. split.
  { rewrite <- Hlength. apply countIf_le. }
  split; [exact (inv_next _ _ _ _ Hinv)|].
  split; [exact (inv_calls _ _ _ _ Hinv)|].
  split; [|split; [|split]].
  - intros value Houtcome Hsize. unfold mapWithConcurrency_outcome in Houtcome.
    destruct (failure pool); [discriminate|].
    destruct (forallb isDone (workers pool)) eqn:Hdone; [|discriminate].
    injection Houtcome as <-. apply fulfilled_slots; [exact Hinv|lia|exact Hdone].
  - intros reason Houtcome. unfold mapWithConcurrency_outcome in Houtcome.
    destruct (failure pool) as [first|] eqn:Hfailure.
    + injection Houtcome as ->. by apply (inv_rejected _ _ _ _ Hinv).
    + by destruct (forallb isDone (workers pool)).
  - intros Hnone. subst pool. unfold mapWithConcurrency_start.
    fold size. rewrite Hnone. cbn [startWorkers].
    by rewrite settleAll_idle.
  - intros Hnan. subst size. unfold workerCount, Math_min. rewrite Hnan. reflexivity.
Qed.

(** X22 (server/lib/concurrency.ts, mapWithConcurrency): when every
    promise the mapper returns is fulfilled and the pool has a worker, the
    call is fulfilled after exactly as many promises have settled as there
    are values, in whatever order they settle: until then the call is
    pending and some worker awaits a promise, and then every worker has
    returned and every slot holds the result for its index. *)
Theorem mapWithConcurrency_completes (concurrency : float) (schedule : list nat) :
  1 <= workerCount concurrency (length values) ->
  (forall i, i < length values -> exists result, respond i = Resolves result) ->
  awaitsEach values respond schedule (mapWithConcurrency_start values concurrency) = true ->
  let pool := settleAll values respond schedule
                (mapWithConcurrency_start values concurrency) in
  length schedule <= length values
  /\ (length schedule < length values ->
        mapWithConcurrency_outcome pool = PoolPending
        /\ exists w i, workers pool !! w = Some (Awaiting i))
  /\ (length schedule = length values ->
        mapWithConcurrency_outcome pool = PoolFulfilled (results pool)
        /\ Forall2 (fun i slot =>
                      exists result, respond i = Resolves result /\ slot = Some result)
                   (seq 0 (length values)) (results pool)).
Proof.
  intros Hsize Hresolve Hvalid pool.
  assert (Hinv : poolInv values respond pool (workers pool))
    by (apply settleAll_inv, start_inv).
  assert (Hlength : length (workers pool) = workerCount concurrency (length values)).
  { subst pool. rewrite settleAll_length. unfold mapWithConcurrency_start.
    by rewrite startWorkers_length. }
  assert (Hstart : failure (mapWithConcurrency_start (R := R) values concurrency) = None
                   /\ countIf isFilled
                        (results (mapWithConcurrency_start (R := R) values concurrency)) = 0).
  { unfold mapWithConcurrency_start.
    generalize (workerCount concurrency (length values)). intros size.
    assert (Hgen : forall p : Pool T R,
              failure (startWorkers values size p) = failure p
              /\ results (startWorkers values size p) = results p).
    { induction size as [|size IH]; intros p; [done|].
      cbn [startWorkers]. unfold claim.
      destruct (nextIndex p <? length values);
        (match goal with
         | |- context [startWorkers values size ?q] => destruct (IH q) as [-> ->]
         end; done). }
    destruct (Hgen {| nextIndex := 0; results := replicate (length values) None;
                      workers := []; mapperCalls := []; failure := None |}) as [-> ->].
    split; [reflexivity|]. apply countIf_replicate. }
  destruct Hstart as [Hnone Hempty].
  destruct (settleAll_filled values respond schedule _ (start_inv values respond concurrency)
              Hnone Hresolve Hvalid) as [Hfailure Hfilled].
  fold pool in Hfailure, Hfilled. rewrite Hempty in Hfilled. cbn in Hfilled.
  pose proof (countIf_le isFilled (results pool)) as Hbound.
  rewrite (inv_length _ _ _ _ Hinv) in Hbound.
  pose proof (inv_count _ _ _ _ Hinv) as Hcount.
  pose proof (inv_next _ _ _ _ Hinv) as Hnext.
  pose proof (none_failed _ (inv_failure _ _ _ _ Hinv Hfailure)) as Hfailed.
  split; [lia|]. split.
  - intros Hearly.
    assert (Hdone : forallb isDone (workers pool) = false).
    { destruct (forallb isDone (workers pool)) eqn:Hdone; [|reflexivity].
      exfalso. destruct (done_counts _ Hdone) as [Hawaiting _].
      destruct (fulfilled_slots values respond pool Hinv ltac:(lia) Hdone) as [Hall _].
      lia. }
    split; [|by apply some_awaiting].
    unfold mapWithConcurrency_outcome. by rewrite Hfailure, Hdone.
  - intros Hall.
    assert (Hdone : forallb isDone (workers pool) = true) by (apply all_done; lia).
    split.
    + unfold mapWithConcurrency_outcome. by rewrite Hfailure, Hdone.
    + apply fulfilled_slots; [exact Hinv|lia|exact Hdone].
Qed.

End PoolTheorems.

(** The theorem on three addresses and two workers, the second worker's
    promise settling first: after three settlements the call is fulfilled
    with the three results in the order of the addresses. *)
Lemma mapWithConcurrency_completes_witness :
  let pool := settleAll threeUrls fetched [1; 0; 1]
                (mapWithConcurrency_start threeUrls 2) in
  workerCount 2 (length threeUrls) = 2
  /\ mapWithConcurrency_outcome pool
     = PoolFulfilled [Some "item-0"; Some "item-1"; Some "item-2"]
  /\ mapperCalls pool = [(Some "a", 0); (Some "b", 1); (Some "c", 2)].
Proof.
  intros pool.
  destruct (mapWithConcurrency_completes threeUrls fetched 2 [1; 0; 1])
    as (_ & _ & Hdone).
  - vm_compute. lia.
  - intros i _. by eexists.
  - vm_compute. reflexivity.
  - split; [vm_compute; reflexivity|]. split; [|vm_compute; reflexivity].
    destruct (Hdone eq_refl) as [Houtcome _]. fold pool in Houtcome.
    rewrite Houtcome. vm_compute. reflexivity.
Defined.

(* ----------------------------------------------------------------- *)
(** ** Dataset versions *)

Lemma last_greatest {A} (R : A -> A -> Prop) (l : list A) (v : A) :
  StronglySorted R l -> last l = Some v -> forall u, u ∈ l -> u = v \/ R u v.
Proof.
  induction 1 as [|x l Hsorted IH Hall]; intros Hlast u Hin; [by apply elem_of_nil in Hin|].
  destruct l as [|y l].
  - cbn in Hlast. injection Hlast as <-. left.
    apply elem_of_cons in Hin as [->|Hin]; [reflexivity|by apply elem_of_nil in Hin].
  - change (last (x :: y :: l)) with (last (y :: l)) in Hlast.
    apply elem_of_cons in Hin as [->|Hin]; [|by apply IH].
    right. apply (proj1 (List.Forall_forall _ _) Hall).
    by apply list_elem_of_In, last_Some_elem_of.
Qed.

Section Versions.
Context {P : Platform}.

Lemma defaultOrder_flip (a b : JsonValue) :
  (0 < defaultOrder a b)%Z -> (defaultOrder b a < 0)%Z.
Proof.
  unfold defaultOrder. rewrite (String.compare_antisym (jsString b)).
  destruct (String.compare (jsString a) (jsString b)); cbn; lia.
Qed.

Lemma defaultOrder_trans (a b c : JsonValue) :
  (defaultOrder a b <= 0)%Z -> (defaultOrder b c <= 0)%Z -> (defaultOrder a c <= 0)%Z.
Proof.
  unfold defaultOrder.
  pose proof (String_compare_trans (jsString a) (jsString b) (jsString c)) as Htrans.
  destruct (String.compare (jsString a) (jsString b));
    destruct (String.compare (jsString b) (jsString c));
    destruct (String.compare (jsString a) (jsString c));
    try lia; intros _ _; exfalso; by apply Htrans.
Qed.

(** X23 (server/connectors/ardb.ts and metaforge.ts, pickVersion): the
    version of a dataset is the greatest update time among its items, in
    the order of the code units of the times' strings, and the text
    unknown when no item has a time that counts as true. An item that is
    [null] makes the function throw, whatever the other items hold. *)
Theorem pickVersion_latest (field : string) (items : list JsonValue) :
  (JNull ∈ items -> exists error, pickVersion field items = Thrown error)
  /\ (JNull ∉ items ->
      exists version,
        pickVersion field items = Returned version
        /\ ((version = JString "unknown"
             /\ forall item, item ∈ items -> truthy (getProp (Some item) field) = false)
            \/ ((exists item, item ∈ items /\ getProp (Some item) field = Some version)
                /\ truthy (Some version) = true
                /\ forall item time,
                     item ∈ items ->
                     getProp (Some item) field = Some time ->
                     truthy (Some time) = true ->
                     String.compare (jsString time) (jsString version) <> Gt))).
Proof.
  unfold pickVersion. split.
  - intros Hnull.
    assert (Hsome : existsb isNull items = true).
    { apply existsb_exists. exists JNull. split; [by apply list_elem_of_In|reflexivity]. }
    rewrite Hsome. by eexists.
  - intros Hclean.
    assert (Hnone : existsb isNull items = false).
    { destruct (existsb isNull items) eqn:Hsome; [|reflexivity].
      apply existsb_exists in Hsome as (item & Hin & Hitem).
      destruct item; try discriminate. exfalso. by apply Hclean, list_elem_of_In. }
    rewrite Hnone.
    set (kept := omap (fun value => if truthy value then value else None)
                      (map (fun item => getProp (Some item) field) items)).
    assert (Hkept : forall time,
              time ∈ kept
              <-> truthy (Some time) = true
                  /\ exists item, item ∈ items /\ getProp (Some item) field = Some time).
    { intros time. unfold kept. rewrite list_elem_of_omap. split.
      - intros (value & Hvalue & Htime).
        apply list_elem_of_fmap in Hvalue as (item & -> & Hitem).
        destruct (truthy (getProp (Some item) field)) eqn:Htruthy; [|discriminate].
        rewrite Htime in Htruthy. split; [exact Htruthy|]. by exists item.
      - intros (Htruthy & item & Hitem & Htime).
        exists (Some time). split; [|by rewrite Htruthy].
        apply list_elem_of_fmap. by exists item. }
    pose proof (arraySort_perm defaultOrder kept) as Hperm.
    pose proof (arraySort_strongly_sorted defaultOrder defaultOrder_flip defaultOrder_trans kept)
      as Hsorted.
    destruct (last (arraySort defaultOrder kept)) as [latest|] eqn:Hlast.
    + exists latest. split; [reflexivity|]. right.
      assert (Hin : latest ∈ kept) by (rewrite <- Hperm; by apply last_Some_elem_of).
      apply Hkept in Hin as [Htruthy Hitem].
      split; [exact Hitem|]. split; [exact Htruthy|].
      intros item time Hitem' Htime Htruthy'.
      assert (Hin : time ∈ arraySort defaultOrder kept).
      { rewrite Hperm. apply Hkept. split; [exact Htruthy'|]. by exists item. }
      destruct (last_greatest _ _ _ Hsorted Hlast time Hin) as [->|Hle].
      * by rewrite String_compare_refl.
      * unfold mayPrecede, defaultOrder in Hle.
        destruct (String.compare (jsString time) (jsString latest)); [done|done|lia].
    + exists (JString "unknown"). split; [reflexivity|]. left. split; [reflexivity|].
      apply last_None in Hlast. rewrite Hlast in Hperm.
      symmetry in Hperm. apply Permutation_nil_r in Hperm.
      intros item Hitem.
      destruct (truthy (getProp (Some item) field)) eqn:Htruthy; [|reflexivity].
      exfalso. destruct (getProp (Some item) field) as [time|] eqn:Htime; [|discriminate].
      assert (Hin : time ∈ kept) by (apply Hkept; split; [exact Htruthy|by exists item]).
      rewrite Hperm in Hin. by apply elem_of_nil in Hin.
Qed.

End Versions.

(* ----------------------------------------------------------------- *)
(** ** When the store is refreshed *)

Lemma is_nan_SF (x : float) : PrimFloat.is_nan x = true -> Prim2SF x = S754_nan.
Proof.
  unfold PrimFloat.is_nan. rewrite FloatAxioms.eqb_spec. unfold SFeqb.
  sf_destruct (Prim2SF x); try done; cbn;
    rewrite ?Z.compare_refl, ?Pos.compare_refl; cbn; done.
Qed.

Lemma leb_minus_nan (a b x : float) :
  PrimFloat.is_nan x = true -> (a <=? b - x)%float = false.
Proof.
  intros Hnan%is_nan_SF.
  rewrite FloatAxioms.leb_spec, FloatAxioms.sub_spec, Hnan.
  unfold SF64sub, SFsub, SFleb.
  by destruct (Prim2SF b), (Prim2SF a).
Qed.

Section Refresh.
Context {P : Platform}.

(** X24 (server/services/metaforgeStore.ts, ensureFreshMetaForgeSnapshot
    and buildMetaForgeDataFromStore), with no transaction open.  A store
    whose stored time of the last sync does not parse as a date is never
    stale.  While the store is not stale, the connector's answer plays no
    part in the outcome.  A rejected fetch never changes the tables, and
    once the store is stale and no fault of the engine is under way the
    read path throws the rejection: the stored snapshot is not served.  Once
    the store is stale and the read path returns on a fetch, the tables are
    those of that fetch and the response's summary carries its time and
    its version; with no fault under way it does return, as long as no id
    of the fetch is repeated. *)
Theorem stale_store_is_refreshed (nowMs syncIntervalMs fuzzyMatchThreshold : float)
    (clock : nat -> string) (store : Store) :
  transaction (database store) = None ->
  let before := committed (database store) in
  let stale := isStale nowMs syncIntervalMs (metaforge_sync_state before) in
  let ask fetched :=
    buildMetaForgeDataFromStore nowMs syncIntervalMs fuzzyMatchThreshold clock fetched store
  in
  (forall state,
     metaforge_sync_state before = Some state ->
     PrimFloat.is_nan (dateToMs (last_synced_at state)) = true ->
     stale = false)
  /\ (stale = false -> forall fetched fetched', ask fetched = ask fetched')
  /\ (forall reason, committed (database (ask (FetchRejected reason)).2) = before)
  /\ (stale = true -> faultAfter (database store) = None ->
      forall reason, (ask (FetchRejected reason)).1 = Thrown (reasonMessage reason))
  /\ (stale = true ->
      forall fetchResult r store',
        ask (FetchFulfilled fetchResult) = (Returned r, store') ->
        committed (database store') = syncedTables fetchResult
        /\ generatedAt r = clock 0
        /\ exists s, sourceSummaries r = [s]
                     /\ summary_fetchedAt s = fetch_fetchedAt fetchResult
                     /\ summary_versionOrCommit s = fetch_versionOrCommit fetchResult)
  /\ (stale = true -> faultAfter (database store) = None ->
      forall fetchResult,
        NoDup (omap storedId (rawItemsOf fetchResult)) ->
        exists r store', ask (FetchFulfilled fetchResult) = (Returned r, store')).
Proof.
  intros Hnone before stale ask. subst before stale ask. cbv beta.
  pose proof (fun fetched =>
                buildMetaForgeDataFromStore_cases nowMs syncIntervalMs fuzzyMatchThreshold
                  clock fetched store Hnone) as Hcases.
  cbv zeta in Hcases.
  split; [|split; [|split; [|split; [|split]]]].
  - intros state Hstate Hnan. rewrite Hstate. cbn [isStale]. by apply leb_minus_nan.
  - intros Hfresh fetched fetched'. unfold buildMetaForgeDataFromStore.
    pose proof (getDb_cases store Hnone) as Hdb.
    destruct (getDb store) as [[[]|error] store1]; [|reflexivity].
    destruct Hdb as (_ & Hc & Ht & _).
    unfold ensureFreshMetaForgeSnapshot, bind.
    pose proof (getSyncState_reads (database store1) Ht) as Hread.
    destruct (getSyncState (database store1)) as [[state|error] db1]; [|reflexivity].
    destruct Hread as (-> & _). rewrite Hc, Hfresh. reflexivity.
  - intros reason. specialize (Hcases (FetchRejected reason)).
    destruct (buildMetaForgeDataFromStore _ _ _ _ _ _) as [[r|error] store']; cbn [snd].
    + destruct Hcases as (_ & _ & _ & [[_ Hsame]|[_ (f & Hf & _)]]);
        [exact Hsame|discriminate].
    + destruct Hcases as [[Hsame|[[_ Hsame]|[_ (f & Hf & _)]]] _];
        [exact Hsame|exact Hsame|discriminate].
  - intros Hstale Hq reason. specialize (Hcases (FetchRejected reason)).
    destruct (buildMetaForgeDataFromStore _ _ _ _ _ _) as [[r|error] store']; cbn [fst].
    + destruct Hcases as (_ & _ & _ & [[Hfresh _]|[_ (f & Hf & _)]]);
        [congruence|discriminate].
    + destruct Hcases as [_ [Hfault|[_ ->]]]; [|reflexivity].
      rewrite Hq in Hfault. by apply is_Some_None in Hfault.
  - intros Hstale fetchResult r store' Hrun.
    specialize (Hcases (FetchFulfilled fetchResult)). rewrite Hrun in Hcases.
    destruct Hcases as (_ & -> & _ & [[Hfresh _]|[_ (f & Hf & Hsynced)]]); [congruence|].
    injection Hf as <-. rewrite Hsynced.
    split; [reflexivity|]. split; [reflexivity|].
    eexists. split; [reflexivity|]. split; reflexivity.
  - intros Hstale Hq fetchResult Hdistinct.
    specialize (Hcases (FetchFulfilled fetchResult)).
    destruct (buildMetaForgeDataFromStore _ _ _ _ _ _) as [[r|error] store']; [eauto|].
    destruct Hcases as [_ [Hfault|[_ Hrepeated]]]; [|by destruct (Hrepeated Hdistinct)].
    rewrite Hq in Hfault. by apply is_Some_None in Hfault.
Qed.

End Refresh.

(** The theorem on an open store synced four seconds ago, with an interval
    of a second and no fault: a rejected fetch is thrown and the tables
    are kept, a fetch of three items is stored and served. *)
Lemma stale_store_is_refreshed_witness :
  let store := storeSyncedAt "1000" None false in
  let ask fetched :=
    buildMetaForgeDataFromStore (P := asciiHost) 5000 1000 0.93 sampleClock fetched store in
  transaction (database store) = None
  /\ (ask (FetchRejected (ReasonError "HTTP 503"))).1 = Thrown "HTTP 503"
  /\ committed (database (ask (FetchRejected (ReasonError "HTTP 503"))).2)
     = committed (database store)
  /\ match ask (FetchFulfilled fetchOfThree) with
     | (Returned r, store') =>
         committed (database store') = syncedTables (H := asciiHost) fetchOfThree
         /\ generatedAt r = sampleClock 0
     | (Thrown _, _) => False
     end.
Proof.
  intros store ask. split; [reflexivity|].
  destruct (stale_store_is_refreshed (P := asciiHost) 5000 1000 0.93 sampleClock store
              eq_refl)
    as (_ & _ & Hkept & Hthrows & Hstored & Hreturns).
  assert (Hstale : isStale (P := asciiHost) 5000 1000
                     (metaforge_sync_state (committed (database store))) = true)
    by (vm_compute; reflexivity).
  split; [exact (Hthrows Hstale eq_refl (ReasonError "HTTP 503"))|].
  split; [exact (Hkept (ReasonError "HTTP 503"))|].
  assert (Hdistinct : NoDup (omap storedId (rawItemsOf fetchOfThree)))
    by (apply (bool_decide_unpack _); vm_compute; exact I).
  destruct (Hreturns Hstale eq_refl fetchOfThree Hdistinct) as (r & store' & Hrun).
  unfold ask. rewrite Hrun.
  destruct (Hstored Hstale fetchOfThree r store' Hrun) as (Hc & Hg & _). by split.
Defined.

(* ----------------------------------------------------------------- *)
(** ** The tables after a sync *)

Lemma omap_length_all {A B} (f : A -> option B) (l : list A) :
  length (omap f l) = length l -> Forall (fun a => is_Some (f a)) l.
Proof.
  induction l as [|a l IH]; [constructor|]. cbn [omap list_omap length].
  destruct (f a) as [b|] eqn:Hb.
  - cbn [length]. intros Hlen. constructor; [by rewrite Hb|]. apply IH. lia.
  - intros Hlen. pose proof (omap_length_le f l). lia.
Qed.

Section SyncedTables.
Context {P : Platform}.

Lemma persistedRows_ids (fetchResult : SourceFetchResult) :
  map row_id (persistedRows fetchResult) = omap storedId (rawItemsOf fetchResult).
Proof.
  unfold persistedRows, storedId.
  induction (rawItemsOf fetchResult) as [|item items IH]; [reflexivity|].
  cbn [omap list_omap].
  destruct (textOrNull (getProp (Some item) "id")) as [id|];
    cbn [fmap option_fmap option_map map]; [|exact IH].
  by rewrite IH.
Qed.

Lemma numberOrUndefined_finite (value : option JsonValue) :
  finiteIfAny (numberOrUndefined value).
Proof. exact (toNumberOrUndefined_finite value). Qed.

Lemma linkOfEntry_link (relation nestedKey id : string) (entry : JsonValue) :
  let link := linkOfEntry relation nestedKey id entry in
  link_item_id link = id /\ link_relation link = relation
  /\ finiteIfAny (link_quantity link) /\ is_Some (link_quantity link)
  /\ trimmedIfAny (link_related_item_id link)
  /\ trimmedIfAny (link_related_name link).
Proof.
  cbn. split; [reflexivity|]. split; [reflexivity|]. split.
  { intros x [= <-]. apply default_finite.
    apply orElse_finite; [apply orElse_finite|]; apply numberOrUndefined_finite. }
  split; [by eexists|].
  split; apply orElse_trimmed; apply textOrNull_trimmed.
Qed.

Lemma linkOfSeller_link (id : string) (entry : JsonValue) :
  let link := linkOfSeller id entry in
  link_item_id link = id /\ link_relation link = "sold_by"
  /\ finiteIfAny (link_quantity link)
  /\ link_related_item_id link = None
  /\ trimmedIfAny (link_related_name link).
Proof.
  cbn. split; [reflexivity|]. split; [reflexivity|].
  split; [apply numberOrUndefined_finite|]. split; [reflexivity|].
  apply orElse_trimmed; apply textOrNull_trimmed.
Qed.

Lemma extractLinks_links (rows : list ItemRow) (id : string) (item : JsonValue) :
  (exists row, row ∈ rows /\ row_id row = id) ->
  Forall (isStoredLink rows) (extractLinks id item).
Proof.
  intros Hrow.
  assert (Hentry : forall relation nestedKey entries,
            relation ∈ linkRelations -> relation <> "sold_by" ->
            Forall (isStoredLink rows) (map (linkOfEntry relation nestedKey id) entries)).
  { intros relation nestedKey entries Hrelation Hother. apply Forall_fmap, Forall_forall.
    intros entry _.
    destruct (linkOfEntry_link relation nestedKey id entry)
      as (Hid & Hrel & Hfinite & Hsome & Hrelated & Hname).
    unfold isStoredLink. cbn [compose]. rewrite Hid, Hrel.
    split; [exact Hrow|]. split; [exact Hrelation|]. split; [exact Hfinite|].
    split; [exact Hrelated|]. split; [exact Hname|].
    destruct (String.eqb_spec relation "sold_by") as [Heq|_]; [done|exact Hsome]. }
  unfold extractLinks. rewrite !Forall_app.
  split; [apply Hentry; [apply (bool_decide_unpack _); vm_compute; exact I|done]|].
  split; [apply Hentry; [apply (bool_decide_unpack _); vm_compute; exact I|done]|].
  split; [apply Hentry; [apply (bool_decide_unpack _); vm_compute; exact I|done]|].
  split; [apply Hentry; [apply (bool_decide_unpack _); vm_compute; exact I|done]|].
  apply Forall_fmap, Forall_forall. intros entry _.
  destruct (linkOfSeller_link id entry) as (Hid & Hrel & Hfinite & Hrelated & Hname).
  unfold isStoredLink. cbn [compose]. rewrite Hid, Hrel, Hrelated.
  split; [exact Hrow|].
  split; [apply (bool_decide_unpack _); vm_compute; exact I|].
  split; [exact Hfinite|]. split; [done|]. split; [exact Hname|reflexivity].
Qed.

Lemma persistedLinks_links (fetchResult : SourceFetchResult) :
  Forall (isStoredLink (persistedRows fetchResult)) (persistedLinks fetchResult).
Proof.
  unfold persistedLinks. apply Forall_flat_map, Forall_forall. intros item Hitem.
  destruct (textOrNull (getProp (Some item) "id")) as [id|] eqn:Hid; [|constructor].
  apply extractLinks_links.
  exists (itemRowOf (fetch_fetchedAt fetchResult) id item). split; [|reflexivity].
  unfold persistedRows. apply list_elem_of_omap. exists item. split; [exact Hitem|].
  by rewrite Hid.
Qed.

(** X25 (server/services/metaforgeStore.ts, persistFetchResult and
    extractLinks): after a sync that returned, the stored ids are pairwise
    different; the item count of the sync state counts every fetched
    object, with or without an id, so it is at least the number of stored
    items and equal to it exactly when every fetched object has an id; and
    every stored link belongs to a stored item, carries one of the five
    relations, trimmed related texts and a finite quantity if any, a
    seller having no related id and every other link a quantity. *)
Theorem synced_tables_are_consistent (fetchResult : SourceFetchResult) (db db' : Db) :
  transaction db = None ->
  persistFetchResult fetchResult db = (Returned tt, db') ->
  let stored := committed db' in
  NoDup (map row_id (metaforge_items stored))
  /\ (exists state,
        metaforge_sync_state stored = Some state
        /\ item_count state = length (rawItemsOf fetchResult)
        /\ length (metaforge_items stored) <= item_count state
        /\ (length (metaforge_items stored) = item_count state
            <-> Forall (fun item => is_Some (storedId item)) (rawItemsOf fetchResult)))
  /\ Forall (isStoredLink (metaforge_items stored)) (metaforge_item_links stored).
Proof.
  intros Hnone Hrun stored.
  pose proof (persistFetchResult_atomicWith fetchResult db Hnone) as Hdone.
  rewrite Hrun in Hdone. destruct Hdone as [_ Hcommitted].
  subst stored. rewrite Hcommitted.
  cbn [metaforge_items metaforge_item_links metaforge_sync_state].
  assert (Hlength : length (persistedRows fetchResult)
                    = length (omap storedId (rawItemsOf fetchResult)))
    by (by rewrite <- persistedRows_ids, length_map).
  split; [|split].
  - rewrite persistedRows_ids.
    apply (resyncEffect_distinct fetchResult (committed db)).
    apply persistFetchResult_returned_effect; [exact Hnone|by rewrite Hrun].
  - exists (persistedState fetchResult). split; [reflexivity|]. split; [reflexivity|].
    cbn [persistedState item_count]. rewrite Hlength. split; [apply omap_length_le|].
    split; [apply omap_length_all|apply omap_length_total].
  - apply persistedLinks_links.
Qed.

End SyncedTables.

(** The theorem on a fetch of an item with two links and of an object
    without an id: one item is stored, the count says two, and both links
    belong to the stored item. *)
Lemma synced_tables_are_consistent_witness :
  let db := storeWithSnapshot None false in
  let run := persistFetchResult (P := asciiHost) fetchWithLinks db in
  transaction db = None
  /\ run.1 = Returned tt
  /\ map row_id (metaforge_items (committed run.2)) = ["gun"]
  /\ (item_count <$> metaforge_sync_state (committed run.2)) = Some 2
  /\ map link_relation (metaforge_item_links (committed run.2)) = ["components"; "sold_by"]
  /\ Forall (isStoredLink (metaforge_items (committed run.2)))
            (metaforge_item_links (committed run.2)).
Proof.
  intros db run. split; [reflexivity|]. split; [vm_compute; reflexivity|].
  split; [vm_compute; reflexivity|]. split; [vm_compute; reflexivity|].
  split; [vm_compute; reflexivity|].
  assert (Hrun : persistFetchResult (P := asciiHost) fetchWithLinks db = (Returned tt, run.2))
    by (vm_compute; reflexivity).
  destruct (synced_tables_are_consistent (P := asciiHost) fetchWithLinks db run.2 eq_refl Hrun)
    as (_ & _ & Hlinks).
  exact Hlinks.
Defined.

(* ----------------------------------------------------------------- *)
(** ** Recipes listed in another order *)

Lemma sorted_unique {A} (R : A -> A -> Prop) (l : list A) : forall l',
  (forall x y, x ∈ l -> y ∈ l -> R x y -> R y x -> x = y) ->
  StronglySorted R l -> StronglySorted R l' -> l ≡ₚ l' -> l = l'.
Proof.
  induction l as [|x l IH]; intros l' Htied Hsorted Hsorted' Hperm.
  - apply Permutation_nil_l in Hperm. by subst l'.
  - destruct l' as [|x' l']; [by apply Permutation_nil_r in Hperm|].
    apply StronglySorted_inv in Hsorted as [Hsorted Hall].
    apply StronglySorted_inv in Hsorted' as [Hsorted' Hall'].
    assert (Hhead : x = x').
    { assert (Hx : x ∈ x' :: l') by (rewrite <- Hperm; left).
      assert (Hx' : x' ∈ x :: l) by (rewrite Hperm; left).
      apply elem_of_cons in Hx as [Hx|Hx]; [exact Hx|].
      apply elem_of_cons in Hx' as [Hx'|Hx']; [by symmetry|].
      apply Htied; [left|by right| |].
      - apply (proj1 (List.Forall_forall _ _) Hall). by apply list_elem_of_In.
      - apply (proj1 (List.Forall_forall _ _) Hall'). by apply list_elem_of_In. }
    subst x'. f_equal. apply IH; [|exact Hsorted|exact Hsorted'|].
    + intros a b Ha Hb. apply Htied; by right.
    + by apply Permutation_cons_inv in Hperm.
Qed.

Lemma remove_dups_constant {K} `{EqDecision K} (k : K) (l : list K) :
  (forall x, x ∈ l -> x = k) -> length (remove_dups l) <= 1.
Proof.
  induction l as [|x l IH]; intros Hall; [cbn; lia|].
  cbn [remove_dups]. destruct (decide_rel elem_of x l) as [Hin|Hnew].
  - apply IH. intros y Hy. apply Hall. by right.
  - destruct l as [|y l]; [cbn; lia|]. exfalso. apply Hnew.
    rewrite (Hall x) by left. rewrite <- (Hall y) by (right; left). left.
Qed.

(** Values that all normalize to the same thing do not differ. *)
Lemma differsByValues_constant {T U K : Type} `{EqDecision K}
    (values : list (option T)) (normalizer : option T -> option U) (stringify : U -> K)
    (c : option U) :
  (forall v, v ∈ values -> normalizer v = c) ->
  differsByValues values normalizer stringify = false.
Proof.
  intros Hconstant. unfold differsByValues.
  assert (Hnormalized : map normalizer values = replicate (length values) c).
  { induction values as [|v values IH]; [reflexivity|].
    cbn [map length replicate]. rewrite (Hconstant v) by left.
    f_equal. apply IH. intros w Hw. apply Hconstant. by right. }
  rewrite Hnormalized. destruct c as [u|].
  - assert (Hdefined : omap id (replicate (length values) (Some u))
                       = replicate (length values) u).
    { clear. induction (length values) as [|n IH]; [reflexivity|].
      cbn [replicate omap list_omap id]. by rewrite IH. }
    rewrite Hdefined, !length_replicate.
    destruct (length values =? 0) eqn:Hempty; [reflexivity|].
    pose proof (remove_dups_constant (stringify u)
                  (map stringify (replicate (length values) u))) as Hunique.
    destruct (Nat.ltb_spec 1 (length (remove_dups
                (map stringify (replicate (length values) u))))) as [Hmany|_].
    + exfalso. enough (length (remove_dups
                (map stringify (replicate (length values) u))) <= 1) by lia.
      apply Hunique. intros x Hx.
      apply list_elem_of_fmap in Hx as (y & -> & Hy).
      by apply elem_of_replicate in Hy as [-> _].
    + by rewrite Nat.eqb_refl.
  - assert (Hdefined : omap id (replicate (length values) (@None U)) = []).
    { clear. induction (length values) as [|n IH]; [reflexivity|]. exact IH. }
    by rewrite Hdefined.
Qed.

Section RecipeOrder.
Context `{C : ConsistentCollation}.

Lemma compareParts_flip (a b : RecipePart) :
  (0 < compareParts a b)%Z -> (compareParts b a < 0)%Z.
Proof. apply localeCompare_flip. Qed.

Lemma compareParts_trans (a b c : RecipePart) :
  (compareParts a b <= 0)%Z -> (compareParts b c <= 0)%Z -> (compareParts a c <= 0)%Z.
Proof. apply localeCompare_trans. Qed.

Lemma renderParts_perm (l l' : list RecipePart) :
  untied (Some l) -> l ≡ₚ l' -> renderParts l = renderParts l'.
Proof.
  intros Huntied Hperm. unfold renderParts. do 2 f_equal.
  apply (sorted_unique (mayPrecede compareParts)).
  - intros x y Hx Hy. apply (Huntied l); [reflexivity| |].
    + by rewrite <- (arraySort_perm compareParts l).
    + by rewrite <- (arraySort_perm compareParts l).
  - apply arraySort_strongly_sorted; [apply compareParts_flip|apply compareParts_trans].
  - apply arraySort_strongly_sorted; [apply compareParts_flip|apply compareParts_trans].
  - by rewrite !(arraySort_perm compareParts).
Qed.

Lemma renderedParts_same (a b : option (list RecipePart)) :
  untied a -> sameParts a b -> renderParts <$> a = renderParts <$> b.
Proof.
  destruct a as [l|], b as [l'|]; cbn; try done.
  intros Huntied Hperm. f_equal. by apply renderParts_perm.
Qed.

Lemma recipeSignature_same (a b : SourceItem) :
  untied (item_inputs a) -> untied (item_outputs a) ->
  sameParts (item_inputs a) (item_inputs b) ->
  sameParts (item_outputs a) (item_outputs b) ->
  recipeSignature (Some a) = recipeSignature (Some b).
Proof.
  intros Hin Hout Hinputs Houtputs. unfold recipeSignature.
  by rewrite (renderedParts_same _ _ Hin Hinputs), (renderedParts_same _ _ Hout Houtputs).
Qed.

(** X26 (server/services/matchAndDiff.ts, recipeSignature and
    buildDiffReport): when the records of a canonical item under the
    listed providers all hold the same input parts and the same output
    parts, in whatever order each lists them, and no two different parts
    are tied in the order the parts are sorted by, the records have the
    same recipe signature and the report does not flag the recipe. *)
Theorem recipeDiffers_ignores_order (item : CanonicalItem) (sources : list SourceId)
    (model : SourceItem) :
  untied (item_inputs model) -> untied (item_outputs model) ->
  (forall sourceId record,
     sourceId ∈ sources -> bySource item !! sourceId = Some record ->
     sameParts (item_inputs model) (item_inputs record)
     /\ sameParts (item_outputs model) (item_outputs record)) ->
  recipeDiffers (buildDiffReport item sources) = false
  /\ forall sourceId record,
       sourceId ∈ sources -> bySource item !! sourceId = Some record ->
       recipeSignature (Some record) = recipeSignature (Some model).
Proof.
  intros Hin Hout Hsame.
  assert (Hsignature : forall sourceId record,
            sourceId ∈ sources -> bySource item !! sourceId = Some record ->
            recipeSignature (Some record) = recipeSignature (Some model)).
  { intros sourceId record Hlisted Hrecord.
    destruct (Hsame sourceId record Hlisted Hrecord) as [Hinputs Houtputs].
    symmetry. by apply recipeSignature_same. }
  split; [|exact Hsignature].
  unfold buildDiffReport. cbn [recipeDiffers].
  apply (differsByValues_constant _ _ _
           (if isEmptyString (recipeSignature (Some model)) then None
            else Some (recipeSignature (Some model)))).
  intros v Hv. apply list_elem_of_fmap in Hv as (sourceId & -> & Hpresent).
  apply list_elem_of_filter in Hpresent as [[record Hrecord] Hlisted].
  by rewrite Hrecord, (Hsignature sourceId record Hlisted Hrecord).
Qed.

End RecipeOrder.

(** The theorem on an item that two providers list with the same two
    ingredients in opposite orders: the recipe is not flagged. *)
Lemma recipeDiffers_ignores_order_witness :
  let model := itemWithInputs ardb "wire" "glass" in
  untied (H := asciiHost) (item_inputs model)
  /\ untied (H := asciiHost) (item_outputs model)
  /\ recipeDiffers (buildDiffReport (P := asciiHost) lampItem [ardb; metaforge]) = false
  /\ recipeSignature (P := asciiHost) (Some model) = "in[glass:2|wire:1]out[]".
Proof.
  intros model.
  assert (Hin : untied (H := asciiHost) (item_inputs model)).
  { intros l x y [= <-] Hx Hy Hxy Hyx.
    apply elem_of_cons in Hx as [->|Hx]; apply elem_of_cons in Hy as [->|Hy];
      repeat match goal with
             | H : _ ∈ [_] |- _ => apply list_elem_of_singleton in H; subst
             end; try reflexivity; exfalso; vm_compute in Hxy, Hyx; congruence. }
  assert (Hout : untied (H := asciiHost) (item_outputs model)) by (by intros l x y).
  split; [exact Hin|]. split; [exact Hout|]. split; [|vm_compute; reflexivity].
  apply (@recipeDiffers_ignores_order asciiHost asciiHost_consistent
           lampItem [ardb; metaforge] model Hin Hout).
  intros sourceId record Hlisted Hrecord.
  apply elem_of_cons in Hlisted as [->|Hlisted];
    [|apply list_elem_of_singleton in Hlisted as ->].
  - vm_compute in Hrecord. injection Hrecord as <-.
    split; [apply Permutation_refl|exact I].
  - vm_compute in Hrecord. injection Hrecord as <-. split; [apply perm_swap|exact I].
Defined.

(* ----------------------------------------------------------------- *)
(** ** Configuration values *)

Section ConfigValues.
Context {P : Platform}.

(** X27 (server/config.ts, asNumber and asBoolean): a number read from
    the environment is the fallback or the finite number the text stands
    for, so it is finite whenever the fallback is. A flag depends on its
    text only through the trimmed, lower-case form of the text: it is true
    or false for the eight words the function knows, in any letter case
    and with any white space around them, and the fallback for every
    other text. *)
Theorem config_values_are_read_leniently (fallbackNumber : float) (fallbackFlag : bool) :
  (forall value,
     isFinite fallbackNumber = true -> isFinite (asNumber value fallbackNumber) = true)
  /\ (forall text,
        asBoolean (Some text) fallbackFlag
        = asBoolean (Some (toLowerCase (trim text))) fallbackFlag)
  /\ (forall text,
        toLowerCase (trim text) ∈ ["1"; "true"; "yes"; "on"] ->
        asBoolean (Some text) fallbackFlag = true)
  /\ (forall text,
        toLowerCase (trim text) ∈ ["0"; "false"; "no"; "off"] ->
        asBoolean (Some text) fallbackFlag = false)
  /\ (forall text,
        toLowerCase (trim text) ∉ ["1"; "true"; "yes"; "on"; "0"; "false"; "no"; "off"] ->
        asBoolean (Some text) fallbackFlag = fallbackFlag).
Proof.
  assert (Hwords : forall text,
            text <> "" ->
            asBoolean (Some text) fallbackFlag
            = if bool_decide (toLowerCase (trim text) ∈ ["1"; "true"; "yes"; "on"]) then true
              else if bool_decide (toLowerCase (trim text) ∈ ["0"; "false"; "no"; "off"])
                   then false else fallbackFlag).
  { intros text Hfull. unfold asBoolean. by destruct text. }
  split; [|split; [|split; [|split]]].
  - intros value Hfinite. unfold asNumber. destruct value as [text|]; [|exact Hfinite].
    destruct (isEmptyString text); [exact Hfinite|].
    by destruct (isFinite (stringToNumber text)) eqn:Hparsed.
  - intros text. destruct (decide (text = "")) as [->|Hfull]; [reflexivity|].
    rewrite (Hwords text Hfull).
    destruct (decide (toLowerCase (trim text) = "")) as [Hblank|Hword].
    + rewrite Hblank. reflexivity.
    + rewrite (Hwords _ Hword).
      by rewrite trim_toLowerCase, trim_idem, toLowerCase_idem.
  - intros text Hword.
    assert (Hfull : text <> "").
    { intros ->. change (toLowerCase (trim "")) with "" in Hword.
      repeat (apply elem_of_cons in Hword as [Hword|Hword]; [discriminate|]).
      by apply elem_of_nil in Hword. }
    rewrite (Hwords text Hfull). by rewrite bool_decide_eq_true_2.
  - intros text Hword.
    assert (Hfull : text <> "").
    { intros ->. change (toLowerCase (trim "")) with "" in Hword.
      repeat (apply elem_of_cons in Hword as [Hword|Hword]; [discriminate|]).
      by apply elem_of_nil in Hword. }
    rewrite (Hwords text Hfull).
    rewrite bool_decide_eq_false_2; [by rewrite bool_decide_eq_true_2|].
    intros Htrue. clear -Hword Htrue.
    repeat (apply elem_of_cons in Hword as [Hword|Hword];
            [rewrite Hword in Htrue;
             by repeat (apply elem_of_cons in Htrue as [Htrue|Htrue]; [discriminate|]);
                apply elem_of_nil in Htrue|]).
    by apply elem_of_nil in Hword.
  - intros text Hother.
    destruct (decide (text = "")) as [->|Hfull]; [reflexivity|].
    rewrite (Hwords text Hfull).
    rewrite bool_decide_eq_false_2, bool_decide_eq_false_2; [reflexivity| |].
    + intros Hword. apply Hother. do 4 right. exact Hword.
    + intros Hword. apply Hother.
      repeat (apply elem_of_cons in Hword as [->|Hword];
              [apply (bool_decide_unpack _); vm_compute; exact I|]).
      by apply elem_of_nil in Hword.
Qed.

End ConfigValues.
